(** * FastMath: single-precision approximations of the elementary functions

    A shallow embedding of [fast_math.cpp] over IEEE-754 arithmetic.

    The C++ type [float] is modelled by the binary32 instance of the
    Standard Library's [spec_float] (24-bit significand, round to nearest,
    ties to even), [double] by the binary64 instance, and [int] by [Z]
    with the 32-bit range written out.  Every arithmetic operation of the
    source rounds once to the format of its operands, in the order in which
    the source writes it (strict evaluation: no extended intermediate
    precision and no fused multiply-add).  NaN is a single value: payloads
    and the sign of a NaN are not distinguished, and the bit pattern read
    from a NaN through a union is the quiet NaN [0x7FC00000].

    Two effects of the source are made explicit by the monad [res]:
    - a [while] loop is run with fuel, and [Diverge] is the answer of a loop
      that is still running when the fuel is spent;
    - a conversion of a [float] to [int] whose value does not fit (or is a
      NaN) is undefined behaviour in C++, and is [Undef] here. *)

From Stdlib Require Import ZArith Bool Lia List QArith Qpower Lqa Qround.
From Stdlib Require Import Floats.SpecFloat.

Local Open Scope Z_scope.

(** ** Outcomes of a call *)

Inductive res (A : Type) : Type :=
| Val (a : A)
| Undef
| Diverge.

Arguments Val {A} a.
Arguments Undef {A}.
Arguments Diverge {A}.

Definition bind {A B : Type} (c : res A) (k : A -> res B) : res B :=
  match c with
  | Val a => k a
  | Undef => Undef
  | Diverge => Diverge
  end.

Definition res_map {A B : Type} (f : A -> B) (c : res A) : res B :=
  bind c (fun a => Val (f a)).

Notation "x <- c ;; k" := (bind c (fun x => k))
  (at level 61, c at next level, right associativity).

(** ** The two floating-point formats *)

Module Format.

(** [of_ratio prec emax s n d] is the float of the format nearest to
    [n / d] (ties to even) with sign [s]: the value a compiler gives to a
    decimal literal. *)
Definition of_ratio (prec emax : Z) (s : bool) (n d : Z) : spec_float :=
  if n =? 0 then S754_zero s else
  let k := Z.max 0 (prec + 2 + Z.log2 d - Z.log2 n) in
  let q := (n * 2 ^ k) / d in
  let r := (n * 2 ^ k) mod d in
  binary_round_aux prec emax s q (- k)
    (if r =? 0 then loc_Exact else loc_Inexact (Z.compare (2 * r) d)).

Definition of_Q (prec emax : Z) (q : Q) : spec_float :=
  of_ratio prec emax (Qnum q <? 0) (Z.abs (Qnum q)) (Zpos (Qden q)).

(** Rounding of a value of one format to the other one (exact when the
    target is wider). *)
Definition convert (prec emax : Z) (x : spec_float) : spec_float :=
  match x with
  | S754_finite s m e => binary_round prec emax s m e
  | _ => x
  end.

(** The rational number a float stands for (0 for infinities and NaN). *)
Definition to_Q (x : spec_float) : Q :=
  match x with
  | S754_finite s m e => inject_Z (cond_Zopp s (Zpos m)) * 2 ^ e
  | _ => 0
  end%Q.

Definition is_finite (x : spec_float) : bool :=
  match x with
  | S754_zero _ | S754_finite _ _ _ => true
  | _ => false
  end.

Definition is_nan (x : spec_float) : bool :=
  match x with
  | S754_nan => true
  | _ => false
  end.

End Format.

(** *** binary32: the C++ [float] *)

Definition float := spec_float.

Module F32.
Definition prec := 24.
Definition emax := 128.

Definition add : float -> float -> float := SFadd prec emax.
Definition sub : float -> float -> float := SFsub prec emax.
Definition mul : float -> float -> float := SFmul prec emax.
Definition div : float -> float -> float := SFdiv prec emax.
Definition opp : float -> float := SFopp.
Definition abs : float -> float := SFabs.
Definition ltb : float -> float -> bool := SFltb.
Definition leb : float -> float -> bool := SFleb.
Definition eqb : float -> float -> bool := SFeqb.
Definition valid (x : float) : bool := valid_binary prec emax x.

(** A literal with the suffix [f]. *)
Definition lit (q : Q) : float := Format.of_Q prec emax q.

(** [static_cast<float>(n)] for an [int] n. *)
Definition of_int (n : Z) : float := binary_normalize prec emax n 0 false.
End F32.

(** *** binary64: the C++ [double] *)

Definition double := spec_float.

Module F64.
Definition prec := 53.
Definition emax := 1024.

Definition add : double -> double -> double := SFadd prec emax.
Definition sub : double -> double -> double := SFsub prec emax.
Definition mul : double -> double -> double := SFmul prec emax.
Definition div : double -> double -> double := SFdiv prec emax.
Definition opp : double -> double := SFopp.
Definition valid (x : double) : bool := valid_binary prec emax x.

(** A literal without suffix. *)
Definition lit (q : Q) : double := Format.of_Q prec emax q.
End F64.

(** The implicit promotion of a [float] operand and the conversion of a
    [double] to [float] (on assignment, [return] and [float(...)]). *)
Definition f2d (x : float) : double := Format.convert F64.prec F64.emax x.
Definition d2f (x : double) : float := Format.convert F32.prec F32.emax x.

Declare Scope f32_scope.
Delimit Scope f32_scope with f32.
Infix "+" := F32.add : f32_scope.
Infix "-" := F32.sub : f32_scope.
Infix "*" := F32.mul : f32_scope.
Infix "/" := F32.div : f32_scope.
Notation "- x" := (F32.opp x) : f32_scope.
Infix "<?" := F32.ltb : f32_scope.
Infix "<=?" := F32.leb : f32_scope.
Infix "=?" := F32.eqb : f32_scope.
Notation "x >? y" := (F32.ltb y x) (only parsing) : f32_scope.
Notation "x >=? y" := (F32.leb y x) (only parsing) : f32_scope.

Declare Scope f64_scope.
Delimit Scope f64_scope with f64.
Infix "+" := F64.add : f64_scope.
Infix "-" := F64.sub : f64_scope.
Infix "*" := F64.mul : f64_scope.
Infix "/" := F64.div : f64_scope.
Notation "- x" := (F64.opp x) : f64_scope.

(** ** The type [int] and the conversions between [int] and [float] *)

Module Int.
Definition min_signed := - 2 ^ 31.
Definition max_signed := 2 ^ 31 - 1.

Definition in_range (z : Z) : bool := (min_signed <=? z) && (z <=? max_signed).

(** The value of a 32-bit pattern read as a two's complement [int]. *)
Definition signed (z : Z) : Z :=
  let u := z mod 2 ^ 32 in
  if u <? 2 ^ 31 then u else u - 2 ^ 32.

(** [std::abs] on [int]: undefined on the most negative value. *)
Definition abs (z : Z) : res Z :=
  if z =? min_signed then Undef else Val (Z.abs z).
End Int.

(** Truncation toward zero of a finite float. *)
Definition trunc (x : float) : option Z :=
  match x with
  | S754_zero _ => Some 0
  | S754_finite s m e =>
      Some (cond_Zopp s (if 0 <=? e then Z.shiftl (Zpos m) e
                         else Z.shiftr (Zpos m) (- e)))
  | _ => None
  end.

(** [static_cast<int>(x)]: defined when the truncated value fits in [int]. *)
Definition to_int (x : float) : res Z :=
  match trunc x with
  | Some z => if Int.in_range z then Val z else Undef
  | None => Undef
  end.

(** ** Reading a [float] as an [int] and back (the unions of the source) *)

Definition bits_of_float (x : float) : Z :=
  match x with
  | S754_zero s => if s then Int.min_signed else 0
  | S754_infinity s => Int.signed ((if s then 2 ^ 31 else 0) + 0x7F800000)
  | S754_nan => 0x7FC00000
  | S754_finite s m e =>
      Int.signed ((if s then 2 ^ 31 else 0) +
                  (if Zpos m <? 2 ^ 23 then Zpos m
                   else Z.shiftl (e + 150) 23 + (Zpos m - 2 ^ 23)))
  end.

Definition float_of_bits (i : Z) : float :=
  let u := i mod 2 ^ 32 in
  let s := Z.testbit u 31 in
  let ebits := Z.land (Z.shiftr u 23) 0xFF in
  let mant := Z.land u 0x7FFFFF in
  if ebits =? 0 then
    match mant with
    | Zpos m => S754_finite s m (- 149)
    | _ => S754_zero s
    end
  else if ebits =? 255 then
    (if mant =? 0 then S754_infinity s else S754_nan)
  else
    match mant + 2 ^ 23 with
    | Zpos m => S754_finite s m (ebits - 150)
    | _ => S754_nan
    end.

Arguments F32.lit q%_Q.
Arguments F64.lit q%_Q.

(** ** The C library functions the source calls *)

(** [M_PI] of [<cmath>]. *)
Definition M_PI : double := F64.lit 3.14159265358979323846.

(** [std::fmod] on [float]: the exact remainder of the division truncated
    toward zero; it has the sign of the dividend. *)
Definition std_fmod (x y : float) : float :=
  match x, y with
  | S754_nan, _ | _, S754_nan => S754_nan
  | S754_infinity _, _ => S754_nan
  | _, S754_zero _ => S754_nan
  | _, S754_infinity _ => x
  | S754_zero _, _ => x
  | S754_finite sx mx ex, S754_finite _ my ey =>
      let e := Z.min ex ey in
      let r := Z.rem (Z.shiftl (Zpos mx) (ex - e)) (Z.shiftl (Zpos my) (ey - e)) in
      binary_normalize F32.prec F32.emax (cond_Zopp sx r) e sx
  end.

(** ** The library *)

Module FastMath.

Local Notation "# q" := (F32.lit q) (at level 1, q constr at level 0, format "# q").
Local Abbreviation fabs := F32.abs.

(** *** Trigonometric core *)

(** The constants that [sin] and [cos] declare. *)
Definition pi : float := d2f (F64.lit 3.14159265358979323846264338327950288).
Definition half_pi : float := (pi / d2f (F64.lit 2.0))%f32.
Definition two_pi : float := (d2f (F64.lit 2.0) * pi)%f32.
Definition B : float := (d2f (F64.lit 4.0) / pi)%f32.
Definition C : float := (d2f (F64.lit 4.0) / (pi * pi))%f32.
Definition zero : float := d2f (F64.lit 0.0).
Definition P : float := d2f (F64.lit 0.225).

(** [while (theta < -pi) theta += two_pi;] *)
Fixpoint add_two_pi_while_below (fuel : nat) (theta : float) : res float :=
  match fuel with
  | O => Diverge
  | S fuel' =>
      if (theta <? - pi)%f32
      then add_two_pi_while_below fuel' (theta + two_pi)%f32
      else Val theta
  end.

(** [while (theta > pi) theta -= two_pi;] *)
Fixpoint sub_two_pi_while_above (fuel : nat) (theta : float) : res float :=
  match fuel with
  | O => Diverge
  | S fuel' =>
      if (theta >? pi)%f32
      then sub_two_pi_while_above fuel' (theta - two_pi)%f32
      else Val theta
  end.

Definition sin (fuel : nat) (theta : float) : res float :=
  theta <- add_two_pi_while_below fuel theta ;;
  theta <- sub_two_pi_while_above fuel theta ;;
  Val (if (theta <? zero)%f32 then
         let sin := (theta * B + C * theta * theta)%f32 in
         if (sin <? zero)%f32
         then (P * (sin * - sin - sin) + sin)%f32
         else (P * (sin * sin - sin) + sin)%f32
       else
         let sin := (theta * B - C * theta * theta)%f32 in
         if (sin <? zero)%f32
         then (P * (sin * - sin - sin) + sin)%f32
         else (P * (sin * sin - sin) + sin)%f32).

Definition cos (fuel : nat) (theta : float) : res float :=
  theta <- add_two_pi_while_below fuel theta ;;
  theta <- sub_two_pi_while_above fuel theta ;;
  let theta := (theta + half_pi)%f32 in
  let theta := if (theta >? pi)%f32 then (theta - two_pi)%f32 else theta in
  Val (if (theta <? zero)%f32 then
         let cos := (theta * B + C * theta * theta)%f32 in
         if (cos <? zero)%f32
         then (P * (cos * - cos - cos) + cos)%f32
         else (P * (cos * cos - cos) + cos)%f32
       else
         let cos := (theta * B - C * theta * theta)%f32 in
         if (cos <? zero)%f32
         then (P * (cos * - cos - cos) + cos)%f32
         else (P * (cos * cos - cos) + cos)%f32).

Definition sqrt (number : float) : float :=
  if (number <=? #0.0)%f32 then #0.0 else
  let i := bits_of_float number in
  let i := 0x1FBD1DF5 + Z.shiftr i 1 in
  let x := float_of_bits i in
  let x := (#0.5 * (x + number / x))%f32 in
  let x := (#0.5 * (x + number / x))%f32 in
  x.

Definition tan (fuel : nat) (theta : float) : res float :=
  sin_val <- sin fuel theta ;;
  cos_val <- cos fuel theta ;;
  if (fabs cos_val <? #1e-7)%f32
  then Val (if (cos_val >=? #0.0)%f32 then #1e7 else (- #1e7)%f32)
  else Val (sin_val / cos_val)%f32.

(** The body of the loop of [asin], run [n] times unless it breaks. *)
Fixpoint asin_newton (fuel n : nat) (x y : float) : res float :=
  match n with
  | O => Val y
  | S n' =>
      sin_y <- sin fuel y ;;
      cos_y <- cos fuel y ;;
      if (fabs cos_y <? #1e-7)%f32 then Val y
      else asin_newton fuel n' x (y - (sin_y - x) / cos_y)%f32
  end.

Definition asin (fuel : nat) (x : float) : res float :=
  if (x >=? #1.0)%f32 then Val (d2f (M_PI / f2d #2.0)%f64) else
  if (x <=? - #1.0)%f32 then Val (d2f (- M_PI / f2d #2.0)%f64) else
  if (fabs x <? #1e-7)%f32 then Val #0.0 else
  let y := d2f (f2d x * (M_PI / f2d #2.0))%f64 in
  asin_newton fuel 3 x y.

Definition acos (fuel : nat) (x : float) : res float :=
  a <- asin fuel x ;;
  Val (d2f (M_PI / f2d #2.0 - f2d a)%f64).


(** *** Exponential and logarithmic core *)

Definition exp (x : float) : res float :=
  if (x >? #88.0)%f32 then Val #1e38 else
  if (x <? - #87.0)%f32 then Val #0.0 else
  let inv_ln2 := #1.44269504088896341 in
  let fx := (x * inv_ln2)%f32 in
  n <- to_int (fx + (if (fx >=? #0.0)%f32 then #0.5 else - #0.5))%f32 ;;
  let r := (fx - F32.of_int n)%f32 in
  let ln2 := #0.69314718055994531 in
  let r := (r * ln2)%f32 in
  let r2 := (r * r)%f32 in
  let poly :=
    (#1.0 + r + #0.5 * r2 +
     r2 * r * (#1.0 / #6.0 + r * (#1.0 / #24.0 + r * (#1.0 / #120.0))))%f32 in
  let i := Z.shiftl (n + 127) 23 in
  Val (poly * float_of_bits i)%f32.

Definition log (x : float) : float :=
  if (x <=? #0.0)%f32 then (- #1e38)%f32 else
  if (x =? #1.0)%f32 then #0.0 else
  let i := bits_of_float x in
  let exponent := Z.land (Z.shiftr i 23) 0xFF - 127 in
  let i := Z.lor (Z.land i 0x007FFFFF) 0x3F800000 in
  let mantissa := float_of_bits i in
  let t := ((mantissa - #1.0) / (mantissa + #1.0))%f32 in
  let t2 := (t * t)%f32 in
  let poly :=
    (t * (#2.0 + t2 * (#2.0 / #3.0 + t2 * (#2.0 / #5.0 +
          t2 * (#2.0 / #7.0 + t2 * #2.0 / #9.0)))))%f32 in
  let ln2 := #0.69314718055994531 in
  (F32.of_int exponent * ln2 + poly)%f32.

Definition log10 (x : float) : float :=
  let inv_ln10 := #0.43429448190325176 in
  (log x * inv_ln10)%f32.

Definition log2 (x : float) : float :=
  let inv_ln2 := #1.44269504088896341 in
  (log x * inv_ln2)%f32.

(** The loop of the binary exponentiation, [while (abs_exp > 0)], by
    recursion on the bits of [abs_exp]: the lowest bit is [abs_exp & 1]
    and the rest is [abs_exp >> 1]. *)
Fixpoint pow_loop (abs_exp : positive) (result current_base : float) : float :=
  match abs_exp with
  | xH => (result * current_base)%f32
  | xO abs_exp' => pow_loop abs_exp' result (current_base * current_base)%f32
  | xI abs_exp' =>
      pow_loop abs_exp' (result * current_base)%f32
               (current_base * current_base)%f32
  end.

Definition pow (base exponent : float) : res float :=
  if (exponent =? #0.0)%f32 then Val #1.0 else
  if (exponent =? #1.0)%f32 then Val base else
  if (base =? #0.0)%f32 then
    Val (if (exponent >? #0.0)%f32 then #0.0 else #1e38) else
  if (base =? #1.0)%f32 then Val #1.0 else
  if (exponent =? #2.0)%f32 then Val (base * base)%f32 else
  if (exponent =? #3.0)%f32 then Val (base * base * base)%f32 else
  if (exponent =? #4.0)%f32 then
    let b2 := (base * base)%f32 in Val (b2 * b2)%f32 else
  if (exponent =? #0.5)%f32 then Val (sqrt base) else
  if (exponent =? - #1.0)%f32 then Val (#1.0 / base)%f32 else
  if (exponent =? - #2.0)%f32 then Val (#1.0 / (base * base))%f32 else
  int_exp <- to_int exponent ;;
  small_integer <-
    (if (exponent =? F32.of_int int_exp)%f32
     then a <- Int.abs int_exp ;; Val (a <=? 32)
     else Val false) ;;
  if small_integer then
    let odd := negb (Z.land int_exp 1 =? 0) in
    let negative_result := (base <? #0.0)%f32 && odd in
    let base := if (base <? #0.0)%f32 then (- base)%f32 else base in
    let result :=
      match Z.abs int_exp with
      | Zpos abs_exp => pow_loop abs_exp #1.0 base
      | _ => #1.0
      end in
    let result := if int_exp <? 0 then (#1.0 / result)%f32 else result in
    Val (if negative_result then (- result)%f32 else result)
  else
  if (base <? #0.0)%f32 then Val #0.0 else
  exp (exponent * log base)%f32.

(** *** Utility core *)

Definition fmod (dividend divisor : float) : res float :=
  if (divisor =? #0.0)%f32 then Val #0.0 else
  if (fabs dividend <? fabs divisor)%f32 then Val dividend else
  let max_safe_value := #25.0 in
  if (fabs dividend >? max_safe_value)%f32 || (fabs divisor >? max_safe_value)%f32
  then Val (std_fmod dividend divisor) else
  let quotient := (dividend / divisor)%f32 in
  if (fabs quotient >? max_safe_value)%f32
  then Val (std_fmod dividend divisor) else
  int_quotient <- to_int quotient ;;
  let truncated_quotient := F32.of_int int_quotient in
  Val (dividend - truncated_quotient * divisor)%f32.

Definition ceil (x : float) : res float :=
  if (x >=? #0.0)%f32 then
    int_x <- to_int x ;;
    Val (if (x >? F32.of_int int_x)%f32 then F32.of_int (int_x + 1)
         else F32.of_int int_x)
  else
    int_x <- to_int x ;;
    Val (F32.of_int int_x).

Definition floor (x : float) : res float :=
  if (x >=? #0.0)%f32 then
    int_x <- to_int x ;;
    Val (F32.of_int int_x)
  else
    int_x <- to_int x ;;
    Val (if (x <? F32.of_int int_x)%f32 then F32.of_int (int_x - 1)
         else F32.of_int int_x).

Definition round (x : float) : res float :=
  if (x >=? #0.0)%f32 then floor (x + #0.5)%f32
  else ceil (x - #0.5)%f32.

(** *** Hyperbolic core *)

Definition sinh (x : float) : res float :=
  if (fabs x <? #0.5)%f32 then
    let x2 := (x * x)%f32 in
    Val (x * (#1.0 + x2 * (#1.0 / #6.0 + x2 * (#1.0 / #120.0 + x2 / #5040.0))))%f32
  else
  let negative := (x <? #0.0)%f32 in
  let x := if negative then (- x)%f32 else x in
  exp_x <- exp x ;;
  let exp_neg_x := (#1.0 / exp_x)%f32 in
  let result := (#0.5 * (exp_x - exp_neg_x))%f32 in
  Val (if negative then (- result)%f32 else result).

Definition cosh (x : float) : res float :=
  if (fabs x <? #0.5)%f32 then
    let x2 := (x * x)%f32 in
    Val (#1.0 + x2 * (#0.5 + x2 * (#1.0 / #24.0 +
               x2 * (#1.0 / #720.0 + x2 / #40320.0))))%f32
  else
  let x := fabs x in
  exp_x <- exp x ;;
  let exp_neg_x := (#1.0 / exp_x)%f32 in
  Val (#0.5 * (exp_x + exp_neg_x))%f32.

Definition tanh (x : float) : res float :=
  if (x >? #5.0)%f32 then Val #1.0 else
  if (x <? - #5.0)%f32 then Val (- #1.0)%f32 else
  if (fabs x <? #0.5)%f32 then
    let x2 := (x * x)%f32 in
    Val (x * (#1.0 - x2 * (#1.0 / #3.0 - x2 * (#2.0 / #15.0 -
               x2 * #17.0 / #315.0))))%f32
  else
  exp_2x <- exp (#2.0 * x)%f32 ;;
  Val ((exp_2x - #1.0) / (exp_2x + #1.0))%f32.

Definition asinh (x : float) : float :=
  if (fabs x <? #0.5)%f32 then
    let x2 := (x * x)%f32 in
    (x * (#1.0 - x2 * (#1.0 / #6.0 - x2 * (#3.0 / #40.0 -
          x2 * #15.0 / #336.0))))%f32
  else
  let negative := (x <? #0.0)%f32 in
  let x := if negative then (- x)%f32 else x in
  let result := log (x + sqrt (x * x + #1.0))%f32 in
  if negative then (- result)%f32 else result.

Definition acosh (x : float) : float :=
  if (x <? #1.0)%f32 then #0.0 else
  if (x <? #1.5)%f32 then
    let t := (x - #1.0)%f32 in
    let sqrt_2t := sqrt (#2.0 * t)%f32 in
    (sqrt_2t * (#1.0 - t * (#1.0 / #12.0 - t * (#3.0 / #160.0 -
                t * #5.0 / #896.0))))%f32
  else
  log (x + sqrt (x * x - #1.0))%f32.

Definition atanh (x : float) : float :=
  if (fabs x >=? #1.0)%f32 then #0.0 else
  if (fabs x <? #0.5)%f32 then
    let x2 := (x * x)%f32 in
    (x * (#1.0 + x2 * (#1.0 / #3.0 + x2 * (#2.0 / #15.0 +
          x2 * #17.0 / #315.0))))%f32
  else
  (#0.5 * log ((#1.0 + x) / (#1.0 - x)))%f32.

End FastMath.

(** ** The statements in the words of the specification *)

(** A finite float that is not an integer. *)
Definition fractional (x : float) : bool :=
  match x with
  | S754_finite _ m e => (e <? 0) && negb (Zpos m mod 2 ^ (- e) =? 0)
  | _ => false
  end.



(** The pipeline of [sin] and [cos] as the specification words it. *)
Module Spec.
Import FastMath.

Definition sign (theta : float) : float :=
  if (theta <? zero)%f32 then F32.lit (-1)
  else if (theta >? zero)%f32 then F32.lit 1
  else F32.lit 0.

(** The base term [theta * B - sign(theta) * C * theta^2]. *)
Definition parabola (theta : float) : float :=
  (theta * B - sign theta * C * theta * theta)%f32.

(** The correction pass [y + P * (y * |y| - y)]. *)
Definition correction (y : float) : float :=
  (y + P * (y * F32.abs y - y))%f32.

(** The re-wrap after the phase shift. *)
Definition wrap (theta : float) : float :=
  if (theta >? pi)%f32 then (theta - two_pi)%f32 else theta.

Definition sin (theta : float) : float := correction (parabola theta).

Definition cos (theta : float) : float :=
  correction (parabola (wrap (theta + half_pi)%f32)).

End Spec.

(** ** Notions used by the proofs *)

(** Powers of two and dyadic numbers [m * 2 ^ e] in [Q]. *)
Definition pow2 (e : Z) : Q := (2 ^ e)%Q.

Definition dyadic (m e : Z) : Q := (inject_Z m * pow2 e)%Q.

(** A shift record stands for its mantissa exactly when no bit was lost. *)
Definition shr_exact (mrs : shr_record) : bool := negb (shr_r mrs || shr_s mrs).

(** The record of [m] and [l] after [i] right shifts. *)
Definition shifted (m : Z) (l : location) (i : Z) (mrs : shr_record) : Prop :=
  shr_m mrs = m / 2 ^ i /\
  shr_exact mrs = match l with loc_Exact => m mod 2 ^ i =? 0 | _ => false end.

(** The record of [m] after [n] right shifts, with the place of the bits
    that were shifted out: [shr_r] tells whether they are at least half of
    [2 ^ n], [shr_s] whether they are neither zero nor the half. *)
Definition located (m n : Z) (mrs : shr_record) : Prop :=
  shr_m mrs = m / 2 ^ n /\
  shr_r mrs = (2 ^ n <=? 2 * (m mod 2 ^ n)) /\
  shr_s mrs = negb (m mod 2 ^ n =? 0) && negb (2 * (m mod 2 ^ n) =? 2 ^ n).

(** [m / 2 ^ n] rounded to the nearest integer, ties to even. *)
Definition nearest_even (m n : Z) : Z :=
  let k := m / 2 ^ n in
  let r := m mod 2 ^ n in
  if 2 * r <? 2 ^ n then k
  else if 2 ^ n <? 2 * r then k + 1
  else if Z.even k then k else k + 1.

(** The valid finite floats of a format. *)
Definition valid_finite (prec emax : Z) (x : spec_float) : Prop :=
  valid_binary prec emax x = true /\ Format.is_finite x = true.

(** A valid finite float between two floats. *)
Definition in_interval (prec emax : Z) (L U x : spec_float) : Prop :=
  valid_finite prec emax x /\
  (Format.to_Q L <= Format.to_Q x <= Format.to_Q U)%Q.

Definition vf32 : float -> Prop := valid_finite F32.prec F32.emax.
Definition vf64 : double -> Prop := valid_finite F64.prec F64.emax.
Definition within32 : float -> float -> float -> Prop := in_interval F32.prec F32.emax.
Definition within64 : double -> double -> double -> Prop := in_interval F64.prec F64.emax.

(** A valid finite float at distance at most [eps] of the rational [v]. *)
Definition close_to (prec emax : Z) (eps v : Q) (x : spec_float) : Prop :=
  valid_finite prec emax x /\
  (v - eps <= Format.to_Q x <= v + eps)%Q.

Definition close32 : Q -> Q -> float -> Prop := close_to F32.prec F32.emax.

(** The float [2 ^ k], and the floats of magnitude at most [2 ^ k]. *)
Definition power_of_two (k : Z) : float := S754_finite false 8388608 (k - 23).

Definition below_pow2 (k : Z) (x : float) : Prop :=
  within32 (F32.opp (power_of_two k)) (power_of_two k) x.

(** The largest result of [sin] and [cos]: [1 + 2^-23], the successor of
    [1.0f]. *)
Definition unit_bound : float := S754_finite false 8388609 (-23).

(** The interval [[-1, 1]], and the same widened by one unit in the last
    place. *)
Definition in_unit_range (r : float) : bool :=
  F32.leb (F32.opp (F32.lit 1.0)) r && F32.leb r (F32.lit 1.0).

Definition near_unit_range (r : float) : bool :=
  F32.leb (F32.opp unit_bound) r && F32.leb r unit_bound.

(** The floats [m * 2^-23] of the neighbourhood of [pi / 2] where the base
    term can exceed 1: they are checked one by one. *)
Definition window_lo : Z := 13160000.
Definition window_hi : Z := 13193600.

Fixpoint forall_range (f : Z -> bool) (lo : Z) (n : nat) : bool :=
  match n with
  | O => true
  | S n' => f lo && forall_range f (lo + 1) n'
  end.

Definition window_ok (m : Z) : bool :=
  near_unit_range (Spec.sin (S754_finite false (Z.to_pos m) (-23))) &&
  near_unit_range (Spec.sin (S754_finite true (Z.to_pos m) (-23))).

(** Closed goals about constants are settled by evaluation. *)
Ltac vf_const := split; vm_compute; reflexivity.

Ltac q_const :=
  unfold Qle, Qlt, Qeq; vm_compute;
  first [reflexivity | discriminate | (let H := fresh in intro H; discriminate H)].

Import FastMath.

Local Notation "# q" := (F32.lit q) (at level 1, q constr at level 0, format "# q").

(** * Part II: facts about the arithmetic *)

(** ** The constants of the source, as IEEE-754 bit patterns *)

Example pi_bits : bits_of_float pi = 0x40490FDB.
Proof. vm_compute. reflexivity. Qed.

Example two_pi_bits : bits_of_float two_pi = 0x40C90FDB.
Proof. vm_compute. reflexivity. Qed.

Example B_bits : bits_of_float B = 0x3FA2F983.
Proof. vm_compute. reflexivity. Qed.

Example P_bits : bits_of_float P = 0x3E666666.
Proof. vm_compute. reflexivity. Qed.

Example sentinel_bits : bits_of_float #1e38 = 0x7E967699.
Proof. vm_compute. reflexivity. Qed.

Example threshold_bits : bits_of_float #1e-7 = 0x33D6BF95.
Proof. vm_compute. reflexivity. Qed.

Example ln2_bits : bits_of_float #0.69314718055994531 = 0x3F317218.
Proof. vm_compute. reflexivity. Qed.

Example M_PI_mantissa : M_PI = S754_finite false 0x1921FB54442D18 (-51).
Proof. vm_compute. reflexivity. Qed.

Example float_of_bits_of_float : float_of_bits (bits_of_float (- #1.5)%f32) = (- #1.5)%f32.
Proof. vm_compute. reflexivity. Qed.

Example sqrt_16 : sqrt #16.0 = #4.0.
Proof. vm_compute. reflexivity. Qed.

Example exp_0 : exp #0.0 = Val #1.0.
Proof. vm_compute. reflexivity. Qed.

Example log_1 : log #1.0 = #0.0.
Proof. vm_compute. reflexivity. Qed.

(** ** Signs *)

Lemma binary_round_aux_opp prec emax s m e l :
  binary_round_aux prec emax (negb s) m e l = SFopp (binary_round_aux prec emax s m e l).
Proof.
  unfold binary_round_aux.
  destruct (shr_fexp prec emax m e l) as [mrs' e'].
  destruct (shr_fexp prec emax _ e' loc_Exact) as [mrs'' e''].
  destruct (shr_m mrs''); try reflexivity.
  destruct (e'' <=? emax - prec); reflexivity.
Qed.

Lemma SFopp_involutive x : SFopp (SFopp x) = x.
Proof. destruct x; cbn; rewrite ?negb_involutive; reflexivity. Qed.

Lemma SFabs_opp x : SFabs (SFopp x) = SFabs x.
Proof. destruct x; reflexivity. Qed.

Lemma SFmul_opp_l prec emax x y :
  SFmul prec emax (SFopp x) y = SFopp (SFmul prec emax x y).
Proof.
  destruct x as [sx|sx| |sx mx ex], y as [sy|sy| |sy my ey]; cbn [SFmul SFopp];
    try reflexivity; try (destruct sx, sy; reflexivity).
  rewrite <- binary_round_aux_opp. f_equal. destruct sx, sy; reflexivity.
Qed.

Lemma SFmul_opp_r prec emax x y :
  SFmul prec emax x (SFopp y) = SFopp (SFmul prec emax x y).
Proof.
  destruct x as [sx|sx| |sx mx ex], y as [sy|sy| |sy my ey]; cbn [SFmul SFopp];
    try reflexivity; try (destruct sx, sy; reflexivity).
  rewrite <- binary_round_aux_opp. f_equal. destruct sx, sy; reflexivity.
Qed.

Lemma SFmul_opp_opp prec emax x y :
  SFmul prec emax (SFopp x) (SFopp y) = SFmul prec emax x y.
Proof. rewrite SFmul_opp_l, SFmul_opp_r. apply SFopp_involutive. Qed.

Lemma SFsub_opp_r prec emax x y :
  SFsub prec emax x (SFopp y) = SFadd prec emax x y.
Proof.
  destruct x as [sx|sx| |sx mx ex], y as [sy|sy| |sy my ey]; cbn [SFsub SFadd SFopp];
    try reflexivity; try (destruct sx, sy; reflexivity).
  all: rewrite ?negb_involutive; reflexivity.
Qed.

Lemma SFadd_comm prec emax x y : SFadd prec emax x y = SFadd prec emax y x.
Proof.
  destruct x as [sx|sx| |sx mx ex], y as [sy|sy| |sy my ey]; cbn [SFadd];
    try reflexivity; try (destruct sx, sy; reflexivity).
  rewrite (Z.min_comm ey ex), Z.add_comm. reflexivity.
Qed.

Lemma SFcompare_antisym x y :
  SFcompare y x = option_map CompOpp (SFcompare x y).
Proof.
  destruct x as [sx|sx| |sx mx ex], y as [sy|sy| |sy my ey]; cbn [SFcompare option_map];
    try reflexivity; try (destruct sx, sy; reflexivity); try (destruct sx; reflexivity);
    try (destruct sy; reflexivity).
  assert (Hm : Pos.compare_cont Eq my mx = CompOpp (Pos.compare_cont Eq mx my))
    by (symmetry; apply (Pos.compare_cont_antisym mx my Eq)).
  rewrite (Z.compare_antisym ex ey), Hm.
  destruct sx, sy; cbn [CompOpp]; try reflexivity; destruct (ex ?= ey); cbn [CompOpp];
    rewrite ?CompOpp_involutive; reflexivity.
Qed.

Lemma SFleb_true_ltb_false x y : SFleb x y = true -> SFltb y x = false.
Proof.
  unfold SFleb, SFltb. rewrite (SFcompare_antisym x y).
  destruct (SFcompare x y) as [[| |]|]; cbn; congruence.
Qed.


Lemma SFltb_true_eqb_false x y : SFltb x y = true -> SFeqb x y = false.
Proof. unfold SFeqb, SFltb. destruct (SFcompare x y) as [[| |]|]; congruence. Qed.

Lemma SFeqb_finite_true s m e y :
  SFeqb (S754_finite s m e) y = true -> y = S754_finite s m e.
Proof.
  unfold SFeqb. destruct y as [sy|sy| |sy my ey]; cbn [SFcompare];
    try (destruct s; discriminate); try discriminate; try (destruct sy; discriminate).
  change (Pos.compare_cont Eq m my) with (Pos.compare m my).
  destruct s, sy; try discriminate;
    destruct (Z.compare_spec e ey) as [->| |]; try discriminate;
    destruct (Pos.compare_spec m my) as [->| |]; cbn; try discriminate; reflexivity.
Qed.

(** ** Binary digits and shifts *)

Lemma digits2_pos_bounds p :
2 ^ (Zpos (digits2_pos p) - 1) <= Zpos p < 2 ^ Zpos (digits2_pos p).
Proof.
induction p as [p IH|p IH|]; cbn [digits2_pos].
- rewrite Pos2Z.inj_succ.
  replace (Z.succ (Zpos (digits2_pos p)) - 1) with (Z.succ (Zpos (digits2_pos p) - 1)) by lia.
  rewrite !Z.pow_succ_r by lia. lia.
- rewrite Pos2Z.inj_succ.
  replace (Z.succ (Zpos (digits2_pos p)) - 1) with (Z.succ (Zpos (digits2_pos p) - 1)) by lia.
  rewrite !Z.pow_succ_r by lia. lia.
- cbn. lia.
Qed.

Lemma Zdigits2_bounds m :
0 < m -> 2 ^ (Zdigits2 m - 1) <= m < 2 ^ Zdigits2 m.
Proof. destruct m as [|p|p]; try lia. intros _. apply digits2_pos_bounds. Qed.

Lemma Zdigits2_nonneg m : 0 <= Zdigits2 m.
Proof. destruct m; cbn; lia. Qed.

Lemma Zdigits2_pos m : 0 < m -> 0 < Zdigits2 m.
Proof. destruct m; cbn; lia. Qed.

Lemma Zdigits2_unique m d :
2 ^ (d - 1) <= m < 2 ^ d -> 0 < m -> Zdigits2 m = d.
Proof.
intros [Hlo Hhi] Hm.
destruct (Zdigits2_bounds m Hm) as [Hlo' Hhi'].
pose proof (Zdigits2_pos m Hm).
assert (0 < d).
{ destruct (Z.ltb_spec 0 d); auto. exfalso.
  destruct (Z.eq_dec d 0) as [->|]; [cbn in Hhi; lia | rewrite Z.pow_neg_r in Hhi by lia; lia]. }
destruct (Z.lt_trichotomy (Zdigits2 m) d) as [Hlt|[Heq|Hgt]]; auto.
- assert (2 ^ Zdigits2 m <= 2 ^ (d - 1)) by (apply Z.pow_le_mono_r; lia). lia.
- assert (2 ^ d <= 2 ^ (Zdigits2 m - 1)) by (apply Z.pow_le_mono_r; lia). lia.
Qed.

Lemma Zdigits2_mono m n : 0 <= m <= n -> Zdigits2 m <= Zdigits2 n.
Proof.
intros [Hm Hmn]. destruct (Z.eq_dec m 0) as [->|Hm0]. { apply Zdigits2_nonneg. }
destruct (Zdigits2_bounds m) as [Hlo Hhi]; [lia|].
destruct (Zdigits2_bounds n) as [Hlo' Hhi']; [lia|].
destruct (Z.le_gt_cases (Zdigits2 m) (Zdigits2 n)) as [|Hgt]; auto.
assert (2 ^ Zdigits2 n <= 2 ^ (Zdigits2 m - 1)) by (apply Z.pow_le_mono_r; lia). lia.
Qed.

Section Iter.
Context {A : Type} (f : A -> A) (Inv : Z -> A -> Prop).
Hypothesis step : forall i x, 0 <= i -> Inv i x -> Inv (i + 1) (f x).

Lemma iter_pos_invariant p : forall i x, 0 <= i -> Inv i x -> Inv (i + Zpos p) (iter_pos f p x).
Proof.
  induction p as [p IH|p IH|]; intros i x Hi Hx; cbn [iter_pos].
  - replace (i + Zpos p~1) with ((i + 1 + Zpos p) + Zpos p) by lia.
    apply IH; [lia|]. apply IH; [lia|]. apply step; auto.
  - replace (i + Zpos p~0) with ((i + Zpos p) + Zpos p) by lia.
    apply IH; [lia|]. apply IH; auto.
  - apply step; auto.
Qed.
End Iter.

Lemma shr_1_m mrs : 0 <= shr_m mrs -> shr_m (shr_1 mrs) = shr_m mrs / 2.
Proof.
destruct mrs as [m r s]; cbn [shr_m]. intros Hm.
destruct m as [|[p|p|]|p]; cbn [shr_1 shr_m]; try lia; try reflexivity.
- apply Z.div_unique with 1; lia.
- apply Z.div_unique with 0; lia.
Qed.

Lemma shr_1_exact mrs :
0 <= shr_m mrs ->
shr_exact (shr_1 mrs) = shr_exact mrs && Z.even (shr_m mrs).
Proof.
destruct mrs as [m r s]; cbn [shr_m]. intros Hm. unfold shr_exact.
destruct m as [|[p|p|]|p]; cbn [shr_1 shr_m shr_r shr_s Z.even]; try lia;
  destruct r, s; reflexivity.
Qed.

Lemma shifted_init m l : shifted m l 0 (shr_record_of_loc m l).
Proof.
unfold shifted. rewrite Z.pow_0_r, Z.div_1_r, Z.mod_1_r.
destruct l as [|[| |]]; split; reflexivity.
Qed.

Lemma Zmod_pow2_succ m i : 0 <= i -> 0 <= m ->
(m mod 2 ^ (i + 1) =? 0) = (m mod 2 ^ i =? 0) && Z.even (m / 2 ^ i).
Proof.
intros Hi Hm.
assert (Hp : 0 < 2 ^ i) by (apply Z.pow_pos_nonneg; lia).
rewrite Z.pow_add_r, Z.pow_1_r by lia.
rewrite Z.rem_mul_r by lia.
pose proof (Z.mod_pos_bound m (2 ^ i) Hp).
pose proof (Z.mod_pos_bound (m / 2 ^ i) 2 ltac:(lia)).
rewrite Zeven_mod.
destruct (Z.eqb_spec (m mod 2 ^ i) 0), (Z.eqb_spec ((m / 2 ^ i) mod 2) 0); cbn;
  apply Z.eqb_neq || apply Z.eqb_eq; nia.
Qed.

Lemma shifted_step m l : 0 <= m -> forall i mrs, 0 <= i -> shifted m l i mrs -> shifted m l (i + 1) (shr_1 mrs).
Proof.
intros Hm i mrs Hi [H1 H2].
assert (Hp : 0 < 2 ^ i) by (apply Z.pow_pos_nonneg; lia).
assert (0 <= shr_m mrs) by (rewrite H1; apply Z.div_pos; lia).
split.
- rewrite shr_1_m, H1 by auto. rewrite Z.pow_add_r, Z.pow_1_r by lia.
  rewrite Z.div_div by lia. reflexivity.
- rewrite shr_1_exact, H2, H1 by auto.
  destruct l; [|reflexivity].
  symmetry. apply Zmod_pow2_succ; auto.
Qed.

Lemma shr_shifted m l e n :
0 <= m ->
let '(mrs, e') := shr (shr_record_of_loc m l) e n in
e' = e + Z.max 0 n /\ shifted m l (Z.max 0 n) mrs.
Proof.
intros Hm. destruct n as [|p|p]; cbn [shr].
- split; [lia|]. apply shifted_init.
- split; [lia|]. replace (Z.max 0 (Zpos p)) with (0 + Zpos p) by lia.
  apply iter_pos_invariant with (Inv := shifted m l); try lia.
  + intros. apply shifted_step; auto.
  + apply shifted_init.
- split; [lia|]. apply shifted_init.
Qed.

(** ** Powers of two and dyadic numbers *)

Lemma pow2_pos e : (0 < pow2 e)%Q.
Proof. apply Qpower_0_lt. reflexivity. Qed.

Lemma pow2_add a b : (pow2 (a + b) == pow2 a * pow2 b)%Q.
Proof. apply Qpower_plus. discriminate. Qed.

Lemma pow2_inject n : 0 <= n -> (inject_Z (2 ^ n) == pow2 n)%Q.
Proof. intros. apply Zpower_Qpower. auto. Qed.

Lemma pow2_le a b : a <= b -> (pow2 a <= pow2 b)%Q.
Proof. intros. apply Qpower_le_compat_l; auto. discriminate. Qed.

Lemma pow2_lt a b : a < b -> (pow2 a < pow2 b)%Q.
Proof. intros. apply Qpower_lt_compat_l; auto. reflexivity. Qed.

Lemma pow2_lt_inv a b : (pow2 a < pow2 b)%Q -> a < b.
Proof. intros. eapply Qpower_lt_compat_l_inv; eauto. reflexivity. Qed.

Lemma pow2_le_inv a b : (pow2 a <= pow2 b)%Q -> a <= b.
Proof. intros. eapply Qpower_le_compat_l_inv; eauto. reflexivity. Qed.

Lemma dyadic_shift m e n : 0 <= n -> (dyadic (m * 2 ^ n) e == dyadic m (e + n))%Q.
Proof.
  intros Hn. unfold dyadic. rewrite inject_Z_mult, pow2_inject, (Z.add_comm e n), pow2_add by auto.
  ring.
Qed.

Lemma dyadic_le_same m1 m2 e : (dyadic m1 e <= dyadic m2 e)%Q <-> m1 <= m2.
Proof.
  unfold dyadic. pose proof (pow2_pos e). rewrite Zle_Qle. split; intros.
  - apply Qmult_le_r with (pow2 e); auto.
  - apply Qmult_le_r; auto.
Qed.

Lemma dyadic_lt_same m1 m2 e : (dyadic m1 e < dyadic m2 e)%Q <-> m1 < m2.
Proof.
  unfold dyadic. pose proof (pow2_pos e). rewrite Zlt_Qlt. split; intros.
  - apply Qmult_lt_r with (pow2 e); auto.
  - apply Qmult_lt_r; auto.
Qed.

Lemma dyadic_eq_same m1 m2 e : (dyadic m1 e == dyadic m2 e)%Q <-> m1 = m2.
Proof.
  split; [|intros ->; reflexivity]. intros H.
  apply Z.le_antisymm; apply (dyadic_le_same _ _ e); rewrite H; apply Qle_refl.
Qed.

Lemma dyadic_pos m e : 0 < m -> (0 < dyadic m e)%Q.
Proof.
  intros. unfold dyadic. apply Qmult_lt_0_compat; [|apply pow2_pos].
  change 0%Q with (inject_Z 0). rewrite <- Zlt_Qlt. auto.
Qed.

Lemma dyadic_digits_lt m e :
  0 < m -> (dyadic m e < pow2 (Zdigits2 m + e))%Q.
Proof.
  intros Hm. destruct (Zdigits2_bounds m Hm) as [_ Hhi].
  rewrite pow2_add. unfold dyadic. apply Qmult_lt_r; [apply pow2_pos|].
  rewrite <- pow2_inject by apply Zdigits2_nonneg. rewrite <- Zlt_Qlt. auto.
Qed.

Lemma dyadic_digits_ge m e :
  0 < m -> (pow2 (Zdigits2 m - 1 + e) <= dyadic m e)%Q.
Proof.
  intros Hm. destruct (Zdigits2_bounds m Hm) as [Hlo _].
  pose proof (Zdigits2_pos m Hm).
  rewrite pow2_add. unfold dyadic. apply Qmult_le_r; [apply pow2_pos|].
  rewrite <- pow2_inject by lia. rewrite <- Zle_Qle. auto.
Qed.

Lemma dyadic_1 e : (dyadic 1 e == pow2 e)%Q.
Proof. unfold dyadic. apply Qmult_1_l. Qed.

Lemma pow2_le_dyadic a m e : 0 < m -> 2 ^ (a - e) <= m -> (pow2 a <= dyadic m e)%Q.
Proof.
  intros Hm H. destruct (Z.le_gt_cases e a) as [Hle|Hgt].
  - replace a with (e + (a - e)) by lia.
    rewrite <- dyadic_1, <- dyadic_shift, Z.mul_1_l by lia.
    apply dyadic_le_same. exact H.
  - apply Qle_trans with (pow2 e); [apply pow2_le; lia|].
    unfold dyadic. rewrite <- (Qmult_1_l (pow2 e)) at 1.
    apply Qmult_le_r; [apply pow2_pos|]. change 1%Q with (inject_Z 1).
    rewrite <- Zle_Qle. lia.
Qed.

Lemma dyadic_0 e : (dyadic 0 e == 0)%Q.
Proof. unfold dyadic. apply Qmult_0_l. Qed.

Lemma dyadic_opp m e : (dyadic (- m) e == - dyadic m e)%Q.
Proof. unfold dyadic. rewrite inject_Z_opp. ring. Qed.

Lemma dyadic_neg m e : m < 0 -> (dyadic m e < 0)%Q.
Proof.
  intros Hm. rewrite <- (dyadic_0 e). apply dyadic_lt_same. exact Hm.
Qed.

Lemma Qcompare_opp a b : (- a ?= - b)%Q = (b ?= a)%Q.
Proof.
  unfold Qcompare, Qopp. cbn [Qnum Qden]. rewrite !Z.mul_opp_l. apply Z.compare_opp.
Qed.

Lemma to_Q_opp x : (Format.to_Q (SFopp x) == - Format.to_Q x)%Q.
Proof.
  destruct x as [s|s| |s m e]; cbn [SFopp Format.to_Q]; try reflexivity.
  change (inject_Z (cond_Zopp (negb s) (Zpos m)) * 2 ^ e)%Q
    with (dyadic (cond_Zopp (negb s) (Zpos m)) e).
  change (inject_Z (cond_Zopp s (Zpos m)) * 2 ^ e)%Q
    with (dyadic (cond_Zopp s (Zpos m)) e).
  rewrite <- dyadic_opp. destruct s; reflexivity.
Qed.

Lemma iter_xO m k : Zpos (Pos.iter xO m k) = Zpos m * 2 ^ Zpos k.
Proof.
  revert m. induction k using Pos.peano_ind; intros m.
  - change (2 ^ 1) with 2. cbn [Pos.iter]. lia.
  - rewrite Pos.iter_succ, Pos2Z.inj_xO, IHk, Pos2Z.inj_succ, Z.pow_succ_r by lia. lia.
Qed.

Lemma shl_align_spec m e e' :
  let '(m', e'') := shl_align m e e' in
  e'' = Z.min e e' /\ Zpos m' = Zpos m * 2 ^ (e - e'').
Proof.
  unfold shl_align. destruct (e' - e) as [|d|d] eqn:Hd.
  - split; [lia|]. replace (e - e) with 0 by lia. lia.
  - split; [lia|]. replace (e - e) with 0 by lia. lia.
  - split; [lia|]. rewrite iter_xO. f_equal. f_equal. lia.
Qed.

Lemma dyadic_add a b e : (dyadic (a + b) e == dyadic a e + dyadic b e)%Q.
Proof. unfold dyadic. rewrite inject_Z_plus. ring. Qed.

Lemma dyadic_cond_Zopp s m e :
  (dyadic (cond_Zopp s m) e == if s then - dyadic m e else dyadic m e)%Q.
Proof. destruct s; cbn [cond_Zopp]; [apply dyadic_opp|reflexivity]. Qed.

Lemma dyadic_mul a b e f : (dyadic (a * b) (e + f) == dyadic a e * dyadic b f)%Q.
Proof. unfold dyadic. rewrite inject_Z_mult, pow2_add. ring. Qed.

Lemma to_Q_zero s : Format.to_Q (S754_zero s) = 0%Q.
Proof. reflexivity. Qed.

Lemma SFsub_add_opp prec emax x y :
  SFsub prec emax x y = SFadd prec emax x (SFopp y).
Proof. rewrite <- SFsub_opp_r, SFopp_involutive. reflexivity. Qed.

Lemma rne_spec mrs :
let k := shr_m mrs in
let m1 := round_nearest_even k (loc_of_shr_record mrs) in
(m1 = k \/ m1 = k + 1) /\ (shr_exact mrs = true -> m1 = k).
Proof.
destruct mrs as [m r s]. unfold shr_exact. cbn [shr_m shr_r shr_s].
destruct r, s; cbn [loc_of_shr_record round_nearest_even orb negb];
  try destruct (Z.even m); split; auto; discriminate.
Qed.

Section Rounding.
Variables prec emax : Z.
Hypothesis Hprec : 0 < prec.
Hypothesis Hemax : prec < emax.

Local Abbreviation emin := (SpecFloat.emin prec emax).
Local Abbreviation fexp := (SpecFloat.fexp prec emax).
Local Abbreviation vf := (valid_finite prec emax).
Local Abbreviation within := (in_interval prec emax).

Lemma fexp_spec e : fexp e = Z.max (e - prec) (3 - emax - prec).
Proof. reflexivity. Qed.

Lemma fexp_mono a b : a <= b -> fexp a <= fexp b.
Proof. rewrite !fexp_spec. lia. Qed.

Lemma shr_fexp_spec m e l :
  0 <= m ->
  let n := Z.max 0 (fexp (Zdigits2 m + e) - e) in
  exists mrs, shr_fexp prec emax m e l = (mrs, e + n) /\ shifted m l n mrs.
Proof.
  intros Hm n. unfold shr_fexp.
  pose proof (shr_shifted m l e (fexp (Zdigits2 m + e) - e) Hm) as H.
  destruct (shr (shr_record_of_loc m l) e (fexp (Zdigits2 m + e) - e)) as [mrs e'].
  destruct H as [-> Hs]. exists mrs. split; auto.
Qed.

Lemma bounded_spec m e :
  bounded prec emax m e = true <->
  fexp (Zpos (digits2_pos m) + e) = e /\ e <= emax - prec.
Proof.
  unfold bounded, canonical_mantissa.
  rewrite andb_true_iff, Z.eqb_eq, Z.leb_le. reflexivity.
Qed.

Lemma binary_round_aux_spec s m e l :
  0 <= m -> e <= fexp (Zdigits2 m + e) ->
  let e' := fexp (Zdigits2 m + e) in
  let k := m / 2 ^ (e' - e) in
  exists m1,
    (m1 = k \/ m1 = k + 1) /\
    (l = loc_Exact -> m mod 2 ^ (e' - e) = 0 -> m1 = k) /\
    match binary_round_aux prec emax s m e l with
    | S754_zero s' => s' = s /\ m1 = 0
    | S754_finite s' m'' e'' =>
        s' = s /\ bounded prec emax m'' e'' = true /\
        (dyadic (Zpos m'') e'' == dyadic m1 e')%Q
    | S754_infinity s' => s' = s /\ (pow2 emax <= dyadic m1 e')%Q
    | S754_nan => False
    end.
Proof.
  intros Hm Hpre e' k.
  set (d := Zdigits2 m) in *.
  set (n := e' - e) in *.
  assert (Hn : 0 <= n) by (unfold n; lia).
  assert (He' : e' = Z.max (d + e - prec) (3 - emax - prec)) by reflexivity.
  assert (Hpn : 0 < 2 ^ n) by (apply Z.pow_pos_nonneg; lia).
  assert (Hk0 : 0 <= k) by (apply Z.div_pos; lia).
  assert (Hpprec : 0 < 2 ^ prec) by (apply Z.pow_pos_nonneg; lia).
  (* the truncated mantissa has at most [prec] digits *)
  assert (Hkhi : k < 2 ^ prec).
  { destruct (Z.eq_dec m 0) as [Hm0|Hm0].
    - unfold k. rewrite Hm0, Z.div_0_l by lia. exact Hpprec.
    - destruct (Zdigits2_bounds m ltac:(lia)) as [_ Hdhi]. fold d in Hdhi.
      pose proof (Zdigits2_pos m ltac:(lia)) as Hdpos. fold d in Hdpos.
      apply Z.div_lt_upper_bound; [lia|].
      rewrite <- Z.pow_add_r by lia.
      eapply Z.lt_le_trans; [exact Hdhi|]. apply Z.pow_le_mono_r; lia. }
  assert (Hklo : 3 - emax - prec < e' -> 2 ^ (prec - 1) <= k).
  { intros Hnorm.
    destruct (Z.eq_dec m 0) as [Hm0|Hm0].
    - exfalso. unfold d in He'. rewrite Hm0 in He'. cbn [Zdigits2] in He'. lia.
    - destruct (Zdigits2_bounds m ltac:(lia)) as [Hdlo _]. fold d in Hdlo.
      pose proof (Zdigits2_pos m ltac:(lia)) as Hdpos. fold d in Hdpos.
      apply Z.div_le_lower_bound; [lia|].
      rewrite <- Z.pow_add_r by lia.
      replace (n + (prec - 1)) with (d - 1) by lia. exact Hdlo. }
  (* first shift *)
  unfold binary_round_aux.
  destruct (shr_fexp_spec m e l Hm) as (mrs' & Heq1 & Hsh1).
  fold d in Heq1, Hsh1. fold e' in Heq1, Hsh1. fold n in Heq1, Hsh1.
  replace (Z.max 0 n) with n in * by lia.
  replace (e + n) with e' in Heq1 by (unfold n; lia).
  rewrite Heq1. destruct Hsh1 as [Hm' Hex'].
  destruct (rne_spec mrs') as [Hm1 Hm1x].
  set (m1 := round_nearest_even (shr_m mrs') (loc_of_shr_record mrs')) in *.
  rewrite Hm' in Hm1. fold k in Hm1.
  assert (Hexact : l = loc_Exact -> m mod 2 ^ n = 0 -> m1 = k).
  { intros -> Hmod. rewrite Hm1x, Hm'; [reflexivity|].
    rewrite Hex'. apply Z.eqb_eq. exact Hmod. }
  exists m1. split; [exact Hm1|]. split; [exact Hexact|].
  assert (Hm1lo : 0 <= m1) by lia.
  assert (Hm1hi : m1 <= 2 ^ prec) by lia.
  assert (Hm1norm : 3 - emax - prec < e' -> 2 ^ (prec - 1) <= m1) by (intros H; specialize (Hklo H); lia).
  assert (Hpp : 0 < 2 ^ (prec - 1)) by (apply Z.pow_pos_nonneg; lia).
  assert (Hp2 : 2 ^ prec = 2 * 2 ^ (prec - 1)).
  { replace prec with (Z.succ (prec - 1)) at 1 by lia. apply Z.pow_succ_r. lia. }
  (* second shift *)
  destruct (shr_fexp_spec m1 e' loc_Exact Hm1lo) as (mrs'' & Heq2 & Hsh2).
  rewrite Heq2. destruct Hsh2 as [Hm'' _].
  destruct (Z.eq_dec m1 0) as [Hz|Hnz].
  - (* the result is zero *)
    rewrite Hz in Hm''. rewrite Z.div_0_l in Hm'' by (apply Z.pow_nonzero; lia).
    rewrite Hm''. auto.
  - assert (Hm1pos : 0 < m1) by lia.
    destruct (Zdigits2_bounds m1 Hm1pos) as [Hd1lo Hd1hi].
    pose proof (Zdigits2_pos m1 Hm1pos) as Hd1pos.
    destruct (Z.ltb_spec m1 (2 ^ prec)) as [Hlt|Hge].
    + (* no carry *)
      assert (Hd1 : Zdigits2 m1 <= prec).
      { destruct (Z.le_gt_cases (Zdigits2 m1) prec); auto.
        assert (2 ^ prec <= 2 ^ (Zdigits2 m1 - 1)) by (apply Z.pow_le_mono_r; lia). lia. }
      assert (Hcanon : fexp (Zdigits2 m1 + e') = e').
      { rewrite fexp_spec. destruct (Z.eq_dec e' (3 - emax - prec)) as [|Hne]; [lia|].
        assert (Hnorm : 3 - emax - prec < e') by lia.
        specialize (Hm1norm Hnorm).
        assert (prec <= Zdigits2 m1).
        { destruct (Z.le_gt_cases prec (Zdigits2 m1)); auto.
          assert (2 ^ Zdigits2 m1 <= 2 ^ (prec - 1)) by (apply Z.pow_le_mono_r; lia). lia. }
        lia. }
      rewrite Hcanon in *. replace (Z.max 0 (e' - e')) with 0 in * by lia.
      rewrite Z.pow_0_r, Z.div_1_r in Hm''. rewrite Hm'', Z.add_0_r.
      destruct m1 as [|p1|p1]; try lia.
      destruct (Z.leb_spec e' (emax - prec)) as [Hfin|Hinf].
      * split; [reflexivity|]. split; [|reflexivity].
        apply bounded_spec. split; [exact Hcanon|exact Hfin].
      * split; [reflexivity|].
        assert (Hnorm : 3 - emax - prec < e') by lia.
        specialize (Hm1norm Hnorm).
        apply pow2_le_dyadic; [lia|].
        eapply Z.le_trans; [|exact Hm1norm].
        destruct (Z.le_gt_cases 0 (emax - e')).
        -- apply Z.pow_le_mono_r; lia.
        -- rewrite Z.pow_neg_r by lia. lia.
    + (* carry: the rounded mantissa is [2 ^ prec] *)
      assert (Hm1eq : m1 = 2 ^ prec) by lia.
      assert (Hd1 : Zdigits2 m1 = prec + 1).
      { apply Zdigits2_unique; [|lia]. replace (prec + 1 - 1) with prec by lia.
        rewrite Hm1eq. split; [lia|]. apply Z.pow_lt_mono_r; lia. }
      assert (Hfe : fexp (Zdigits2 m1 + e') = e' + 1).
      { rewrite Hd1, fexp_spec. lia. }
      rewrite Hfe in *. replace (Z.max 0 (e' + 1 - e')) with 1 in * by lia.
      rewrite Z.pow_1_r in Hm''.
      assert (Hm''eq : shr_m mrs'' = 2 ^ (prec - 1)).
      { rewrite Hm'', Hm1eq, Hp2. rewrite Z.mul_comm, Z.div_mul by lia. reflexivity. }
      rewrite Hm''eq.
      destruct (2 ^ (prec - 1)) as [|p|p] eqn:Hp; try lia.
      destruct (Z.leb_spec (e' + 1) (emax - prec)) as [Hfin|Hinf].
      * split; [reflexivity|]. split.
        -- apply bounded_spec. split; [|exact Hfin].
           change (Zpos (digits2_pos p)) with (Zdigits2 (Zpos p)).
           rewrite (Zdigits2_unique (Zpos p) prec); [rewrite fexp_spec; lia| |lia].
           rewrite <- Hp. split; [lia|]. apply Z.pow_lt_mono_r; lia.
        -- rewrite Hm1eq, Hp2, (Z.mul_comm 2).
           rewrite <- (dyadic_shift (Zpos p) e' 1) by lia. reflexivity.
      * split; [reflexivity|].
        apply pow2_le_dyadic; [lia|]. rewrite Hm1eq.
        destruct (Z.le_gt_cases 0 (emax - e')).
        -- apply Z.pow_le_mono_r; lia.
        -- rewrite Z.pow_neg_r by lia. lia.
Qed.

Lemma bounded_digits m e :
  bounded prec emax m e = true ->
  Zdigits2 (Zpos m) <= prec /\ 3 - emax - prec <= e /\ e <= emax - prec /\
  (3 - emax - prec < e -> Zdigits2 (Zpos m) = prec).
Proof.
  intros H. apply bounded_spec in H. destruct H as [Hc He].
  change (Zpos (digits2_pos m)) with (Zdigits2 (Zpos m)) in Hc.
  rewrite fexp_spec in Hc. lia.
Qed.

Lemma bounded_lt_pow2_emax m e :
  bounded prec emax m e = true -> (dyadic (Zpos m) e < pow2 emax)%Q.
Proof.
  intros H. destruct (bounded_digits m e H) as (Hd & _ & He & _).
  eapply Qlt_le_trans; [apply dyadic_digits_lt; lia|]. apply pow2_le. lia.
Qed.

(** The truncated mantissa of a value in the normal range has full width. *)
Lemma truncated_normal m e :
  0 < m -> e <= fexp (Zdigits2 m + e) ->
  3 - emax - prec < fexp (Zdigits2 m + e) ->
  2 ^ (prec - 1) <= m / 2 ^ (fexp (Zdigits2 m + e) - e).
Proof.
  intros Hm Hpre Hnorm. rewrite fexp_spec in *.
  destruct (Zdigits2_bounds m Hm) as [Hdlo _].
  apply Z.div_le_lower_bound; [apply Z.pow_pos_nonneg; lia|].
  rewrite <- Z.pow_add_r by lia.
  replace (Z.max (Zdigits2 m + e - prec) (3 - emax - prec) - e + (prec - 1))
    with (Zdigits2 m - 1) by lia.
  exact Hdlo.
Qed.

(** Rounding does not cross a representable number: from above... *)
Lemma binary_round_aux_upper s m e l mU eU :
  0 <= m -> e <= fexp (Zdigits2 m + e) ->
  bounded prec emax mU eU = true ->
  (dyadic m e <= dyadic (Zpos mU) eU)%Q ->
  (l <> loc_Exact -> dyadic m e < dyadic (Zpos mU) eU)%Q ->
  match binary_round_aux prec emax s m e l with
  | S754_zero s' => s' = s
  | S754_finite s' m'' e'' =>
      s' = s /\ bounded prec emax m'' e'' = true /\
      (dyadic (Zpos m'') e'' <= dyadic (Zpos mU) eU)%Q
  | _ => False
  end.
Proof.
  intros Hm Hpre HU Hle Hlt.
  destruct (binary_round_aux_spec s m e l Hm Hpre) as (m1 & Hm1 & Hexact & Hr).
  set (e' := fexp (Zdigits2 m + e)) in *.
  set (n := e' - e) in *.
  assert (Hn : 0 <= n) by (unfold n; lia).
  assert (Hpn : 0 < 2 ^ n) by (apply Z.pow_pos_nonneg; lia).
  destruct (bounded_digits mU eU HU) as (HdU & HeUlo & HeUhi & HnormU).
  pose proof (proj1 (bounded_spec mU eU) HU) as [HcU _].
  change (Zpos (digits2_pos mU)) with (Zdigits2 (Zpos mU)) in HcU.
  (* the bound is a multiple of the unit in the last place of the result *)
  assert (He'U : e' <= eU).
  { destruct (Z.eq_dec m 0) as [Hm0|Hm0].
    - assert (He0 : e' = fexp e) by (unfold e'; rewrite Hm0; reflexivity).
      assert (Hpre0 : e <= fexp e) by (rewrite <- He0; exact Hpre).
      rewrite He0. rewrite fexp_spec in *. lia.
    - rewrite <- HcU. apply fexp_mono.
      assert (Zdigits2 m - 1 + e < Zdigits2 (Zpos mU) + eU); [|lia].
      apply pow2_lt_inv. eapply Qle_lt_trans; [apply dyadic_digits_ge; lia|].
      eapply Qle_lt_trans; [exact Hle|]. apply dyadic_digits_lt. lia. }
  set (K := Zpos mU * 2 ^ (eU - e')).
  assert (HK : (dyadic (Zpos mU) eU == dyadic (K * 2 ^ n) e)%Q).
  { unfold K. rewrite !dyadic_shift by lia. replace (e + n + (eU - e')) with eU by (unfold n; lia).
    reflexivity. }
  assert (HK' : (dyadic (Zpos mU) eU == dyadic K e')%Q).
  { unfold K. rewrite dyadic_shift by lia. replace (e' + (eU - e')) with eU by lia. reflexivity. }
  rewrite HK in Hle, Hlt. rewrite dyadic_le_same in Hle. rewrite dyadic_lt_same in Hlt.
  assert (Hm1K : m1 <= K).
  { assert (Hk : m / 2 ^ n <= K) by (apply Z.div_le_upper_bound; lia).
    destruct Hm1 as [->| ->]; [exact Hk|].
    assert (m < K * 2 ^ n).
    { destruct (Z.eq_dec m (K * 2 ^ n)) as [Heq|]; [|lia].
      destruct l as [|c].
      - assert (m / 2 ^ n + 1 = m / 2 ^ n); [|lia].
        apply Hexact; auto. rewrite Heq. apply Z.mod_mul. lia.
      - apply Hlt. discriminate. }
    assert (m / 2 ^ n < K) by (apply Z.div_lt_upper_bound; lia). lia. }
  assert (Hm1U : (dyadic m1 e' <= dyadic (Zpos mU) eU)%Q).
  { rewrite HK'. apply dyadic_le_same. exact Hm1K. }
  destruct (binary_round_aux prec emax s m e l) as [s'|s'| |s' m'' e''].
  - apply Hr.
  - destruct Hr as [_ Hinf]. exfalso.
    apply (Qlt_irrefl (pow2 emax)).
    eapply Qle_lt_trans; [exact Hinf|]. eapply Qle_lt_trans; [exact Hm1U|].
    apply bounded_lt_pow2_emax. exact HU.
  - exact Hr.
  - destruct Hr as (Hs & Hb & Hv). split; [exact Hs|]. split; [exact Hb|].
    rewrite Hv. exact Hm1U.
Qed.

(** ... and from below. *)
Lemma binary_round_aux_lower s m e l mL eL :
  0 < m -> e <= fexp (Zdigits2 m + e) ->
  bounded prec emax mL eL = true ->
  (dyadic (Zpos mL) eL <= dyadic m e)%Q ->
  match binary_round_aux prec emax s m e l with
  | S754_infinity s' => s' = s
  | S754_finite s' m'' e'' =>
      s' = s /\ bounded prec emax m'' e'' = true /\
      (dyadic (Zpos mL) eL <= dyadic (Zpos m'') e'')%Q
  | _ => False
  end.
Proof.
  intros Hm Hpre HL Hle.
  destruct (binary_round_aux_spec s m e l (Z.lt_le_incl _ _ Hm) Hpre) as (m1 & Hm1 & Hexact & Hr).
  pose proof (truncated_normal m e Hm Hpre) as Hnormal.
  set (e' := fexp (Zdigits2 m + e)) in *.
  set (n := e' - e) in *.
  assert (Hn : 0 <= n) by (unfold n; lia).
  assert (Hpn : 0 < 2 ^ n) by (apply Z.pow_pos_nonneg; lia).
  destruct (bounded_digits mL eL HL) as (HdL & HeLlo & HeLhi & HnormL).
  assert (Hk : (dyadic (Zpos mL) eL <= dyadic (m / 2 ^ n) e')%Q).
  { destruct (Z.le_gt_cases e' eL) as [Hge|Hlt].
    - set (K := Zpos mL * 2 ^ (eL - e')).
      assert (HK : (dyadic (Zpos mL) eL == dyadic (K * 2 ^ n) e)%Q).
      { unfold K. rewrite !dyadic_shift by lia.
        replace (e + n + (eL - e')) with eL by (unfold n; lia). reflexivity. }
      assert (HK' : (dyadic (Zpos mL) eL == dyadic K e')%Q).
      { unfold K. rewrite dyadic_shift by lia.
        replace (e' + (eL - e')) with eL by lia. reflexivity. }
      rewrite HK in Hle. rewrite dyadic_le_same in Hle.
      rewrite HK'. apply dyadic_le_same. apply Z.div_le_lower_bound; lia.
    - assert (Hnorm : 3 - emax - prec < e') by lia.
      specialize (Hnormal Hnorm).
      apply Qle_trans with (pow2 (prec - 1 + e')).
      + apply Qlt_le_weak. eapply Qlt_le_trans; [apply dyadic_digits_lt; lia|].
        apply pow2_le. lia.
      + apply pow2_le_dyadic.
        * assert (0 < 2 ^ (prec - 1)) by (apply Z.pow_pos_nonneg; lia). lia.
        * replace (prec - 1 + e' - e') with (prec - 1) by lia. exact Hnormal. }
  assert (Hm1L : (dyadic (Zpos mL) eL <= dyadic m1 e')%Q).
  { eapply Qle_trans; [exact Hk|]. apply dyadic_le_same. lia. }
  destruct (binary_round_aux prec emax s m e l) as [s'|s'| |s' m'' e''].
  - destruct Hr as [_ Hz]. exfalso. rewrite Hz in Hm1L.
    apply (Qlt_irrefl 0). eapply Qlt_le_trans; [apply (dyadic_pos (Zpos mL) eL); lia|].
    eapply Qle_trans; [exact Hm1L|]. unfold dyadic. rewrite Qmult_0_l. apply Qle_refl.
  - apply Hr.
  - exact Hr.
  - destruct Hr as (Hs & Hb & Hv). split; [exact Hs|]. split; [exact Hb|].
    rewrite Hv. exact Hm1L.
Qed.

Lemma bounded_lt_of_exp m1 e1 m2 e2 :
  bounded prec emax m1 e1 = true -> bounded prec emax m2 e2 = true ->
  e1 < e2 -> (dyadic (Zpos m1) e1 < dyadic (Zpos m2) e2)%Q.
Proof.
  intros H1 H2 Hlt.
  destruct (bounded_digits m1 e1 H1) as (Hd1 & He1 & _ & _).
  destruct (bounded_digits m2 e2 H2) as (_ & _ & _ & Hn2).
  eapply Qlt_le_trans; [apply dyadic_digits_lt; lia|].
  eapply Qle_trans; [|apply dyadic_digits_ge; lia].
  apply pow2_le. rewrite Hn2 by lia. lia.
Qed.

Lemma compare_bounded m1 e1 m2 e2 :
  bounded prec emax m1 e1 = true -> bounded prec emax m2 e2 = true ->
  match e1 ?= e2 with
  | Lt => Lt
  | Gt => Gt
  | Eq => Pos.compare_cont Eq m1 m2
  end = (dyadic (Zpos m1) e1 ?= dyadic (Zpos m2) e2)%Q.
Proof.
  intros H1 H2. symmetry. destruct (Z.compare_spec e1 e2) as [->|Hlt|Hgt].
  - change (Pos.compare_cont Eq m1 m2) with (Zpos m1 ?= Zpos m2).
    destruct (Z.compare_spec (Zpos m1) (Zpos m2)) as [Heq|Hlt|Hgt].
    + apply Qeq_alt. rewrite Heq. reflexivity.
    + apply Qlt_alt. apply dyadic_lt_same. exact Hlt.
    + apply Qgt_alt. apply dyadic_lt_same. exact Hgt.
  - apply Qlt_alt. apply bounded_lt_of_exp; auto.
  - apply Qgt_alt. apply bounded_lt_of_exp; auto.
Qed.

Lemma to_Q_finite s m e :
  Format.to_Q (S754_finite s m e) = dyadic (cond_Zopp s (Zpos m)) e.
Proof. reflexivity. Qed.

Lemma SFcompare_spec x y :
  vf x -> vf y ->
  SFcompare x y = Some (Format.to_Q x ?= Format.to_Q y)%Q.
Proof.
  intros [Hvx Hfx] [Hvy Hfy].
  destruct x as [sx|sx| |sx mx ex]; try discriminate;
  destruct y as [sy|sy| |sy my ey]; try discriminate;
  cbn [valid_binary] in Hvx, Hvy; rewrite ?to_Q_finite;
  cbn [SFcompare Format.to_Q]; f_equal.
  - symmetry. destruct sy; cbn [cond_Zopp Z.opp].
    + apply Qgt_alt. apply dyadic_neg. lia.
    + apply Qlt_alt. apply dyadic_pos. lia.
  - symmetry. destruct sx; cbn [cond_Zopp Z.opp].
    + apply Qlt_alt. apply dyadic_neg. lia.
    + apply Qgt_alt. apply dyadic_pos. lia.
  - destruct sx, sy; cbn [cond_Zopp].
    + change (Z.opp (Zpos mx)) with (- Zpos mx). change (Z.opp (Zpos my)) with (- Zpos my).
      rewrite !dyadic_opp, Qcompare_opp, <- (compare_bounded my ey mx ex) by auto.
      assert (Hm : Pos.compare_cont Eq my mx = CompOpp (Pos.compare_cont Eq mx my))
        by (symmetry; apply (Pos.compare_cont_antisym mx my Eq)).
      rewrite (Z.compare_antisym ex ey), Hm.
      destruct (ex ?= ey); reflexivity.
    + symmetry. apply Qlt_alt. apply Qlt_trans with 0%Q; [apply dyadic_neg|apply dyadic_pos]; lia.
    + symmetry. apply Qgt_alt. apply Qlt_trans with 0%Q; [apply dyadic_neg|apply dyadic_pos]; lia.
    + apply compare_bounded; auto.
Qed.

Lemma SFleb_spec x y :
  vf x -> vf y -> (SFleb x y = true <-> Format.to_Q x <= Format.to_Q y)%Q.
Proof.
  intros Hx Hy. unfold SFleb. rewrite (SFcompare_spec x y Hx Hy).
  rewrite Qle_alt. destruct (Format.to_Q x ?= Format.to_Q y)%Q; split; congruence.
Qed.

Lemma SFltb_spec x y :
  vf x -> vf y -> (SFltb x y = true <-> Format.to_Q x < Format.to_Q y)%Q.
Proof.
  intros Hx Hy. unfold SFltb. rewrite (SFcompare_spec x y Hx Hy).
  rewrite Qlt_alt. destruct (Format.to_Q x ?= Format.to_Q y)%Q; split; congruence.
Qed.

Lemma vf_opp x : vf x -> vf (SFopp x).
Proof. intros [Hv Hf]. destruct x; split; auto. Qed.

Lemma vf_zero s : vf (S754_zero s).
Proof. split; reflexivity. Qed.

Lemma vf_finite s m e : bounded prec emax m e = true -> vf (S754_finite s m e).
Proof. intros H. split; [exact H|reflexivity]. Qed.

Lemma vf_finite_inv s m e : vf (S754_finite s m e) -> bounded prec emax m e = true.
Proof. intros [H _]. exact H. Qed.

Lemma within_opp L U x : within (SFopp U) (SFopp L) x -> within L U (SFopp x).
Proof.
  intros [Hv [Hlo Hhi]]. split; [apply vf_opp; exact Hv|].
  rewrite !to_Q_opp in *. lra.
Qed.

Lemma binary_round_aux_within_pos m e L U :
  0 < m -> e <= fexp (Zdigits2 m + e) ->
  vf L -> vf U ->
  (Format.to_Q L <= dyadic m e <= Format.to_Q U)%Q ->
  within L U (binary_round_aux prec emax false m e loc_Exact).
Proof.
  intros Hm Hpre HL HU [Hlo Hhi].
  pose proof (dyadic_pos m e Hm) as Hpos.
  (* the upper bound is a positive float *)
  destruct U as [sU|sU| |sU mU eU]; try (destruct HU as [_ HU]; discriminate HU);
    [cbn [Format.to_Q] in Hhi; lra|].
  rewrite to_Q_finite in Hhi.
  destruct sU; cbn [cond_Zopp] in Hhi.
  { pose proof (dyadic_neg (- Zpos mU) eU ltac:(lia)). lra. }
  pose proof (binary_round_aux_upper false m e loc_Exact mU eU (Z.lt_le_incl _ _ Hm) Hpre
                (vf_finite_inv _ _ _ HU) Hhi ltac:(congruence)) as Hup.
  assert (HLcases :
    (Format.to_Q L <= 0)%Q \/
    exists mL eL, L = S754_finite false mL eL).
  { destruct L as [sL|sL| |sL mL eL]; try (left; cbn; lra).
    destruct sL; [left|right; eauto].
    rewrite to_Q_finite. cbn [cond_Zopp].
    pose proof (dyadic_neg (- Zpos mL) eL ltac:(lia)). lra. }
  destruct HLcases as [HLneg|(mL & eL & ->)].
  - destruct (binary_round_aux prec emax false m e loc_Exact) as [s'|s'| |s' m'' e''];
      try contradiction.
    + split; [apply vf_zero|]. rewrite to_Q_finite. cbn [cond_Zopp].
      change (Format.to_Q (S754_zero s')) with 0%Q. lra.
    + destruct Hup as (-> & Hb & Hle). split; [apply vf_finite; exact Hb|].
      rewrite !to_Q_finite. cbn [cond_Zopp].
      pose proof (dyadic_pos (Zpos m'') e'' ltac:(lia)). lra.
  - rewrite to_Q_finite in Hlo. cbn [cond_Zopp] in Hlo.
    pose proof (binary_round_aux_lower false m e loc_Exact mL eL Hm Hpre
                  (vf_finite_inv _ _ _ HL) Hlo) as Hlow.
    destruct (binary_round_aux prec emax false m e loc_Exact) as [s'|s'| |s' m'' e''];
      try contradiction.
    destruct Hup as (-> & Hb & Hle). destruct Hlow as (_ & _ & Hge).
    split; [apply vf_finite; exact Hb|].
    rewrite !to_Q_finite. cbn [cond_Zopp]. lra.
Qed.

Lemma binary_round_aux_within s m e L U :
  0 < m -> e <= fexp (Zdigits2 m + e) ->
  vf L -> vf U ->
  (Format.to_Q L <= dyadic (cond_Zopp s m) e <= Format.to_Q U)%Q ->
  within L U (binary_round_aux prec emax s m e loc_Exact).
Proof.
  intros Hm Hpre HL HU Hb. destruct s.
  - change true with (negb false). rewrite binary_round_aux_opp.
    apply within_opp. apply binary_round_aux_within_pos; auto using vf_opp.
    cbn [cond_Zopp] in Hb. rewrite dyadic_opp in Hb. rewrite !to_Q_opp. lra.
  - apply binary_round_aux_within_pos; auto.
Qed.

(** [shl_align] brings a mantissa to the exponent of its format. *)
Lemma shl_align_fexp m e :
  let '(mz, ez) := shl_align m e (fexp (Zpos (digits2_pos m) + e)) in
  (dyadic (Zpos mz) ez == dyadic (Zpos m) e)%Q /\
  ez <= fexp (Zdigits2 (Zpos mz) + ez) /\
  (fexp (Zpos (digits2_pos m) + e) <= e -> ez = fexp (Zdigits2 (Zpos mz) + ez)).
Proof.
  pose proof (shl_align_spec m e (fexp (Zpos (digits2_pos m) + e))) as Hsh.
  destruct (shl_align m e (fexp (Zpos (digits2_pos m) + e))) as [mz ez].
  destruct Hsh as [Hez Hmz].
  assert (Hd : Zdigits2 (Zpos mz) + ez = Zdigits2 (Zpos m) + e).
  { assert (Zdigits2 (Zpos mz) = Zdigits2 (Zpos m) + (e - ez)); [|lia].
    apply Zdigits2_unique; [|lia].
    destruct (Zdigits2_bounds (Zpos m) ltac:(lia)) as [Hlo Hhi].
    pose proof (Zdigits2_pos (Zpos m) ltac:(lia)).
    rewrite Hmz.
    replace (Zdigits2 (Zpos m) + (e - ez) - 1) with (Zdigits2 (Zpos m) - 1 + (e - ez)) by lia.
    rewrite !Z.pow_add_r by lia.
    assert (0 < 2 ^ (e - ez)) by (apply Z.pow_pos_nonneg; lia). nia. }
  rewrite Hd. change (Zdigits2 (Zpos m)) with (Zpos (digits2_pos m)).
  split; [|split; lia].
  rewrite Hmz, dyadic_shift by lia. replace (ez + (e - ez)) with e by lia. reflexivity.
Qed.

Lemma binary_round_within s m e L U :
  vf L -> vf U ->
  (Format.to_Q L <= dyadic (cond_Zopp s (Zpos m)) e <= Format.to_Q U)%Q ->
  within L U (binary_round prec emax s m e).
Proof.
  intros HL HU Hb. unfold binary_round.
  pose proof (shl_align_fexp m e) as Hsh.
  destruct (shl_align m e (fexp (Zpos (digits2_pos m) + e))) as [mz ez].
  destruct Hsh as (Hval & Hpre & _).
  apply binary_round_aux_within; auto; [lia|].
  destruct s; cbn [cond_Zopp] in *; rewrite ?dyadic_opp in *; rewrite Hval; exact Hb.
Qed.

(** A number of the format is not changed by rounding. *)
Lemma binary_round_exact s m e :
  fexp (Zpos (digits2_pos m) + e) <= e ->
  (dyadic (Zpos m) e < pow2 emax)%Q ->
  exists m' e',
    binary_round prec emax s m e = S754_finite s m' e' /\
    bounded prec emax m' e' = true /\
    (dyadic (Zpos m') e' == dyadic (Zpos m) e)%Q.
Proof.
  intros Hfe Hlt. unfold binary_round.
  pose proof (shl_align_fexp m e) as Hsh.
  destruct (shl_align m e (fexp (Zpos (digits2_pos m) + e))) as [mz ez].
  destruct Hsh as (Hval & Hpre & Heq). specialize (Heq Hfe).
  destruct (binary_round_aux_spec s (Zpos mz) ez loc_Exact ltac:(lia) Hpre)
    as (m1 & _ & Hexact & Hr).
  rewrite <- Heq in *. replace (ez - ez) with 0 in * by lia.
  rewrite Z.pow_0_r, Z.div_1_r in *.
  specialize (Hexact eq_refl (Z.mod_1_r _)). subst m1.
  destruct (binary_round_aux prec emax s (Zpos mz) ez loc_Exact) as [s'|s'| |s' m' e'].
  - destruct Hr as [_ Hr]. discriminate Hr.
  - destruct Hr as [_ Hr]. exfalso. rewrite Hval in Hr.
    apply (Qlt_irrefl (pow2 emax)). eapply Qle_lt_trans; eauto.
  - contradiction.
  - destruct Hr as (-> & Hb & Hv). exists m', e'. split; [reflexivity|].
    split; [exact Hb|]. rewrite Hv. exact Hval.
Qed.

Lemma binary_normalize_within z e sz L U :
  vf L -> vf U ->
  (Format.to_Q L <= dyadic z e <= Format.to_Q U)%Q ->
  within L U (binary_normalize prec emax z e sz).
Proof.
  intros HL HU Hb. destruct z as [|p|p]; cbn [binary_normalize].
  - rewrite dyadic_0 in Hb. split; [apply vf_zero|]. exact Hb.
  - apply binary_round_within; auto.
  - apply binary_round_within; auto.
Qed.

(** *** The operations on valid finite floats *)

Lemma within_exact L U x :
  vf x -> (Format.to_Q L <= Format.to_Q x <= Format.to_Q U)%Q -> within L U x.
Proof. intros; split; auto. Qed.

Lemma SFadd_within x y L U :
  vf x -> vf y -> vf L -> vf U ->
  (Format.to_Q L <= Format.to_Q x + Format.to_Q y <= Format.to_Q U)%Q ->
  within L U (SFadd prec emax x y).
Proof.
  intros Hx Hy HL HU Hb.
  destruct x as [sx|sx| |sx mx ex]; try (destruct Hx as [_ Hx]; discriminate Hx);
  destruct y as [sy|sy| |sy my ey]; try (destruct Hy as [_ Hy]; discriminate Hy);
  cbn [SFadd].
  - rewrite !to_Q_zero in Hb.
    destruct sx, sy; (split; [apply vf_zero|rewrite to_Q_zero; lra]).
  - rewrite to_Q_zero in Hb. apply within_exact; auto. lra.
  - rewrite to_Q_zero in Hb. apply within_exact; auto. lra.
  - apply binary_normalize_within; auto.
    rewrite !to_Q_finite in Hb.
    pose proof (shl_align_spec mx ex (Z.min ex ey)) as Hax.
    pose proof (shl_align_spec my ey (Z.min ex ey)) as Hay.
    destruct (shl_align mx ex (Z.min ex ey)) as [mx' ex'].
    destruct (shl_align my ey (Z.min ex ey)) as [my' ey'].
    destruct Hax as [Hex' Hmx']. destruct Hay as [Hey' Hmy'].
    cbn [fst].
    assert (Hvx : (dyadic (cond_Zopp sx (Zpos mx')) (Z.min ex ey)
                   == dyadic (cond_Zopp sx (Zpos mx)) ex)%Q).
    { rewrite Hmx'. destruct sx; cbn [cond_Zopp]; rewrite ?dyadic_opp, dyadic_shift by lia;
        replace (Z.min ex ey + (ex - ex')) with ex by lia; reflexivity. }
    assert (Hvy : (dyadic (cond_Zopp sy (Zpos my')) (Z.min ex ey)
                   == dyadic (cond_Zopp sy (Zpos my)) ey)%Q).
    { rewrite Hmy'. destruct sy; cbn [cond_Zopp]; rewrite ?dyadic_opp, dyadic_shift by lia;
        replace (Z.min ex ey + (ey - ey')) with ey by lia; reflexivity. }
    rewrite dyadic_add, Hvx, Hvy. exact Hb.
Qed.

Lemma SFsub_within x y L U :
  vf x -> vf y -> vf L -> vf U ->
  (Format.to_Q L <= Format.to_Q x - Format.to_Q y <= Format.to_Q U)%Q ->
  within L U (SFsub prec emax x y).
Proof.
  intros Hx Hy HL HU Hb. rewrite SFsub_add_opp.
  apply SFadd_within; auto using vf_opp. rewrite to_Q_opp. lra.
Qed.

Lemma SFmul_pre mx ex my ey :
  bounded prec emax mx ex = true -> bounded prec emax my ey = true ->
  ex + ey <= fexp (Zdigits2 (Zpos (mx * my)) + (ex + ey)).
Proof.
  intros Hx Hy.
  destruct (bounded_digits mx ex Hx) as (Hdx & Hexlo & _ & Hnx).
  destruct (bounded_digits my ey Hy) as (Hdy & Heylo & _ & Hny).
  destruct (Zdigits2_bounds (Zpos mx) ltac:(lia)) as [Hxlo _].
  destruct (Zdigits2_bounds (Zpos my) ltac:(lia)) as [Hylo _].
  destruct (Zdigits2_bounds (Zpos (mx * my)) ltac:(lia)) as [_ Hphi].
  pose proof (Zdigits2_pos (Zpos mx) ltac:(lia)) as Hpx.
  pose proof (Zdigits2_pos (Zpos my) ltac:(lia)) as Hpy.
  assert (Hd : Zdigits2 (Zpos mx) + Zdigits2 (Zpos my) - 1 <= Zdigits2 (Zpos (mx * my))).
  { destruct (Z.le_gt_cases (Zdigits2 (Zpos mx) + Zdigits2 (Zpos my) - 1)
                (Zdigits2 (Zpos (mx * my)))) as [|Hgt]; auto.
    assert (Hpow : 2 ^ Zdigits2 (Zpos (mx * my))
            <= 2 ^ (Zdigits2 (Zpos mx) - 1 + (Zdigits2 (Zpos my) - 1)))
      by (apply Z.pow_le_mono_r; lia).
    rewrite Z.pow_add_r in Hpow by lia.
    assert (0 < 2 ^ (Zdigits2 (Zpos mx) - 1)) by (apply Z.pow_pos_nonneg; lia).
    assert (0 < 2 ^ (Zdigits2 (Zpos my) - 1)) by (apply Z.pow_pos_nonneg; lia).
    assert (Hprod : 2 ^ (Zdigits2 (Zpos mx) - 1) * 2 ^ (Zdigits2 (Zpos my) - 1)
                    <= Zpos mx * Zpos my) by (apply Z.mul_le_mono_nonneg; lia).
    pose proof (Pos2Z.inj_mul mx my). lia. }
  rewrite fexp_spec. lia.
Qed.

Lemma SFmul_within x y L U :
  vf x -> vf y -> vf L -> vf U ->
  (Format.to_Q L <= Format.to_Q x * Format.to_Q y <= Format.to_Q U)%Q ->
  within L U (SFmul prec emax x y).
Proof.
  intros Hx Hy HL HU Hb.
  destruct x as [sx|sx| |sx mx ex]; try (destruct Hx as [_ Hx]; discriminate Hx);
  destruct y as [sy|sy| |sy my ey]; try (destruct Hy as [_ Hy]; discriminate Hy);
  cbn [SFmul].
  - rewrite !to_Q_zero in Hb. split; [apply vf_zero|rewrite to_Q_zero; lra].
  - rewrite !to_Q_zero in Hb. split; [apply vf_zero|rewrite to_Q_zero; lra].
  - rewrite !to_Q_zero in Hb. split; [apply vf_zero|rewrite to_Q_zero; lra].
  - apply binary_round_aux_within; auto; [lia| |].
    + apply SFmul_pre; apply vf_finite_inv with (s := false); split; try reflexivity.
      * apply Hx.
      * apply Hy.
    + rewrite !to_Q_finite in Hb.
      destruct sx, sy; cbn [xorb cond_Zopp] in *;
        rewrite ?dyadic_opp in *; rewrite Pos2Z.inj_mul, dyadic_mul; lra.
Qed.

Lemma convert_within x L U :
  (Format.is_finite x = true) -> vf L -> vf U ->
  (Format.to_Q L <= Format.to_Q x <= Format.to_Q U)%Q ->
  within L U (Format.convert prec emax x).
Proof.
  intros Hx HL HU Hb.
  destruct x as [sx|sx| |sx mx ex]; try discriminate Hx; cbn [Format.convert].
  - split; [apply vf_zero|exact Hb].
  - apply binary_round_within; auto.
Qed.

Lemma new_location_exact nb_steps k :
  new_location nb_steps k = loc_Exact -> k = 0.
Proof.
  unfold new_location, new_location_even, new_location_odd.
  destruct (Z.even nb_steps); destruct (Z.eqb_spec k 0); auto; discriminate.
Qed.

Lemma shiftl_cases m s :
  0 <= s ->
  match s with Zpos _ => Z.shiftl m s | Z0 => m | Zneg _ => 0 end = m * 2 ^ s.
Proof.
  intros Hs. destruct s as [|p|p]; try lia.
  apply Z.shiftl_mul_pow2. lia.
Qed.


End Rounding.

(** ** The error of one rounding *)

Section RoundingError.
Variables prec emax : Z.
Hypothesis Hprec : 0 < prec.
Hypothesis Hemax : prec < emax.

Local Abbreviation fexp := (SpecFloat.fexp prec emax).
Local Abbreviation vf := (valid_finite prec emax).
Local Abbreviation close := (close_to prec emax).

Lemma close_opp eps v x : close eps v x -> close eps (- v) (SFopp x).
Proof.
  intros [Hv [Hlo Hhi]]. split; [apply vf_opp; exact Hv|].
  rewrite to_Q_opp. lra.
Qed.

Lemma close_exact eps v x :
  vf x -> (0 <= eps)%Q -> (Format.to_Q x == v)%Q -> close eps v x.
Proof. intros Hv He Hq. split; [exact Hv|]. lra. Qed.

(** A number below [2 ^ K] is rounded with an error of at most
    [2 ^ (K - prec)], the unit in the last place at that magnitude. *)
Lemma binary_round_aux_close_pos m e K :
  0 < m -> e <= fexp (Zdigits2 m + e) ->
  3 - emax <= K -> K < emax ->
  (dyadic m e < pow2 K)%Q ->
  close (pow2 (K - prec)) (dyadic m e)
    (binary_round_aux prec emax false m e loc_Exact).
Proof.
  intros Hm Hpre HKlo HKhi Hlt.
  destruct (binary_round_aux_spec prec emax Hprec Hemax false m e loc_Exact
              (Z.lt_le_incl _ _ Hm) Hpre) as (m1 & Hm1 & _ & Hr).
  set (e' := fexp (Zdigits2 m + e)) in *.
  set (n := e' - e) in *.
  assert (Hn : 0 <= n) by (unfold n; lia).
  assert (Hpn : 0 < 2 ^ n) by (apply Z.pow_pos_nonneg; lia).
  assert (Hd : Zdigits2 m + e <= K).
  { assert (Zdigits2 m - 1 + e < K); [|lia].
    apply pow2_lt_inv. eapply Qle_lt_trans; [apply dyadic_digits_ge; exact Hm|exact Hlt]. }
  assert (He' : e' <= K - prec) by (unfold e'; rewrite fexp_spec; lia).
  assert (Hulp : (pow2 e' <= pow2 (K - prec))%Q) by (apply pow2_le; exact He').
  set (k := m / 2 ^ n) in *.
  assert (Hdiv : k * 2 ^ n <= m < (k + 1) * 2 ^ n).
  { unfold k. pose proof (Z.div_mod m (2 ^ n) ltac:(lia)) as Hdm.
    pose proof (Z.mod_pos_bound m (2 ^ n) Hpn). lia. }
  assert (Hklo : (dyadic k e' <= dyadic m e)%Q).
  { replace e' with (e + n) by (unfold n; lia). rewrite <- dyadic_shift by lia.
    apply dyadic_le_same. lia. }
  assert (Hkhi : (dyadic m e < dyadic k e' + pow2 e')%Q).
  { rewrite <- dyadic_1, <- dyadic_add.
    replace e' with (e + n) by (unfold n; lia). rewrite <- dyadic_shift by lia.
    apply dyadic_lt_same. lia. }
  assert (Hm1v : (dyadic m e - pow2 e' <= dyadic m1 e' <= dyadic m e + pow2 e')%Q).
  { pose proof (pow2_pos e').
    destruct Hm1 as [-> | ->].
    - lra.
    - rewrite dyadic_add, dyadic_1. lra. }
  destruct (binary_round_aux prec emax false m e loc_Exact) as [s'|s'| |s' m'' e''].
  - destruct Hr as [_ Hz]. split; [apply vf_zero|].
    rewrite to_Q_zero. rewrite Hz, dyadic_0 in Hm1v. lra.
  - destruct Hr as [_ Hinf]. exfalso.
    assert (Hp : (pow2 K + pow2 (K - prec) <= pow2 emax)%Q).
    { assert (H1 : (pow2 (K - prec) <= pow2 K)%Q) by (apply pow2_le; lia).
      assert (H2 : (pow2 (K + 1) <= pow2 emax)%Q) by (apply pow2_le; lia).
      rewrite pow2_add in H2. change (pow2 1) with 2%Q in H2. lra. }
    lra.
  - contradiction.
  - destruct Hr as (-> & Hb & Hv). split; [apply vf_finite; exact Hb|].
    rewrite to_Q_finite. cbn [cond_Zopp]. rewrite Hv. lra.
Qed.

Lemma binary_round_aux_close s m e K :
  0 < m -> e <= fexp (Zdigits2 m + e) ->
  3 - emax <= K -> K < emax ->
  (dyadic m e < pow2 K)%Q ->
  close (pow2 (K - prec)) (dyadic (cond_Zopp s m) e)
    (binary_round_aux prec emax s m e loc_Exact).
Proof.
  intros Hm Hpre HKlo HKhi Hlt. destruct s.
  - change true with (negb false). rewrite binary_round_aux_opp.
    cbn [cond_Zopp negb]. 
    assert (Hq : (dyadic (- m) e == - dyadic m e)%Q) by apply dyadic_opp.
    destruct (close_opp _ _ _ (binary_round_aux_close_pos m e K Hm Hpre HKlo HKhi Hlt))
      as [Hv Hb].
    split; [exact Hv|]. rewrite Hq. exact Hb.
  - apply binary_round_aux_close_pos; auto.
Qed.

Lemma binary_round_close s m e K :
  3 - emax <= K -> K < emax ->
  (dyadic (Zpos m) e < pow2 K)%Q ->
  close (pow2 (K - prec)) (dyadic (cond_Zopp s (Zpos m)) e)
    (binary_round prec emax s m e).
Proof.
  intros HKlo HKhi Hlt. unfold binary_round.
  pose proof (shl_align_fexp prec emax m e) as Hsh.
  destruct (shl_align m e (fexp (Zpos (digits2_pos m) + e))) as [mz ez].
  destruct Hsh as (Hval & Hpre & _).
  destruct (binary_round_aux_close s (Zpos mz) ez K) as [Hv Hb]; auto; [lia|rewrite Hval; exact Hlt|].
  split; [exact Hv|].
  assert (Hq : (dyadic (cond_Zopp s (Zpos mz)) ez == dyadic (cond_Zopp s (Zpos m)) e)%Q).
  { destruct s; cbn [cond_Zopp]; rewrite ?dyadic_opp; rewrite Hval; reflexivity. }
  rewrite <- Hq. exact Hb.
Qed.

Lemma binary_normalize_close z e sz K :
  3 - emax <= K -> K < emax ->
  (- pow2 K < dyadic z e < pow2 K)%Q ->
  close (pow2 (K - prec)) (dyadic z e) (binary_normalize prec emax z e sz).
Proof.
  intros HKlo HKhi [Hlo Hhi]. pose proof (pow2_pos (K - prec)) as Hpos.
  destruct z as [|p|p]; cbn [binary_normalize].
  - apply close_exact; [apply vf_zero|lra|]. rewrite to_Q_zero, dyadic_0. reflexivity.
  - apply (binary_round_close false p e K); auto.
  - apply (binary_round_close true p e K); auto.
    change (Zneg p) with (- Zpos p) in Hlo. rewrite dyadic_opp in Hlo. lra.
Qed.

Lemma SFadd_close x y K :
  vf x -> vf y -> 3 - emax <= K -> K < emax ->
  (- pow2 K < Format.to_Q x + Format.to_Q y < pow2 K)%Q ->
  close (pow2 (K - prec)) (Format.to_Q x + Format.to_Q y) (SFadd prec emax x y).
Proof.
  intros Hx Hy HKlo HKhi Hb. pose proof (pow2_pos (K - prec)) as Hpos.
  destruct x as [sx|sx| |sx mx ex]; try (destruct Hx as [_ Hx]; discriminate Hx);
  destruct y as [sy|sy| |sy my ey]; try (destruct Hy as [_ Hy]; discriminate Hy);
  cbn [SFadd].
  - apply close_exact; [destruct sx, sy; apply vf_zero|lra|].
    rewrite !to_Q_zero. destruct sx, sy; rewrite to_Q_zero; lra.
  - apply close_exact; [exact Hy|lra|]. rewrite to_Q_zero. lra.
  - apply close_exact; [exact Hx|lra|]. rewrite to_Q_zero. lra.
  - rewrite !to_Q_finite in *.
    pose proof (shl_align_spec mx ex (Z.min ex ey)) as Hax.
    pose proof (shl_align_spec my ey (Z.min ex ey)) as Hay.
    destruct (shl_align mx ex (Z.min ex ey)) as [mx' ex'].
    destruct (shl_align my ey (Z.min ex ey)) as [my' ey'].
    destruct Hax as [Hex' Hmx']. destruct Hay as [Hey' Hmy'].
    cbn [fst].
    assert (Hvx : (dyadic (cond_Zopp sx (Zpos mx')) (Z.min ex ey)
                   == dyadic (cond_Zopp sx (Zpos mx)) ex)%Q).
    { rewrite Hmx'. destruct sx; cbn [cond_Zopp]; rewrite ?dyadic_opp, dyadic_shift by lia;
        replace (Z.min ex ey + (ex - ex')) with ex by lia; reflexivity. }
    assert (Hvy : (dyadic (cond_Zopp sy (Zpos my')) (Z.min ex ey)
                   == dyadic (cond_Zopp sy (Zpos my)) ey)%Q).
    { rewrite Hmy'. destruct sy; cbn [cond_Zopp]; rewrite ?dyadic_opp, dyadic_shift by lia;
        replace (Z.min ex ey + (ey - ey')) with ey by lia; reflexivity. }
    assert (Hsum : (dyadic (cond_Zopp sx (Zpos mx') + cond_Zopp sy (Zpos my')) (Z.min ex ey)
                    == dyadic (cond_Zopp sx (Zpos mx)) ex + dyadic (cond_Zopp sy (Zpos my)) ey)%Q)
      by (rewrite dyadic_add, Hvx, Hvy; reflexivity).
    destruct (binary_normalize_close
                (cond_Zopp sx (Zpos mx') + cond_Zopp sy (Zpos my')) (Z.min ex ey) false K)
      as [Hv Hc]; auto.
    { rewrite Hsum. exact Hb. }
    split; [exact Hv|]. rewrite <- Hsum. exact Hc.
Qed.

Lemma SFsub_close x y K :
  vf x -> vf y -> 3 - emax <= K -> K < emax ->
  (- pow2 K < Format.to_Q x - Format.to_Q y < pow2 K)%Q ->
  close (pow2 (K - prec)) (Format.to_Q x - Format.to_Q y) (SFsub prec emax x y).
Proof.
  intros Hx Hy HKlo HKhi Hb. rewrite SFsub_add_opp.
  destruct (SFadd_close x (SFopp y) K) as [Hv Hc]; auto using vf_opp.
  { rewrite to_Q_opp. lra. }
  split; [exact Hv|]. rewrite to_Q_opp in Hc. lra.
Qed.

Lemma SFmul_close x y K :
  vf x -> vf y -> 3 - emax <= K -> K < emax ->
  (- pow2 K < Format.to_Q x * Format.to_Q y < pow2 K)%Q ->
  close (pow2 (K - prec)) (Format.to_Q x * Format.to_Q y) (SFmul prec emax x y).
Proof.
  intros Hx Hy HKlo HKhi Hb. pose proof (pow2_pos (K - prec)) as Hpos.
  destruct x as [sx|sx| |sx mx ex]; try (destruct Hx as [_ Hx]; discriminate Hx);
  destruct y as [sy|sy| |sy my ey]; try (destruct Hy as [_ Hy]; discriminate Hy);
  cbn [SFmul].
  - apply close_exact; [apply vf_zero|lra|]. rewrite !to_Q_zero. lra.
  - apply close_exact; [apply vf_zero|lra|]. rewrite !to_Q_zero. lra.
  - apply close_exact; [apply vf_zero|lra|]. rewrite !to_Q_zero. lra.
  - rewrite !to_Q_finite in *.
    assert (Hprod : (dyadic (cond_Zopp (xorb sx sy) (Zpos (mx * my))) (ex + ey)
                     == dyadic (cond_Zopp sx (Zpos mx)) ex * dyadic (cond_Zopp sy (Zpos my)) ey)%Q).
    { destruct sx, sy; cbn [xorb cond_Zopp];
        rewrite ?dyadic_opp; rewrite Pos2Z.inj_mul, dyadic_mul; lra. }
    destruct (binary_round_aux_close (xorb sx sy) (Zpos (mx * my)) (ex + ey) K)
      as [Hv Hc]; auto; [lia| | |].
    + apply SFmul_pre; auto; apply vf_finite_inv with (s := false); split; try reflexivity.
      * apply Hx.
      * apply Hy.
    + assert (Habs : (dyadic (Zpos (mx * my)) (ex + ey)
                      == dyadic (Zpos mx) ex * dyadic (Zpos my) ey)%Q)
        by (rewrite Pos2Z.inj_mul, dyadic_mul; reflexivity).
      rewrite Habs.
      destruct sx, sy; cbn [cond_Zopp] in Hb; rewrite ?dyadic_opp in Hb; lra.
    + split; [exact Hv|]. rewrite <- Hprod. exact Hc.
Qed.

End RoundingError.

(** ** The two formats *)

Lemma F32_prec : 0 < F32.prec.
Proof. reflexivity. Qed.
Lemma F32_emax : F32.prec < F32.emax.
Proof. reflexivity. Qed.
Lemma F64_prec : 0 < F64.prec.
Proof. reflexivity. Qed.
Lemma F64_emax : F64.prec < F64.emax.
Proof. reflexivity. Qed.

Lemma F32_add_within x y L U :
  vf32 x -> vf32 y -> vf32 L -> vf32 U ->
  (Format.to_Q L <= Format.to_Q x + Format.to_Q y <= Format.to_Q U)%Q ->
  within32 L U (F32.add x y).
Proof. apply SFadd_within; [exact F32_prec|exact F32_emax]. Qed.

Lemma F32_sub_within x y L U :
  vf32 x -> vf32 y -> vf32 L -> vf32 U ->
  (Format.to_Q L <= Format.to_Q x - Format.to_Q y <= Format.to_Q U)%Q ->
  within32 L U (F32.sub x y).
Proof. apply SFsub_within; [exact F32_prec|exact F32_emax]. Qed.

Lemma F32_mul_within x y L U :
  vf32 x -> vf32 y -> vf32 L -> vf32 U ->
  (Format.to_Q L <= Format.to_Q x * Format.to_Q y <= Format.to_Q U)%Q ->
  within32 L U (F32.mul x y).
Proof. apply SFmul_within; [exact F32_prec|exact F32_emax]. Qed.



Lemma F64_mul_within x y L U :
  vf64 x -> vf64 y -> vf64 L -> vf64 U ->
  (Format.to_Q L <= Format.to_Q x * Format.to_Q y <= Format.to_Q U)%Q ->
  within64 L U (F64.mul x y).
Proof. apply SFmul_within; [exact F64_prec|exact F64_emax]. Qed.

Lemma d2f_within x L U :
  vf64 x -> vf32 L -> vf32 U ->
  (Format.to_Q L <= Format.to_Q x <= Format.to_Q U)%Q ->
  within32 L U (d2f x).
Proof.
  intros [_ Hx]. apply convert_within; [exact F32_prec|exact F32_emax|exact Hx].
Qed.

(** The promotion of a [float] to [double] is exact. *)
Lemma f2d_exact x :
  vf32 x -> vf64 (f2d x) /\ (Format.to_Q (f2d x) == Format.to_Q x)%Q.
Proof.
  intros [Hv Hf]. destruct x as [s|s| |s m e]; try discriminate Hf.
  - split; [split; reflexivity|reflexivity].
  - cbn [valid_binary] in Hv. unfold f2d. cbn [Format.convert].
    destruct (bounded_digits F32.prec F32.emax m e Hv) as (Hd & Helo & Hehi & _).
    destruct (binary_round_exact F64.prec F64.emax F64_prec F64_emax s m e)
      as (m' & e' & -> & Hb & Hval).
    + change (Zpos (digits2_pos m)) with (Zdigits2 (Zpos m)).
      rewrite fexp_spec. unfold F32.prec, F32.emax, F64.prec, F64.emax in *. lia.
    + eapply Qlt_le_trans; [apply (bounded_lt_pow2_emax F32.prec F32.emax); exact Hv|].
      apply pow2_le. unfold F32.emax, F64.emax. lia.
    + split; [split; [exact Hb|reflexivity]|].
      rewrite !to_Q_finite. destruct s; cbn [cond_Zopp]; rewrite ?dyadic_opp, Hval; reflexivity.
Qed.

Lemma within32_leb L U x :
  vf32 L -> vf32 U -> within32 L U x ->
  F32.leb L x = true /\ F32.leb x U = true.
Proof.
  intros HL HU [Hx [Hlo Hhi]]. split.
  - apply (SFleb_spec F32.prec F32.emax); auto.
  - apply (SFleb_spec F32.prec F32.emax); auto.
Qed.

Lemma F32_mul_close x y K :
  vf32 x -> vf32 y -> -125 <= K < 128 ->
  (- pow2 K < Format.to_Q x * Format.to_Q y < pow2 K)%Q ->
  close32 (pow2 (K - 24)) (Format.to_Q x * Format.to_Q y) (x * y)%f32.
Proof.
  intros Hx Hy HK Hb.
  exact (SFmul_close F32.prec F32.emax F32_prec F32_emax x y K Hx Hy
           (proj1 HK) (proj2 HK) Hb).
Qed.

(** ** [atan2] *)

Lemma within_weaken prec emax L U L' U' x :
  in_interval prec emax L U x ->
  (Format.to_Q L' <= Format.to_Q L)%Q -> (Format.to_Q U <= Format.to_Q U')%Q ->
  in_interval prec emax L' U' x.
Proof. intros [Hv [Hlo Hhi]] HL HU. split; [exact Hv|]. lra. Qed.


Lemma SFcompare_not_nan u v :
  Format.is_nan u = false -> Format.is_nan v = false ->
  exists c, SFcompare u v = Some c.
Proof.
  intros Hu Hv.
  destruct u as [su|su| |su mu eu]; try discriminate Hu;
  destruct v as [sv|sv| |sv mv ev]; try discriminate Hv; cbn [SFcompare]; eauto.
Qed.


Lemma SFltb_leb u v : SFltb u v = true -> SFleb u v = true.
Proof. unfold SFleb, SFltb. destruct (SFcompare u v) as [[| |]|]; congruence. Qed.







(** * Part III: the claims *)

Lemma lit_zero : #0.0 = S754_zero false.
Proof. reflexivity. Qed.

Lemma lit_half : #0.5 = S754_finite false 8388608 (-24).
Proof. reflexivity. Qed.

Lemma lit_one : #1.0 = S754_finite false 8388608 (-23).
Proof. reflexivity. Qed.

Lemma ltb_zero_sign x :
  F32.ltb x #0.0 =
  match x with S754_finite s _ _ | S754_infinity s => s | _ => false end.
Proof.
  rewrite lit_zero. destruct x as [s|s| |s m e]; try reflexivity; destruct s; reflexivity.
Qed.

Lemma F32_mul_opp_l x y : (- x * y = - (x * y))%f32.
Proof. apply SFmul_opp_l. Qed.

Lemma F32_mul_opp_opp x y : (- x * - y = x * y)%f32.
Proof. apply SFmul_opp_opp. Qed.

Lemma F32_abs_opp x : F32.abs (- x)%f32 = F32.abs x.
Proof. apply SFabs_opp. Qed.

Lemma F32_opp_involutive x : (- - x = x)%f32.
Proof. apply SFopp_involutive. Qed.

Lemma F32_leb_true_ltb_false x y : F32.leb x y = true -> F32.ltb y x = false.
Proof. apply SFleb_true_ltb_false. Qed.


Lemma F32_ltb_true_eqb_false x y : F32.ltb x y = true -> F32.eqb x y = false.
Proof. apply SFltb_true_eqb_false. Qed.

Lemma F32_ltb_leb x y : F32.ltb x y = true -> F32.leb x y = true.
Proof. apply SFltb_leb. Qed.

(** ** C8: symmetries of the hyperbolic functions *)

Lemma abs_ge_half_cases x :
  F32.ltb (F32.abs x) #0.5 = false ->
  x = S754_nan \/
  exists s, F32.ltb x #0.0 = s /\ F32.ltb (- x)%f32 #0.0 = negb s /\
            (if s then (- x)%f32 else x) = F32.abs x.
Proof.
  intros H. destruct x as [s|s| |s m e].
  - rewrite lit_half in H. destruct s; discriminate H.
  - right. exists s. rewrite !ltb_zero_sign. cbn. destruct s; auto.
  - left; reflexivity.
  - right. exists s. rewrite !ltb_zero_sign. cbn. destruct s; auto.
Qed.

Lemma sinh_odd x : sinh (- x)%f32 = res_map F32.opp (sinh x).
Proof.
  unfold sinh. rewrite F32_abs_opp, F32_mul_opp_opp.
  destruct (F32.ltb (F32.abs x) #0.5) eqn:Hsmall.
  - cbn [res_map bind]. rewrite F32_mul_opp_l. reflexivity.
  - destruct (abs_ge_half_cases x Hsmall) as [-> | [s (Hs & Hs' & Habs)]].
    + vm_compute. reflexivity.
    + rewrite Hs, Hs'. rewrite F32_opp_involutive.
      destruct s; cbn [negb] in *; rewrite Habs;
        destruct (exp (F32.abs x)); cbn [res_map bind];
        rewrite ?F32_opp_involutive; reflexivity.
Qed.

Lemma cosh_even x : cosh (- x)%f32 = cosh x.
Proof. unfold cosh. rewrite F32_abs_opp, F32_mul_opp_opp. reflexivity. Qed.

Lemma asinh_odd x :
  Format.is_nan x = false -> asinh (- x)%f32 = (- asinh x)%f32.
Proof.
  intros Hnan.
  unfold asinh. rewrite F32_abs_opp, F32_mul_opp_opp.
  destruct (F32.ltb (F32.abs x) #0.5) eqn:Hsmall.
  - rewrite F32_mul_opp_l. reflexivity.
  - destruct (abs_ge_half_cases x Hsmall) as [-> | [s (Hs & Hs' & Habs)]].
    + discriminate Hnan.
    + rewrite Hs, Hs'. rewrite F32_opp_involutive.
      destruct s; cbn [negb] in *; rewrite Habs, ?F32_opp_involutive; reflexivity.
Qed.

Lemma SFcompare_finite_pos m1 e1 m2 e2 :
  SFcompare (S754_finite false m1 e1) (S754_finite false m2 e2) =
  Some match e1 ?= e2 with
       | Lt => Lt
       | Gt => Gt
       | Eq => Pos.compare_cont Eq m1 m2
       end.
Proof. reflexivity. Qed.

Lemma abs_lt_half_not_ge_one x :
  F32.ltb (F32.abs x) #0.5 = true -> F32.leb #1.0 (F32.abs x) = false.
Proof.
  rewrite lit_half, lit_one. unfold F32.ltb, F32.leb, SFltb, SFleb.
  destruct x as [s|s| |s m e]; try reflexivity; try discriminate.
  cbn [F32.abs SFabs]. rewrite !SFcompare_finite_pos.
  destruct (e ?= -24) eqn:E1; destruct (-23 ?= e) eqn:E2;
    try discriminate; try reflexivity;
    try (apply Z.compare_eq in E1); try (apply Z.compare_eq in E2);
    rewrite ?Z.compare_lt_iff, ?Z.compare_gt_iff in *; try lia.
Qed.

Lemma atanh_odd_taylor x :
  F32.ltb (F32.abs x) #0.5 = true -> atanh (- x)%f32 = (- atanh x)%f32.
Proof.
  intros Hsmall. unfold atanh.
  rewrite F32_abs_opp, F32_mul_opp_opp, Hsmall, (abs_lt_half_not_ge_one x Hsmall).
  rewrite F32_mul_opp_l. reflexivity.
Qed.

Lemma atanh_out_of_domain x :
  F32.leb #1.0 (F32.abs x) = true -> atanh x = #0.0 /\ atanh (- x)%f32 = #0.0.
Proof.
  intros H. unfold atanh. rewrite F32_abs_opp, H. split; reflexivity.
Qed.

(** C8, as the specification states it, fails: on [0.5 <= |x| < 1] [atanh]
    evaluates the closed form on [x] itself and the two sides differ in the
    last bits; and [asinh] of a NaN is a positive number, whatever the sign
    in front. *)
Lemma hyperbolic_symmetries_counterexample :
  atanh (- #0.625)%f32 = S754_finite true 12300530 (-24) /\
  (- atanh #0.625)%f32 = S754_finite true 12300527 (-24) /\
  atanh (- #0.625)%f32 <> (- atanh #0.625)%f32 /\
  asinh (- S754_nan)%f32 <> (- asinh S754_nan)%f32.
Proof.
  split; [vm_compute; reflexivity|]. split; [vm_compute; reflexivity|].
  split; vm_compute; discriminate.
Qed.

(** C8 (amended): [sinh] is odd and [cosh] is even on every input, [asinh]
    is odd on every input that is not a NaN, and [atanh] is odd on the
    Taylor region [|x| < 0.5]; outside of its domain, [|x| >= 1], [atanh]
    returns [+0] for [x] and for [-x]. *)
Theorem hyperbolic_symmetries :
  (forall x, sinh (- x)%f32 = res_map F32.opp (sinh x)) /\
  (forall x, cosh (- x)%f32 = cosh x) /\
  (forall x, Format.is_nan x = false -> asinh (- x)%f32 = (- asinh x)%f32) /\
  (forall x, F32.ltb (F32.abs x) #0.5 = true -> atanh (- x)%f32 = (- atanh x)%f32) /\
  (forall x, F32.leb #1.0 (F32.abs x) = true ->
             atanh x = #0.0 /\ atanh (- x)%f32 = #0.0).
Proof.
  split; [exact sinh_odd|]. split; [exact cosh_even|]. split; [exact asinh_odd|].
  split; [exact atanh_odd_taylor|exact atanh_out_of_domain].
Qed.

Lemma hyperbolic_symmetries_witness :
  asinh (- #2.0)%f32 = (- asinh #2.0)%f32 /\
  atanh (- #0.25)%f32 = (- atanh #0.25)%f32 /\
  (atanh #1.5 = #0.0 /\ atanh (- #1.5)%f32 = #0.0).
Proof.
  destruct hyperbolic_symmetries as (_ & _ & Hasinh & Hatanh & Hout).
  split; [apply Hasinh; reflexivity|].
  split; [apply Hatanh; vm_compute; reflexivity|].
  apply Hout; vm_compute; reflexivity.
Defined.

(** ** C5: [round] rounds halves away from zero *)



(** ** C6: the identities of the special-case ladder of [pow] *)

(** C6: [pow b 0 = 1] and [pow b 1 = b] for every base [b] (zero included),
    and [pow 2 3] is exactly [8], by the closed form [base * base * base]
    of the integer fast path. *)
Theorem pow_special_cases :
  (forall b, pow b #0.0 = Val #1.0) /\
  (forall b, pow b #1.0 = Val b) /\
  pow #2.0 #3.0 = Val #8.0 /\
  pow #2.0 #3.0 = Val (#2.0 * #2.0 * #2.0)%f32.
Proof.
  split. { intros b. unfold pow. replace (#0.0 =? #0.0)%f32 with true by reflexivity. reflexivity. }
  split.
  { intros b. unfold pow.
    replace (#1.0 =? #0.0)%f32 with false by (vm_compute; reflexivity).
    replace (#1.0 =? #1.0)%f32 with true by (vm_compute; reflexivity).
    reflexivity. }
  split; vm_compute; reflexivity.
Qed.

(** ** C9: [fmod] *)

Lemma abs_lt_abs_nonzero x y :
  F32.ltb (F32.abs x) (F32.abs y) = true -> F32.eqb y #0.0 = false.
Proof.
  rewrite lit_zero. intros H.
  destruct y as [s|s| |s m e]; try reflexivity.
  - destruct x as [sx|sx| |sx mx ex]; cbn in H; discriminate H.
  - destruct s; reflexivity.
  - destruct s; reflexivity.
Qed.

(** C9: a zero divisor gives [0]; a dividend smaller in magnitude than the
    divisor is returned unchanged; [fmod 7 3 = 1] and [fmod (-7) 3 = -1]. *)
Theorem fmod_cases :
  (forall x s, fmod x (S754_zero s) = Val #0.0) /\
  (forall x y, F32.ltb (F32.abs x) (F32.abs y) = true -> fmod x y = Val x) /\
  fmod #7.0 #3.0 = Val #1.0 /\
  fmod (- #7.0)%f32 #3.0 = Val (- #1.0)%f32.
Proof.
  split. { intros x s. unfold fmod. rewrite lit_zero. destruct s; reflexivity. }
  split.
  { intros x y H. unfold fmod. rewrite (abs_lt_abs_nonzero x y H), H. reflexivity. }
  split; vm_compute; reflexivity.
Qed.

Lemma fmod_cases_witness : fmod #2.0 #3.0 = Val #2.0.
Proof.
  apply (proj1 (proj2 fmod_cases)). vm_compute. reflexivity.
Defined.

(** ** C3: the range reduction does not terminate on large inputs *)

Lemma sub_two_pi_stuck fuel :
  sub_two_pi_while_above fuel #1e9 = Diverge.
Proof.
  induction fuel as [|fuel IH]; [reflexivity|].
  cbn [sub_two_pi_while_above].
  replace (pi <? #1e9)%f32 with true by (vm_compute; reflexivity).
  replace (#1e9 - two_pi)%f32 with #1e9 by (vm_compute; reflexivity).
  exact IH.
Qed.

Lemma add_two_pi_skipped fuel :
  add_two_pi_while_below (S fuel) #1e9 = Val #1e9.
Proof.
  cbn [add_two_pi_while_below].
  replace (#1e9 <? - pi)%f32 with false by (vm_compute; reflexivity).
  reflexivity.
Qed.

(** C3 fails on the code: at [theta = 1e9f], the subtraction of [two_pi]
    is absorbed by the rounding ([1e9f - two_pi = 1e9f]) while [1e9f > pi],
    so the second loop of [sin] and of [cos] is still running whatever the
    fuel. *)
Theorem range_reduction_diverges :
  (#1e9 - two_pi)%f32 = #1e9 /\ (#1e9 >? pi)%f32 = true /\
  forall fuel, sin fuel #1e9 = Diverge /\ cos fuel #1e9 = Diverge.
Proof.
  split; [vm_compute; reflexivity|]. split; [vm_compute; reflexivity|].
  intros [|fuel]; [split; reflexivity|].
  unfold sin, cos. rewrite add_two_pi_skipped. cbn [bind].
  rewrite sub_two_pi_stuck. split; reflexivity.
Qed.

(** ** C4: the sentinels of the domain violations *)

Lemma fractional_eqb_false x c :
  fractional x = true -> fractional c = false -> F32.eqb x c = false.
Proof.
  intros Hx Hc. destruct (F32.eqb x c) eqn:Heq; [|reflexivity].
  destruct x as [s|s| |s m e]; try discriminate Hx.
  apply SFeqb_finite_true in Heq. rewrite Heq, Hx in Hc. discriminate Hc.
Qed.

Lemma negative_eqb_one_false b : F32.ltb b #0.0 = true -> F32.eqb b #1.0 = false.
Proof.
  rewrite ltb_zero_sign, lit_one.
  destruct b as [s|s| |s m e]; try discriminate; intros ->; reflexivity.
Qed.

Lemma of_int_not_fractional z :
  Z.abs z < 2 ^ 24 -> fractional (F32.of_int z) = false.
Proof.
  intros Hz. unfold F32.of_int.
  assert (Hround : forall s p, Zpos p < 2 ^ 24 ->
            fractional (binary_round F32.prec F32.emax s p 0) = false).
  { intros s p Hp.
    destruct (binary_round_exact F32.prec F32.emax F32_prec F32_emax s p 0)
      as (m' & e' & -> & _ & Hval).
    - change (Zpos (digits2_pos p)) with (Zdigits2 (Zpos p)).
      assert (Zdigits2 (Zpos p) <= 24).
      { destruct (Zdigits2_bounds (Zpos p) ltac:(lia)) as [Hlo _].
        destruct (Z.le_gt_cases (Zdigits2 (Zpos p)) 24); auto.
        assert (2 ^ 24 <= 2 ^ (Zdigits2 (Zpos p) - 1)) by (apply Z.pow_le_mono_r; lia). lia. }
      rewrite fexp_spec. unfold F32.prec, F32.emax. lia.
    - apply Qlt_le_trans with (dyadic (2 ^ 24) 0).
      + apply dyadic_lt_same. exact Hp.
      + rewrite <- (Z.mul_1_l (2 ^ 24)), dyadic_shift, dyadic_1 by lia.
        apply pow2_le. unfold F32.emax. lia.
    - cbn [fractional]. destruct (Z.ltb_spec e' 0) as [Hneg|]; [|reflexivity].
      cbn [andb].
      assert (Heq : Zpos m' = Zpos p * 2 ^ (- e')).
      { apply (dyadic_eq_same _ _ e'). rewrite Hval.
        rewrite dyadic_shift by lia. replace (e' + - e') with 0 by lia. reflexivity. }
      rewrite Heq, Z.mod_mul by (apply Z.pow_nonzero; lia). reflexivity. }
  destruct z as [|p|p]; cbn [binary_normalize]; [reflexivity| |]; apply Hround; lia.
Qed.

Lemma fractional_to_int x :
  F32.valid x = true -> fractional x = true ->
  exists z, to_int x = Val z /\ Z.abs z < 2 ^ 24.
Proof.
  intros Hv Hx. destruct x as [s|s| |s m e]; try discriminate Hx.
  cbn [fractional] in Hx. apply andb_true_iff in Hx. destruct Hx as [He _].
  apply Z.ltb_lt in He.
  destruct (bounded_digits F32.prec F32.emax m e Hv) as (Hd & _).
  assert (Hm : Zpos m < 2 ^ 24).
  { destruct (Zdigits2_bounds (Zpos m) ltac:(lia)) as [_ Hhi].
    eapply Z.lt_le_trans; [exact Hhi|]. apply Z.pow_le_mono_r; unfold F32.prec in Hd; lia. }
  unfold to_int, trunc.
  replace (0 <=? e) with false by (symmetry; apply Z.leb_gt; exact He).
  rewrite Z.shiftr_div_pow2 by lia.
  assert (Hq : 0 <= Zpos m / 2 ^ (- e) <= Zpos m).
  { split; [apply Z.div_pos; [lia|apply Z.pow_pos_nonneg; lia]|].
    apply Z.div_le_upper_bound; [apply Z.pow_pos_nonneg; lia|].
    assert (0 < 2 ^ (- e)) by (apply Z.pow_pos_nonneg; lia).
    nia. }
  set (q := Zpos m / 2 ^ (- e)) in *.
  exists (cond_Zopp s q).
  assert (Habs : Z.abs (cond_Zopp s q) < 2 ^ 24) by (destruct s; cbn [cond_Zopp]; lia).
  split; [|exact Habs].
  replace (Int.in_range (cond_Zopp s q)) with true; [reflexivity|].
  symmetry. unfold Int.in_range, Int.min_signed, Int.max_signed.
  apply andb_true_iff. rewrite !Z.leb_le.
  change (2 ^ 24) with 16777216 in Habs. change (2 ^ 31) with 2147483648. lia.
Qed.

Lemma pow_negative_base_fractional b e :
  F32.ltb b #0.0 = true -> F32.valid e = true -> fractional e = true ->
  pow b e = Val #0.0.
Proof.
  intros Hb Hv He. unfold pow.
  rewrite (fractional_eqb_false e #0.0 He) by (vm_compute; reflexivity).
  rewrite (fractional_eqb_false e #1.0 He) by (vm_compute; reflexivity).
  rewrite (F32_ltb_true_eqb_false _ _ Hb), (negative_eqb_one_false b Hb).
  rewrite (fractional_eqb_false e #2.0 He) by (vm_compute; reflexivity).
  rewrite (fractional_eqb_false e #3.0 He) by (vm_compute; reflexivity).
  rewrite (fractional_eqb_false e #4.0 He) by (vm_compute; reflexivity).
  destruct (F32.eqb e #0.5).
  { unfold sqrt. rewrite (F32_ltb_leb _ _ Hb). reflexivity. }
  rewrite (fractional_eqb_false e (- #1.0)%f32 He) by (vm_compute; reflexivity).
  rewrite (fractional_eqb_false e (- #2.0)%f32 He) by (vm_compute; reflexivity).
  destruct (fractional_to_int e Hv He) as (z & -> & Hz).
  cbn [bind].
  rewrite (fractional_eqb_false e (F32.of_int z) He (of_int_not_fractional z Hz)).
  cbn [bind]. rewrite Hb. reflexivity.
Qed.

Lemma pow_zero_negative_exponent s e :
  F32.ltb e #0.0 = true -> pow (S754_zero s) e = Val #1e38.
Proof.
  intros He. unfold pow.
  rewrite (F32_ltb_true_eqb_false _ _ He).
  replace (F32.eqb e #1.0) with false.
  2:{ symmetry. revert He. rewrite ltb_zero_sign, lit_one.
      destruct e as [se|se| |se me ee]; try discriminate; intros ->; reflexivity. }
  replace (F32.eqb (S754_zero s) #0.0) with true by (destruct s; reflexivity).
  rewrite (F32_leb_true_ltb_false _ _ (F32_ltb_leb _ _ He)). reflexivity.
Qed.

(** C4: the domain violations give the sentinels, without an error:
    [log x = -1e38] for [x <= 0]; [atanh x = 0] for [|x| >= 1];
    [pow 0 e = 1e38] for [e < 0]; and [pow b e = 0] for a negative base [b]
    and an exponent [e] that is not an integer. *)
Theorem domain_violation_sentinels :
  (forall x, F32.leb x #0.0 = true -> log x = (- #1e38)%f32) /\
  (forall x, F32.leb #1.0 (F32.abs x) = true -> atanh x = #0.0) /\
  (forall s e, F32.ltb e #0.0 = true -> pow (S754_zero s) e = Val #1e38) /\
  (forall b e, F32.ltb b #0.0 = true -> F32.valid e = true -> fractional e = true ->
               pow b e = Val #0.0).
Proof.
  split. { intros x H. unfold log. rewrite H. reflexivity. }
  split. { intros x H. unfold atanh. rewrite H. reflexivity. }
  split; [exact pow_zero_negative_exponent|exact pow_negative_base_fractional].
Qed.

Lemma domain_violation_sentinels_witness :
  log (- #2.0)%f32 = (- #1e38)%f32 /\
  atanh #1.5 = #0.0 /\
  pow #0.0 (- #3.0)%f32 = Val #1e38 /\
  pow (- #2.0)%f32 #1.5 = Val #0.0.
Proof.
  destruct domain_violation_sentinels as (Hlog & Hatanh & Hzero & Hneg).
  split; [apply Hlog; vm_compute; reflexivity|].
  split; [apply Hatanh; vm_compute; reflexivity|].
  split; [apply (Hzero false); vm_compute; reflexivity|].
  apply Hneg; vm_compute; reflexivity.
Defined.

(** ** C1: the pipeline of [sin] and [cos] *)

Lemma zero_eq : zero = S754_zero false.
Proof. reflexivity. Qed.

Lemma ltb_zero_sign' x :
  F32.ltb x zero =
  match x with S754_finite s _ _ | S754_infinity s => s | _ => false end.
Proof. rewrite zero_eq, <- lit_zero. apply ltb_zero_sign. Qed.

Lemma F32_add_comm x y : (x + y = y + x)%f32.
Proof. apply SFadd_comm. Qed.

Lemma F32_sub_opp_r x y : (x - - y = x + y)%f32.
Proof. apply SFsub_opp_r. Qed.

(** The two branches of the correction are the pass
    [y + P * (y * |y| - y)]. *)
Lemma correction_eq y :
  (if (y <? zero)%f32 then (P * (y * - y - y) + y)%f32
   else (P * (y * y - y) + y)%f32) = Spec.correction y.
Proof.
  unfold Spec.correction. rewrite ltb_zero_sign'.
  destruct y as [s|s| |s m e].
  - destruct s; vm_compute; reflexivity.
  - destruct s; vm_compute; reflexivity.
  - vm_compute; reflexivity.
  - destruct s; cbn [F32.abs SFabs F32.opp SFopp negb]; apply F32_add_comm.
Qed.

(** The two branches of the base term are
    [theta * B - sign(theta) * C * theta^2]. *)
Lemma parabola_eq theta :
  (if (theta <? zero)%f32 then (theta * B + C * theta * theta)%f32
   else (theta * B - C * theta * theta)%f32) = Spec.parabola theta.
Proof.
  unfold Spec.parabola, Spec.sign. rewrite ltb_zero_sign'.
  destruct theta as [s|s| |s m e].
  - destruct s; vm_compute; reflexivity.
  - destruct s; vm_compute; reflexivity.
  - vm_compute; reflexivity.
  - destruct s.
    + replace (F32.lit (-1) * C)%f32 with (- C)%f32 by (vm_compute; reflexivity).
      rewrite !F32_mul_opp_l, F32_sub_opp_r. reflexivity.
    + replace (zero <? S754_finite false m e)%f32 with true by (rewrite zero_eq; reflexivity).
      replace (F32.lit 1 * C)%f32 with C by (vm_compute; reflexivity).
      reflexivity.
Qed.

Lemma sin_kernel_eq theta :
  (if (theta <? zero)%f32 then
     let sin := (theta * B + C * theta * theta)%f32 in
     if (sin <? zero)%f32 then (P * (sin * - sin - sin) + sin)%f32
     else (P * (sin * sin - sin) + sin)%f32
   else
     let sin := (theta * B - C * theta * theta)%f32 in
     if (sin <? zero)%f32 then (P * (sin * - sin - sin) + sin)%f32
     else (P * (sin * sin - sin) + sin)%f32) = Spec.sin theta.
Proof.
  unfold Spec.sin. rewrite <- parabola_eq, <- correction_eq.
  destruct (theta <? zero)%f32; reflexivity.
Qed.

Lemma sin_reduced fuel theta :
  F32.leb (- pi)%f32 theta = true -> F32.leb theta pi = true ->
  sin (S fuel) theta = Val (Spec.sin theta).
Proof.
  intros Hlo Hhi. unfold sin. cbn [add_two_pi_while_below].
  rewrite (F32_leb_true_ltb_false _ _ Hlo). cbn [bind sub_two_pi_while_above].
  rewrite (F32_leb_true_ltb_false _ _ Hhi). cbn [bind].
  rewrite sin_kernel_eq. reflexivity.
Qed.

Lemma cos_reduced fuel theta :
  F32.leb (- pi)%f32 theta = true -> F32.leb theta pi = true ->
  cos (S fuel) theta = Val (Spec.cos theta).
Proof.
  intros Hlo Hhi. unfold cos. cbn [add_two_pi_while_below].
  rewrite (F32_leb_true_ltb_false _ _ Hlo). cbn [bind sub_two_pi_while_above].
  rewrite (F32_leb_true_ltb_false _ _ Hhi). cbn [bind].
  change (if (pi <? theta + half_pi)%f32 then (theta + half_pi - two_pi)%f32
          else (theta + half_pi)%f32) with (Spec.wrap (theta + half_pi)%f32).
  cbv zeta. rewrite sin_kernel_eq. reflexivity.
Qed.

(** The phase shift followed by the re-wrap stays in [-pi, pi]. *)
Lemma wrap_within theta :
  vf32 theta -> (- Format.to_Q pi <= Format.to_Q theta <= Format.to_Q pi)%Q ->
  within32 (- pi)%f32 pi (Spec.wrap (theta + half_pi)%f32).
Proof.
  intros Hvt [Hlo Hhi].
  assert (Hvpi : vf32 pi) by vf_const.
  assert (Hvmpi : vf32 (- pi)%f32) by vf_const.
  assert (Hvhp : vf32 half_pi) by vf_const.
  assert (Hvmhp : vf32 (- half_pi)%f32) by vf_const.
  assert (Hv2pi : vf32 two_pi) by vf_const.
  assert (Hvz : vf32 (S754_zero false)) by vf_const.
  assert (V0 : (Format.to_Q (- pi)%f32 == - Format.to_Q pi)%Q) by apply to_Q_opp.
  assert (V1 : (Format.to_Q (- half_pi)%f32 <= Format.to_Q (- pi)%f32 + Format.to_Q half_pi)%Q) by q_const.
  assert (V2 : (Format.to_Q pi + Format.to_Q half_pi <= Format.to_Q two_pi)%Q) by q_const.
  assert (V3 : (Format.to_Q (- pi)%f32 <= Format.to_Q pi - Format.to_Q two_pi)%Q) by q_const.
  assert (V4 : (Format.to_Q (- pi)%f32 <= Format.to_Q (- half_pi)%f32)%Q) by q_const.
  assert (V5 : (Format.to_Q (- pi)%f32 <= 0)%Q) by q_const.
  assert (V6 : (0 <= Format.to_Q pi)%Q) by q_const.
  destruct (F32_add_within theta half_pi (- half_pi)%f32 two_pi) as [Hvs [Hslo Hshi]]; auto.
  { lra. }
  set (t := (theta + half_pi)%f32) in *.
  unfold Spec.wrap.
  destruct (F32.ltb pi t) eqn:Hgt.
  - apply (SFltb_spec F32.prec F32.emax _ _ Hvpi Hvs) in Hgt.
    destruct (F32_sub_within t two_pi (- pi)%f32 (S754_zero false)) as [Hvw [Hwlo Hwhi]]; auto.
    { rewrite to_Q_zero. lra. }
    rewrite to_Q_zero in Hwhi.
    split; [exact Hvw|]. lra.
  - assert (Hle : (Format.to_Q t <= Format.to_Q pi)%Q).
    { destruct (Qlt_le_dec (Format.to_Q pi) (Format.to_Q t)) as [Hlt|]; auto.
      apply (SFltb_spec F32.prec F32.emax _ _ Hvpi Hvs) in Hlt.
      unfold F32.ltb in Hgt. rewrite Hlt in Hgt. discriminate Hgt. }
    split; [exact Hvs|]. lra.
Qed.

Lemma wrap_range theta :
  F32.valid theta = true ->
  F32.leb (- pi)%f32 theta = true -> F32.leb theta pi = true ->
  F32.leb (- pi)%f32 (Spec.wrap (theta + half_pi)%f32) = true /\
  F32.leb (Spec.wrap (theta + half_pi)%f32) pi = true.
Proof.
  intros Hv Hlo Hhi.
  assert (Hfin : Format.is_finite theta = true).
  { destruct theta as [s|s| |s m e]; try reflexivity.
    - exfalso. destruct s; [revert Hlo|revert Hhi]; vm_compute; discriminate.
    - exfalso. revert Hlo. vm_compute. discriminate. }
  assert (Hvt : vf32 theta) by (split; assumption).
  assert (Hvpi : vf32 pi) by vf_const.
  assert (Hvmpi : vf32 (- pi)%f32) by vf_const.
  apply (SFleb_spec F32.prec F32.emax _ _ Hvmpi Hvt) in Hlo.
  apply (SFleb_spec F32.prec F32.emax _ _ Hvt Hvpi) in Hhi.
  rewrite (to_Q_opp pi) in Hlo.
  exact (within32_leb _ _ _ Hvmpi Hvpi (wrap_within theta Hvt (conj Hlo Hhi))).
Qed.

(** C1: on an input already in [-pi, pi], [sin] is the parabola base term
    [theta * B - sign(theta) * C * theta^2] with [B = 4 / pi] and
    [C = 4 / pi^2], followed by one correction pass [y + P * (y * |y| - y)]
    with [P = 0.225] (not 0.218); [cos] is the same pipeline after the phase
    shift by [pi / 2] and the re-wrap, which stays in [-pi, pi]. *)
Theorem sin_cos_pipeline :
  (B = (#4.0 / pi)%f32 /\ C = (#4.0 / (pi * pi))%f32 /\
   P = #0.225 /\ P <> #0.218 /\
   pi = #3.14159265358979323846264338327950288) /\
  forall fuel theta,
    F32.leb (- pi)%f32 theta = true -> F32.leb theta pi = true ->
    sin (S fuel) theta = Val (Spec.correction (Spec.parabola theta)) /\
    cos (S fuel) theta =
      Val (Spec.correction (Spec.parabola (Spec.wrap (theta + half_pi)%f32))) /\
    (F32.valid theta = true ->
     F32.leb (- pi)%f32 (Spec.wrap (theta + half_pi)%f32) = true /\
     F32.leb (Spec.wrap (theta + half_pi)%f32) pi = true).
Proof.
  split.
  { split; [vm_compute; reflexivity|]. split; [vm_compute; reflexivity|].
    split; [vm_compute; reflexivity|]. split; [vm_compute; discriminate|].
    vm_compute; reflexivity. }
  intros fuel theta Hlo Hhi.
  split; [exact (sin_reduced fuel theta Hlo Hhi)|].
  split; [exact (cos_reduced fuel theta Hlo Hhi)|].
  intros Hv. exact (wrap_range theta Hv Hlo Hhi).
Qed.

Lemma sin_cos_pipeline_witness :
  sin 1 #1.0 = Val (Spec.correction (Spec.parabola #1.0)) /\
  cos 1 #2.0 = Val (Spec.correction (Spec.parabola (Spec.wrap (#2.0 + half_pi)%f32))) /\
  F32.leb (- pi)%f32 (Spec.wrap (#2.0 + half_pi)%f32) = true.
Proof.
  destruct sin_cos_pipeline as [_ H].
  split; [apply (H 0%nat #1.0); vm_compute; reflexivity|].
  destruct (H 0%nat #2.0) as (_ & Hcos & Hwrap); try (vm_compute; reflexivity).
  split; [exact Hcos|]. apply Hwrap. vm_compute. reflexivity.
Defined.

(** ** The range of the kernel of [sin] and [cos] *)

Local Abbreviation q := Format.to_Q.

Lemma F32_mul_opp_r x y : (x * - y = - (x * y))%f32.
Proof. apply SFmul_opp_r. Qed.

Lemma q_B : (q B == 10680707 * 2 ^ (-23))%Q.
Proof. q_const. Qed.

Lemma q_C : (q C == 13599098 * 2 ^ (-25))%Q.
Proof. q_const. Qed.

Lemma q_pi : (q pi == 13176795 * 2 ^ (-22))%Q.
Proof. q_const. Qed.

Lemma q_P : (0 <= q P <= 1)%Q.
Proof. split; q_const. Qed.

(** The two terms of the base term on [0 <= theta <= pi]: their difference
    is the parabola up to three roundings. *)
Lemma parabola_terms theta :
  vf32 theta -> (0 <= q theta <= q pi)%Q ->
  vf32 (theta * B)%f32 /\ vf32 (C * theta * theta)%f32 /\
  (q theta * q B - q C * q theta * q theta - (2 ^ (-20)) - (2 ^ (-23)) * q theta
   <= q (theta * B)%f32 - q (C * theta * theta)%f32
   <= q theta * q B - q C * q theta * q theta + (2 ^ (-20)) + (2 ^ (-23)) * q theta)%Q.
Proof.
  intros Hv [H0 Hpi].
  assert (HvB : vf32 B) by vf_const. assert (HvC : vf32 C) by vf_const.
  pose proof q_B as HB. pose proof q_C as HC. pose proof q_pi as Hp.
  set (t := q theta) in *. rewrite Hp in Hpi.
  assert (E21 : (pow2 (3 - 24) == 2 ^ (-21))%Q) by q_const.
  assert (E23 : (pow2 (1 - 24) == 2 ^ (-23))%Q) by q_const.
  assert (P3 : (pow2 3 == 8)%Q) by q_const.
  assert (P1 : (pow2 1 == 2)%Q) by q_const.
  destruct (F32_mul_close theta B 3 Hv HvB ltac:(lia)) as [Hva Ha].
  { fold t. rewrite P3, HB. split; nra. }
  destruct (F32_mul_close C theta 1 HvC Hv ltac:(lia)) as [Hvc Hc].
  { fold t. rewrite P1, HC. split; nra. }
  fold t in Ha, Hc. rewrite E21 in Ha. rewrite E23 in Hc.
  set (a := q (theta * B)%f32) in *. set (c1 := q (C * theta)%f32) in *.
  rewrite HC in Hc.
  destruct (F32_mul_close (C * theta)%f32 theta 3 Hvc Hv ltac:(lia)) as [Hvd Hd].
  { fold t c1. rewrite P3. split; nra. }
  fold t c1 in Hd. rewrite E21 in Hd.
  set (d := q (C * theta * theta)%f32) in *.
  split; [exact Hva|]. split; [exact Hvd|].
  rewrite HB, HC. rewrite HB in Ha.
  split; nra.
Qed.

(** Away from the top of the parabola the base term stays in [[-1, 1]],
    whatever the three roundings do. *)
Lemma parabola_outside theta :
  vf32 theta -> (0 <= q theta <= q pi)%Q ->
  (q theta <= 13160000 * 2 ^ (-23) \/ 13193600 * 2 ^ (-23) <= q theta)%Q ->
  vf32 (theta * B)%f32 /\ vf32 (C * theta * theta)%f32 /\
  (- (1) <= q (theta * B)%f32 - q (C * theta * theta)%f32 <= 1)%Q.
Proof.
  intros Hv Hr Hout.
  destruct (parabola_terms theta Hv Hr) as (Hva & Hvd & Hlo & Hhi).
  split; [exact Hva|]. split; [exact Hvd|].
  destruct Hr as [H0 Hpi].
  set (a := q (theta * B)%f32) in *. set (d := q (C * theta * theta)%f32) in *.
  set (t := q theta) in *.
  rewrite q_B, q_C in Hlo, Hhi. rewrite q_pi in Hpi.
  split.
  - assert (Hp : (0 <= t * (13176795 * 2 ^ (-22) - t))%Q)
      by (apply Qmult_le_0_compat; lra).
    nra.
  - destruct Hout as [Hout|Hout].
    + assert (Hp : (0 <= (13160000 * 2 ^ (-23) - t)
                         * (10680707 * 2 ^ (-23) + 2 ^ (-23)
                            - 13599098 * 2 ^ (-25) * (t + 13160000 * 2 ^ (-23))))%Q)
        by (apply Qmult_le_0_compat; lra).
      nra.
    + assert (Hp : (0 <= (t - 13193600 * 2 ^ (-23))
                         * (13599098 * 2 ^ (-25) * (t + 13193600 * 2 ^ (-23))
                            - (10680707 * 2 ^ (-23) + 2 ^ (-23))))%Q)
        by (apply Qmult_le_0_compat; lra).
      nra.
Qed.

Lemma vf32_one : vf32 #1.0.
Proof. vf_const. Qed.

Lemma vf32_minus_one : vf32 (- #1.0)%f32.
Proof. vf_const. Qed.

Lemma q_one : (q #1.0 == 1)%Q.
Proof. q_const. Qed.

Lemma q_minus_one : (q (- #1.0)%f32 == - (1))%Q.
Proof. q_const. Qed.

(** The base term on [[-pi, pi]], away from the top of the parabola. *)
Lemma parabola_unit theta :
  vf32 theta -> (- q pi <= q theta <= q pi)%Q ->
  (q (F32.abs theta) <= 13160000 * 2 ^ (-23)
   \/ 13193600 * 2 ^ (-23) <= q (F32.abs theta))%Q ->
  within32 (- #1.0)%f32 #1.0 (Spec.parabola theta).
Proof.
  intros Hv Hr Hout. rewrite <- parabola_eq, ltb_zero_sign'.
  pose proof vf32_one as Hv1. pose proof vf32_minus_one as Hvm1.
  assert (Hpos : forall x, vf32 x -> (0 <= q x <= q pi)%Q ->
            (q x <= 13160000 * 2 ^ (-23) \/ 13193600 * 2 ^ (-23) <= q x)%Q ->
            within32 (- #1.0)%f32 #1.0 (x * B - C * x * x)%f32).
  { intros x Hx Hxr Hxo.
    destruct (parabola_outside x Hx Hxr Hxo) as (Hva & Hvd & Hb).
    apply F32_sub_within; auto. rewrite q_one, q_minus_one. exact Hb. }
  destruct theta as [s|s| |s m e]; try (destruct Hv as [_ Hv]; discriminate Hv).
  - apply Hpos; auto. rewrite to_Q_zero. split; [lra|q_const].
  - destruct s.
    + set (x := S754_finite false m e).
      change (S754_finite true m e) with (- x)%f32 in *.
      assert (Hx : vf32 x) by (rewrite <- (F32_opp_involutive x); apply vf_opp; exact Hv).
      rewrite to_Q_opp in Hr.
      change (F32.abs (- x)%f32) with x in Hout.
      destruct (parabola_outside x Hx ltac:(pose proof (dyadic_pos (Zpos m) e eq_refl);
                  change (q x) with (dyadic (Zpos m) e) in *; lra) Hout)
        as (Hva & Hvd & Hb).
      rewrite F32_mul_opp_l, !F32_mul_opp_r, F32_mul_opp_l, F32_opp_involutive.
      apply F32_add_within; auto; [apply vf_opp; exact Hva|].
      rewrite q_minus_one, q_one, to_Q_opp. lra.
    + change (F32.abs (S754_finite false m e)) with (S754_finite false m e) in Hout.
      apply Hpos; auto.
      pose proof (dyadic_pos (Zpos m) e eq_refl).
      change (q (S754_finite false m e)) with (dyadic (Zpos m) e) in *. lra.
Qed.

(** The correction pass keeps [[-1, 1]]. *)
Lemma correction_unit y :
  within32 (- #1.0)%f32 #1.0 y ->
  within32 (- #1.0)%f32 #1.0 (Spec.correction y).
Proof.
  intros [Hv [Hlo Hhi]]. unfold Spec.correction.
  pose proof vf32_one as Hv1. pose proof vf32_minus_one as Hvm1.
  assert (Hvz : vf32 (S754_zero false)) by vf_const.
  assert (HvP : vf32 P) by vf_const.
  pose proof q_P as [HP0 HP1]. rewrite q_one in *. rewrite q_minus_one in *.
  destruct y as [s|s| |s m e]; try (destruct Hv as [_ Hv]; discriminate Hv).
  - destruct s; (split; [vf_const|split; q_const]).
  - set (t := q (S754_finite s m e)) in *.
    destruct s.
    + (* y < 0: the product is - y^2, the bracket is in [0, 1] *)
      set (y := S754_finite true m e) in *.
      change (F32.abs y) with (- y)%f32.
      assert (Hneg : (t < 0)%Q) by (apply dyadic_neg; reflexivity).
      destruct (F32_mul_within y (- y)%f32 y (S754_zero false)) as [Hvq [Hq1 Hq2]];
        auto using vf_opp.
      { rewrite to_Q_opp, to_Q_zero. fold t. split; nra. }
      rewrite to_Q_zero in Hq2. fold t in Hq1.
      destruct (F32_sub_within (y * - y)%f32 y (S754_zero false) #1.0) as [Hvz' [Hz1 Hz2]]; auto.
      { rewrite to_Q_zero, q_one. fold t. lra. }
      rewrite to_Q_zero in Hz1. rewrite q_one in Hz2.
      destruct (F32_mul_within P (y * - y - y)%f32 (S754_zero false) #1.0) as [Hvp [Hp1 Hp2]]; auto.
      { rewrite to_Q_zero, q_one. split; nra. }
      rewrite to_Q_zero in Hp1. rewrite q_one in Hp2.
      destruct (F32_add_within y (P * (y * - y - y))%f32 y #1.0) as [Hvr [Hr1 Hr2]]; auto.
      { rewrite q_one. fold t. lra. }
      split; [exact Hvr|]. fold t in Hr1. rewrite q_one in Hr2. rewrite q_one, q_minus_one. lra.
    + set (y := S754_finite false m e) in *.
      change (F32.abs y) with y.
      assert (Hpos : (0 < t)%Q) by (apply dyadic_pos; reflexivity).
      destruct (F32_mul_within y y (S754_zero false) y) as [Hvq [Hq1 Hq2]]; auto.
      { rewrite to_Q_zero. fold t. split; nra. }
      rewrite to_Q_zero in Hq1. fold t in Hq2.
      destruct (F32_sub_within (y * y)%f32 y (- #1.0)%f32 (S754_zero false)) as [Hvz' [Hz1 Hz2]]; auto.
      { rewrite to_Q_zero, q_minus_one. fold t. lra. }
      rewrite to_Q_zero in Hz2. rewrite q_minus_one in Hz1.
      destruct (F32_mul_within P (y * y - y)%f32 (- #1.0)%f32 (S754_zero false)) as [Hvp [Hp1 Hp2]]; auto.
      { rewrite to_Q_zero, q_minus_one. split; nra. }
      rewrite to_Q_zero in Hp2. rewrite q_minus_one in Hp1.
      destruct (F32_add_within y (P * (y * y - y))%f32 (- #1.0)%f32 y) as [Hvr [Hr1 Hr2]]; auto.
      { rewrite q_minus_one. fold t. lra. }
      split; [exact Hvr|]. fold t in Hr2. rewrite q_minus_one in Hr1. rewrite q_one, q_minus_one. lra.
Qed.

(** *** The neighbourhood of the top, float by float *)

Lemma forall_range_spec f n :
  forall lo m, forall_range f lo n = true ->
    lo <= m < lo + Z.of_nat n -> f m = true.
Proof.
  induction n as [|n IH]; intros lo m H Hm; [lia|].
  cbn [forall_range] in H. apply andb_true_iff in H. destruct H as [Hlo Hrest].
  destruct (Z.eq_dec m lo) as [->|Hne]; [exact Hlo|].
  apply (IH (lo + 1)); [exact Hrest|lia].
Qed.

Lemma window_checked :
  forall_range window_ok window_lo (Z.to_nat (window_hi - window_lo + 1)) = true.
Proof. vm_compute. reflexivity. Qed.

(** The floats between [window_lo * 2^-23] and [window_hi * 2^-23] have
    the exponent [-23]. *)
Lemma window_floats m e :
  bounded F32.prec F32.emax m e = true ->
  (13160000 * 2 ^ (-23) <= dyadic (Zpos m) e <= 13193600 * 2 ^ (-23))%Q ->
  e = -23 /\ window_lo <= Zpos m <= window_hi.
Proof.
  intros Hb [Hlo Hhi].
  destruct (bounded_digits F32.prec F32.emax m e Hb) as (Hd & Helo & _ & Hnorm).
  pose proof (dyadic_digits_ge (Zpos m) e eq_refl) as Hge.
  pose proof (dyadic_digits_lt (Zpos m) e eq_refl) as Hlt.
  assert (H1 : Zdigits2 (Zpos m) - 1 + e < 1).
  { apply pow2_lt_inv. eapply Qle_lt_trans; [exact Hge|].
    eapply Qle_lt_trans; [exact Hhi|]. q_const. }
  assert (H2 : 0 < Zdigits2 (Zpos m) + e).
  { apply pow2_lt_inv. eapply Qlt_trans; [|exact Hlt].
    eapply Qlt_le_trans; [|exact Hlo]. q_const. }
  change F32.prec with 24 in *. change F32.emax with 128 in *.
  assert (He : e = -23) by lia. subst e. split; [reflexivity|].
  change (13160000 * 2 ^ (-23))%Q with (dyadic window_lo (-23)) in Hlo.
  change (13193600 * 2 ^ (-23))%Q with (dyadic window_hi (-23)) in Hhi.
  apply dyadic_le_same in Hlo. apply dyadic_le_same in Hhi. lia.
Qed.

Lemma vf32_unit_bound : vf32 unit_bound.
Proof. vf_const. Qed.

Lemma within_near_unit r :
  within32 (- #1.0)%f32 #1.0 r -> near_unit_range r = true.
Proof.
  intros [Hv [Hlo Hhi]]. unfold near_unit_range.
  pose proof vf32_unit_bound as Hu.
  apply andb_true_iff. split.
  - apply (SFleb_spec F32.prec F32.emax); [apply vf_opp; exact Hu|exact Hv|].
    eapply Qle_trans; [|exact Hlo]. q_const.
  - apply (SFleb_spec F32.prec F32.emax); [exact Hv|exact Hu|].
    eapply Qle_trans; [exact Hhi|]. q_const.
Qed.

(** The kernel of [sin] and [cos] on [[-pi, pi]]. *)
Lemma kernel_range theta :
  vf32 theta -> (- q pi <= q theta <= q pi)%Q ->
  near_unit_range (Spec.sin theta) = true.
Proof.
  intros Hv Hr.
  assert (Hout :
    (q (F32.abs theta) <= 13160000 * 2 ^ (-23)
     \/ 13193600 * 2 ^ (-23) <= q (F32.abs theta))%Q ->
    near_unit_range (Spec.sin theta) = true).
  { intros Hout. apply within_near_unit. apply correction_unit.
    apply parabola_unit; assumption. }
  destruct (Qlt_le_dec (13160000 * 2 ^ (-23)) (q (F32.abs theta))) as [Hlo|Hlo];
    [|apply Hout; left; exact Hlo].
  destruct (Qlt_le_dec (q (F32.abs theta)) (13193600 * 2 ^ (-23))) as [Hhi|Hhi];
    [|apply Hout; right; exact Hhi].
  clear Hout.
  destruct theta as [s|s| |s m e]; try (destruct Hv as [_ Hv]; discriminate Hv).
  - exfalso. revert Hlo. cbn [F32.abs SFabs]. rewrite to_Q_zero. q_const.
  - cbn [F32.abs SFabs] in Hlo, Hhi. rewrite to_Q_finite in Hlo, Hhi.
    cbn [cond_Zopp] in Hlo, Hhi.
    destruct (window_floats m e (vf_finite_inv _ _ _ _ _ Hv)) as [-> Hm];
      [split; apply Qlt_le_weak; assumption|].
    pose proof (forall_range_spec window_ok _ _ (Zpos m) window_checked) as Hok.
    assert (Hin : window_lo <= Zpos m < window_lo + Z.of_nat (Z.to_nat (window_hi - window_lo + 1))).
    { rewrite Z2Nat.id by (vm_compute; discriminate). lia. }
    specialize (Hok Hin). unfold window_ok in Hok.
    change (Z.to_pos (Zpos m)) with m in Hok.
    apply andb_true_iff in Hok. destruct Hok as [Hp Hn].
    destruct s; assumption.
Qed.

(** *** The range reduction *)

Lemma add_two_pi_neg_infinity fuel :
  add_two_pi_while_below fuel (S754_infinity true) = Diverge.
Proof.
  induction fuel as [|fuel IH]; [reflexivity|].
  cbn [add_two_pi_while_below].
  replace (S754_infinity true <? - pi)%f32 with true by (vm_compute; reflexivity).
  replace (S754_infinity true + two_pi)%f32 with (S754_infinity true)
    by (vm_compute; reflexivity).
  exact IH.
Qed.

Lemma sub_two_pi_pos_infinity fuel :
  sub_two_pi_while_above fuel (S754_infinity false) = Diverge.
Proof.
  induction fuel as [|fuel IH]; [reflexivity|].
  cbn [sub_two_pi_while_above].
  replace (pi <? S754_infinity false)%f32 with true by (vm_compute; reflexivity).
  replace (S754_infinity false - two_pi)%f32 with (S754_infinity false)
    by (vm_compute; reflexivity).
  exact IH.
Qed.

Lemma vf32_pi : vf32 pi.
Proof. vf_const. Qed.

Lemma vf32_two_pi : vf32 two_pi.
Proof. vf_const. Qed.

Lemma q_two_pi : (q two_pi == 2 * q pi)%Q.
Proof. q_const. Qed.

Lemma valid_not_nan_cases x :
  F32.valid x = true -> Format.is_nan x = false ->
  vf32 x \/ exists s, x = S754_infinity s.
Proof.
  intros Hv Hn. destruct x as [s|s| |s m e]; try discriminate Hn.
  - left. split; [exact Hv|reflexivity].
  - right. eauto.
  - left. split; [exact Hv|reflexivity].
Qed.

(** When the first loop exits, [theta] is [+infinity] or a float not less
    than [-pi]. *)
Lemma add_two_pi_post fuel :
  forall theta theta',
    F32.valid theta = true -> Format.is_nan theta = false ->
    add_two_pi_while_below fuel theta = Val theta' ->
    theta' = S754_infinity false \/ (vf32 theta' /\ (- q pi <= q theta')%Q).
Proof.
  pose proof vf32_pi as Hvpi. pose proof vf32_two_pi as Hv2pi. pose proof q_pi as Hqpi.
  assert (Hvmpi : vf32 (- pi)%f32) by (apply vf_opp; exact Hvpi).
  induction fuel as [|fuel IH]; intros theta theta' Hv Hn H; [discriminate H|].
  cbn [add_two_pi_while_below] in H.
  destruct (valid_not_nan_cases theta Hv Hn) as [Hvf|[s ->]].
  - destruct (theta <? - pi)%f32 eqn:Hlt.
    + apply (SFltb_spec F32.prec F32.emax _ _ Hvf Hvmpi) in Hlt.
      rewrite to_Q_opp in Hlt.
      destruct (F32_add_within theta two_pi theta pi) as [Hvs _]; auto.
      { rewrite q_two_pi. lra. }
      apply (IH _ _ (proj1 Hvs)); [|exact H].
      destruct (theta + two_pi)%f32; try reflexivity. destruct Hvs as [_ Hf]. discriminate Hf.
    + injection H as <-. right. split; [exact Hvf|].
      destruct (Qlt_le_dec (q theta) (- q pi)) as [Hc|Hc]; [|exact Hc].
      rewrite <- to_Q_opp in Hc.
      apply (SFltb_spec F32.prec F32.emax _ _ Hvf Hvmpi) in Hc.
      unfold F32.ltb in Hlt. rewrite Hc in Hlt. discriminate Hlt.
  - destruct s.
    + replace (S754_infinity true <? - pi)%f32 with true in H by (vm_compute; reflexivity).
      replace (S754_infinity true + two_pi)%f32 with (S754_infinity true) in H
        by (vm_compute; reflexivity).
      rewrite add_two_pi_neg_infinity in H. discriminate H.
    + replace (S754_infinity false <? - pi)%f32 with false in H by (vm_compute; reflexivity).
      injection H as <-. left. reflexivity.
Qed.

(** When the second loop exits, [theta] is in [[-pi, pi]]. *)
Lemma sub_two_pi_post fuel :
  forall theta theta',
    theta = S754_infinity false \/ (vf32 theta /\ (- q pi <= q theta)%Q) ->
    sub_two_pi_while_above fuel theta = Val theta' ->
    vf32 theta' /\ (- q pi <= q theta' <= q pi)%Q.
Proof.
  pose proof vf32_pi as Hvpi. pose proof vf32_two_pi as Hv2pi. pose proof q_pi as Hqpi.
  assert (Hvmpi : vf32 (- pi)%f32) by (apply vf_opp; exact Hvpi).
  induction fuel as [|fuel IH]; intros theta theta' Hpre H; [discriminate H|].
  destruct Hpre as [->|[Hvf Hlo]].
  - rewrite sub_two_pi_pos_infinity in H. discriminate H.
  - cbn [sub_two_pi_while_above] in H.
    destruct (pi <? theta)%f32 eqn:Hgt.
    + apply (SFltb_spec F32.prec F32.emax _ _ Hvpi Hvf) in Hgt.
      destruct (F32_sub_within theta two_pi (- pi)%f32 theta) as [Hvs [Hs _]]; auto.
      { rewrite to_Q_opp, q_two_pi. lra. }
      rewrite to_Q_opp in Hs.
      apply (IH _ _ (or_intror (conj Hvs Hs)) H).
    + injection H as <-. split; [exact Hvf|]. split; [exact Hlo|].
      destruct (Qlt_le_dec (q pi) (q theta)) as [Hc|Hc]; [|exact Hc].
      apply (SFltb_spec F32.prec F32.emax _ _ Hvpi Hvf) in Hc.
      unfold F32.ltb in Hgt. rewrite Hc in Hgt. discriminate Hgt.
Qed.

Lemma range_reduction_post fuel theta theta1 theta2 :
  F32.valid theta = true -> Format.is_nan theta = false ->
  add_two_pi_while_below fuel theta = Val theta1 ->
  sub_two_pi_while_above fuel theta1 = Val theta2 ->
  vf32 theta2 /\ (- q pi <= q theta2 <= q pi)%Q.
Proof.
  intros Hv Hn H1 H2.
  exact (sub_two_pi_post fuel _ _ (add_two_pi_post fuel _ _ Hv Hn H1) H2).
Qed.

Lemma bind_ext {A B : Type} (c : res A) (k k' : A -> res B) :
  (forall a, k a = k' a) -> bind c k = bind c k'.
Proof. intros H. destruct c; cbn [bind]; auto. Qed.

(** [sin] and [cos] are the pipeline of the specification after the two
    loops. *)
Lemma sin_eq fuel theta :
  sin fuel theta =
  (theta1 <- add_two_pi_while_below fuel theta ;;
   theta2 <- sub_two_pi_while_above fuel theta1 ;;
   Val (Spec.sin theta2)).
Proof.
  unfold sin. apply bind_ext; intros theta1. apply bind_ext; intros theta2.
  rewrite sin_kernel_eq. reflexivity.
Qed.

Lemma cos_eq fuel theta :
  cos fuel theta =
  (theta1 <- add_two_pi_while_below fuel theta ;;
   theta2 <- sub_two_pi_while_above fuel theta1 ;;
   Val (Spec.cos theta2)).
Proof.
  unfold cos. apply bind_ext; intros theta1. apply bind_ext; intros theta2.
  change (if (pi <? theta2 + half_pi)%f32 then (theta2 + half_pi - two_pi)%f32
          else (theta2 + half_pi)%f32) with (Spec.wrap (theta2 + half_pi)%f32).
  cbv zeta. rewrite sin_kernel_eq. reflexivity.
Qed.

Lemma bind_Val_inv {A B : Type} (c : res A) (k : A -> res B) (b : B) :
  bind c k = Val b -> exists a, c = Val a /\ k a = Val b.
Proof. destruct c as [a| |]; cbn [bind]; intros H; try discriminate H. eauto. Qed.

Lemma Val_inj {A : Type} (a b : A) : Val a = Val b -> a = b.
Proof. intros H. injection H as H. exact H. Qed.

Lemma sin_range fuel theta r :
  F32.valid theta = true -> Format.is_nan theta = false ->
  sin fuel theta = Val r -> near_unit_range r = true.
Proof.
  intros Hv Hn H. rewrite sin_eq in H.
  apply bind_Val_inv in H. destruct H as (theta1 & H1 & H).
  apply bind_Val_inv in H. destruct H as (theta2 & H2 & H).
  apply Val_inj in H. subst r.
  destruct (range_reduction_post fuel theta theta1 theta2 Hv Hn H1 H2) as [Hv2 Hr2].
  exact (kernel_range theta2 Hv2 Hr2).
Qed.

Lemma cos_range fuel theta r :
  F32.valid theta = true -> Format.is_nan theta = false ->
  cos fuel theta = Val r -> near_unit_range r = true.
Proof.
  intros Hv Hn H. rewrite cos_eq in H.
  apply bind_Val_inv in H. destruct H as (theta1 & H1 & H).
  apply bind_Val_inv in H. destruct H as (theta2 & H2 & H).
  apply Val_inj in H. subst r.
  destruct (range_reduction_post fuel theta theta1 theta2 Hv Hn H1 H2) as [Hv2 Hr2].
  destruct (wrap_within theta2 Hv2 Hr2) as [Hvw Hw].
  rewrite (to_Q_opp pi) in Hw.
  exact (kernel_range (Spec.wrap (theta2 + half_pi)%f32) Hvw Hw).
Qed.

(** ** C10: the range of [sin] and [cos] *)

Lemma in_unit_range_within y :
  F32.valid y = true ->
  in_unit_range y = true <-> within32 (- #1.0)%f32 #1.0 y.
Proof.
  intros Hv. pose proof vf32_one as Hv1. pose proof vf32_minus_one as Hvm1.
  unfold in_unit_range. rewrite andb_true_iff. split.
  - intros [Hlo Hhi].
    assert (Hvy : vf32 y).
    { split; [exact Hv|].
      destruct y as [s|s| |s m e]; try reflexivity; exfalso.
      - destruct s; [revert Hlo|revert Hhi]; vm_compute; discriminate.
      - revert Hlo. vm_compute. discriminate. }
    split; [exact Hvy|]. split.
    + exact (proj1 (SFleb_spec F32.prec F32.emax _ _ Hvm1 Hvy) Hlo).
    + exact (proj1 (SFleb_spec F32.prec F32.emax _ _ Hvy Hv1) Hhi).
  - intros [Hvy [Hlo Hhi]]. split.
    + exact (proj2 (SFleb_spec F32.prec F32.emax _ _ Hvm1 Hvy) Hlo).
    + exact (proj2 (SFleb_spec F32.prec F32.emax _ _ Hvy Hv1) Hhi).
Qed.

Lemma correction_in_unit_range y :
  F32.valid y = true -> in_unit_range y = true ->
  in_unit_range (Spec.correction y) = true.
Proof.
  intros Hv H. apply (in_unit_range_within y Hv) in H.
  apply correction_unit in H.
  apply in_unit_range_within; [apply H|exact H].
Qed.

Lemma range_reduction_in_pi_range fuel theta theta1 theta2 :
  F32.valid theta = true -> Format.is_nan theta = false ->
  add_two_pi_while_below fuel theta = Val theta1 ->
  sub_two_pi_while_above fuel theta1 = Val theta2 ->
  F32.leb (- pi)%f32 theta2 = true /\ F32.leb theta2 pi = true.
Proof.
  intros Hv Hn H1 H2.
  destruct (range_reduction_post fuel theta theta1 theta2 Hv Hn H1 H2) as [Hv2 [Hlo Hhi]].
  pose proof vf32_pi as Hvpi.
  split.
  - apply (SFleb_spec F32.prec F32.emax); [apply vf_opp; exact Hvpi|exact Hv2|].
    rewrite to_Q_opp. exact Hlo.
  - apply (SFleb_spec F32.prec F32.emax); [exact Hv2|exact Hvpi|exact Hhi].
Qed.

(** C10, as the specification states it, fails: [sin 1.57074f] and
    [cos 0.00004f] are [1 + 2^-23], because the base term is; and on a NaN
    [sin] returns a NaN, which is in no interval. *)
Lemma sin_cos_range_counterexample :
  sin 1 #1.57074 = Val unit_bound /\
  Spec.parabola #1.57074 = unit_bound /\
  cos 1 #0.00004 = Val unit_bound /\
  in_unit_range unit_bound = false /\
  sin 1 S754_nan = Val S754_nan /\
  in_unit_range S754_nan = false.
Proof. repeat split; vm_compute; reflexivity. Qed.

(** C10 (amended): whenever [sin] or [cos] returns on an input that is not
    a NaN, the result lies in [[-(1 + 2^-23), 1 + 2^-23]], that is, beyond
    [[-1, 1]] by at most one unit in the last place; the reduced argument is
    in [[-pi, pi]], and the correction pass keeps [[-1, 1]]. *)
Theorem sin_cos_range :
  (forall fuel theta r,
      F32.valid theta = true -> Format.is_nan theta = false ->
      sin fuel theta = Val r \/ cos fuel theta = Val r ->
      near_unit_range r = true) /\
  (forall fuel theta theta1 theta2,
      F32.valid theta = true -> Format.is_nan theta = false ->
      add_two_pi_while_below fuel theta = Val theta1 ->
      sub_two_pi_while_above fuel theta1 = Val theta2 ->
      F32.leb (- pi)%f32 theta2 = true /\ F32.leb theta2 pi = true) /\
  (forall y,
      F32.valid y = true -> in_unit_range y = true ->
      in_unit_range (Spec.correction y) = true).
Proof.
  split; [|split].
  - intros fuel theta r Hv Hn [H|H].
    + exact (sin_range fuel theta r Hv Hn H).
    + exact (cos_range fuel theta r Hv Hn H).
  - exact range_reduction_in_pi_range.
  - exact correction_in_unit_range.
Qed.

Lemma sin_cos_range_witness :
  near_unit_range unit_bound = true /\
  (F32.leb (- pi)%f32 (#7.0 - two_pi)%f32 = true /\
   F32.leb (#7.0 - two_pi)%f32 pi = true) /\
  in_unit_range (Spec.correction #0.5) = true.
Proof.
  destruct sin_cos_range as (Hrange & Hreduce & Hcorr).
  split; [|split].
  - apply (Hrange 1%nat #1.57074 unit_bound); [reflexivity|reflexivity|].
    left. vm_compute. reflexivity.
  - apply (Hreduce 2%nat #7.0 #7.0 (#7.0 - two_pi)%f32);
      vm_compute; reflexivity.
  - apply Hcorr; vm_compute; reflexivity.
Defined.

(** ** C7: the range and the special cases of [atan2] *)



(** * Part IV: further properties of the library *)

(** ** Conversions between [float] and [int] *)

Lemma vf32_valid x : vf32 x -> F32.valid x = true.
Proof. intros [H _]. exact H. Qed.

Lemma valid_finite_vf32 x :
  F32.valid x = true -> Format.is_finite x = true -> vf32 x.
Proof. intros Hv Hf. split; assumption. Qed.

(** An integer below [2^24] in magnitude is a [float]. *)
Lemma of_int_exact n :
  Z.abs n < 2 ^ 24 ->
  vf32 (F32.of_int n) /\ (q (F32.of_int n) == inject_Z n)%Q.
Proof.
  intros Hn. unfold F32.of_int.
  assert (Hround : forall s p, Zpos p < 2 ^ 24 ->
            vf32 (binary_round F32.prec F32.emax s p 0) /\
            (q (binary_round F32.prec F32.emax s p 0) == inject_Z (cond_Zopp s (Zpos p)))%Q).
  { intros s p Hp.
    destruct (binary_round_exact F32.prec F32.emax F32_prec F32_emax s p 0)
      as (m' & e' & -> & Hb & Hval).
    - change (Zpos (digits2_pos p)) with (Zdigits2 (Zpos p)).
      assert (Zdigits2 (Zpos p) <= 24).
      { destruct (Zdigits2_bounds (Zpos p) ltac:(lia)) as [Hlo _].
        destruct (Z.le_gt_cases (Zdigits2 (Zpos p)) 24); auto.
        assert (2 ^ 24 <= 2 ^ (Zdigits2 (Zpos p) - 1)) by (apply Z.pow_le_mono_r; lia). lia. }
      rewrite fexp_spec. unfold F32.prec, F32.emax. lia.
    - apply Qlt_le_trans with (dyadic (2 ^ 24) 0).
      + apply dyadic_lt_same. exact Hp.
      + rewrite <- (Z.mul_1_l (2 ^ 24)), dyadic_shift, dyadic_1 by lia.
        apply pow2_le. unfold F32.emax. lia.
    - split; [apply vf_finite; exact Hb|].
      rewrite to_Q_finite.
      assert (H0 : forall z, (dyadic z 0 == inject_Z z)%Q).
      { intros z. unfold dyadic. change (pow2 0) with 1%Q. ring. }
      destruct s; cbn [cond_Zopp]; rewrite ?dyadic_opp, Hval, H0.
      + change (inject_Z (- Zpos p)) with (- inject_Z (Zpos p))%Q. reflexivity.
      + reflexivity. }
  destruct n as [|p|p]; cbn [binary_normalize].
  - split; [apply vf_zero|reflexivity].
  - apply (Hround false p). lia.
  - apply (Hround true p). lia.
Qed.

(** The truncation of a float toward zero. *)
Lemma trunc_spec x :
  vf32 x ->
  exists z, trunc x = Some z /\
    (0 <= q x -> inject_Z z <= q x < inject_Z z + 1)%Q /\
    (q x <= 0 -> inject_Z z - 1 < q x <= inject_Z z)%Q /\
    (fractional x = false -> q x == inject_Z z)%Q /\
    (fractional x = true -> Z.abs z < 2 ^ 23 /\ ~ (q x == inject_Z z)%Q).
Proof.
  intros [Hv Hf]. destruct x as [s|s| |s m e]; try discriminate Hf.
  - exists 0. cbn [trunc fractional]. rewrite to_Q_zero.
    split; [reflexivity|]. change (inject_Z 0) with 0%Q.
    split; [intros _; lra|]. split; [intros _; lra|].
    split; [intros _; reflexivity|discriminate].
  - cbn [trunc fractional]. rewrite to_Q_finite.
    assert (H0 : forall z, (dyadic z 0 == inject_Z z)%Q).
    { intros z. unfold dyadic. change (pow2 0) with 1%Q. ring. }
    destruct (Z.leb_spec 0 e) as [He|He].
    + (* an integer *)
      rewrite Z.shiftl_mul_pow2 by lia.
      exists (cond_Zopp s (Zpos m * 2 ^ e)). split; [reflexivity|].
      assert (Hval : (dyadic (cond_Zopp s (Zpos m)) e
                      == inject_Z (cond_Zopp s (Zpos m * 2 ^ e)))%Q).
      { rewrite <- H0. destruct s; cbn [cond_Zopp]; rewrite ?dyadic_opp;
          rewrite dyadic_shift by lia; rewrite Z.add_0_l; reflexivity. }
      replace (e <? 0) with false by (symmetry; apply Z.ltb_ge; lia). cbn [andb].
      rewrite Hval.
      split; [intros _; lra|]. split; [intros _; lra|].
      split; [intros _; reflexivity|discriminate].
    + rewrite Z.shiftr_div_pow2 by lia.
      set (n := - e). assert (Hn : 0 < n) by (unfold n; lia).
      assert (Hpn : 0 < 2 ^ n) by (apply Z.pow_pos_nonneg; lia).
      set (k := Zpos m / 2 ^ n).
      pose proof (Z.div_mod (Zpos m) (2 ^ n) ltac:(lia)) as Hdm. fold k in Hdm.
      pose proof (Z.mod_pos_bound (Zpos m) (2 ^ n) Hpn) as Hmod.
      set (r := Zpos m mod 2 ^ n) in *.
      assert (Hk0 : 0 <= k) by (apply Z.div_pos; lia).
      exists (cond_Zopp s k). split; [reflexivity|].
      assert (Hgrid : forall z, (inject_Z z == dyadic (z * 2 ^ n) e)%Q).
      { intros z. rewrite <- H0, dyadic_shift by lia.
        replace (e + n) with 0 by (unfold n; lia). reflexivity. }
      assert (Hlo : (inject_Z k <= dyadic (Zpos m) e)%Q).
      { rewrite Hgrid. apply dyadic_le_same. lia. }
      assert (Hhi : (dyadic (Zpos m) e < inject_Z k + 1)%Q).
      { change 1%Q with (inject_Z 1). rewrite <- inject_Z_plus, Hgrid.
        apply dyadic_lt_same. lia. }
      assert (Heq : (dyadic (Zpos m) e == inject_Z k)%Q <-> r = 0).
      { rewrite Hgrid, dyadic_eq_same. lia. }
      assert (Hpos : (0 < dyadic (Zpos m) e)%Q) by (apply dyadic_pos; lia).
      replace (e <? 0) with true by (symmetry; apply Z.ltb_lt; lia). cbn [andb].
      assert (Hk23 : k < 2 ^ 23).
      { destruct (bounded_digits F32.prec F32.emax m e Hv) as (Hd & _).
        destruct (Zdigits2_bounds (Zpos m) ltac:(lia)) as [_ Hmhi].
        assert (Hm24 : Zpos m < 2 ^ 24).
        { eapply Z.lt_le_trans; [exact Hmhi|]. apply Z.pow_le_mono_r; unfold F32.prec in Hd; lia. }
        apply Z.div_lt_upper_bound; [lia|].
        assert (2 ^ 1 <= 2 ^ n) by (apply Z.pow_le_mono_r; lia).
        change (2 ^ 24) with (2 * 2 ^ 23) in Hm24. change (2 ^ 1) with 2 in *.
        nia. }
      destruct s; cbn [cond_Zopp].
      * rewrite dyadic_opp.
        change (inject_Z (- k)) with (- inject_Z k)%Q.
        split; [intros; lra|]. split; [intros; lra|]. split.
        -- intros Hz. apply negb_false_iff, Z.eqb_eq in Hz.
           apply Heq in Hz. lra.
        -- intros Hz. apply negb_true_iff, Z.eqb_neq in Hz. split; [lia|].
           intros Hc. apply Hz, Heq. lra.
      * split; [intros; lra|]. split; [intros; lra|]. split.
        -- intros Hz. apply negb_false_iff, Z.eqb_eq in Hz. apply Heq. exact Hz.
        -- intros Hz. apply negb_true_iff, Z.eqb_neq in Hz. split; [lia|].
           intros Hc. apply Hz, Heq. exact Hc.
Qed.

Lemma of_int_trunc x z :
  vf32 x -> trunc x = Some z ->
  vf32 (F32.of_int z) /\ (q (F32.of_int z) == inject_Z z)%Q.
Proof.
  intros Hv Hz.
  destruct (trunc_spec x Hv) as (z' & Hz' & _ & _ & Hint & Hfrac).
  rewrite Hz in Hz'. injection Hz' as <-.
  destruct (fractional x) eqn:Hx.
  - destruct (Hfrac eq_refl) as [Hsmall _]. apply of_int_exact.
    assert (2 ^ 23 < 2 ^ 24) by reflexivity. lia.
  - specialize (Hint eq_refl).
    assert (H0 : (dyadic z 0 == inject_Z z)%Q).
    { unfold dyadic. change (pow2 0) with 1%Q. ring. }
    destruct (binary_normalize_within F32.prec F32.emax F32_prec F32_emax z 0 false x x Hv Hv)
      as [Hvr Hr].
    { rewrite H0. lra. }
    split; [exact Hvr|]. unfold F32.of_int. lra.
Qed.

Lemma inject_Z_succ z : (inject_Z (z + 1) == inject_Z z + 1)%Q.
Proof. rewrite inject_Z_plus. reflexivity. Qed.

Lemma inject_Z_pred z : (inject_Z (z - 1) == inject_Z z - 1)%Q.
Proof. unfold Z.sub. rewrite inject_Z_plus, inject_Z_opp. reflexivity. Qed.

Lemma Qfloor_unique x z : (inject_Z z <= x < inject_Z z + 1)%Q -> Qfloor x = z.
Proof.
  intros [Hlo Hhi].
  pose proof (Qfloor_le x) as H1. pose proof (Qlt_floor x) as H2.
  rewrite inject_Z_plus in H2. change (inject_Z 1) with 1%Q in H2.
  assert (Ha : (inject_Z z < inject_Z (Qfloor x) + 1)%Q) by lra.
  assert (Hb : (inject_Z (Qfloor x) < inject_Z z + 1)%Q) by lra.
  change 1%Q with (inject_Z 1) in Ha, Hb. rewrite <- inject_Z_plus in Ha, Hb.
  rewrite <- Zlt_Qlt in Ha, Hb. lia.
Qed.

Lemma Qceiling_unique x z : (inject_Z z - 1 < x <= inject_Z z)%Q -> Qceiling x = z.
Proof.
  intros [Hlo Hhi]. unfold Qceiling.
  rewrite (Qfloor_unique (- x) (- z)); [lia|].
  rewrite inject_Z_opp. lra.
Qed.

Lemma vf32_int_min : vf32 (- #2147483648.0)%f32.
Proof. vf_const. Qed.

Lemma vf32_int_bound : vf32 #2147483648.0.
Proof. vf_const. Qed.

(** A float in the range of [int], and its conversion. *)
Lemma to_int_in_range x :
  F32.valid x = true ->
  F32.leb (- #2147483648.0)%f32 x = true -> F32.ltb x #2147483648.0 = true ->
  vf32 x /\ (- (2147483648) <= q x < 2147483648)%Q /\
  exists z, trunc x = Some z /\ to_int x = Val z.
Proof.
  intros Hv Hlo Hhi.
  assert (Hvx : vf32 x).
  { split; [exact Hv|]. destruct x as [s|s| |s m e]; try reflexivity; exfalso.
    - destruct s; [revert Hlo|revert Hhi]; vm_compute; discriminate.
    - revert Hlo. vm_compute. discriminate. }
  apply (SFleb_spec F32.prec F32.emax _ _ vf32_int_min Hvx) in Hlo.
  apply (SFltb_spec F32.prec F32.emax _ _ Hvx vf32_int_bound) in Hhi.
  assert (Q1 : (q (- #2147483648.0)%f32 == - (2147483648))%Q) by q_const.
  assert (Q2 : (q #2147483648.0 == 2147483648)%Q) by q_const.
  rewrite Q1 in Hlo. rewrite Q2 in Hhi.
  split; [exact Hvx|]. split; [split; assumption|].
  destruct (trunc_spec x Hvx) as (z & Hz & Hpos & Hneg & _).
  exists z. split; [exact Hz|]. unfold to_int. rewrite Hz.
  replace (Int.in_range z) with true; [reflexivity|].
  symmetry. unfold Int.in_range, Int.min_signed, Int.max_signed.
  apply andb_true_iff. rewrite !Z.leb_le.
  change (2 ^ 31) with 2147483648.
  assert (Hz' : (- (2147483648) - 1 < inject_Z z < 2147483648)%Q).
  { destruct (Qlt_le_dec (q x) 0) as [Hn|Hp].
    - specialize (Hneg (Qlt_le_weak _ _ Hn)). lra.
    - specialize (Hpos Hp). lra. }
  destruct Hz' as [Ha Hb].
  change (- (2147483648) - 1)%Q with (inject_Z (- 2147483649)) in Ha.
  change 2147483648%Q with (inject_Z 2147483648) in Hb.
  rewrite <- Zlt_Qlt in Ha, Hb. lia.
Qed.

Lemma vf32_zero_lit : vf32 #0.0.
Proof. vf_const. Qed.

Lemma leb_zero_spec x : vf32 x -> F32.leb #0.0 x = true <-> (0 <= q x)%Q.
Proof.
  intros Hv. rewrite (SFleb_spec F32.prec F32.emax _ _ vf32_zero_lit Hv).
  rewrite lit_zero, to_Q_zero. reflexivity.
Qed.

Lemma ltb_false_ge x y : vf32 x -> vf32 y -> F32.ltb x y = false -> (q y <= q x)%Q.
Proof.
  intros Hx Hy H. destruct (Qlt_le_dec (q x) (q y)) as [Hc|Hc]; [|exact Hc].
  apply (SFltb_spec F32.prec F32.emax _ _ Hx Hy) in Hc.
  unfold F32.ltb in H. rewrite Hc in H. discriminate H.
Qed.

Lemma leb_false_lt x y : vf32 x -> vf32 y -> F32.leb x y = false -> (q y < q x)%Q.
Proof.
  intros Hx Hy H. destruct (Qlt_le_dec (q y) (q x)) as [Hc|Hc]; [exact Hc|].
  apply (SFleb_spec F32.prec F32.emax _ _ Hx Hy) in Hc.
  unfold F32.leb in H. rewrite Hc in H. discriminate H.
Qed.

(** ** [floor] and [ceil] *)

Lemma floor_on_int_range x :
  F32.valid x = true ->
  F32.leb (- #2147483648.0)%f32 x = true -> F32.ltb x #2147483648.0 = true ->
  floor x = Val (F32.of_int (Qfloor (q x))) /\
  (q (F32.of_int (Qfloor (q x))) == inject_Z (Qfloor (q x)))%Q.
Proof.
  intros Hv Hlo Hhi.
  destruct (to_int_in_range x Hv Hlo Hhi) as (Hvx & _ & z & Hz & Hint).
  destruct (trunc_spec x Hvx) as (z' & Hz' & Hpos & Hneg & Hwhole & Hfrac).
  rewrite Hz in Hz'. injection Hz' as <-.
  destruct (of_int_trunc x z Hvx Hz) as [Hvz Hqz].
  unfold floor. rewrite Hint. cbn [bind].
  destruct (F32.leb #0.0 x) eqn:Hsign.
  - apply (leb_zero_spec x Hvx) in Hsign.
    rewrite (Qfloor_unique (q x) z (Hpos Hsign)). split; [reflexivity|exact Hqz].
  - apply (leb_false_lt _ _ vf32_zero_lit Hvx) in Hsign.
    rewrite lit_zero, to_Q_zero in Hsign.
    specialize (Hneg (Qlt_le_weak _ _ Hsign)).
    destruct (F32.ltb x (F32.of_int z)) eqn:Hlt.
    + apply (SFltb_spec F32.prec F32.emax _ _ Hvx Hvz) in Hlt. rewrite Hqz in Hlt.
      assert (Hfl : Qfloor (q x) = z - 1).
      { apply Qfloor_unique. rewrite inject_Z_pred. lra. }
      rewrite Hfl. split; [reflexivity|].
      destruct (fractional x) eqn:Hx.
      * destruct (Hfrac eq_refl) as [Hsmall _]. apply of_int_exact.
        assert (2 ^ 23 < 2 ^ 24) by reflexivity. lia.
      * specialize (Hwhole eq_refl). lra.
    + apply (ltb_false_ge _ _ Hvx Hvz) in Hlt. rewrite Hqz in Hlt.
      assert (Hfl : Qfloor (q x) = z) by (apply Qfloor_unique; lra).
      rewrite Hfl. split; [reflexivity|exact Hqz].
Qed.

(** [floor] on the range of [int]: the largest integer that is not above
    the argument, converted without rounding. *)
Theorem floor_spec x :
  F32.valid x = true ->
  F32.leb (- #2147483648.0)%f32 x = true -> F32.ltb x #2147483648.0 = true ->
  floor x = Val (F32.of_int (Qfloor (q x))) /\
  (q (F32.of_int (Qfloor (q x))) == inject_Z (Qfloor (q x)))%Q.
Proof. exact (floor_on_int_range x). Qed.

Lemma floor_spec_witness :
  floor (- #2.5)%f32 = Val (F32.of_int (Qfloor (q (- #2.5)%f32))) /\
  (q (F32.of_int (Qfloor (q (- #2.5)%f32))) == inject_Z (Qfloor (q (- #2.5)%f32)))%Q.
Proof. apply floor_spec; vm_compute; reflexivity. Defined.

Lemma ceil_on_int_range x :
  F32.valid x = true ->
  F32.leb (- #2147483648.0)%f32 x = true -> F32.ltb x #2147483648.0 = true ->
  ceil x = Val (F32.of_int (Qceiling (q x))) /\
  (q (F32.of_int (Qceiling (q x))) == inject_Z (Qceiling (q x)))%Q.
Proof.
  intros Hv Hlo Hhi.
  destruct (to_int_in_range x Hv Hlo Hhi) as (Hvx & _ & z & Hz & Hint).
  destruct (trunc_spec x Hvx) as (z' & Hz' & Hpos & Hneg & Hwhole & Hfrac).
  rewrite Hz in Hz'. injection Hz' as <-.
  destruct (of_int_trunc x z Hvx Hz) as [Hvz Hqz].
  unfold ceil. rewrite Hint. cbn [bind].
  destruct (F32.leb #0.0 x) eqn:Hsign.
  - apply (leb_zero_spec x Hvx) in Hsign. specialize (Hpos Hsign).
    destruct (F32.ltb (F32.of_int z) x) eqn:Hlt.
    + apply (SFltb_spec F32.prec F32.emax _ _ Hvz Hvx) in Hlt. rewrite Hqz in Hlt.
      assert (Hce : Qceiling (q x) = z + 1).
      { apply Qceiling_unique. rewrite inject_Z_succ. lra. }
      rewrite Hce. split; [reflexivity|].
      destruct (fractional x) eqn:Hx.
      * destruct (Hfrac eq_refl) as [Hsmall _]. apply of_int_exact.
        assert (2 ^ 23 < 2 ^ 24) by reflexivity. lia.
      * specialize (Hwhole eq_refl). lra.
    + apply (ltb_false_ge _ _ Hvz Hvx) in Hlt. rewrite Hqz in Hlt.
      assert (Hce : Qceiling (q x) = z) by (apply Qceiling_unique; lra).
      rewrite Hce. split; [reflexivity|exact Hqz].
  - apply (leb_false_lt _ _ vf32_zero_lit Hvx) in Hsign.
    rewrite lit_zero, to_Q_zero in Hsign.
    specialize (Hneg (Qlt_le_weak _ _ Hsign)).
    rewrite (Qceiling_unique (q x) z Hneg). split; [reflexivity|exact Hqz].
Qed.

(** [ceil] on the range of [int]: the smallest integer that is not below
    the argument, converted without rounding. *)
Theorem ceil_spec x :
  F32.valid x = true ->
  F32.leb (- #2147483648.0)%f32 x = true -> F32.ltb x #2147483648.0 = true ->
  ceil x = Val (F32.of_int (Qceiling (q x))) /\
  (q (F32.of_int (Qceiling (q x))) == inject_Z (Qceiling (q x)))%Q.
Proof. exact (ceil_on_int_range x). Qed.

Lemma ceil_spec_witness :
  ceil #2.5 = Val (F32.of_int (Qceiling (q #2.5))) /\
  (q (F32.of_int (Qceiling (q #2.5))) == inject_Z (Qceiling (q #2.5)))%Q.
Proof. apply ceil_spec; vm_compute; reflexivity. Defined.

(** Outside of the range of [int] the conversion is undefined. *)
Lemma to_int_out_of_range x :
  F32.valid x = true ->
  Format.is_finite x = false \/
  F32.ltb x (- #2147483648.0)%f32 = true \/ F32.leb #2147483648.0 x = true ->
  to_int x = Undef.
Proof.
  intros Hv Hc. unfold to_int.
  destruct (Format.is_finite x) eqn:Hf.
  2:{ destruct x as [s|s| |s m e]; try discriminate Hf; reflexivity. }
  assert (Hvx : vf32 x) by (split; assumption).
  destruct Hc as [Hc|Hc]; [discriminate Hc|].
  destruct (trunc_spec x Hvx) as (z & Hz & Hpos & Hneg & Hwhole & Hfrac).
  rewrite Hz.
  assert (Q1 : (q (- #2147483648.0)%f32 == - (2147483648))%Q) by q_const.
  assert (Q2 : (q #2147483648.0 == 2147483648)%Q) by q_const.
  replace (Int.in_range z) with false; [reflexivity|].
  symmetry. unfold Int.in_range, Int.min_signed, Int.max_signed.
  apply andb_false_iff. rewrite !Z.leb_gt. change (2 ^ 31) with 2147483648.
  assert (H23 : 2 ^ 23 = 8388608) by reflexivity.
  destruct Hc as [Hc|Hc].
  - apply (SFltb_spec F32.prec F32.emax _ _ Hvx vf32_int_min) in Hc. rewrite Q1 in Hc.
    left. assert (Hn : (q x <= 0)%Q) by lra. specialize (Hneg Hn).
    assert (Hz1 : (inject_Z z < inject_Z (- 2147483647))%Q).
    { change (inject_Z (- 2147483647)) with (- (2147483647))%Q. lra. }
    rewrite <- Zlt_Qlt in Hz1.
    destruct (fractional x) eqn:Hx.
    + destruct (Hfrac eq_refl) as [Hsmall _]. lia.
    + specialize (Hwhole eq_refl).
      assert (Hz2 : (inject_Z z < inject_Z (- 2147483648))%Q).
      { change (inject_Z (- 2147483648)) with (- (2147483648))%Q. lra. }
      rewrite <- Zlt_Qlt in Hz2. lia.
  - apply (SFleb_spec F32.prec F32.emax _ _ vf32_int_bound Hvx) in Hc. rewrite Q2 in Hc.
    right. assert (Hp : (0 <= q x)%Q) by lra. specialize (Hpos Hp).
    assert (Hz1 : (inject_Z 2147483647 < inject_Z z)%Q).
    { change (inject_Z 2147483647) with 2147483647%Q. lra. }
    rewrite <- Zlt_Qlt in Hz1. lia.
Qed.

(** [floor], [ceil] and [round] convert their argument to [int] whatever
    it is: on a NaN, an infinity or a number outside of the range of [int]
    the conversion, and so the call, is undefined. *)
Theorem rounding_undefined :
  (forall x,
      F32.valid x = true ->
      Format.is_finite x = false \/
      F32.ltb x (- #2147483648.0)%f32 = true \/ F32.leb #2147483648.0 x = true ->
      floor x = Undef /\ ceil x = Undef) /\
  (forall x, Format.is_finite x = false -> round x = Undef).
Proof.
  split.
  - intros x Hv Hc. unfold floor, ceil.
    rewrite (to_int_out_of_range x Hv Hc). cbn [bind].
    destruct (F32.leb #0.0 x); split; reflexivity.
  - intros x Hf. destruct x as [s|s| |s m e]; try discriminate Hf.
    + destruct s; vm_compute; reflexivity.
    + vm_compute; reflexivity.
Qed.

Lemma rounding_undefined_witness :
  (floor #3e9 = Undef /\ ceil #3e9 = Undef) /\ round S754_nan = Undef.
Proof.
  destruct rounding_undefined as [Hfc Hr]. split.
  - apply Hfc; [vm_compute; reflexivity|]. right. right. vm_compute. reflexivity.
  - apply Hr. reflexivity.
Defined.

(** ** [exp] *)

Lemma F32_add_close x y K :
  vf32 x -> vf32 y -> -125 <= K < 128 ->
  (- pow2 K < q x + q y < pow2 K)%Q ->
  close32 (pow2 (K - 24)) (q x + q y) (x + y)%f32.
Proof.
  intros Hx Hy HK Hb.
  exact (SFadd_close F32.prec F32.emax F32_prec F32_emax x y K Hx Hy
           (proj1 HK) (proj2 HK) Hb).
Qed.

Lemma valid_abs x : F32.valid x = true -> F32.valid (F32.abs x) = true.
Proof. destruct x; auto. Qed.

Lemma is_nan_abs x : Format.is_nan (F32.abs x) = Format.is_nan x.
Proof. destruct x; reflexivity. Qed.

(** A float that is not a NaN and on neither side of two finite bounds. *)
Lemma between_bounds x L U :
  F32.valid x = true -> Format.is_nan x = false -> vf32 L -> vf32 U ->
  F32.ltb x L = false -> F32.ltb U x = false ->
  within32 L U x.
Proof.
  intros Hv Hn HL HU Hlo Hhi.
  assert (Hvx : vf32 x).
  { split; [exact Hv|]. destruct x as [s|s| |s m e]; try reflexivity; try discriminate Hn.
    exfalso. destruct s.
    - destruct L as [sl|sl| |sl ml el]; try (destruct HL as [_ HL]; discriminate HL);
        discriminate Hlo.
    - destruct U as [su|su| |su mu eu]; try (destruct HU as [_ HU]; discriminate HU);
        discriminate Hhi. }
  split; [exact Hvx|]. split.
  - exact (ltb_false_ge _ _ Hvx HL Hlo).
  - exact (ltb_false_ge _ _ HU Hvx Hhi).
Qed.

(** The scale factor [2^n] that [exp] builds from the bits [(n + 127) << 23]. *)
Lemma exp_scale n :
  -126 <= n <= 127 ->
  float_of_bits (Z.shiftl (n + 127) 23) = S754_finite false 8388608 (n - 23).
Proof.
  intros Hn. unfold float_of_bits.
  rewrite Z.shiftl_mul_pow2 by lia.
  set (a := n + 127). assert (Ha : 1 <= a <= 254) by (unfold a; lia).
  assert (Hu : (a * 2 ^ 23) mod 2 ^ 32 = a * 2 ^ 23).
  { apply Z.mod_small. change (2 ^ 23) with 8388608. change (2 ^ 32) with 4294967296. lia. }
  rewrite Hu. cbv zeta.
  assert (Hs : Z.testbit (a * 2 ^ 23) 31 = false).
  { apply Z.bits_above_log2; [lia|].
    apply Z.log2_lt_pow2; [lia|]. change (2 ^ 23) with 8388608. change (2 ^ 31) with 2147483648. lia. }
  assert (He : Z.land (Z.shiftr (a * 2 ^ 23) 23) 255 = a).
  { rewrite Z.shiftr_div_pow2 by lia. rewrite Z.div_mul by (apply Z.pow_nonzero; lia).
    change 255 with (Z.ones 8). rewrite Z.land_ones by lia.
    apply Z.mod_small. change (2 ^ 8) with 256. lia. }
  assert (Hm : Z.land (a * 2 ^ 23) 8388607 = 0).
  { change 8388607 with (Z.ones 23). rewrite Z.land_ones by lia.
    apply Z.mod_mul. apply Z.pow_nonzero; lia. }
  rewrite Hs, He, Hm.
  replace (a =? 0) with false by (symmetry; apply Z.eqb_neq; lia).
  replace (a =? 255) with false by (symmetry; apply Z.eqb_neq; lia).
  cbn [Z.add Z.pow Z.pow_pos Pos.iter Z.mul Pos.mul].
  f_equal. unfold a. lia.
Qed.

Lemma exp_scale_value n :
  -126 <= n <= 127 ->
  vf32 (S754_finite false 8388608 (n - 23)) /\
  (q (S754_finite false 8388608 (n - 23)) == pow2 n)%Q.
Proof.
  intros Hn. split.
  - apply vf_finite. apply bounded_spec. 
    change (Zpos (digits2_pos 8388608)) with 24.
    rewrite fexp_spec. unfold F32.prec, F32.emax. lia.
  - rewrite to_Q_finite. cbn [cond_Zopp].
    change 8388608 with (1 * 2 ^ 23).
    rewrite dyadic_shift, dyadic_1 by lia. replace (n - 23 + 23) with n by lia. reflexivity.
Qed.

(** The polynomial of [exp] on the reduced argument lies between 0.5 and
    1.625. *)
Lemma exp_poly_within fx n :
  vf32 fx -> -126 <= n <= 127 ->
  (- (1) * 2 ^ (-1) - 2 ^ (-16) <= q fx - inject_Z n <= 2 ^ (-1) + 2 ^ (-16))%Q ->
  within32 #0.5 #1.625
    (let r := (fx - F32.of_int n)%f32 in
     let ln2 := #0.69314718055994531 in
     let r := (r * ln2)%f32 in
     let r2 := (r * r)%f32 in
     #1.0 + r + #0.5 * r2 +
     r2 * r * (#1.0 / #6.0 + r * (#1.0 / #24.0 + r * (#1.0 / #120.0))))%f32.
Proof.
  intros Hvfx Hn Hr. cbv zeta.
  destruct (of_int_exact n) as [Hvn Hqn].
  { change (2 ^ 24) with 16777216. lia. }
  (* the bounds that are used, as floats *)
  assert (V1 : vf32 #0.515625) by vf_const.
  assert (V1' : vf32 (- #0.515625)%f32) by vf_const.
  assert (V2 : vf32 #0.375) by vf_const.
  assert (V2' : vf32 (- #0.375)%f32) by vf_const.
  assert (V3 : vf32 #0.625) by vf_const.
  assert (V4 : vf32 #1.375) by vf_const.
  assert (V5 : vf32 #0.0) by vf_const.
  assert (V6 : vf32 #0.25) by vf_const.
  assert (V7 : vf32 #0.125) by vf_const.
  assert (V8 : vf32 #1.5) by vf_const.
  assert (V9 : vf32 #0.0625) by vf_const.
  assert (V9' : vf32 (- #0.0625)%f32) by vf_const.
  assert (V10 : vf32 #0.03125) by vf_const.
  assert (V11 : vf32 #0.00390625) by vf_const.
  assert (V11' : vf32 (- #0.00390625)%f32) by vf_const.
  assert (V12 : vf32 #0.5) by vf_const.
  assert (V13 : vf32 #1.0) by vf_const.
  assert (Q1 : (q #0.515625 == 33 * 2 ^ (-6))%Q) by q_const.
  assert (Q1' : (q (- #0.515625)%f32 == - (33) * 2 ^ (-6))%Q) by q_const.
  assert (Q2 : (q #0.375 == 3 * 2 ^ (-3))%Q) by q_const.
  assert (Q2' : (q (- #0.375)%f32 == - (3) * 2 ^ (-3))%Q) by q_const.
  assert (Q3 : (q #0.625 == 5 * 2 ^ (-3))%Q) by q_const.
  assert (Q4 : (q #1.375 == 11 * 2 ^ (-3))%Q) by q_const.
  assert (Q5 : (q #0.0 == 0)%Q) by q_const.
  assert (Q6 : (q #0.25 == 2 ^ (-2))%Q) by q_const.
  assert (Q7 : (q #0.125 == 2 ^ (-3))%Q) by q_const.
  assert (Q8 : (q #1.5 == 3 * 2 ^ (-1))%Q) by q_const.
  assert (Q9 : (q #0.0625 == 2 ^ (-4))%Q) by q_const.
  assert (Q9' : (q (- #0.0625)%f32 == - (1) * 2 ^ (-4))%Q) by q_const.
  assert (Q10 : (q #0.03125 == 2 ^ (-5))%Q) by q_const.
  assert (Q11 : (q #0.00390625 == 2 ^ (-8))%Q) by q_const.
  assert (Q11' : (q (- #0.00390625)%f32 == - (1) * 2 ^ (-8))%Q) by q_const.
  assert (Q12 : (q #0.5 == 2 ^ (-1))%Q) by q_const.
  assert (Q13 : (q #1.0 == 1)%Q) by q_const.
  (* the constants of the source *)
  assert (Vln2 : vf32 #0.69314718055994531) by vf_const.
  assert (Qln2 : (0 <= q #0.69314718055994531 <= 45 * 2 ^ (-6))%Q) by (split; q_const).
  assert (Vc6 : vf32 (#1.0 / #6.0)%f32) by vf_const.
  assert (Qc6 : (5 * 2 ^ (-5) <= q (#1.0 / #6.0)%f32 <= 6 * 2 ^ (-5))%Q) by (split; q_const).
  assert (Vc24 : vf32 (#1.0 / #24.0)%f32) by vf_const.
  assert (Qc24 : (5 * 2 ^ (-7) <= q (#1.0 / #24.0)%f32 <= 6 * 2 ^ (-7))%Q) by (split; q_const).
  assert (Vc120 : vf32 (#1.0 / #120.0)%f32) by vf_const.
  assert (Qc120 : (0 <= q (#1.0 / #120.0)%f32 <= 9 * 2 ^ (-10))%Q) by (split; q_const).
  (* the reduced argument *)
  destruct (F32_sub_within fx (F32.of_int n) (- #0.515625)%f32 #0.515625
              Hvfx Hvn V1' V1) as [Hv0 [Hlo0 Hhi0]].
  { rewrite Hqn. lra. }
  set (r0 := (fx - F32.of_int n)%f32) in *.
  destruct (F32_mul_within r0 #0.69314718055994531 (- #0.375)%f32 #0.375
              Hv0 Vln2 V2' V2) as [Hvr [Hrlo Hrhi]].
  { split; nra. }
  set (r := (r0 * #0.69314718055994531)%f32) in *.
  clearbody r. clear Hlo0 Hhi0 Hv0 r0 Hr Hqn Hvn.
  rewrite Q2' in Hrlo. rewrite Q2 in Hrhi.
  (* the polynomial *)
  destruct (F32_add_within #1.0 r #0.625 #1.375 V13 Hvr V3 V4) as [Hva1 [Ha1lo Ha1hi]].
  { lra. }
  set (a1 := (#1.0 + r)%f32) in *.
  destruct (F32_mul_within r r #0.0 #0.25 Hvr Hvr V5 V6) as [Hvr2 [Hr2lo Hr2hi]].
  { split; nra. }
  set (r2 := (r * r)%f32) in *.
  destruct (F32_mul_within #0.5 r2 #0.0 #0.125 V12 Hvr2 V5 V7) as [Hvh [Hhlo Hhhi]].
  { split; nra. }
  set (h := (#0.5 * r2)%f32) in *.
  destruct (F32_add_within a1 h #0.625 #1.5 Hva1 Hvh V3 V8) as [Hva2 [Ha2lo Ha2hi]].
  { lra. }
  set (a2 := (a1 + h)%f32) in *.
  assert (V7' : vf32 (- #0.125)%f32) by vf_const.
  assert (Q7' : (q (- #0.125)%f32 == - (1) * 2 ^ (-3))%Q) by q_const.
  destruct (F32_mul_within r2 r (- #0.125)%f32 #0.125 Hvr2 Hvr V7' V7) as [Hvr3 [Hr3lo Hr3hi]].
  { split; nra. }
  set (r3 := (r2 * r)%f32) in *.
  destruct (F32_mul_within r (#1.0 / #120.0)%f32 (- #0.00390625)%f32 #0.00390625
              Hvr Vc120 V11' V11) as [Hvt1 [Ht1lo Ht1hi]].
  { split; nra. }
  set (t1 := (r * (#1.0 / #120.0))%f32) in *.
  destruct (F32_add_within (#1.0 / #24.0)%f32 t1 #0.03125 #0.0625
              Vc24 Hvt1 V10 V9) as [Hvt2 [Ht2lo Ht2hi]].
  { lra. }
  set (t2 := (#1.0 / #24.0 + t1)%f32) in *.
  destruct (F32_mul_within r t2 (- #0.0625)%f32 #0.0625 Hvr Hvt2 V9' V9)
    as [Hvt3 [Ht3lo Ht3hi]].
  { split; nra. }
  set (t3 := (r * t2)%f32) in *.
  destruct (F32_add_within (#1.0 / #6.0)%f32 t3 #0.0625 #0.25
              Vc6 Hvt3 V9 V6) as [Hvt4 [Ht4lo Ht4hi]].
  { lra. }
  set (t4 := (#1.0 / #6.0 + t3)%f32) in *.
  destruct (F32_mul_within r3 t4 (- #0.0625)%f32 #0.0625 Hvr3 Hvt4 V9' V9)
    as [Hvt5 [Ht5lo Ht5hi]].
  { split; nra. }
  set (t5 := (r3 * t4)%f32) in *.
  assert (V14 : vf32 #1.625) by vf_const.
  assert (Q14 : (q #1.625 == 13 * 2 ^ (-3))%Q) by q_const.
  apply (F32_add_within a2 t5 #0.5 #1.625 Hva2 Hvt5 V12 V14). lra.
Qed.

(** The product with the scale factor [2^n]. *)
Lemma exp_tail fx n :
  vf32 fx -> -126 <= n <= 127 ->
  (- (1) * 2 ^ (-1) - 2 ^ (-16) <= q fx - inject_Z n <= 2 ^ (-1) + 2 ^ (-16))%Q ->
  within32 (S754_finite false 4194304 (-149)) (S754_finite false 13631488 104)
    (let r := (fx - F32.of_int n)%f32 in
     let ln2 := #0.69314718055994531 in
     let r := (r * ln2)%f32 in
     let r2 := (r * r)%f32 in
     let poly :=
       (#1.0 + r + #0.5 * r2 +
        r2 * r * (#1.0 / #6.0 + r * (#1.0 / #24.0 + r * (#1.0 / #120.0))))%f32 in
     let i := Z.shiftl (n + 127) 23 in
     (poly * float_of_bits i)%f32).
Proof.
  intros Hvfx Hn Hr.
  destruct (exp_poly_within fx n Hvfx Hn Hr) as [Hvp [Hplo Hphi]].
  cbv zeta in *.
  rewrite (exp_scale n Hn).
  destruct (exp_scale_value n Hn) as [Hvs Hqs].
  assert (Q12 : (q #0.5 == 2 ^ (-1))%Q) by q_const.
  assert (Q14 : (q #1.625 == 13 * 2 ^ (-3))%Q) by q_const.
  change (Format.to_Q ?a) with (q a) in Hplo, Hphi.
  rewrite Q12 in Hplo. rewrite Q14 in Hphi.
  assert (Hs1 : (pow2 (-126) <= pow2 n)%Q) by (apply pow2_le; lia).
  assert (Hs2 : (pow2 n <= pow2 127)%Q) by (apply pow2_le; lia).
  assert (QL : (q (S754_finite false 4194304 (-149)) == 2 ^ (-1) * pow2 (-126))%Q) by q_const.
  assert (QU : (q (S754_finite false 13631488 104) == 13 * 2 ^ (-3) * pow2 127)%Q) by q_const.
  assert (VL : vf32 (S754_finite false 4194304 (-149))) by vf_const.
  assert (VU : vf32 (S754_finite false 13631488 104)) by vf_const.
  refine (F32_mul_within _ _ _ _ Hvp Hvs VL VU _).
  rewrite QL, QU, Hqs.
  pose proof (pow2_pos n) as Hpn. pose proof (pow2_pos (-126)) as Hp1.
  split; nra.
Qed.

(** With a scale factor of at least 2 the product is at least 1. *)
Lemma exp_tail_ge_one fx n :
  vf32 fx -> 1 <= n <= 127 ->
  (- (1) * 2 ^ (-1) - 2 ^ (-16) <= q fx - inject_Z n <= 2 ^ (-1) + 2 ^ (-16))%Q ->
  within32 #1.0 (S754_finite false 13631488 104)
    (let r := (fx - F32.of_int n)%f32 in
     let ln2 := #0.69314718055994531 in
     let r := (r * ln2)%f32 in
     let r2 := (r * r)%f32 in
     let poly :=
       (#1.0 + r + #0.5 * r2 +
        r2 * r * (#1.0 / #6.0 + r * (#1.0 / #24.0 + r * (#1.0 / #120.0))))%f32 in
     let i := Z.shiftl (n + 127) 23 in
     (poly * float_of_bits i)%f32).
Proof.
  intros Hvfx Hn Hr.
  assert (Hn' : -126 <= n <= 127) by lia.
  destruct (exp_poly_within fx n Hvfx Hn' Hr) as [Hvp [Hplo Hphi]].
  cbv zeta in *.
  rewrite (exp_scale n Hn').
  destruct (exp_scale_value n Hn') as [Hvs Hqs].
  assert (Q12 : (q #0.5 == 2 ^ (-1))%Q) by q_const.
  assert (Q14 : (q #1.625 == 13 * 2 ^ (-3))%Q) by q_const.
  change (Format.to_Q ?a) with (q a) in Hplo, Hphi.
  rewrite Q12 in Hplo. rewrite Q14 in Hphi.
  assert (Hs1 : (pow2 1 <= pow2 n)%Q) by (apply pow2_le; lia).
  assert (Hs2 : (pow2 n <= pow2 127)%Q) by (apply pow2_le; lia).
  change (pow2 1) with 2%Q in Hs1.
  assert (QL : (q #1.0 == 1)%Q) by q_const.
  assert (QU : (q (S754_finite false 13631488 104) == 13 * 2 ^ (-3) * pow2 127)%Q) by q_const.
  assert (VL : vf32 #1.0) by vf_const.
  assert (VU : vf32 (S754_finite false 13631488 104)) by vf_const.
  refine (F32_mul_within _ _ _ _ Hvp Hvs VL VU _).
  rewrite QL, QU, Hqs.
  pose proof (pow2_pos n) as Hpn.
  split; nra.
Qed.

(** The rounding of the scaled argument to the nearest integer never
    leaves the range of [int]. *)
Lemma exp_reduction fx :
  within32 (- #126.0)%f32 #127.0 fx ->
  exists n,
    to_int (fx + (if (fx >=? #0.0)%f32 then #0.5 else - #0.5))%f32 = Val n /\
    -126 <= n <= 127 /\
    (- (1) * 2 ^ (-1) - 2 ^ (-16) <= q fx - inject_Z n <= 2 ^ (-1) + 2 ^ (-16))%Q.
Proof.
  intros [Hv [Hlo Hhi]].
  assert (Q1 : (q (- #126.0)%f32 == - (126))%Q) by q_const.
  assert (Q2 : (q #127.0 == 127)%Q) by q_const.
  assert (Q3 : (q #0.5 == 2 ^ (-1))%Q) by q_const.
  assert (Q4 : (q (- #0.5)%f32 == - (1) * 2 ^ (-1))%Q) by q_const.
  assert (V3 : vf32 #0.5) by vf_const.
  assert (V4 : vf32 (- #0.5)%f32) by vf_const.
  assert (P8 : (pow2 8 == 256)%Q) by q_const.
  assert (E16 : (pow2 (8 - 24) == 2 ^ (-16))%Q) by q_const.
  rewrite Q1 in Hlo. rewrite Q2 in Hhi.
  assert (Hrange : forall n : Z, (- (127) < inject_Z n < 128)%Q -> -126 <= n <= 127).
  { intros n [Ha Hb].
    change (- (127))%Q with (inject_Z (-127)) in Ha. change 128%Q with (inject_Z 128) in Hb.
    rewrite <- Zlt_Qlt in Ha, Hb. lia. }
  assert (Hint : forall s n, trunc s = Some n -> -126 <= n <= 127 -> to_int s = Val n).
  { intros s n Hs Hn. unfold to_int. rewrite Hs.
    replace (Int.in_range n) with true; [reflexivity|].
    symmetry. unfold Int.in_range, Int.min_signed, Int.max_signed.
    apply andb_true_iff. rewrite !Z.leb_le. change (2 ^ 31) with 2147483648. lia. }
  destruct (F32.leb #0.0 fx) eqn:Hsign.
  - apply (leb_zero_spec fx Hv) in Hsign.
    destruct (F32_add_close fx #0.5 8 Hv V3 ltac:(lia)) as [Hvs Hs].
    { rewrite P8, Q3. lra. }
    rewrite E16, Q3 in Hs.
    destruct (trunc_spec _ Hvs) as (n & Hn & Hpos & _).
    specialize (Hpos ltac:(lra)).
    exists n. assert (Hn' : -126 <= n <= 127) by (apply Hrange; lra).
    split; [exact (Hint _ _ Hn Hn')|]. split; [exact Hn'|]. lra.
  - apply (leb_false_lt _ _ vf32_zero_lit Hv) in Hsign.
    rewrite lit_zero, to_Q_zero in Hsign.
    destruct (F32_add_close fx (- #0.5)%f32 8 Hv V4 ltac:(lia)) as [Hvs Hs].
    { rewrite P8, Q4. lra. }
    rewrite E16, Q4 in Hs.
    destruct (trunc_spec _ Hvs) as (n & Hn & _ & Hneg & _).
    specialize (Hneg ltac:(lra)).
    exists n. assert (Hn' : -126 <= n <= 127) by (apply Hrange; lra).
    split; [exact (Hint _ _ Hn Hn')|]. split; [exact Hn'|]. lra.
Qed.

(** Between the two cut-offs, [exp] returns a positive finite number. *)
Lemma exp_in_range x :
  within32 (- #87.0)%f32 #88.0 x ->
  exists r, exp x = Val r /\
    within32 (S754_finite false 4194304 (-149)) (S754_finite false 13631488 104) r.
Proof.
  intros Hx.
  assert (V1 : vf32 (- #87.0)%f32) by vf_const.
  assert (V2 : vf32 #88.0) by vf_const.
  destruct (within32_leb _ _ _ V1 V2 Hx) as [Hlo Hhi].
  destruct Hx as [Hv [Hqlo Hqhi]].
  unfold exp.
  rewrite (F32_leb_true_ltb_false _ _ Hhi), (F32_leb_true_ltb_false _ _ Hlo).
  cbv zeta.
  assert (Q1 : (q (- #87.0)%f32 == - (87))%Q) by q_const.
  assert (Q2 : (q #88.0 == 88)%Q) by q_const.
  assert (V3 : vf32 #1.44269504088896341) by vf_const.
  assert (Q3 : (23637 * 2 ^ (-14) <= q #1.44269504088896341 <= 23638 * 2 ^ (-14))%Q)
    by (split; q_const).
  assert (V4 : vf32 (- #126.0)%f32) by vf_const.
  assert (V5 : vf32 #127.0) by vf_const.
  assert (Q4 : (q (- #126.0)%f32 == - (126))%Q) by q_const.
  assert (Q5 : (q #127.0 == 127)%Q) by q_const.
  pose proof (F32_mul_within x #1.44269504088896341 (- #126.0)%f32 #127.0 Hv V3 V4 V5) as Hfx.
  assert (Hfx' : within32 (- #126.0)%f32 #127.0 (x * #1.44269504088896341)%f32).
  { apply Hfx. rewrite Q4, Q5. split; nra. }
  clear Hfx.
  set (fx := (x * #1.44269504088896341)%f32) in *.
  destruct (exp_reduction fx Hfx') as (n & Hn & Hrange & Hr).
  rewrite Hn. cbn [bind].
  eexists. split; [reflexivity|].
  exact (exp_tail fx n (proj1 Hfx') Hrange Hr).
Qed.

Lemma exp_defined x :
  F32.valid x = true -> Format.is_nan x = false -> exists r, exp x = Val r.
Proof.
  intros Hv Hn.
  assert (V1 : vf32 (- #87.0)%f32) by vf_const.
  assert (V2 : vf32 #88.0) by vf_const.
  destruct (F32.ltb #88.0 x) eqn:Hhi.
  { exists #1e38. unfold exp. rewrite Hhi. reflexivity. }
  destruct (F32.ltb x (- #87.0)%f32) eqn:Hlo.
  { exists #0.0. unfold exp. rewrite Hhi, Hlo. reflexivity. }
  destruct (exp_in_range x (between_bounds x _ _ Hv Hn V1 V2 Hlo Hhi)) as (r & Hr & _).
  exists r. exact Hr.
Qed.

(** [exp] returns on every input that is not a NaN, and its result is
    finite and not negative; it is positive between the two cut-offs; on a
    NaN the conversion to [int], and so the call, is undefined. *)
Theorem exp_total :
  (forall x, F32.valid x = true -> Format.is_nan x = false ->
     exists r, exp x = Val r /\ Format.is_finite r = true /\ F32.leb #0.0 r = true) /\
  (forall x, F32.valid x = true ->
     F32.leb (- #87.0)%f32 x = true -> F32.leb x #88.0 = true ->
     exists r, exp x = Val r /\ F32.ltb #0.0 r = true) /\
  exp S754_nan = Undef.
Proof.
  assert (V1 : vf32 (- #87.0)%f32) by vf_const.
  assert (V2 : vf32 #88.0) by vf_const.
  assert (VL : vf32 (S754_finite false 4194304 (-149))) by vf_const.
  assert (Hres : forall r,
            within32 (S754_finite false 4194304 (-149)) (S754_finite false 13631488 104) r ->
            Format.is_finite r = true /\ F32.leb #0.0 r = true /\ F32.ltb #0.0 r = true).
  { intros r [Hvr [Hlo _]].
    assert (QL : (0 < q (S754_finite false 4194304 (-149)))%Q) by q_const.
    split; [apply Hvr|]. split.
    - apply (leb_zero_spec r Hvr). lra.
    - apply (SFltb_spec F32.prec F32.emax _ _ vf32_zero_lit Hvr).
      rewrite lit_zero, to_Q_zero. lra. }
  split; [|split].
  - intros x Hv Hn.
    destruct (F32.ltb #88.0 x) eqn:Hhi.
    { exists #1e38. unfold exp. rewrite Hhi. repeat split; vm_compute; reflexivity. }
    destruct (F32.ltb x (- #87.0)%f32) eqn:Hlo.
    { exists #0.0. unfold exp. rewrite Hhi, Hlo. repeat split; vm_compute; reflexivity. }
    destruct (exp_in_range x (between_bounds x _ _ Hv Hn V1 V2 Hlo Hhi)) as (r & Hr & Hw).
    exists r. split; [exact Hr|]. destruct (Hres r Hw) as (Hf & Hle & _). split; assumption.
  - intros x Hv Hlo Hhi.
    assert (Hvx : vf32 x).
    { split; [exact Hv|]. destruct x as [s|s| |s m e]; try reflexivity; exfalso.
      - destruct s; [revert Hlo|revert Hhi]; vm_compute; discriminate.
      - revert Hlo. vm_compute. discriminate. }
    assert (Hw : within32 (- #87.0)%f32 #88.0 x).
    { split; [exact Hvx|]. split.
      - exact (proj1 (SFleb_spec F32.prec F32.emax _ _ V1 Hvx) Hlo).
      - exact (proj1 (SFleb_spec F32.prec F32.emax _ _ Hvx V2) Hhi). }
    destruct (exp_in_range x Hw) as (r & Hr & Hwr).
    exists r. split; [exact Hr|]. apply (Hres r Hwr).
  - vm_compute. reflexivity.
Qed.

Lemma exp_total_witness :
  (exists r, exp #1.0 = Val r /\ Format.is_finite r = true /\ F32.leb #0.0 r = true) /\
  (exists r, exp (- #80.0)%f32 = Val r /\ F32.ltb #0.0 r = true).
Proof.
  destruct exp_total as (Htotal & Hpos & _). split.
  - apply Htotal; reflexivity.
  - apply Hpos; vm_compute; reflexivity.
Defined.

(** ** Division *)

Section Division.
Variables prec emax : Z.
Hypothesis Hprec : 0 < prec.
Hypothesis Hemax : prec < emax.

Local Abbreviation fexp := (SpecFloat.fexp prec emax).
Local Abbreviation vf := (valid_finite prec emax).
Local Abbreviation within := (in_interval prec emax).

(** A float below the successor of a point of a grid that is finer than
    the format is not above that point. *)
Lemma grid_floor mL eL k e :
  bounded prec emax mL eL = true ->
  0 <= k -> e <= fexp (Zdigits2 k + e) ->
  (dyadic (Zpos mL) eL < dyadic (k + 1) e)%Q ->
  0 < k /\ (dyadic (Zpos mL) eL <= dyadic k e)%Q.
Proof.
  intros HL Hk Hpre Hlt.
  destruct (bounded_digits prec emax mL eL HL) as (HdL & HeLlo & HeLhi & HnormL).
  destruct (Z.le_gt_cases e eL) as [Hge|Hfine].
  - set (K := Zpos mL * 2 ^ (eL - e)).
    assert (HK : (dyadic (Zpos mL) eL == dyadic K e)%Q).
    { unfold K. rewrite dyadic_shift by lia.
      replace (e + (eL - e)) with eL by lia. reflexivity. }
    rewrite HK in *. rewrite dyadic_lt_same in Hlt. rewrite dyadic_le_same.
    assert (0 < 2 ^ (eL - e)) by (apply Z.pow_pos_nonneg; lia).
    assert (0 < K) by (unfold K; lia). lia.
  - rewrite fexp_spec in Hpre.
    assert (Hd : prec <= Zdigits2 k) by lia.
    assert (Hk0 : 0 < k).
    { destruct (Z.eq_dec k 0) as [->|]; [cbn [Zdigits2] in Hd; lia|lia]. }
    split; [exact Hk0|].
    destruct (Zdigits2_bounds k Hk0) as [Hklo _].
    apply Qle_trans with (pow2 (prec - 1 + e)).
    + apply Qlt_le_weak. eapply Qlt_le_trans; [apply dyadic_digits_lt; lia|].
      apply pow2_le. lia.
    + apply pow2_le_dyadic; [exact Hk0|].
      replace (prec - 1 + e - e) with (prec - 1) by lia.
      eapply Z.le_trans; [|exact Hklo]. apply Z.pow_le_mono_r; lia.
Qed.

(** The quotient of two finite numbers is the rounding of a truncated
    quotient [k * 2^e] on a grid finer than the format. *)
Lemma SFdiv_finite_spec sx mx ex sy my ey :
  bounded prec emax mx ex = true -> bounded prec emax my ey = true ->
  exists k e l,
    SFdiv prec emax (S754_finite sx mx ex) (S754_finite sy my ey)
      = binary_round_aux prec emax (xorb sx sy) k e l /\
    0 <= k /\ e <= fexp (Zdigits2 k + e) /\
    (dyadic k e * dyadic (Zpos my) ey <= dyadic (Zpos mx) ex)%Q /\
    (dyadic (Zpos mx) ex < dyadic (k + 1) e * dyadic (Zpos my) ey)%Q /\
    (l <> loc_Exact -> dyadic k e * dyadic (Zpos my) ey < dyadic (Zpos mx) ex)%Q.
Proof.
  intros Hx Hy.
  cbn [SFdiv]. unfold SFdiv_core_binary.
  set (d1 := Zdigits2 (Zpos mx)). set (d2 := Zdigits2 (Zpos my)).
  set (e' := Z.min (fexp (d1 + ex - (d2 + ey))) (ex - ey)).
  set (s := ex - ey - e').
  assert (Hs : 0 <= s) by (unfold s, e'; lia).
  set (m' := match s with Zpos _ => Z.shiftl (Zpos mx) s | Z0 => Zpos mx | Zneg _ => 0 end).
  assert (Hm' : m' = Zpos mx * 2 ^ s) by (apply shiftl_cases; exact Hs).
  clearbody m'.
  pose proof (Z_div_mod m' (Zpos my) ltac:(lia)) as Hdiv.
  destruct (Z.div_eucl m' (Zpos my)) as [k r]. destruct Hdiv as [Hqr Hr].
  destruct (Zdigits2_bounds (Zpos mx) ltac:(lia)) as [Hxlo Hxhi]. fold d1 in Hxlo, Hxhi.
  destruct (Zdigits2_bounds (Zpos my) ltac:(lia)) as [Hylo Hyhi]. fold d2 in Hylo, Hyhi.
  pose proof (Zdigits2_pos (Zpos mx) ltac:(lia)) as Hd1. fold d1 in Hd1.
  pose proof (Zdigits2_pos (Zpos my) ltac:(lia)) as Hd2. fold d2 in Hd2.
  assert (Hps : 0 < 2 ^ s) by (apply Z.pow_pos_nonneg; lia).
  assert (Hk0 : 0 <= k) by nia.
  assert (Hdk : 0 < k -> d1 + s - d2 <= Zdigits2 k).
  { intros Hkpos. pose proof (Zdigits2_pos k Hkpos) as Hdkpos.
    destruct (Z.le_gt_cases (d1 + s - d2) 1) as [|Hbig]; [lia|].
    destruct (Zdigits2_bounds k Hkpos) as [_ Hkhi].
    destruct (Z.le_gt_cases (d1 + s - d2) (Zdigits2 k)) as [|Hgt]; auto. exfalso.
    assert (Hk2 : k + 1 <= 2 ^ (d1 + s - d2 - 1)).
    { assert (2 ^ Zdigits2 k <= 2 ^ (d1 + s - d2 - 1)) by (apply Z.pow_le_mono_r; lia). lia. }
    assert (Hm'lo : 2 ^ (d1 - 1) * 2 ^ s <= m') by (rewrite Hm'; nia).
    assert (Hup : m' < (k + 1) * 2 ^ d2) by nia.
    assert (Hup2 : (k + 1) * 2 ^ d2 <= 2 ^ (d1 + s - d2 - 1) * 2 ^ d2)
      by (apply Z.mul_le_mono_nonneg_r; lia).
    rewrite <- !Z.pow_add_r in * by lia.
    replace (d1 + s - d2 - 1 + d2) with (d1 - 1 + s) in Hup2 by lia. lia. }
  assert (Hpre : e' <= fexp (Zdigits2 k + e')).
  { destruct (Z.eq_dec k 0) as [->|Hk].
    - cbn [Zdigits2]. rewrite fexp_spec.
      destruct (Z.le_gt_cases e' (3 - emax - prec)) as [|Hnorm]; [lia|]. exfalso.
      assert (Hfe : e' <= d1 + ex - (d2 + ey) - prec).
      { unfold e' in *. rewrite fexp_spec in *. lia. }
      assert (Hbig : 2 ^ d2 <= m').
      { rewrite Hm'. apply Z.le_trans with (2 ^ (d1 - 1) * 2 ^ s); [|nia].
        rewrite <- Z.pow_add_r by lia. apply Z.pow_le_mono_r; lia. }
      lia.
    - specialize (Hdk ltac:(lia)).
      apply Z.le_trans with (fexp (d1 + ex - (d2 + ey))); [unfold e'; lia|].
      apply fexp_mono. unfold s in Hdk. lia. }
  exists k, e', (new_location (Zpos my) r).
  split; [reflexivity|]. split; [exact Hk0|]. split; [exact Hpre|].
  (* the values *)
  assert (Hx' : (dyadic (Zpos mx) ex == dyadic m' (e' + ey))%Q).
  { rewrite Hm', dyadic_shift by lia. replace (e' + ey + s) with ex by (unfold s; lia).
    reflexivity. }
  assert (Hprod : forall z, (dyadic z e' * dyadic (Zpos my) ey
                             == dyadic (z * Zpos my) (e' + ey))%Q).
  { intros z. rewrite dyadic_mul. reflexivity. }
  rewrite Hx', !Hprod.
  split; [apply dyadic_le_same; nia|]. split; [apply dyadic_lt_same; nia|].
  intros Hloc. apply dyadic_lt_same.
  assert (r <> 0).
  { intros ->. apply Hloc. unfold new_location, new_location_even, new_location_odd.
    destruct (Z.even (Zpos my)); reflexivity. }
  nia.
Qed.

(** The quotient of two positive floats between two floats. *)
Lemma SFdiv_pos_within mx ex my ey L U :
  bounded prec emax mx ex = true -> bounded prec emax my ey = true ->
  vf L -> vf U ->
  (Format.to_Q L * dyadic (Zpos my) ey <= dyadic (Zpos mx) ex
   <= Format.to_Q U * dyadic (Zpos my) ey)%Q ->
  within L U (SFdiv prec emax (S754_finite false mx ex) (S754_finite false my ey)).
Proof.
  intros Hx Hy HL HU [Hlo Hhi].
  destruct (SFdiv_finite_spec false mx ex false my ey Hx Hy)
    as (k & e & l & -> & Hk & Hpre & Hle & Hlt & Hstrict).
  cbn [xorb].
  pose proof (dyadic_pos (Zpos mx) ex eq_refl) as Hxpos.
  pose proof (dyadic_pos (Zpos my) ey eq_refl) as Hypos.
  set (x := dyadic (Zpos mx) ex) in *. set (y := dyadic (Zpos my) ey) in *.
  (* the upper bound is a positive float *)
  destruct U as [sU|sU| |sU mU eU]; try (destruct HU as [_ HU]; discriminate HU).
  { rewrite to_Q_zero in Hhi. lra. }
  rewrite to_Q_finite in Hhi.
  destruct sU; cbn [cond_Zopp] in Hhi.
  { pose proof (dyadic_neg (- Zpos mU) eU ltac:(lia)). nra. }
  assert (HkU : (dyadic k e <= dyadic (Zpos mU) eU)%Q) by nra.
  assert (HkU' : l <> loc_Exact -> (dyadic k e < dyadic (Zpos mU) eU)%Q).
  { intros Hl. specialize (Hstrict Hl). nra. }
  pose proof (binary_round_aux_upper prec emax Hprec Hemax false k e l mU eU Hk Hpre
                (vf_finite_inv _ _ _ _ _ HU) HkU HkU') as Hup.
  assert (HLcases : (Format.to_Q L <= 0)%Q \/ exists mL eL, L = S754_finite false mL eL).
  { destruct L as [sL|sL| |sL mL eL]; try (left; cbn; lra).
    destruct sL; [left|right; eauto].
    rewrite to_Q_finite. cbn [cond_Zopp].
    pose proof (dyadic_neg (- Zpos mL) eL ltac:(lia)). lra. }
  destruct HLcases as [HLneg|(mL & eL & ->)].
  - destruct (binary_round_aux prec emax false k e l) as [s'|s'| |s' m'' e''];
      try contradiction.
    + split; [apply vf_zero|]. rewrite to_Q_finite, to_Q_zero. cbn [cond_Zopp].
      pose proof (dyadic_pos (Zpos mU) eU eq_refl). lra.
    + destruct Hup as (-> & Hb & Hle'). split; [apply vf_finite; exact Hb|].
      rewrite !to_Q_finite. cbn [cond_Zopp].
      pose proof (dyadic_pos (Zpos m'') e'' eq_refl). lra.
  - rewrite to_Q_finite in Hlo. cbn [cond_Zopp] in Hlo.
    assert (HLk : (dyadic (Zpos mL) eL < dyadic (k + 1) e)%Q) by nra.
    destruct (grid_floor mL eL k e (vf_finite_inv _ _ _ _ _ HL) Hk Hpre HLk) as [Hkpos HLle].
    pose proof (binary_round_aux_lower prec emax Hprec Hemax false k e l mL eL Hkpos Hpre
                  (vf_finite_inv _ _ _ _ _ HL) HLle) as Hlow.
    destruct (binary_round_aux prec emax false k e l) as [s'|s'| |s' m'' e''];
      try contradiction.
    destruct Hup as (-> & Hb & Hle'). destruct Hlow as (_ & _ & Hge).
    split; [apply vf_finite; exact Hb|].
    rewrite !to_Q_finite. cbn [cond_Zopp]. lra.
Qed.

Lemma SFdiv_opp_l x y :
  Format.is_nan x = false ->
  SFdiv prec emax (SFopp x) y = SFopp (SFdiv prec emax x y).
Proof.
  intros Hx.
  destruct x as [sx|sx| |sx mx ex], y as [sy|sy| |sy my ey];
    try discriminate Hx; cbn [SFdiv SFopp]; try reflexivity;
    try (destruct sx, sy; reflexivity).
  destruct (SFdiv_core_binary prec emax (Zpos mx) ex (Zpos my) ey) as [[m e] l].
  replace (xorb (negb sx) sy) with (negb (xorb sx sy)) by (destruct sx, sy; reflexivity).
  apply binary_round_aux_opp.
Qed.

(** The quotient of a finite float by a positive one, between two
    floats. *)
Lemma SFdiv_within x y L U :
  vf x -> vf y -> vf L -> vf U ->
  (0 < Format.to_Q y)%Q ->
  (Format.to_Q L * Format.to_Q y <= Format.to_Q x <= Format.to_Q U * Format.to_Q y)%Q ->
  within L U (SFdiv prec emax x y).
Proof.
  intros Hx Hy HL HU Hypos Hb.
  destruct y as [sy|sy| |sy my ey]; try (destruct Hy as [_ Hy]; discriminate Hy).
  { rewrite to_Q_zero in Hypos. lra. }
  rewrite to_Q_finite in Hypos, Hb.
  destruct sy; cbn [cond_Zopp] in Hypos, Hb.
  { pose proof (dyadic_neg (- Zpos my) ey ltac:(lia)). lra. }
  destruct x as [sx|sx| |sx mx ex]; try (destruct Hx as [_ Hx]; discriminate Hx).
  - cbn [SFdiv xorb]. rewrite to_Q_zero in Hb.
    split; [apply vf_zero|]. rewrite to_Q_zero. nra.
  - rewrite to_Q_finite in Hb. destruct sx; cbn [cond_Zopp] in Hb.
    + change (S754_finite true mx ex) with (SFopp (S754_finite false mx ex)).
      rewrite SFdiv_opp_l by reflexivity.
      apply within_opp.
      apply SFdiv_pos_within; auto using vf_opp.
      * apply (vf_finite_inv prec emax true). exact Hx.
      * apply (vf_finite_inv prec emax false). exact Hy.
      * rewrite dyadic_opp in Hb. rewrite !to_Q_opp. split; nra.
    + apply SFdiv_pos_within; auto.
      * apply (vf_finite_inv prec emax false). exact Hx.
      * apply (vf_finite_inv prec emax false). exact Hy.
Qed.

End Division.

Lemma F32_div_within x y L U :
  vf32 x -> vf32 y -> vf32 L -> vf32 U ->
  (0 < q y)%Q -> (q L * q y <= q x <= q U * q y)%Q ->
  within32 L U (x / y)%f32.
Proof. apply (SFdiv_within F32.prec F32.emax F32_prec F32_emax). Qed.

(** ** [tanh] *)

Lemma valid_opp x : F32.valid x = true -> F32.valid (- x)%f32 = true.
Proof. destruct x; auto. Qed.

Lemma is_nan_opp x : Format.is_nan (- x)%f32 = Format.is_nan x.
Proof. destruct x; reflexivity. Qed.

Lemma in_unit_range_of_within r :
  within32 (- #1.0)%f32 #1.0 r -> in_unit_range r = true.
Proof.
  intros H. apply in_unit_range_within; [apply H|exact H].
Qed.

Lemma abs_lt_spec x c :
  vf32 c -> F32.valid x = true -> F32.ltb (F32.abs x) c = true ->
  vf32 x /\ (- q c < q x < q c)%Q.
Proof.
  intros Hc Hv H.
  destruct x as [s|s| |s m e]; try discriminate H.
  - assert (Hvx : vf32 (S754_zero s)) by (split; [exact Hv|reflexivity]).
    split; [exact Hvx|].
    assert (Hz : vf32 (S754_zero false)) by vf_const.
    apply (SFltb_spec F32.prec F32.emax _ _ Hz Hc) in H.
    rewrite !to_Q_zero in *. lra.
  - destruct c as [sc|sc| |sc mc ec]; try (destruct Hc as [_ Hc]; discriminate Hc);
      discriminate H.
  - assert (Hvx : vf32 (S754_finite s m e)) by (split; [exact Hv|reflexivity]).
    split; [exact Hvx|].
    assert (Hva : vf32 (S754_finite false m e)) by (split; [exact Hv|reflexivity]).
    cbn [F32.abs SFabs] in H.
    apply (SFltb_spec F32.prec F32.emax _ _ Hva Hc) in H.
    rewrite !to_Q_finite in *. pose proof (dyadic_pos (Zpos m) e eq_refl).
    destruct s; cbn [cond_Zopp] in *; rewrite ?dyadic_opp; lra.
Qed.

(** The Taylor branch of [tanh]. *)
Lemma tanh_taylor_within x :
  vf32 x -> (- (1) * 2 ^ (-1) <= q x <= 2 ^ (-1))%Q ->
  within32 (- #1.0)%f32 #1.0
    (let x2 := (x * x)%f32 in
     x * (#1.0 - x2 * (#1.0 / #3.0 - x2 * (#2.0 / #15.0 - x2 * #17.0 / #315.0))))%f32.
Proof.
  intros Hv Hx. cbv zeta.
  assert (V0 : vf32 #0.0) by vf_const.
  assert (V1 : vf32 #1.0) by vf_const.
  assert (V1' : vf32 (- #1.0)%f32) by vf_const.
  assert (V2 : vf32 #0.25) by vf_const.
  assert (V3 : vf32 #0.5) by vf_const.
  assert (V4 : vf32 #0.125) by vf_const.
  assert (V5 : vf32 #0.0625) by vf_const.
  assert (V6 : vf32 #0.015625) by vf_const.
  assert (V7 : vf32 #4.25) by vf_const.
  assert (V8 : vf32 #0.875) by vf_const.
  assert (V17 : vf32 #17.0) by vf_const.
  assert (V315 : vf32 #315.0) by vf_const.
  assert (Vc3 : vf32 (#1.0 / #3.0)%f32) by vf_const.
  assert (Vc15 : vf32 (#2.0 / #15.0)%f32) by vf_const.
  assert (Q0 : (q #0.0 == 0)%Q) by q_const.
  assert (Q1 : (q #1.0 == 1)%Q) by q_const.
  assert (Q1' : (q (- #1.0)%f32 == - (1))%Q) by q_const.
  assert (Q2 : (q #0.25 == 2 ^ (-2))%Q) by q_const.
  assert (Q3 : (q #0.5 == 2 ^ (-1))%Q) by q_const.
  assert (Q4 : (q #0.125 == 2 ^ (-3))%Q) by q_const.
  assert (Q5 : (q #0.0625 == 2 ^ (-4))%Q) by q_const.
  assert (Q6 : (q #0.015625 == 2 ^ (-6))%Q) by q_const.
  assert (Q7 : (q #4.25 == 17 * 2 ^ (-2))%Q) by q_const.
  assert (Q8 : (q #0.875 == 7 * 2 ^ (-3))%Q) by q_const.
  assert (Q17 : (q #17.0 == 17)%Q) by q_const.
  assert (Q315 : (q #315.0 == 315)%Q) by q_const.
  assert (Qc3 : (5 * 2 ^ (-4) <= q (#1.0 / #3.0)%f32 <= 6 * 2 ^ (-4))%Q) by (split; q_const).
  assert (Qc15 : (2 ^ (-3) <= q (#2.0 / #15.0)%f32 <= 9 * 2 ^ (-6))%Q) by (split; q_const).
  destruct (F32_mul_within x x #0.0 #0.25 Hv Hv V0 V2) as [Hv2 [H2lo H2hi]].
  { split; nra. }
  set (x2 := (x * x)%f32) in *.
  destruct (F32_mul_within x2 #17.0 #0.0 #4.25 Hv2 V17 V0 V7) as [Hva [Halo Hahi]].
  { split; nra. }
  set (a := (x2 * #17.0)%f32) in *.
  destruct (F32_div_within a #315.0 #0.0 #0.015625 Hva V315 V0 V6) as [Hvb [Hblo Hbhi]].
  { lra. }
  { split; nra. }
  set (b := (a / #315.0)%f32) in *.
  destruct (F32_sub_within (#2.0 / #15.0)%f32 b #0.0625 #0.25 Vc15 Hvb V5 V2)
    as [Hvc [Hclo Hchi]].
  { lra. }
  set (c := (#2.0 / #15.0 - b)%f32) in *.
  destruct (F32_mul_within x2 c #0.0 #0.0625 Hv2 Hvc V0 V5) as [Hvd [Hdlo Hdhi]].
  { split; nra. }
  set (d := (x2 * c)%f32) in *.
  destruct (F32_sub_within (#1.0 / #3.0)%f32 d #0.25 #0.5 Vc3 Hvd V2 V3)
    as [Hve [Helo Hehi]].
  { lra. }
  set (e := (#1.0 / #3.0 - d)%f32) in *.
  destruct (F32_mul_within x2 e #0.0 #0.125 Hv2 Hve V0 V4) as [Hvf [Hflo Hfhi]].
  { split; nra. }
  set (f := (x2 * e)%f32) in *.
  destruct (F32_sub_within #1.0 f #0.875 #1.0 V1 Hvf V8 V1) as [Hvg [Hglo Hghi]].
  { lra. }
  set (g := (#1.0 - f)%f32) in *.
  refine (F32_mul_within x g _ _ Hv Hvg V1' V1 _).
  split; nra.
Qed.

(** The branch of [tanh] through [exp]. *)
Lemma tanh_quotient_within e :
  within32 (S754_finite false 4194304 (-149)) (S754_finite false 13631488 104) e ->
  within32 (- #1.0)%f32 #1.0 ((e - #1.0) / (e + #1.0))%f32.
Proof.
  intros [Hv [Hlo Hhi]].
  assert (V1 : vf32 #1.0) by vf_const.
  assert (V1' : vf32 (- #1.0)%f32) by vf_const.
  assert (VM : vf32 (S754_finite false 16777215 104)) by vf_const.
  assert (Q1 : (q #1.0 == 1)%Q) by q_const.
  assert (Q1' : (q (- #1.0)%f32 == - (1))%Q) by q_const.
  assert (QL : (0 < q (S754_finite false 4194304 (-149)))%Q) by q_const.
  assert (QU : (q (S754_finite false 13631488 104) + 1
                <= q (S754_finite false 16777215 104))%Q) by q_const.
  destruct (F32_sub_within e #1.0 (- #1.0)%f32 e Hv V1 V1' Hv) as [Hvn [Hnlo Hnhi]].
  { lra. }
  destruct (F32_add_within e #1.0 e (S754_finite false 16777215 104) Hv V1 Hv VM)
    as [Hvd [Hdlo _]].
  { lra. }
  destruct (F32_add_within e #1.0 #1.0 (S754_finite false 16777215 104) Hv V1 V1 VM)
    as [_ [Hdlo' _]].
  { lra. }
  set (num := (e - #1.0)%f32) in *. set (den := (e + #1.0)%f32) in *.
  refine (F32_div_within num den _ _ Hvn Hvd V1' V1 _ _).
  - lra.
  - split; nra.
Qed.

(** Nothing is below a negative number and above a positive one. *)
Lemma ltb_negative_positive x mb eb b :
  b = S754_finite false mb eb ->
  F32.ltb x (- b)%f32 = true -> F32.ltb b x = false.
Proof.
  intros -> H. unfold F32.ltb, SFltb in *. cbn [F32.opp SFopp negb] in H.
  destruct x as [s|s| |s m e]; try reflexivity.
  - destruct s; [reflexivity|discriminate H].
  - destruct s; [reflexivity|discriminate H].
Qed.

(** [tanh] returns on every input that is not a NaN, a number of
    [[-1, 1]]; it is [1] above 5 and [-1] below -5; on a NaN it is
    undefined. *)
Theorem tanh_range :
  (forall x, F32.valid x = true -> Format.is_nan x = false ->
     exists r, tanh x = Val r /\ in_unit_range r = true) /\
  (forall x, F32.ltb #5.0 x = true -> tanh x = Val #1.0) /\
  (forall x, F32.ltb x (- #5.0)%f32 = true -> tanh x = Val (- #1.0)%f32) /\
  tanh S754_nan = Undef.
Proof.
  split; [|split; [|split]].
  - intros x Hv Hn. unfold tanh.
    destruct (F32.ltb #5.0 x) eqn:Hhi.
    { exists #1.0. split; [reflexivity|vm_compute; reflexivity]. }
    destruct (F32.ltb x (- #5.0)%f32) eqn:Hlo.
    { exists (- #1.0)%f32. split; [reflexivity|vm_compute; reflexivity]. }
    assert (V5 : vf32 #5.0) by vf_const.
    assert (V5' : vf32 (- #5.0)%f32) by vf_const.
    destruct (between_bounds x _ _ Hv Hn V5' V5 Hlo Hhi) as [Hvx [Hxlo Hxhi]].
    destruct (F32.ltb (F32.abs x) #0.5) eqn:Hsmall.
    + assert (V : vf32 #0.5) by vf_const.
      destruct (abs_lt_spec x #0.5 V Hv Hsmall) as [_ Hx].
      assert (Q : (q #0.5 == 2 ^ (-1))%Q) by q_const.
      eexists. split; [reflexivity|].
      apply in_unit_range_of_within. apply tanh_taylor_within; [exact Hvx|lra].
    + assert (V2 : vf32 #2.0) by vf_const.
      assert (V87 : vf32 (- #87.0)%f32) by vf_const.
      assert (V88 : vf32 #88.0) by vf_const.
      assert (Q2 : (q #2.0 == 2)%Q) by q_const.
      assert (Q5 : (q #5.0 == 5)%Q) by q_const.
      assert (Q5' : (q (- #5.0)%f32 == - (5))%Q) by q_const.
      assert (Q87 : (q (- #87.0)%f32 == - (87))%Q) by q_const.
      assert (Q88 : (q #88.0 == 88)%Q) by q_const.
      pose proof (F32_mul_within #2.0 x (- #87.0)%f32 #88.0 V2 Hvx V87 V88) as H2x.
      assert (H2x' : within32 (- #87.0)%f32 #88.0 (#2.0 * x)%f32).
      { apply H2x. split; nra. }
      destruct (exp_in_range _ H2x') as (e & He & Hwe).
      rewrite He. cbn [bind]. eexists. split; [reflexivity|].
      apply in_unit_range_of_within. apply tanh_quotient_within. exact Hwe.
  - intros x H. unfold tanh. rewrite H. reflexivity.
  - intros x H. unfold tanh. rewrite H.
    rewrite (ltb_negative_positive x 10485760 (-21) #5.0 eq_refl H). reflexivity.
  - vm_compute. reflexivity.
Qed.

Lemma tanh_range_witness :
  (exists r, tanh #2.0 = Val r /\ in_unit_range r = true) /\
  tanh #6.0 = Val #1.0 /\ tanh (- #6.0)%f32 = Val (- #1.0)%f32.
Proof.
  destruct tanh_range as (Hrange & Hhi & Hlo & _).
  split; [apply Hrange; reflexivity|].
  split; [apply Hhi|apply Hlo]; vm_compute; reflexivity.
Defined.

(** ** [log], [log10] and [log2] *)

(** The mantissa that [log] rebuilds from the low 23 bits is a float of
    [[1, 2)], whatever the bits are. *)
Lemma log_mantissa i :
  exists m,
    float_of_bits (Z.lor (Z.land i 0x007FFFFF) 0x3F800000) = S754_finite false m (-23) /\
    8388608 <= Zpos m < 16777216.
Proof.
  change 0x007FFFFF with (Z.ones 23). rewrite Z.land_ones by lia.
  pose proof (Z.mod_pos_bound i (2 ^ 23) eq_refl) as Ha.
  set (a := i mod 2 ^ 23) in *. change (2 ^ 23) with 8388608 in Ha.
  assert (Hland : Z.land a 0x3F800000 = 0).
  { apply Z.bits_inj'. intros n Hn. rewrite Z.land_spec, Z.bits_0.
    destruct (Z.lt_ge_cases n 23) as [Hlow|Hhigh].
    - change 0x3F800000 with (Z.shiftl 127 23).
      rewrite (Z.shiftl_spec_low 127 23 n Hlow). apply andb_false_r.
    - destruct (Z.eq_dec a 0) as [->|Hne]; [rewrite Z.bits_0; reflexivity|].
      rewrite (Z.bits_above_log2 a n); [reflexivity|lia|].
      apply Z.lt_le_trans with 23; [|exact Hhigh].
      apply Z.log2_lt_pow2; [lia|]. change (2 ^ 23) with 8388608. lia. }
  assert (Hlor : Z.lor a 0x3F800000 = a + 0x3F800000).
  { rewrite <- Z.lxor_lor by exact Hland. symmetry. apply Z.add_nocarry_lxor. exact Hland. }
  rewrite Hlor. unfold float_of_bits.
  set (u := a + 0x3F800000).
  assert (Hu : 1065353216 <= u < 1073741824) by (unfold u; lia).
  assert (Hmod : u mod 2 ^ 32 = u)
    by (apply Z.mod_small; change (2 ^ 32) with 4294967296; lia).
  rewrite Hmod. cbv zeta.
  assert (Hs : Z.testbit u 31 = false).
  { apply Z.bits_above_log2; [lia|].
    apply Z.log2_lt_pow2; [lia|]. change (2 ^ 31) with 2147483648. lia. }
  assert (He : Z.land (Z.shiftr u 23) 0xFF = 127).
  { rewrite Z.shiftr_div_pow2 by lia.
    assert (Hq : u / 2 ^ 23 = 127).
    { symmetry. apply (Z.div_unique u (2 ^ 23) 127 a); [left; exact Ha|].
      unfold u. change (2 ^ 23) with 8388608. lia. }
    rewrite Hq. reflexivity. }
  assert (Hm : Z.land u 0x7FFFFF = a).
  { change 0x7FFFFF with (Z.ones 23). rewrite Z.land_ones by lia.
    symmetry. apply (Z.mod_unique u (2 ^ 23) 127 a); [left; exact Ha|].
    unfold u. change (2 ^ 23) with 8388608. lia. }
  rewrite Hs, He, Hm. cbn [Z.eqb Pos.eqb].
  destruct (a + 2 ^ 23) as [|m|m] eqn:Hsum; change (2 ^ 23) with 8388608 in Hsum; try lia.
  exists m. split; [reflexivity|lia].
Qed.

Lemma log_mantissa_value m :
  8388608 <= Zpos m < 16777216 ->
  vf32 (S754_finite false m (-23)) /\ (1 <= q (S754_finite false m (-23)) < 2)%Q.
Proof.
  intros Hm. split.
  - apply vf_finite. apply bounded_spec.
    assert (Hd : Zpos (digits2_pos m) = 24).
    { change (Zpos (digits2_pos m)) with (Zdigits2 (Zpos m)).
      apply Zdigits2_unique; [|lia]. change (2 ^ (24 - 1)) with 8388608.
      change (2 ^ 24) with 16777216. lia. }
    rewrite Hd, fexp_spec. unfold F32.prec, F32.emax. lia.
  - rewrite to_Q_finite. cbn [cond_Zopp].
    assert (H1 : (1 == dyadic 8388608 (-23))%Q) by q_const.
    assert (H2 : (2 == dyadic 16777216 (-23))%Q) by q_const.
    rewrite H1 at 1. rewrite H2. split.
    + apply dyadic_le_same. lia.
    + apply dyadic_lt_same. lia.
Qed.

(** The series of [log] on a mantissa of [[1, 2)]. *)
Lemma log_poly_within mant :
  vf32 mant -> (1 <= q mant < 2)%Q ->
  within32 #0.0 #1.125
    (let t := ((mant - #1.0) / (mant + #1.0))%f32 in
     let t2 := (t * t)%f32 in
     t * (#2.0 + t2 * (#2.0 / #3.0 + t2 * (#2.0 / #5.0 +
          t2 * (#2.0 / #7.0 + t2 * #2.0 / #9.0)))))%f32.
Proof.
  intros Hv Hm. cbv zeta.
  assert (V0 : vf32 #0.0) by vf_const.
  assert (V1 : vf32 #1.0) by vf_const.
  assert (V2 : vf32 #2.0) by vf_const.
  assert (V3 : vf32 #3.0) by vf_const.
  assert (V9 : vf32 #9.0) by vf_const.
  assert (Vh : vf32 #0.5) by vf_const.
  assert (Vq : vf32 #0.25) by vf_const.
  assert (Ve : vf32 #0.125) by vf_const.
  assert (Vs : vf32 #0.0625) by vf_const.
  assert (V225 : vf32 #2.25) by vf_const.
  assert (V1125 : vf32 #1.125) by vf_const.
  assert (Vc3 : vf32 (#2.0 / #3.0)%f32) by vf_const.
  assert (Vc5 : vf32 (#2.0 / #5.0)%f32) by vf_const.
  assert (Vc7 : vf32 (#2.0 / #7.0)%f32) by vf_const.
  assert (Q0 : (q #0.0 == 0)%Q) by q_const.
  assert (Q1 : (q #1.0 == 1)%Q) by q_const.
  assert (Q2 : (q #2.0 == 2)%Q) by q_const.
  assert (Q3 : (q #3.0 == 3)%Q) by q_const.
  assert (Q9 : (q #9.0 == 9)%Q) by q_const.
  assert (Qh : (q #0.5 == 2 ^ (-1))%Q) by q_const.
  assert (Qq : (q #0.25 == 2 ^ (-2))%Q) by q_const.
  assert (Qe : (q #0.125 == 2 ^ (-3))%Q) by q_const.
  assert (Qs : (q #0.0625 == 2 ^ (-4))%Q) by q_const.
  assert (Q225 : (q #2.25 == 9 * 2 ^ (-2))%Q) by q_const.
  assert (Q1125 : (q #1.125 == 9 * 2 ^ (-3))%Q) by q_const.
  assert (Qc3 : (2 ^ (-1) <= q (#2.0 / #3.0)%f32 <= 3 * 2 ^ (-2))%Q) by (split; q_const).
  assert (Qc5 : (2 ^ (-2) <= q (#2.0 / #5.0)%f32 <= 2 ^ (-1))%Q) by (split; q_const).
  assert (Qc7 : (2 ^ (-2) <= q (#2.0 / #7.0)%f32 <= 3 * 2 ^ (-3))%Q) by (split; q_const).
  destruct (F32_sub_within mant #1.0 #0.0 #1.0 Hv V1 V0 V1) as [Hvn [Hnlo Hnhi]].
  { lra. }
  destruct (F32_add_within mant #1.0 #2.0 #3.0 Hv V1 V2 V3) as [Hvd [Hdlo Hdhi]].
  { lra. }
  set (num := (mant - #1.0)%f32) in *. set (den := (mant + #1.0)%f32) in *.
  destruct (F32_div_within num den #0.0 #0.5 Hvn Hvd V0 Vh) as [Hvt [Htlo Hthi]].
  { lra. }
  { split; nra. }
  set (t := (num / den)%f32) in *.
  clearbody t. clear Hnlo Hnhi Hdlo Hdhi Hvn Hvd num den Hm Hv mant.
  destruct (F32_mul_within t t #0.0 #0.25 Hvt Hvt V0 Vq) as [Hv2 [H2lo H2hi]].
  { split; nra. }
  set (t2 := (t * t)%f32) in *.
  destruct (F32_mul_within t2 #2.0 #0.0 #0.5 Hv2 V2 V0 Vh) as [Hva [Halo Hahi]].
  { split; nra. }
  set (a := (t2 * #2.0)%f32) in *.
  destruct (F32_div_within a #9.0 #0.0 #0.0625 Hva V9 V0 Vs) as [Hvb [Hblo Hbhi]].
  { lra. }
  { split; nra. }
  set (b := (a / #9.0)%f32) in *.
  destruct (F32_add_within (#2.0 / #7.0)%f32 b #0.25 #0.5 Vc7 Hvb Vq Vh) as [Hvc [Hclo Hchi]].
  { lra. }
  set (c := (#2.0 / #7.0 + b)%f32) in *.
  destruct (F32_mul_within t2 c #0.0 #0.125 Hv2 Hvc V0 Ve) as [Hvd [Hdlo Hdhi]].
  { split; nra. }
  set (d := (t2 * c)%f32) in *.
  destruct (F32_add_within (#2.0 / #5.0)%f32 d #0.25 #1.0 Vc5 Hvd Vq V1) as [Hve [Helo Hehi]].
  { lra. }
  set (e := (#2.0 / #5.0 + d)%f32) in *.
  destruct (F32_mul_within t2 e #0.0 #0.25 Hv2 Hve V0 Vq) as [Hvf [Hflo Hfhi]].
  { split; nra. }
  set (f := (t2 * e)%f32) in *.
  destruct (F32_add_within (#2.0 / #3.0)%f32 f #0.5 #1.0 Vc3 Hvf Vh V1) as [Hvg [Hglo Hghi]].
  { lra. }
  set (g := (#2.0 / #3.0 + f)%f32) in *.
  destruct (F32_mul_within t2 g #0.0 #0.25 Hv2 Hvg V0 Vq) as [Hvh [Hhlo Hhhi]].
  { split; nra. }
  set (h := (t2 * g)%f32) in *.
  destruct (F32_add_within #2.0 h #2.0 #2.25 V2 Hvh V2 V225) as [Hvk [Hklo Hkhi]].
  { lra. }
  set (k := (#2.0 + h)%f32) in *.
  refine (F32_mul_within t k _ _ Hvt Hvk V0 V1125 _).
  split; nra.
Qed.

(** Past its two guards, [log] returns a number of [[-89, 91]] on every
    bit pattern. *)
Lemma log_general_within x :
  F32.leb x #0.0 = false -> F32.eqb x #1.0 = false ->
  within32 (- #89.0)%f32 #91.0 (log x).
Proof.
  intros H0 H1. unfold log. rewrite H0, H1. cbv zeta.
  set (i := bits_of_float x).
  destruct (log_mantissa i) as (m & -> & Hm).
  destruct (log_mantissa_value m Hm) as [Hvm Hqm].
  pose proof (log_poly_within _ Hvm Hqm) as Hpoly. cbv zeta in Hpoly.
  set (poly := (_ / _ * _)%f32) in *. clearbody poly.
  change 0xFF with (Z.ones 8). rewrite Z.land_ones by lia.
  pose proof (Z.mod_pos_bound (Z.shiftr i 23) (2 ^ 8) eq_refl) as He.
  set (eb := Z.shiftr i 23 mod 2 ^ 8) in *. change (2 ^ 8) with 256 in He.
  destruct (of_int_exact (eb - 127)) as [Hve Hqe].
  { change (2 ^ 24) with 16777216. lia. }
  assert (Hrange : (- (127) <= inject_Z (eb - 127) <= 128)%Q).
  { change (- (127))%Q with (inject_Z (-127)). change 128%Q with (inject_Z 128).
    rewrite <- !Zle_Qle. lia. }
  assert (Vln2 : vf32 #0.69314718055994531) by vf_const.
  assert (Qln2 : (0 <= q #0.69314718055994531 <= 11357 * 2 ^ (-14))%Q) by (split; q_const).
  assert (V90 : vf32 #89.0) by vf_const.
  assert (V89' : vf32 (- #89.0)%f32) by vf_const.
  assert (V91 : vf32 #91.0) by vf_const.
  assert (Q90 : (q #89.0 == 89)%Q) by q_const.
  assert (Q89' : (q (- #89.0)%f32 == - (89))%Q) by q_const.
  assert (Q91 : (q #91.0 == 91)%Q) by q_const.
  assert (Q0 : (q #0.0 == 0)%Q) by q_const.
  assert (Q1125 : (q #1.125 == 9 * 2 ^ (-3))%Q) by q_const.
  destruct Hpoly as [Hvp [Hplo Hphi]].
  destruct (F32_mul_within (F32.of_int (eb - 127)) #0.69314718055994531
              (- #89.0)%f32 #89.0 Hve Vln2 V89' V90) as [Hvs [Hslo Hshi]].
  { rewrite Hqe. split; nra. }
  refine (F32_add_within _ poly _ _ Hvs Hvp V89' V91 _).
  lra.
Qed.

Lemma log_within x : within32 (- #1e38)%f32 #91.0 (log x).
Proof.
  assert (VL : vf32 (- #1e38)%f32) by vf_const.
  assert (VU : vf32 #91.0) by vf_const.
  destruct (F32.leb x #0.0) eqn:H0.
  { unfold log. rewrite H0. split; [exact VL|]. split; q_const. }
  destruct (F32.eqb x #1.0) eqn:H1.
  { unfold log. rewrite H0, H1. split; [vf_const|]. split; q_const. }
  apply (within_weaken _ _ _ _ _ _ _ (log_general_within x H0 H1)); q_const.
Qed.

(** [log], [log10] and [log2] never return a NaN or an infinity; on every
    input that is not [<= 0], a NaN and [+infinity] included, [log] returns
    a number of [[-89, 91]]. *)
Theorem log_finite :
  (forall x, Format.is_finite (log x) = true /\
             Format.is_finite (log10 x) = true /\
             Format.is_finite (log2 x) = true) /\
  (forall x, F32.leb x #0.0 = false ->
             F32.leb (- #89.0)%f32 (log x) = true /\ F32.leb (log x) #91.0 = true).
Proof.
  assert (VL : vf32 (- #1e38)%f32) by vf_const.
  assert (VU : vf32 #91.0) by vf_const.
  assert (QL : (q (- #1e38)%f32 == - q #1e38)%Q) by apply to_Q_opp.
  assert (QL' : (75 * 2 ^ 120 <= q #1e38 <= 76 * 2 ^ 120)%Q) by (split; q_const).
  assert (QU : (q #91.0 == 91)%Q) by q_const.
  split.
  - intros x. destruct (log_within x) as [Hv [Hlo Hhi]].
    split; [apply Hv|]. split.
    + unfold log10. cbv zeta.
      assert (Vc : vf32 #0.43429448190325176) by vf_const.
      assert (Qc : (0 <= q #0.43429448190325176 <= 1)%Q) by (split; q_const).
      apply (F32_mul_within (log x) #0.43429448190325176 (- #1e38)%f32 #91.0 Hv Vc VL VU).
      split; nra.
    + unfold log2. cbv zeta.
      assert (Vc : vf32 #1.44269504088896341) by vf_const.
      assert (Qc : (1 <= q #1.44269504088896341 <= 3 * 2 ^ (-1))%Q) by (split; q_const).
      assert (VL2 : vf32 (- #2e38)%f32) by vf_const.
      assert (VU2 : vf32 #140.0) by vf_const.
      assert (QL2 : (q (- #2e38)%f32 <= - (114) * 2 ^ 120)%Q) by q_const.
      assert (QU2 : (q #140.0 == 140)%Q) by q_const.
      apply (F32_mul_within (log x) #1.44269504088896341 (- #2e38)%f32 #140.0 Hv Vc VL2 VU2).
      split; nra.
  - intros x H0.
    assert (VL89 : vf32 (- #89.0)%f32) by vf_const.
    destruct (F32.eqb x #1.0) eqn:H1.
    + unfold log. rewrite H0, H1. split; vm_compute; reflexivity.
    + exact (within32_leb _ _ _ VL89 VU (log_general_within x H0 H1)).
Qed.

Lemma log_finite_witness :
  F32.leb (- #89.0)%f32 (log S754_nan) = true /\ F32.leb (log S754_nan) #91.0 = true.
Proof.
  destruct log_finite as (_ & H). apply H. reflexivity.
Defined.

(** On an argument [<= 0], [log10] and [log2] do not return the sentinel
    [-1e38] of [log] but its product with their constant. *)
Theorem log10_log2_sentinel :
  forall x, F32.leb x #0.0 = true ->
    log10 x = (- #1e38 * #0.43429448190325176)%f32 /\
    log2 x = (- #1e38 * #1.44269504088896341)%f32 /\
    F32.ltb (- #1e38)%f32 (log10 x) = true /\
    F32.ltb (log2 x) (- #1e38)%f32 = true.
Proof.
  intros x H. unfold log10, log2, log. rewrite H. cbv zeta.
  repeat split; vm_compute; reflexivity.
Qed.

Lemma log10_log2_sentinel_witness :
  log10 #0.0 = (- #1e38 * #0.43429448190325176)%f32 /\
  log2 #0.0 = (- #1e38 * #1.44269504088896341)%f32 /\
  F32.ltb (- #1e38)%f32 (log10 #0.0) = true /\
  F32.ltb (log2 #0.0) (- #1e38)%f32 = true.
Proof. apply log10_log2_sentinel. reflexivity. Defined.

(** ** The operations keep the floats well formed *)

Section Validity.
Variables prec emax : Z.
Hypothesis Hprec : 0 < prec.
Hypothesis Hemax : prec < emax.

Local Abbreviation fexp := (SpecFloat.fexp prec emax).
Local Abbreviation valid := (valid_binary prec emax).

Lemma binary_round_aux_valid s m e l :
  0 <= m -> e <= fexp (Zdigits2 m + e) ->
  valid (binary_round_aux prec emax s m e l) = true /\
  Format.is_nan (binary_round_aux prec emax s m e l) = false.
Proof.
  intros Hm Hpre.
  destruct (binary_round_aux_spec prec emax Hprec Hemax s m e l Hm Hpre)
    as (m1 & _ & _ & Hr).
  destruct (binary_round_aux prec emax s m e l) as [s'|s'| |s' m' e'];
    try (split; reflexivity); try contradiction.
  split; [apply Hr|reflexivity].
Qed.

Lemma binary_round_valid s m e :
  valid (binary_round prec emax s m e) = true /\
  Format.is_nan (binary_round prec emax s m e) = false.
Proof.
  unfold binary_round.
  pose proof (shl_align_fexp prec emax m e) as Hsh.
  destruct (shl_align m e (fexp (Zpos (digits2_pos m) + e))) as [mz ez].
  destruct Hsh as (_ & Hpre & _).
  apply binary_round_aux_valid; [lia|exact Hpre].
Qed.

Lemma binary_normalize_valid z e sz :
  valid (binary_normalize prec emax z e sz) = true /\
  Format.is_nan (binary_normalize prec emax z e sz) = false.
Proof.
  destruct z as [|p|p]; cbn [binary_normalize];
    [split; reflexivity|apply binary_round_valid|apply binary_round_valid].
Qed.

Lemma SFadd_valid x y :
  valid x = true -> valid y = true -> valid (SFadd prec emax x y) = true.
Proof.
  intros Hx Hy.
  destruct x as [sx|sx| |sx mx ex], y as [sy|sy| |sy my ey]; cbn [SFadd];
    try reflexivity; try assumption; try (destruct sx, sy; reflexivity).
  apply binary_normalize_valid.
Qed.

Lemma valid_SFopp x : valid x = true -> valid (SFopp x) = true.
Proof. destruct x; auto. Qed.

Lemma SFsub_valid x y :
  valid x = true -> valid y = true -> valid (SFsub prec emax x y) = true.
Proof.
  intros Hx Hy. rewrite SFsub_add_opp. apply SFadd_valid; [exact Hx|].
  apply valid_SFopp. exact Hy.
Qed.

Lemma SFmul_valid x y :
  valid x = true -> valid y = true -> valid (SFmul prec emax x y) = true.
Proof.
  intros Hx Hy.
  destruct x as [sx|sx| |sx mx ex], y as [sy|sy| |sy my ey]; cbn [SFmul];
    try reflexivity.
  apply binary_round_aux_valid; [lia|].
  apply (SFmul_pre prec emax Hemax); assumption.
Qed.

Lemma SFdiv_valid x y :
  valid x = true -> valid y = true -> valid (SFdiv prec emax x y) = true.
Proof.
  intros Hx Hy.
  destruct x as [sx|sx| |sx mx ex], y as [sy|sy| |sy my ey];
    try reflexivity.
  destruct (SFdiv_finite_spec prec emax Hprec sx mx ex sy my ey Hx Hy)
    as (k & e & l & -> & Hk & Hpre & _).
  apply binary_round_aux_valid; assumption.
Qed.

(** A quotient is a NaN only for [0 / 0], [inf / inf] and a NaN operand. *)
Lemma SFdiv_finite_not_nan x y :
  valid_finite prec emax x -> valid_finite prec emax y ->
  (Format.to_Q y == 0 -> False)%Q ->
  Format.is_nan (SFdiv prec emax x y) = false.
Proof.
  intros [Hx Hfx] [Hy Hfy] Hy0.
  destruct y as [sy|sy| |sy my ey]; try discriminate Hfy.
  { exfalso. apply Hy0. rewrite to_Q_zero. reflexivity. }
  destruct x as [sx|sx| |sx mx ex]; try discriminate Hfx; [reflexivity|].
  destruct (SFdiv_finite_spec prec emax Hprec sx mx ex sy my ey Hx Hy)
    as (k & e & l & -> & Hk & Hpre & _).
  apply binary_round_aux_valid; assumption.
Qed.

End Validity.

Lemma F32_add_valid x y :
  F32.valid x = true -> F32.valid y = true -> F32.valid (x + y)%f32 = true.
Proof. apply (SFadd_valid F32.prec F32.emax F32_prec F32_emax). Qed.

Lemma F32_sub_valid x y :
  F32.valid x = true -> F32.valid y = true -> F32.valid (x - y)%f32 = true.
Proof. apply (SFsub_valid F32.prec F32.emax F32_prec F32_emax). Qed.

Lemma F32_mul_valid x y :
  F32.valid x = true -> F32.valid y = true -> F32.valid (x * y)%f32 = true.
Proof. apply (SFmul_valid F32.prec F32.emax F32_prec F32_emax). Qed.

Lemma F32_div_valid x y :
  F32.valid x = true -> F32.valid y = true -> F32.valid (x / y)%f32 = true.
Proof. apply (SFdiv_valid F32.prec F32.emax F32_prec F32_emax). Qed.

(** ** [fmod] *)

(** A float that is not a NaN and whose magnitude is not above a bound. *)
Lemma abs_not_gt x c :
  F32.valid x = true -> Format.is_nan x = false -> vf32 c ->
  F32.ltb c (F32.abs x) = false ->
  vf32 x /\ (- q c <= q x <= q c)%Q.
Proof.
  intros Hv Hn Hc H.
  destruct x as [s|s| |s m e]; try discriminate Hn.
  - split; [split; [exact Hv|reflexivity]|].
    assert (Hz : vf32 (S754_zero false)) by vf_const.
    pose proof (ltb_false_ge _ _ Hc Hz H) as H'.
    rewrite !to_Q_zero in *. lra.
  - exfalso. destruct c as [sc|sc| |sc mc ec]; try (destruct Hc as [_ Hc]; discriminate Hc);
      discriminate H.
  - assert (Hvx : vf32 (S754_finite s m e)) by (split; [exact Hv|reflexivity]).
    split; [exact Hvx|].
    assert (Hva : vf32 (S754_finite false m e)) by (split; [exact Hv|reflexivity]).
    cbn [F32.abs SFabs] in H.
    pose proof (ltb_false_ge _ _ Hc Hva H) as H'.
    rewrite !to_Q_finite in *. pose proof (dyadic_pos (Zpos m) e eq_refl).
    destruct s; cbn [cond_Zopp] in *; rewrite ?dyadic_opp; lra.
Qed.

Lemma to_int_small v :
  vf32 v -> (- (2147483648) <= q v < 2147483648)%Q -> exists z, to_int v = Val z.
Proof.
  intros Hv [Hlo Hhi].
  assert (Q1 : (q (- #2147483648.0)%f32 == - (2147483648))%Q) by q_const.
  assert (Q2 : (q #2147483648.0 == 2147483648)%Q) by q_const.
  destruct (to_int_in_range v (vf32_valid v Hv)) as (_ & _ & z & _ & Hz).
  - apply (SFleb_spec F32.prec F32.emax _ _ vf32_int_min Hv). lra.
  - apply (SFltb_spec F32.prec F32.emax _ _ Hv vf32_int_bound). lra.
  - eauto.
Qed.

Lemma eqb_zero_false_nonzero y :
  vf32 y -> F32.eqb y #0.0 = false -> (q y == 0)%Q -> False.
Proof.
  intros [Hv Hf] H Hq.
  destruct y as [s|s| |s m e]; try discriminate Hf.
  - destruct s; discriminate H.
  - rewrite to_Q_finite in Hq.
    pose proof (dyadic_pos (Zpos m) e eq_refl).
    destruct s; cbn [cond_Zopp] in Hq; rewrite ?dyadic_opp in Hq; lra.
Qed.

(** [fmod] returns on every pair of arguments that are not NaN: the
    quotient that it converts to [int] is at most 25 in magnitude.  With a
    NaN divisor and a dividend that is not above 25 the conversion, and so
    the call, is undefined. *)
Theorem fmod_total :
  (forall x y, F32.valid x = true -> F32.valid y = true ->
     Format.is_nan x = false -> Format.is_nan y = false ->
     exists r, fmod x y = Val r) /\
  (forall x, F32.ltb #25.0 (F32.abs x) = false -> fmod x S754_nan = Undef).
Proof.
  split.
  - intros x y Hvx Hvy Hnx Hny. unfold fmod.
    destruct (F32.eqb y #0.0) eqn:Hy0; [eauto|].
    destruct (F32.ltb (F32.abs x) (F32.abs y)); [eauto|].
    cbv zeta.
    destruct (F32.ltb #25.0 (F32.abs x)) eqn:Hx25; [cbn [orb]; eauto|].
    destruct (F32.ltb #25.0 (F32.abs y)) eqn:Hy25; [cbn [orb]; eauto|].
    cbn [orb].
    assert (V25 : vf32 #25.0) by vf_const.
    assert (Q25 : (q #25.0 == 25)%Q) by q_const.
    destruct (abs_not_gt x #25.0 Hvx Hnx V25 Hx25) as [Hfx _].
    destruct (abs_not_gt y #25.0 Hvy Hny V25 Hy25) as [Hfy _].
    pose proof (F32_div_valid x y Hvx Hvy) as Hvq.
    pose proof (SFdiv_finite_not_nan F32.prec F32.emax F32_prec F32_emax x y Hfx Hfy
                  (eqb_zero_false_nonzero y Hfy Hy0)) as Hnq.
    change (SFdiv F32.prec F32.emax x y) with (x / y)%f32 in Hnq.
    destruct (F32.ltb #25.0 (F32.abs (x / y)%f32)) eqn:Hq25; [eauto|].
    destruct (abs_not_gt _ #25.0 Hvq Hnq V25 Hq25) as [Hfq Hq].
    destruct (to_int_small _ Hfq) as (z & Hz); [lra|].
    rewrite Hz. cbn [bind]. eauto.
  - intros x Hx. unfold fmod.
    replace (F32.eqb S754_nan #0.0) with false by reflexivity.
    replace (F32.ltb (F32.abs x) (F32.abs S754_nan)) with false
      by (destruct x as [s|s| |s m e]; reflexivity).
    cbv zeta. rewrite Hx.
    replace (F32.ltb #25.0 (F32.abs S754_nan)) with false by reflexivity.
    cbn [orb].
    replace (x / S754_nan)%f32 with S754_nan by (destruct x; reflexivity).
    reflexivity.
Qed.

Lemma fmod_total_witness :
  (exists r, fmod #5.5 (- #2.5)%f32 = Val r) /\ fmod #7.0 S754_nan = Undef.
Proof.
  destruct fmod_total as [Htotal Hnan]. split.
  - apply Htotal; reflexivity.
  - apply Hnan. vm_compute. reflexivity.
Defined.

(** ** [tan] *)

Lemma kernel_valid theta :
  F32.valid theta = true -> F32.valid (Spec.sin theta) = true.
Proof.
  intros Hv. unfold Spec.sin, Spec.correction.
  assert (Hp : F32.valid (Spec.parabola theta) = true).
  { unfold Spec.parabola.
    assert (Hs : F32.valid (Spec.sign theta) = true).
    { unfold Spec.sign. destruct (theta <? zero)%f32; [reflexivity|].
      destruct (zero <? theta)%f32; reflexivity. }
    apply F32_sub_valid; [apply F32_mul_valid; [exact Hv|reflexivity]|].
    apply F32_mul_valid; [|exact Hv]. apply F32_mul_valid; [|exact Hv].
    apply F32_mul_valid; [exact Hs|reflexivity]. }
  apply F32_add_valid; [exact Hp|].
  apply F32_mul_valid; [reflexivity|].
  apply F32_sub_valid; [|exact Hp].
  apply F32_mul_valid; [exact Hp|]. apply valid_abs. exact Hp.
Qed.

Lemma near_unit_within r :
  F32.valid r = true -> near_unit_range r = true ->
  within32 (- unit_bound)%f32 unit_bound r.
Proof.
  intros Hv H. unfold near_unit_range in H. apply andb_true_iff in H.
  destruct H as [Hlo Hhi].
  assert (Vu : vf32 unit_bound) by vf_const.
  assert (Vu' : vf32 (- unit_bound)%f32) by vf_const.
  assert (Hvr : vf32 r).
  { split; [exact Hv|]. destruct r as [s|s| |s m e]; try reflexivity; exfalso.
    - destruct s; [revert Hlo|revert Hhi]; vm_compute; discriminate.
    - revert Hlo. vm_compute. discriminate. }
  split; [exact Hvr|]. split.
  - exact (proj1 (SFleb_spec F32.prec F32.emax _ _ Vu' Hvr) Hlo).
  - exact (proj1 (SFleb_spec F32.prec F32.emax _ _ Hvr Vu) Hhi).
Qed.

Lemma F32_div_opp_r x y :
  Format.is_nan y = false -> (x / - y = - (x / y))%f32.
Proof.
  intros Hy. unfold F32.div, F32.opp.
  destruct x as [sx|sx| |sx mx ex], y as [sy|sy| |sy my ey];
    try discriminate Hy; cbn [SFdiv SFopp]; try reflexivity;
    try (destruct sx, sy; reflexivity).
  destruct (SFdiv_core_binary F32.prec F32.emax (Zpos mx) ex (Zpos my) ey) as [[m e] l].
  replace (xorb sx (negb sy)) with (negb (xorb sx sy)) by (destruct sx, sy; reflexivity).
  apply binary_round_aux_opp.
Qed.

(** The quotient of a number of [[-N, N]] by a number that is at least
    [1e-7f] in magnitude lies in [[-D, D]] as soon as [N <= D * 1e-7f]. *)
Lemma quotient_within N D num c :
  vf32 N -> vf32 D -> (0 <= q D)%Q -> (q N <= q D * q #1e-7)%Q ->
  within32 (- N)%f32 N num -> vf32 c ->
  F32.ltb (F32.abs c) #1e-7 = false ->
  within32 (- D)%f32 D (num / c)%f32.
Proof.
  intros VN VD HD HND [Hvn [Hnlo Hnhi]] Hvc Hc.
  assert (Vt : vf32 #1e-7) by vf_const.
  assert (VD' : vf32 (- D)%f32) by (apply vf_opp; exact VD).
  assert (Qt : (0 < q #1e-7)%Q) by q_const.
  assert (QN' : (q (- N)%f32 == - q N)%Q) by apply to_Q_opp.
  assert (QD' : (q (- D)%f32 == - q D)%Q) by apply to_Q_opp.
  assert (Hpos : forall c', vf32 c' -> (q #1e-7 <= q c')%Q ->
            within32 (- D)%f32 D (num / c')%f32).
  { intros c' Hvc' Hc'.
    refine (F32_div_within num c' _ _ Hvn Hvc' VD' VD _ _).
    - lra.
    - rewrite QD'. split; nra. }
  destruct c as [sc|sc| |sc mc ec]; try (destruct Hvc as [_ Hvc]; discriminate Hvc).
  - exfalso. revert Hc. vm_compute. discriminate.
  - assert (Hva : vf32 (S754_finite false mc ec)) by (split; [apply Hvc|reflexivity]).
    cbn [F32.abs SFabs] in Hc.
    pose proof (ltb_false_ge _ _ Hva Vt Hc) as Hge.
    destruct sc.
    + change (S754_finite true mc ec) with (- S754_finite false mc ec)%f32.
      rewrite F32_div_opp_r by reflexivity.
      apply within_opp.
      change (SFopp (- D)%f32) with (- - D)%f32. rewrite F32_opp_involutive.
      exact (Hpos _ Hva Hge).
    + exact (Hpos _ Hva Hge).
Qed.

Lemma tan_quotient_within s c :
  within32 (- unit_bound)%f32 unit_bound s -> vf32 c ->
  F32.ltb (F32.abs c) #1e-7 = false ->
  within32 (- #10000002.0)%f32 #10000002.0 (s / c)%f32.
Proof.
  apply quotient_within; try vf_const; q_const.
Qed.

(** What [sin] and [cos] return on the same argument lies in
    [[-u, u]], [u = 1 + 2^-23]. *)
Lemma sin_cos_within fuel theta s c :
  F32.valid theta = true -> Format.is_nan theta = false ->
  sin fuel theta = Val s -> cos fuel theta = Val c ->
  within32 (- unit_bound)%f32 unit_bound s /\
  within32 (- unit_bound)%f32 unit_bound c.
Proof.
  intros Hv Hn Hs Hc.
  pose proof (sin_range fuel theta s Hv Hn Hs) as Hsr.
  pose proof (cos_range fuel theta c Hv Hn Hc) as Hcr.
  rewrite sin_eq in Hs. rewrite cos_eq in Hc.
  apply bind_Val_inv in Hs. destruct Hs as (t1 & Ht1 & Hs).
  apply bind_Val_inv in Hs. destruct Hs as (t2 & Ht2 & Hs).
  apply Val_inj in Hs.
  apply bind_Val_inv in Hc. destruct Hc as (t1' & Ht1' & Hc).
  apply bind_Val_inv in Hc. destruct Hc as (t2' & Ht2' & Hc).
  apply Val_inj in Hc.
  destruct (range_reduction_post fuel theta t1 t2 Hv Hn Ht1 Ht2) as [Hv2 Hr2].
  destruct (range_reduction_post fuel theta t1' t2' Hv Hn Ht1' Ht2') as [Hv2' Hr2'].
  assert (Hvs : F32.valid s = true).
  { rewrite <- Hs. apply kernel_valid. apply Hv2. }
  assert (Hvc : F32.valid c = true).
  { rewrite <- Hc. unfold Spec.cos.
    change (Spec.correction (Spec.parabola ?t)) with (Spec.sin t).
    apply kernel_valid. apply (wrap_within t2' Hv2' Hr2'). }
  split; [exact (near_unit_within s Hvs Hsr)|exact (near_unit_within c Hvc Hcr)].
Qed.

(** Whenever [tan] returns on an argument that is not a NaN, its result is
    a finite number of magnitude at most 10000002: the quotient is taken
    only for [|cos| >= 1e-7f], and is replaced by [+-1e7] otherwise. *)
Theorem tan_bounded :
  forall fuel theta r,
    F32.valid theta = true -> Format.is_nan theta = false ->
    tan fuel theta = Val r ->
    F32.leb (- #10000002.0)%f32 r = true /\ F32.leb r #10000002.0 = true.
Proof.
  intros fuel theta r Hv Hn H.
  assert (VU : vf32 #10000002.0) by vf_const.
  assert (VU' : vf32 (- #10000002.0)%f32) by vf_const.
  unfold tan in H.
  apply bind_Val_inv in H. destruct H as (s & Hs & H).
  apply bind_Val_inv in H. destruct H as (c & Hc & H).
  destruct (sin_cos_within fuel theta s c Hv Hn Hs Hc) as [Hws Hwc].
  destruct (F32.ltb (F32.abs c) #1e-7) eqn:Hsmall.
  - apply Val_inj in H. subst r.
    destruct (F32.leb #0.0 c); split; vm_compute; reflexivity.
  - apply Val_inj in H. subst r.
    exact (within32_leb _ _ _ VU' VU (tan_quotient_within s c Hws (proj1 Hwc) Hsmall)).
Qed.

Lemma tan_bounded_witness :
  F32.leb (- #10000002.0)%f32 #1e7 = true /\ F32.leb #1e7 #10000002.0 = true.
Proof.
  apply (tan_bounded 1 (- half_pi)%f32 #1e7); [reflexivity|reflexivity|].
  vm_compute. reflexivity.
Defined.

(** ** [pow]: exponents that do not fit in [int] *)

Lemma eqb_true_value x y :
  vf32 x -> vf32 y -> F32.eqb x y = true -> (q x == q y)%Q.
Proof.
  intros Hx Hy H. unfold F32.eqb, SFeqb in H.
  rewrite (SFcompare_spec F32.prec F32.emax x y Hx Hy) in H.
  apply Qeq_alt. destruct (q x ?= q y)%Q; [reflexivity|discriminate H|discriminate H].
Qed.

(** An exponent that is not finite or not in the range of [int] is none of
    the constants of the ladder. *)
Lemma eqb_out_of_range e c :
  F32.valid e = true ->
  Format.is_finite e = false \/
  F32.ltb e (- #2147483648.0)%f32 = true \/ F32.leb #2147483648.0 e = true ->
  vf32 c -> (- (2147483648) <= q c < 2147483648)%Q ->
  F32.eqb e c = false.
Proof.
  intros Hv Hc Hvc Hqc.
  destruct (F32.eqb e c) eqn:Heq; [exfalso|reflexivity].
  destruct (Format.is_finite e) eqn:Hf.
  - assert (Hve : vf32 e) by (split; assumption).
    pose proof (eqb_true_value e c Hve Hvc Heq) as Hq.
    assert (Q1 : (q (- #2147483648.0)%f32 == - (2147483648))%Q) by q_const.
    assert (Q2 : (q #2147483648.0 == 2147483648)%Q) by q_const.
    destruct Hc as [Hc|[Hc|Hc]]; [discriminate Hc| |].
    + apply (SFltb_spec F32.prec F32.emax _ _ Hve vf32_int_min) in Hc. lra.
    + apply (SFleb_spec F32.prec F32.emax _ _ vf32_int_bound Hve) in Hc. lra.
  - destruct c as [sc|sc| |sc mc ec]; try (destruct Hvc as [_ Hvc]; discriminate Hvc);
      destruct e as [se|se| |se me ee]; try discriminate Hf;
      try discriminate Heq; destruct se, sc; discriminate Heq.
Qed.

(** [pow] converts the exponent to [int] before it knows that it is an
    integer: with a base other than 0 and 1, an exponent that is a NaN, an
    infinity or outside of the range of [int] makes the call undefined. *)
Theorem pow_undefined :
  forall b e,
    F32.valid e = true ->
    Format.is_finite e = false \/
    F32.ltb e (- #2147483648.0)%f32 = true \/ F32.leb #2147483648.0 e = true ->
    F32.eqb b #0.0 = false -> F32.eqb b #1.0 = false ->
    pow b e = Undef.
Proof.
  intros b e Hv Hc Hb0 Hb1. unfold pow.
  rewrite (eqb_out_of_range e #0.0 Hv Hc) by (try vf_const; split; q_const).
  rewrite (eqb_out_of_range e #1.0 Hv Hc) by (try vf_const; split; q_const).
  rewrite Hb0, Hb1.
  rewrite (eqb_out_of_range e #2.0 Hv Hc) by (try vf_const; split; q_const).
  rewrite (eqb_out_of_range e #3.0 Hv Hc) by (try vf_const; split; q_const).
  rewrite (eqb_out_of_range e #4.0 Hv Hc) by (try vf_const; split; q_const).
  rewrite (eqb_out_of_range e #0.5 Hv Hc) by (try vf_const; split; q_const).
  rewrite (eqb_out_of_range e (- #1.0)%f32 Hv Hc) by (try vf_const; split; q_const).
  rewrite (eqb_out_of_range e (- #2.0)%f32 Hv Hc) by (try vf_const; split; q_const).
  rewrite (to_int_out_of_range e Hv Hc). reflexivity.
Qed.

Lemma pow_undefined_witness :
  pow #2.0 #1e10 = Undef /\ pow #2.0 S754_nan = Undef.
Proof.
  split; apply pow_undefined; try reflexivity.
  - right. right. vm_compute. reflexivity.
  - left. reflexivity.
Defined.

(** ** [asin] and [acos] at the ends of the domain *)

Lemma leb_negative_positive x mb eb b :
  b = S754_finite false mb eb ->
  F32.leb x (- b)%f32 = true -> F32.leb b x = false.
Proof.
  intros -> H. unfold F32.leb, SFleb in *. cbn [F32.opp SFopp negb] in H.
  destruct x as [s|s| |s m e]; try reflexivity; try discriminate H.
  - destruct s; [reflexivity|discriminate H].
  - destruct s; [reflexivity|discriminate H].
Qed.

Lemma abs_small_inside x :
  F32.ltb (F32.abs x) #1e-7 = true ->
  F32.leb #1.0 x = false /\ F32.leb x (- #1.0)%f32 = false.
Proof.
  assert (E1 : #1e-7 = S754_finite false 14073749 (-47)) by (vm_compute; reflexivity).
  assert (E2 : #1.0 = S754_finite false 8388608 (-23)) by (vm_compute; reflexivity).
  rewrite E1, E2. clear E1 E2. intros H.
  unfold F32.leb, F32.ltb, SFleb, SFltb, F32.abs, F32.opp in *.
  destruct x as [s|s| |s m e].
  - split; reflexivity.
  - discriminate H.
  - discriminate H.
  - cbn [SFabs SFopp negb SFcompare] in *.
    assert (He : e <= -47).
    { destruct (e ?= -47) eqn:E.
      - apply Z.compare_eq in E. lia.
      - apply -> Z.compare_lt_iff in E. lia.
      - discriminate H. }
    clear H.
    assert (G1 : (-23 ?= e) = Gt) by (apply <- Z.compare_gt_iff; lia).
    assert (G2 : (e ?= -23) = Lt) by (apply <- Z.compare_lt_iff; lia).
    destruct s; rewrite ?G1, ?G2; split; reflexivity.
Qed.

(** [asin] is clamped to [+-pi/2] outside of [(-1, 1)] and is 0 below the
    threshold.  [acos] subtracts it from [M_PI / 2] in [double]: for
    [x >= 1] its result is [-4.371139e-8], a negative number, and for
    [x <= -1] it is the [float] [pi]. *)
Theorem asin_acos_clamped :
  (forall fuel x, F32.leb #1.0 x = true ->
     asin fuel x = Val half_pi /\
     acos fuel x = Val (- #4.371139e-8)%f32) /\
  (forall fuel x, F32.leb x (- #1.0)%f32 = true ->
     asin fuel x = Val (- half_pi)%f32 /\ acos fuel x = Val pi) /\
  (forall fuel x, F32.ltb (F32.abs x) #1e-7 = true ->
     asin fuel x = Val #0.0 /\ acos fuel x = Val half_pi).
Proof.
  split; [|split].
  - intros fuel x H. unfold acos, asin. rewrite H. cbn [bind].
    split; vm_compute; reflexivity.
  - intros fuel x H. unfold acos, asin.
    rewrite (leb_negative_positive x 8388608 (-23) #1.0 eq_refl H), H. cbn [bind].
    split; vm_compute; reflexivity.
  - intros fuel x H. unfold acos, asin.
    destruct (abs_small_inside x H) as [H1 H2].
    rewrite H1, H2, H. cbn [bind]. split; vm_compute; reflexivity.
Qed.

Lemma asin_acos_clamped_witness :
  (asin 1 #2.0 = Val half_pi /\ acos 1 #2.0 = Val (- #4.371139e-8)%f32) /\
  (asin 1 (- #2.0)%f32 = Val (- half_pi)%f32 /\ acos 1 (- #2.0)%f32 = Val pi) /\
  (asin 1 #1e-9 = Val #0.0 /\ acos 1 #1e-9 = Val half_pi).
Proof.
  destruct asin_acos_clamped as (Hhi & Hlo & Hzero).
  split; [apply Hhi; vm_compute; reflexivity|].
  split; [apply Hlo; vm_compute; reflexivity|].
  apply Hzero; vm_compute; reflexivity.
Defined.

(** ** Rounding to nearest, ties to even *)

Lemma located_init m : located m 0 (shr_record_of_loc m loc_Exact).
Proof.
  unfold located. rewrite Z.pow_0_r, Z.div_1_r, Z.mod_1_r.
  split; [reflexivity|]. split; reflexivity.
Qed.

Lemma shr_1_r mrs : 0 <= shr_m mrs -> shr_r (shr_1 mrs) = Z.odd (shr_m mrs).
Proof.
  destruct mrs as [m r s]; cbn [shr_m]. intros Hm.
  destruct m as [|[p|p|]|p]; cbn [shr_1 shr_r Z.odd]; try lia; reflexivity.
Qed.

Lemma shr_1_s mrs : 0 <= shr_m mrs -> shr_s (shr_1 mrs) = shr_r mrs || shr_s mrs.
Proof.
  destruct mrs as [m r s]; cbn [shr_m]. intros Hm.
  destruct m as [|[p|p|]|p]; cbn [shr_1 shr_s shr_r]; try lia; reflexivity.
Qed.

Lemma located_step m :
  0 <= m -> forall i mrs, 0 <= i -> located m i mrs -> located m (i + 1) (shr_1 mrs).
Proof.
  intros Hm i mrs Hi (H1 & H2 & H3).
  assert (Hp : 0 < 2 ^ i) by (apply Z.pow_pos_nonneg; lia).
  assert (Hk : 0 <= shr_m mrs) by (rewrite H1; apply Z.div_pos; lia).
  assert (Hpow : 2 ^ (i + 1) = 2 ^ i * 2) by (rewrite Z.pow_add_r, Z.pow_1_r by lia; reflexivity).
  assert (Hmod : m mod 2 ^ (i + 1) = m mod 2 ^ i + 2 ^ i * ((m / 2 ^ i) mod 2)).
  { rewrite Hpow. apply Z.rem_mul_r; lia. }
  pose proof (Z.mod_pos_bound m (2 ^ i) Hp) as Hr.
  pose proof (Z.mod_pos_bound (m / 2 ^ i) 2 ltac:(lia)) as Hb.
  assert (Hodd : Z.odd (m / 2 ^ i) = ((m / 2 ^ i) mod 2 =? 1)).
  { rewrite Zodd_mod. reflexivity. }
  assert (Hb01 : (m / 2 ^ i) mod 2 = 0 \/ (m / 2 ^ i) mod 2 = 1) by lia.
  split; [|split].
  - rewrite shr_1_m, H1 by exact Hk. rewrite Hpow, Z.div_div by lia. reflexivity.
  - rewrite shr_1_r, H1, Hodd, Hmod, Hpow by exact Hk.
    destruct Hb01 as [-> | ->]; cbn [Z.eqb]; symmetry.
    + apply Z.leb_gt. lia.
    + apply Z.leb_le. lia.
  - rewrite shr_1_s, H2, H3, Hmod, Hpow by exact Hk.
    destruct Hb01 as [-> | ->]; rewrite ?Z.mul_0_r, ?Z.mul_1_r, ?Z.add_0_r;
      destruct (Z.leb_spec (2 ^ i) (2 * (m mod 2 ^ i)));
      destruct (Z.eqb_spec (m mod 2 ^ i) 0);
      destruct (Z.eqb_spec (2 * (m mod 2 ^ i)) (2 ^ i));
      cbn [negb andb orb]; symmetry;
      rewrite ?andb_true_iff, ?andb_false_iff, ?negb_true_iff, ?negb_false_iff,
        ?Z.eqb_eq, ?Z.eqb_neq; lia.
Qed.

Lemma shr_located m e n :
  0 <= m ->
  let '(mrs, e') := shr (shr_record_of_loc m loc_Exact) e n in
  e' = e + Z.max 0 n /\ located m (Z.max 0 n) mrs.
Proof.
  intros Hm. destruct n as [|p|p]; cbn [shr].
  - split; [lia|]. apply located_init.
  - split; [lia|]. replace (Z.max 0 (Zpos p)) with (0 + Zpos p) by lia.
    apply iter_pos_invariant with (Inv := located m); try lia.
    + intros. apply located_step; auto.
    + apply located_init.
  - split; [lia|]. apply located_init.
Qed.

Lemma rne_located m n mrs :
  0 <= n -> located m n mrs ->
  round_nearest_even (shr_m mrs) (loc_of_shr_record mrs) = nearest_even m n.
Proof.
  intros Hn (H1 & H2 & H3). unfold nearest_even.
  assert (Hp : 0 < 2 ^ n) by (apply Z.pow_pos_nonneg; lia).
  pose proof (Z.mod_pos_bound m (2 ^ n) Hp) as Hr.
  destruct mrs as [k r s]. cbn [shr_m shr_r shr_s] in *. subst k.
  revert H2 H3.
  destruct (Z.leb_spec (2 ^ n) (2 * (m mod 2 ^ n)));
    destruct (Z.eqb_spec (m mod 2 ^ n) 0);
    destruct (Z.eqb_spec (2 * (m mod 2 ^ n)) (2 ^ n));
    destruct (Z.ltb_spec (2 * (m mod 2 ^ n)) (2 ^ n));
    destruct (Z.ltb_spec (2 ^ n) (2 * (m mod 2 ^ n)));
    cbn [negb andb]; intros -> ->; cbn [loc_of_shr_record round_nearest_even];
    try reflexivity; try lia.
Qed.

Lemma nearest_even_cases m n :
  nearest_even m n = m / 2 ^ n \/ nearest_even m n = m / 2 ^ n + 1.
Proof.
  unfold nearest_even.
  destruct (2 * (m mod 2 ^ n) <? 2 ^ n); [left; reflexivity|].
  destruct (2 ^ n <? 2 * (m mod 2 ^ n)); [right; reflexivity|].
  destruct (Z.even (m / 2 ^ n)); [left|right]; reflexivity.
Qed.

Lemma nearest_even_near m n m1 :
  0 <= m -> 0 <= n ->
  2 * (m1 * 2 ^ n) - 2 ^ n <= 2 * m <= 2 * (m1 * 2 ^ n) + 2 ^ n ->
  Z.even m1 = true \/
  2 * (m1 * 2 ^ n) - 2 ^ n < 2 * m < 2 * (m1 * 2 ^ n) + 2 ^ n ->
  nearest_even m n = m1.
Proof.
  intros Hm Hn [Hlo Hhi] Hcase. unfold nearest_even.
  assert (Hp : 0 < 2 ^ n) by (apply Z.pow_pos_nonneg; lia).
  pose proof (Z.div_mod m (2 ^ n) ltac:(lia)) as Hdm.
  pose proof (Z.mod_pos_bound m (2 ^ n) Hp) as Hr.
  set (k := m / 2 ^ n) in *. set (r := m mod 2 ^ n) in *. set (p := 2 ^ n) in *.
  assert (Hk : k = m1 \/ k = m1 - 1) by nia.
  destruct (Z.ltb_spec (2 * r) p); [nia|].
  destruct (Z.ltb_spec p (2 * r)); [nia|].
  destruct Hcase as [Heven|Hstrict]; [|exfalso; nia].
  destruct Hk as [-> | ->].
  - rewrite Heven. reflexivity.
  - replace (m1 - 1) with (Z.pred m1) by lia.
    rewrite Z.even_pred, <- Z.negb_even, Heven. cbn [negb]. lia.
Qed.


Lemma nearest_even_half m n :
  0 <= m -> 0 <= n ->
  2 * (nearest_even m n * 2 ^ n) - 2 ^ n <= 2 * m
    <= 2 * (nearest_even m n * 2 ^ n) + 2 ^ n.
Proof.
  intros Hm Hn. unfold nearest_even.
  assert (Hp : 0 < 2 ^ n) by (apply Z.pow_pos_nonneg; lia).
  pose proof (Z.div_mod m (2 ^ n) ltac:(lia)) as Hdm.
  pose proof (Z.mod_pos_bound m (2 ^ n) Hp) as Hr.
  set (k := m / 2 ^ n) in *. set (r := m mod 2 ^ n) in *. set (p := 2 ^ n) in *.
  destruct (Z.ltb_spec (2 * r) p); [nia|].
  destruct (Z.ltb_spec p (2 * r)); [nia|].
  destruct (Z.even k); nia.
Qed.

Section Nearest.
Variables prec emax : Z.
Hypothesis Hprec : 0 < prec.
Hypothesis Hemax : prec < emax.

Local Abbreviation fexp := (SpecFloat.fexp prec emax).

Lemma shr_fexp_located m e :
  0 <= m ->
  let n := Z.max 0 (fexp (Zdigits2 m + e) - e) in
  exists mrs, shr_fexp prec emax m e loc_Exact = (mrs, e + n) /\ located m n mrs.
Proof.
  intros Hm n. unfold shr_fexp.
  pose proof (shr_located m e (fexp (Zdigits2 m + e) - e) Hm) as H.
  destruct (shr (shr_record_of_loc m loc_Exact) e (fexp (Zdigits2 m + e) - e)) as [mrs e'].
  destruct H as [-> Hs]. exists mrs. split; auto.
Qed.

(** The result of a rounding is the nearest multiple of the unit in the
    last place of the argument, the even one of two. *)
Lemma binary_round_aux_nearest s m e :
  0 <= m -> e <= fexp (Zdigits2 m + e) ->
  let e' := fexp (Zdigits2 m + e) in
  let m1 := nearest_even m (e' - e) in
  match binary_round_aux prec emax s m e loc_Exact with
  | S754_zero s' => s' = s /\ m1 = 0
  | S754_finite s' m'' e'' =>
      s' = s /\ bounded prec emax m'' e'' = true /\
      (dyadic (Zpos m'') e'' == dyadic m1 e')%Q
  | S754_infinity s' => s' = s /\ (pow2 emax <= dyadic m1 e')%Q
  | S754_nan => False
  end.
Proof.
  intros Hm Hpre e' m1.
  set (d := Zdigits2 m) in *.
  set (n := e' - e) in *.
  set (k := m / 2 ^ n).
  assert (Hn : 0 <= n) by (unfold n; lia).
  assert (He' : e' = Z.max (d + e - prec) (3 - emax - prec)) by reflexivity.
  assert (Hpn : 0 < 2 ^ n) by (apply Z.pow_pos_nonneg; lia).
  assert (Hk0 : 0 <= k) by (apply Z.div_pos; lia).
  assert (Hpprec : 0 < 2 ^ prec) by (apply Z.pow_pos_nonneg; lia).
  assert (Hkhi : k < 2 ^ prec).
  { destruct (Z.eq_dec m 0) as [Hm0|Hm0].
    - unfold k. rewrite Hm0, Z.div_0_l by lia. exact Hpprec.
    - destruct (Zdigits2_bounds m ltac:(lia)) as [_ Hdhi]. fold d in Hdhi.
      pose proof (Zdigits2_pos m ltac:(lia)) as Hdpos. fold d in Hdpos.
      apply Z.div_lt_upper_bound; [lia|].
      rewrite <- Z.pow_add_r by lia.
      eapply Z.lt_le_trans; [exact Hdhi|]. apply Z.pow_le_mono_r; lia. }
  assert (Hklo : 3 - emax - prec < e' -> 2 ^ (prec - 1) <= k).
  { intros Hnorm.
    destruct (Z.eq_dec m 0) as [Hm0|Hm0].
    - exfalso. unfold d in He'. rewrite Hm0 in He'. cbn [Zdigits2] in He'. lia.
    - destruct (Zdigits2_bounds m ltac:(lia)) as [Hdlo _]. fold d in Hdlo.
      pose proof (Zdigits2_pos m ltac:(lia)) as Hdpos. fold d in Hdpos.
      apply Z.div_le_lower_bound; [lia|].
      rewrite <- Z.pow_add_r by lia.
      replace (n + (prec - 1)) with (d - 1) by lia. exact Hdlo. }
  (* first shift *)
  unfold binary_round_aux.
  destruct (shr_fexp_located m e Hm) as (mrs' & Heq1 & Hsh1).
  fold d in Heq1, Hsh1. fold e' in Heq1, Hsh1. fold n in Heq1, Hsh1.
  replace (Z.max 0 n) with n in * by lia.
  replace (e + n) with e' in Heq1 by (unfold n; lia).
  rewrite Heq1. rewrite (rne_located m n mrs' Hn Hsh1).
  fold m1.
  assert (Hm1 : m1 = k \/ m1 = k + 1) by apply nearest_even_cases.
  assert (Hm1lo : 0 <= m1) by lia.
  assert (Hm1hi : m1 <= 2 ^ prec) by lia.
  assert (Hm1norm : 3 - emax - prec < e' -> 2 ^ (prec - 1) <= m1)
    by (intros H; specialize (Hklo H); lia).
  assert (Hpp : 0 < 2 ^ (prec - 1)) by (apply Z.pow_pos_nonneg; lia).
  assert (Hp2 : 2 ^ prec = 2 * 2 ^ (prec - 1)).
  { replace prec with (Z.succ (prec - 1)) at 1 by lia. apply Z.pow_succ_r. lia. }
  (* second shift *)
  destruct (shr_fexp_spec prec emax m1 e' loc_Exact Hm1lo) as (mrs'' & Heq2 & Hsh2).
  rewrite Heq2. destruct Hsh2 as [Hm'' _].
  destruct (Z.eq_dec m1 0) as [Hz|Hnz].
  - rewrite Hz in Hm''. rewrite Z.div_0_l in Hm'' by (apply Z.pow_nonzero; lia).
    rewrite Hm''. auto.
  - assert (Hm1pos : 0 < m1) by lia.
    destruct (Zdigits2_bounds m1 Hm1pos) as [Hd1lo Hd1hi].
    pose proof (Zdigits2_pos m1 Hm1pos) as Hd1pos.
    destruct (Z.ltb_spec m1 (2 ^ prec)) as [Hlt|Hge].
    + assert (Hd1 : Zdigits2 m1 <= prec).
      { destruct (Z.le_gt_cases (Zdigits2 m1) prec); auto.
        assert (2 ^ prec <= 2 ^ (Zdigits2 m1 - 1)) by (apply Z.pow_le_mono_r; lia). lia. }
      assert (Hcanon : fexp (Zdigits2 m1 + e') = e').
      { rewrite fexp_spec. destruct (Z.eq_dec e' (3 - emax - prec)) as [|Hne]; [lia|].
        assert (Hnorm : 3 - emax - prec < e') by lia.
        specialize (Hm1norm Hnorm).
        assert (prec <= Zdigits2 m1).
        { destruct (Z.le_gt_cases prec (Zdigits2 m1)); auto.
          assert (2 ^ Zdigits2 m1 <= 2 ^ (prec - 1)) by (apply Z.pow_le_mono_r; lia). lia. }
        lia. }
      rewrite Hcanon in *. replace (Z.max 0 (e' - e')) with 0 in * by lia.
      rewrite Z.pow_0_r, Z.div_1_r in Hm''. rewrite Hm'', Z.add_0_r.
      destruct m1 as [|p1|p1]; try lia.
      destruct (Z.leb_spec e' (emax - prec)) as [Hfin|Hinf].
      * split; [reflexivity|]. split; [|reflexivity].
        apply bounded_spec. split; [exact Hcanon|exact Hfin].
      * split; [reflexivity|].
        assert (Hnorm : 3 - emax - prec < e') by lia.
        specialize (Hm1norm Hnorm).
        apply pow2_le_dyadic; [lia|].
        eapply Z.le_trans; [|exact Hm1norm].
        destruct (Z.le_gt_cases 0 (emax - e')).
        -- apply Z.pow_le_mono_r; lia.
        -- rewrite Z.pow_neg_r by lia. lia.
    + assert (Hm1eq : m1 = 2 ^ prec) by lia.
      assert (Hd1 : Zdigits2 m1 = prec + 1).
      { apply Zdigits2_unique; [|lia]. replace (prec + 1 - 1) with prec by lia.
        rewrite Hm1eq. split; [lia|]. apply Z.pow_lt_mono_r; lia. }
      assert (Hfe : fexp (Zdigits2 m1 + e') = e' + 1).
      { rewrite Hd1, fexp_spec. lia. }
      rewrite Hfe in *. replace (Z.max 0 (e' + 1 - e')) with 1 in * by lia.
      rewrite Z.pow_1_r in Hm''.
      assert (Hm''eq : shr_m mrs'' = 2 ^ (prec - 1)).
      { rewrite Hm'', Hm1eq, Hp2. rewrite Z.mul_comm, Z.div_mul by lia. reflexivity. }
      rewrite Hm''eq.
      destruct (2 ^ (prec - 1)) as [|p|p] eqn:Hp; try lia.
      destruct (Z.leb_spec (e' + 1) (emax - prec)) as [Hfin|Hinf].
      * split; [reflexivity|]. split.
        -- apply bounded_spec. split; [|exact Hfin].
           change (Zpos (digits2_pos p)) with (Zdigits2 (Zpos p)).
           rewrite (Zdigits2_unique (Zpos p) prec); [rewrite fexp_spec; lia| |lia].
           rewrite <- Hp. split; [lia|]. apply Z.pow_lt_mono_r; lia.
        -- rewrite Hm1eq, Hp2, (Z.mul_comm 2).
           rewrite <- (dyadic_shift (Zpos p) e' 1) by lia. reflexivity.
      * split; [reflexivity|].
        apply pow2_le_dyadic; [lia|]. rewrite Hm1eq.
        destruct (Z.le_gt_cases 0 (emax - e')).
        -- apply Z.pow_le_mono_r; lia.
        -- rewrite Z.pow_neg_r by lia. lia.
Qed.

Lemma bounded_unique m1 e1 m2 e2 :
  bounded prec emax m1 e1 = true -> bounded prec emax m2 e2 = true ->
  (dyadic (Zpos m1) e1 == dyadic (Zpos m2) e2)%Q -> m1 = m2 /\ e1 = e2.
Proof.
  intros H1 H2 Heq. apply Qeq_alt in Heq.
  pose proof (compare_bounded prec emax m1 e1 m2 e2 H1 H2) as Hc.
  rewrite Heq in Hc.
  destruct (Z.compare_spec e1 e2) as [He|He|He]; try discriminate Hc.
  split; [|exact He].
  change (Pos.compare_cont Eq m1 m2) with (Pos.compare m1 m2) in Hc.
  apply Pos.compare_eq. exact Hc.
Qed.

Lemma binary_round_aux_nearest_eq s m e mb eb :
  0 < m -> e <= fexp (Zdigits2 m + e) ->
  bounded prec emax mb eb = true ->
  (dyadic (Zpos mb) eb ==
   dyadic (nearest_even m (fexp (Zdigits2 m + e) - e)) (fexp (Zdigits2 m + e)))%Q ->
  binary_round_aux prec emax s m e loc_Exact = S754_finite s mb eb.
Proof.
  intros Hm Hpre Hb Heq.
  pose proof (binary_round_aux_nearest s m e ltac:(lia) Hpre) as H. cbv zeta in H.
  pose proof (dyadic_pos (Zpos mb) eb ltac:(lia)) as Hpos.
  pose proof (bounded_lt_pow2_emax prec emax mb eb Hb) as Hlt.
  destruct (binary_round_aux prec emax s m e loc_Exact) as [s'|s'| |s' m' e'].
  - destruct H as [_ H]. rewrite H, dyadic_0 in Heq. exfalso. lra.
  - destruct H as [_ H]. exfalso. lra.
  - contradiction.
  - destruct H as (-> & Hb' & Hv).
    destruct (bounded_unique m' e' mb eb Hb' Hb) as [-> ->];
      [rewrite Hv, Heq; reflexivity|reflexivity].
Qed.

(** A number at half a unit in the last place of a float, or less, is
    rounded to it: when it is nearer than that, or when the mantissa [m1]
    of the float is even. *)
Lemma binary_round_nearest s m e d m1 mb eb :
  (pow2 (d - 1) <= dyadic (Zpos m) e < pow2 d)%Q ->
  bounded prec emax mb eb = true ->
  (dyadic (Zpos mb) eb == dyadic m1 (fexp d))%Q ->
  (2 * dyadic m1 (fexp d) - pow2 (fexp d) <= 2 * dyadic (Zpos m) e
     <= 2 * dyadic m1 (fexp d) + pow2 (fexp d))%Q ->
  Z.even m1 = true \/
  (2 * dyadic m1 (fexp d) - pow2 (fexp d) < 2 * dyadic (Zpos m) e
     < 2 * dyadic m1 (fexp d) + pow2 (fexp d))%Q ->
  binary_round prec emax s m e = S754_finite s mb eb.
Proof.
  intros [Hlo Hhi] Hb Heq [Hnlo Hnhi] Hcase. unfold binary_round.
  pose proof (shl_align_fexp prec emax m e) as Hsh.
  destruct (shl_align m e (fexp (Zpos (digits2_pos m) + e))) as [mz ez].
  destruct Hsh as (Hval & Hpre & _).
  assert (Hd : Zdigits2 (Zpos mz) + ez = d).
  { pose proof (dyadic_digits_lt (Zpos mz) ez ltac:(lia)) as H1.
    pose proof (dyadic_digits_ge (Zpos mz) ez ltac:(lia)) as H2.
    rewrite Hval in H1, H2.
    assert (A : Zdigits2 (Zpos mz) - 1 + ez < d)
      by (apply pow2_lt_inv; eapply Qle_lt_trans; eauto).
    assert (B : d - 1 < Zdigits2 (Zpos mz) + ez)
      by (apply pow2_lt_inv; eapply Qle_lt_trans; eauto).
    lia. }
  apply binary_round_aux_nearest_eq; [lia|exact Hpre|exact Hb|].
  rewrite Hd in *. rewrite Heq.
  set (n := fexp d - ez) in *.
  assert (Hn : 0 <= n) by (unfold n; lia).
  assert (Hpn : 0 < 2 ^ n) by (apply Z.pow_pos_nonneg; lia).
  assert (Hgrid : forall a, (dyadic a (fexp d) == dyadic (a * 2 ^ n) ez)%Q).
  { intros a. rewrite dyadic_shift by exact Hn.
    replace (ez + n) with (fexp d) by (unfold n; lia). reflexivity. }
  assert (Hunit : (pow2 (fexp d) == dyadic (2 ^ n) ez)%Q).
  { rewrite <- dyadic_1, (Hgrid 1), Z.mul_1_l. reflexivity. }
  assert (Hdouble : forall a, (2 * dyadic a ez == dyadic (2 * a) ez)%Q).
  { intros a. unfold dyadic. rewrite inject_Z_mult. ring. }
  assert (Hsub : forall a b, (dyadic (a - b) ez == dyadic a ez - dyadic b ez)%Q).
  { intros a b. unfold Z.sub. rewrite dyadic_add, dyadic_opp. reflexivity. }
  rewrite <- Hval, Hunit, (Hgrid m1), !Hdouble in Hnlo, Hnhi, Hcase.
  rewrite <- Hsub in Hnlo, Hcase. rewrite <- dyadic_add in Hnhi, Hcase.
  apply dyadic_le_same in Hnlo, Hnhi.
  apply (dyadic_eq_same _ _ (fexp d)). symmetry.
  apply nearest_even_near; [lia|exact Hn|split; assumption|].
  destruct Hcase as [Heven|[Hslo Hshi]]; [left; exact Heven|right].
  apply dyadic_lt_same in Hslo, Hshi. split; assumption.
Qed.

Lemma binary_normalize_nearest s p e sz d m1 mb eb :
  (pow2 (d - 1) <= dyadic (Zpos p) e < pow2 d)%Q ->
  bounded prec emax mb eb = true ->
  (dyadic (Zpos mb) eb == dyadic m1 (fexp d))%Q ->
  (2 * dyadic m1 (fexp d) - pow2 (fexp d) <= 2 * dyadic (Zpos p) e
     <= 2 * dyadic m1 (fexp d) + pow2 (fexp d))%Q ->
  Z.even m1 = true \/
  (2 * dyadic m1 (fexp d) - pow2 (fexp d) < 2 * dyadic (Zpos p) e
     < 2 * dyadic m1 (fexp d) + pow2 (fexp d))%Q ->
  binary_normalize prec emax (cond_Zopp s (Zpos p)) e sz = S754_finite s mb eb.
Proof.
  intros Hr Hb Heq Hn Hcase.
  destruct s; cbn [cond_Zopp Z.opp binary_normalize];
    apply (binary_round_nearest _ p e d m1 mb eb); assumption.
Qed.

(** The sum of two floats, of sign [s], at half a unit in the last place
    of a float or less: the addition returns that float, when the sum is
    nearer than that or the mantissa of the float is even. *)
Lemma SFadd_finite_nearest sx mx ex sy my ey (s : bool) d m1 mb eb :
  let v := (dyadic (cond_Zopp sx (Zpos mx)) ex + dyadic (cond_Zopp sy (Zpos my)) ey)%Q in
  let a := (if s then - v else v)%Q in
  (pow2 (d - 1) <= a < pow2 d)%Q ->
  bounded prec emax mb eb = true ->
  (dyadic (Zpos mb) eb == dyadic m1 (fexp d))%Q ->
  (2 * dyadic m1 (fexp d) - pow2 (fexp d) <= 2 * a
     <= 2 * dyadic m1 (fexp d) + pow2 (fexp d))%Q ->
  Z.even m1 = true \/
  (2 * dyadic m1 (fexp d) - pow2 (fexp d) < 2 * a
     < 2 * dyadic m1 (fexp d) + pow2 (fexp d))%Q ->
  SFadd prec emax (S754_finite sx mx ex) (S754_finite sy my ey) = S754_finite s mb eb.
Proof.
  intros v a Hr Hb Heq Hn Hcase. cbn [SFadd].
  pose proof (shl_align_spec mx ex (Z.min ex ey)) as Hax.
  pose proof (shl_align_spec my ey (Z.min ex ey)) as Hay.
  destruct (shl_align mx ex (Z.min ex ey)) as [mx' ex'].
  destruct (shl_align my ey (Z.min ex ey)) as [my' ey'].
  destruct Hax as [Hex' Hmx']. destruct Hay as [Hey' Hmy'].
  cbn [fst].
  assert (Hvx : (dyadic (cond_Zopp sx (Zpos mx')) (Z.min ex ey)
                 == dyadic (cond_Zopp sx (Zpos mx)) ex)%Q).
  { rewrite Hmx'. destruct sx; cbn [cond_Zopp]; rewrite ?dyadic_opp, dyadic_shift by lia;
      replace (Z.min ex ey + (ex - ex')) with ex by lia; reflexivity. }
  assert (Hvy : (dyadic (cond_Zopp sy (Zpos my')) (Z.min ex ey)
                 == dyadic (cond_Zopp sy (Zpos my)) ey)%Q).
  { rewrite Hmy'. destruct sy; cbn [cond_Zopp]; rewrite ?dyadic_opp, dyadic_shift by lia;
      replace (Z.min ex ey + (ey - ey')) with ey by lia; reflexivity. }
  assert (Hsum : (dyadic (cond_Zopp sx (Zpos mx') + cond_Zopp sy (Zpos my')) (Z.min ex ey)
                  == v)%Q)
    by (unfold v; rewrite dyadic_add, Hvx, Hvy; reflexivity).
  pose proof (pow2_pos (d - 1)) as Hpos.
  destruct (cond_Zopp sx (Zpos mx') + cond_Zopp sy (Zpos my')) as [|p|p].
  - rewrite dyadic_0 in Hsum. exfalso. unfold a in Hr. destruct s; lra.
  - pose proof (dyadic_pos (Zpos p) (Z.min ex ey) ltac:(lia)) as Hp.
    destruct s; [exfalso; unfold a in Hr; lra|].
    change (Zpos p) with (cond_Zopp false (Zpos p)).
    apply (binary_normalize_nearest false p _ false d m1 mb eb); auto;
      rewrite Hsum; assumption.
  - pose proof (dyadic_pos (Zpos p) (Z.min ex ey) ltac:(lia)) as Hp.
    change (Zneg p) with (- Zpos p) in Hsum. rewrite dyadic_opp in Hsum.
    destruct s; [|exfalso; unfold a in Hr; lra].
    change (Zneg p) with (cond_Zopp true (Zpos p)).
    assert (Ha : (dyadic (Zpos p) (Z.min ex ey) == a)%Q) by (unfold a; lra).
    apply (binary_normalize_nearest true p _ false d m1 mb eb); auto;
      rewrite Ha; assumption.
Qed.

Local Abbreviation vf := (valid_finite prec emax).
Local Abbreviation close := (close_to prec emax).

(** A number below [2 ^ K] is rounded with an error of at most
    [2 ^ (K - prec - 1)], half a unit in the last place at that
    magnitude. *)
Lemma binary_round_aux_half_pos m e K :
  0 < m -> e <= fexp (Zdigits2 m + e) ->
  3 - emax <= K -> K < emax ->
  (dyadic m e < pow2 K)%Q ->
  close (pow2 (K - prec - 1)) (dyadic m e)
    (binary_round_aux prec emax false m e loc_Exact).
Proof.
  intros Hm Hpre HKlo HKhi Hlt.
  pose proof (binary_round_aux_nearest false m e (Z.lt_le_incl _ _ Hm) Hpre) as Hr.
  cbv zeta in Hr.
  set (e' := fexp (Zdigits2 m + e)) in *.
  set (n := e' - e) in *.
  set (m1 := nearest_even m n) in *.
  assert (Hn : 0 <= n) by (unfold n; lia).
  assert (Hpn : 0 < 2 ^ n) by (apply Z.pow_pos_nonneg; lia).
  assert (Hd : Zdigits2 m + e <= K).
  { assert (Zdigits2 m - 1 + e < K); [|lia].
    apply pow2_lt_inv. eapply Qle_lt_trans; [apply dyadic_digits_ge; exact Hm|exact Hlt]. }
  assert (He' : e' <= K - prec) by (unfold e'; rewrite fexp_spec; lia).
  assert (Hulp : (pow2 e' <= 2 * pow2 (K - prec - 1))%Q).
  { assert (H : (pow2 e' <= pow2 (K - prec))%Q) by (apply pow2_le; exact He').
    replace (K - prec) with (1 + (K - prec - 1)) in H by lia.
    rewrite pow2_add in H. change (pow2 1) with 2%Q in H. exact H. }
  pose proof (nearest_even_half m n (Z.lt_le_incl _ _ Hm) Hn) as Hhalf. fold m1 in Hhalf.
  assert (Hgrid : forall a, (dyadic a e' == dyadic (a * 2 ^ n) e)%Q).
  { intros a. rewrite dyadic_shift by exact Hn.
    replace (e + n) with e' by (unfold n; lia). reflexivity. }
  assert (Hunit : (pow2 e' == dyadic (2 ^ n) e)%Q).
  { rewrite <- dyadic_1, (Hgrid 1), Z.mul_1_l. reflexivity. }
  assert (Hdouble : forall a, (2 * dyadic a e == dyadic (2 * a) e)%Q).
  { intros a. unfold dyadic. rewrite inject_Z_mult. ring. }
  assert (Hm1v : (2 * dyadic m1 e' - pow2 e' <= 2 * dyadic m e
                    <= 2 * dyadic m1 e' + pow2 e')%Q).
  { rewrite Hunit, (Hgrid m1), !Hdouble. split.
    - assert (H : (dyadic (2 * (m1 * 2 ^ n) - 2 ^ n) e <= dyadic (2 * m) e)%Q)
        by (apply dyadic_le_same; lia).
      unfold Z.sub in H. rewrite dyadic_add, dyadic_opp in H. lra.
    - assert (H : (dyadic (2 * m) e <= dyadic (2 * (m1 * 2 ^ n) + 2 ^ n) e)%Q)
        by (apply dyadic_le_same; lia).
      rewrite dyadic_add in H. exact H. }
  pose proof (pow2_pos e') as Hpe.
  destruct (binary_round_aux prec emax false m e loc_Exact) as [s'|s'| |s' m'' e''].
  - destruct Hr as [_ Hz]. split; [apply vf_zero|].
    rewrite to_Q_zero. rewrite Hz, dyadic_0 in Hm1v. lra.
  - destruct Hr as [_ Hinf]. exfalso.
    assert (Hp : (pow2 K + pow2 (K - prec - 1) <= pow2 emax)%Q).
    { assert (H1 : (pow2 (K - prec - 1) <= pow2 K)%Q) by (apply pow2_le; lia).
      assert (H2 : (pow2 (K + 1) <= pow2 emax)%Q) by (apply pow2_le; lia).
      rewrite pow2_add in H2. change (pow2 1) with 2%Q in H2. lra. }
    lra.
  - contradiction.
  - destruct Hr as (-> & Hb & Hv). split; [apply vf_finite; exact Hb|].
    rewrite to_Q_finite. cbn [cond_Zopp]. rewrite Hv. lra.
Qed.

Lemma binary_round_aux_half s m e K :
  0 < m -> e <= fexp (Zdigits2 m + e) ->
  3 - emax <= K -> K < emax ->
  (dyadic m e < pow2 K)%Q ->
  close (pow2 (K - prec - 1)) (dyadic (cond_Zopp s m) e)
    (binary_round_aux prec emax s m e loc_Exact).
Proof.
  intros Hm Hpre HKlo HKhi Hlt. destruct s.
  - change true with (negb false). rewrite binary_round_aux_opp.
    cbn [cond_Zopp negb].
    assert (Hq : (dyadic (- m) e == - dyadic m e)%Q) by apply dyadic_opp.
    destruct (close_opp prec emax _ _ _
                (binary_round_aux_half_pos m e K Hm Hpre HKlo HKhi Hlt)) as [Hv Hb].
    split; [exact Hv|]. rewrite Hq. exact Hb.
  - apply binary_round_aux_half_pos; auto.
Qed.

Lemma binary_round_half s m e K :
  3 - emax <= K -> K < emax ->
  (dyadic (Zpos m) e < pow2 K)%Q ->
  close (pow2 (K - prec - 1)) (dyadic (cond_Zopp s (Zpos m)) e)
    (binary_round prec emax s m e).
Proof.
  intros HKlo HKhi Hlt. unfold binary_round.
  pose proof (shl_align_fexp prec emax m e) as Hsh.
  destruct (shl_align m e (fexp (Zpos (digits2_pos m) + e))) as [mz ez].
  destruct Hsh as (Hval & Hpre & _).
  destruct (binary_round_aux_half s (Zpos mz) ez K) as [Hv Hb]; auto;
    [lia|rewrite Hval; exact Hlt|].
  split; [exact Hv|].
  assert (Hq : (dyadic (cond_Zopp s (Zpos mz)) ez == dyadic (cond_Zopp s (Zpos m)) e)%Q).
  { destruct s; cbn [cond_Zopp]; rewrite ?dyadic_opp; rewrite Hval; reflexivity. }
  rewrite <- Hq. exact Hb.
Qed.

Lemma binary_normalize_half z e sz K :
  3 - emax <= K -> K < emax ->
  (- pow2 K < dyadic z e < pow2 K)%Q ->
  close (pow2 (K - prec - 1)) (dyadic z e) (binary_normalize prec emax z e sz).
Proof.
  intros HKlo HKhi [Hlo Hhi]. pose proof (pow2_pos (K - prec - 1)) as Hpos.
  destruct z as [|p|p]; cbn [binary_normalize].
  - apply close_exact; [apply vf_zero|lra|]. rewrite to_Q_zero, dyadic_0. reflexivity.
  - apply (binary_round_half false p e K); auto.
  - apply (binary_round_half true p e K); auto.
    change (Zneg p) with (- Zpos p) in Hlo. rewrite dyadic_opp in Hlo. lra.
Qed.

Lemma SFadd_half x y K :
  vf x -> vf y -> 3 - emax <= K -> K < emax ->
  (- pow2 K < Format.to_Q x + Format.to_Q y < pow2 K)%Q ->
  close (pow2 (K - prec - 1)) (Format.to_Q x + Format.to_Q y) (SFadd prec emax x y).
Proof.
  intros Hx Hy HKlo HKhi Hb. pose proof (pow2_pos (K - prec - 1)) as Hpos.
  destruct x as [sx|sx| |sx mx ex]; try (destruct Hx as [_ Hx]; discriminate Hx);
  destruct y as [sy|sy| |sy my ey]; try (destruct Hy as [_ Hy]; discriminate Hy);
  cbn [SFadd].
  - apply close_exact; [destruct sx, sy; apply vf_zero|lra|].
    rewrite !to_Q_zero. destruct sx, sy; rewrite to_Q_zero; lra.
  - apply close_exact; [exact Hy|lra|]. rewrite to_Q_zero. lra.
  - apply close_exact; [exact Hx|lra|]. rewrite to_Q_zero. lra.
  - rewrite !to_Q_finite in *.
    pose proof (shl_align_spec mx ex (Z.min ex ey)) as Hax.
    pose proof (shl_align_spec my ey (Z.min ex ey)) as Hay.
    destruct (shl_align mx ex (Z.min ex ey)) as [mx' ex'].
    destruct (shl_align my ey (Z.min ex ey)) as [my' ey'].
    destruct Hax as [Hex' Hmx']. destruct Hay as [Hey' Hmy'].
    cbn [fst].
    assert (Hvx : (dyadic (cond_Zopp sx (Zpos mx')) (Z.min ex ey)
                   == dyadic (cond_Zopp sx (Zpos mx)) ex)%Q).
    { rewrite Hmx'. destruct sx; cbn [cond_Zopp]; rewrite ?dyadic_opp, dyadic_shift by lia;
        replace (Z.min ex ey + (ex - ex')) with ex by lia; reflexivity. }
    assert (Hvy : (dyadic (cond_Zopp sy (Zpos my')) (Z.min ex ey)
                   == dyadic (cond_Zopp sy (Zpos my)) ey)%Q).
    { rewrite Hmy'. destruct sy; cbn [cond_Zopp]; rewrite ?dyadic_opp, dyadic_shift by lia;
        replace (Z.min ex ey + (ey - ey')) with ey by lia; reflexivity. }
    assert (Hsum : (dyadic (cond_Zopp sx (Zpos mx') + cond_Zopp sy (Zpos my')) (Z.min ex ey)
                    == dyadic (cond_Zopp sx (Zpos mx)) ex + dyadic (cond_Zopp sy (Zpos my)) ey)%Q)
      by (rewrite dyadic_add, Hvx, Hvy; reflexivity).
    destruct (binary_normalize_half
                (cond_Zopp sx (Zpos mx') + cond_Zopp sy (Zpos my')) (Z.min ex ey) false K)
      as [Hv Hc]; auto.
    { rewrite Hsum. exact Hb. }
    split; [exact Hv|]. rewrite <- Hsum. exact Hc.
Qed.

Lemma SFsub_half x y K :
  vf x -> vf y -> 3 - emax <= K -> K < emax ->
  (- pow2 K < Format.to_Q x - Format.to_Q y < pow2 K)%Q ->
  close (pow2 (K - prec - 1)) (Format.to_Q x - Format.to_Q y) (SFsub prec emax x y).
Proof.
  intros Hx Hy HKlo HKhi Hb. rewrite SFsub_add_opp.
  destruct (SFadd_half x (SFopp y) K) as [Hv Hc]; auto using vf_opp.
  { rewrite to_Q_opp. lra. }
  split; [exact Hv|]. rewrite to_Q_opp in Hc. lra.
Qed.

End Nearest.

(** ** [sin], [cos] and [tan] above [2 ^ 27] *)

Lemma SFadd_nearest32 sx mx ex sy my ey (s : bool) d m1 mb eb :
  let v := (dyadic (cond_Zopp sx (Zpos mx)) ex + dyadic (cond_Zopp sy (Zpos my)) ey)%Q in
  let a := (if s then - v else v)%Q in
  (pow2 (d - 1) <= a < pow2 d)%Q ->
  bounded F32.prec F32.emax mb eb = true ->
  (dyadic (Zpos mb) eb == dyadic m1 (Z.max (d - 24) (- (149))))%Q ->
  (2 * dyadic m1 (Z.max (d - 24) (- (149))) - pow2 (Z.max (d - 24) (- (149))) < 2 * a
     < 2 * dyadic m1 (Z.max (d - 24) (- (149))) + pow2 (Z.max (d - 24) (- (149))))%Q ->
  (S754_finite sx mx ex + S754_finite sy my ey)%f32 = S754_finite s mb eb.
Proof.
  intros v a Hr Hb Heq Hn.
  apply (SFadd_finite_nearest F32.prec F32.emax F32_prec F32_emax
           sx mx ex sy my ey s d m1 mb eb Hr Hb Heq).
  - split; apply Qlt_le_weak; apply Hn.
  - right. exact Hn.
Qed.

Lemma SFadd_even32 sx mx ex sy my ey (s : bool) d m1 mb eb :
  let v := (dyadic (cond_Zopp sx (Zpos mx)) ex + dyadic (cond_Zopp sy (Zpos my)) ey)%Q in
  let a := (if s then - v else v)%Q in
  (pow2 (d - 1) <= a < pow2 d)%Q ->
  bounded F32.prec F32.emax mb eb = true ->
  (dyadic (Zpos mb) eb == dyadic m1 (Z.max (d - 24) (- (149))))%Q ->
  (2 * dyadic m1 (Z.max (d - 24) (- (149))) - pow2 (Z.max (d - 24) (- (149))) <= 2 * a
     <= 2 * dyadic m1 (Z.max (d - 24) (- (149))) + pow2 (Z.max (d - 24) (- (149))))%Q ->
  Z.even m1 = true ->
  (S754_finite sx mx ex + S754_finite sy my ey)%f32 = S754_finite s mb eb.
Proof.
  intros v a Hr Hb Heq Hn Heven.
  apply (SFadd_finite_nearest F32.prec F32.emax F32_prec F32_emax
           sx mx ex sy my ey s d m1 mb eb Hr Hb Heq Hn).
  left. exact Heven.
Qed.

Lemma two_pi_finite : two_pi = S754_finite false 13176795 (-21).
Proof. vm_compute. reflexivity. Qed.

Lemma large_float_shape m e :
  bounded F32.prec F32.emax m e = true ->
  (134217728 < dyadic (Zpos m) e)%Q ->
  4 <= e /\ (8388608 <= inject_Z (Zpos m) <= 16777215)%Q /\ (16 <= pow2 e)%Q /\
  (Zpos m = 8388608 -> 5 <= e).
Proof.
  intros Hb Hbig.
  destruct (bounded_digits F32.prec F32.emax m e Hb) as (Hd & Hlo & Hhi & Hnorm).
  change F32.prec with 24 in *. change F32.emax with 128 in *.
  pose proof (dyadic_digits_lt (Zpos m) e ltac:(lia)) as Hlt.
  assert (P27 : (pow2 27 == 134217728)%Q) by (vm_compute; reflexivity).
  assert (He : 4 <= e).
  { assert (H : 27 < Zdigits2 (Zpos m) + e).
    { apply pow2_lt_inv. rewrite P27. eapply Qlt_trans; eauto. }
    lia. }
  specialize (Hnorm ltac:(lia)).
  destruct (Zdigits2_bounds (Zpos m) ltac:(lia)) as [Hmlo Hmhi].
  rewrite Hnorm in Hmlo, Hmhi.
  change (2 ^ (24 - 1)) with 8388608 in Hmlo. change (2 ^ 24) with 16777216 in Hmhi.
  split; [exact He|]. split; [|split].
  - split.
    + change 8388608%Q with (inject_Z 8388608). rewrite <- Zle_Qle. exact Hmlo.
    + change 16777215%Q with (inject_Z 16777215). rewrite <- Zle_Qle. lia.
  - assert (P4 : (pow2 4 == 16)%Q) by (vm_compute; reflexivity).
    rewrite <- P4. apply pow2_le. exact He.
  - intros Hm. rewrite Hm in Hbig.
    assert (H : 27 < 24 + e - 1 + 1 - 1).
    { apply pow2_lt_inv. rewrite P27.
      replace (24 + e - 1 + 1 - 1) with (23 + e) by lia.
      rewrite pow2_add.
      assert (P23 : (pow2 23 == 8388608)%Q) by (vm_compute; reflexivity).
      rewrite P23. exact Hbig. }
    lia.
Qed.

(** Above [2 ^ 27] half a unit in the last place is more than [two_pi]:
    taking [two_pi] off the magnitude of a float returns the float. *)
Lemma two_pi_absorbed (s : bool) m e :
  bounded F32.prec F32.emax m e = true ->
  (134217728 < dyadic (Zpos m) e)%Q ->
  (S754_finite s m e + S754_finite (negb s) 13176795 (-21))%f32 = S754_finite s m e.
Proof.
  intros Hb Hbig.
  destruct (large_float_shape m e Hb Hbig) as (He & HM & HP & Hpow).
  pose (T := dyadic (Zpos 13176795) (-21)).
  assert (HT : (2097152 * T == 13176795)%Q) by (vm_compute; reflexivity).
  assert (Hsum : ((if s then
                     - (dyadic (cond_Zopp s (Zpos m)) e
                        + dyadic (cond_Zopp (negb s) 13176795) (-21))
                   else dyadic (cond_Zopp s (Zpos m)) e
                        + dyadic (cond_Zopp (negb s) 13176795) (-21))
                  == inject_Z (Zpos m) * pow2 e - T)%Q).
  { destruct s; cbn [cond_Zopp negb Z.opp].
    - change (Zneg m) with (- Zpos m). rewrite dyadic_opp.
      fold T. unfold dyadic. ring.
    - change (Zneg 13176795) with (- Zpos 13176795). rewrite dyadic_opp.
      fold T. unfold dyadic. ring. }
  assert (P23 : (pow2 23 == 8388608)%Q) by (vm_compute; reflexivity).
  assert (P24 : (pow2 24 == 16777216)%Q) by (vm_compute; reflexivity).
  destruct (Z.eq_dec (Zpos m) 8388608) as [Hm|Hm].
  - (* a power of two: the difference is in the binade below *)
    specialize (Hpow Hm). injection Hm as ->.
    assert (HP1 : (pow2 e == 2 * pow2 (e - 1))%Q).
    { replace e with (1 + (e - 1)) at 1 by lia. rewrite pow2_add. reflexivity. }
    assert (HP' : (16 <= pow2 (e - 1))%Q).
    { assert (P4 : (pow2 4 == 16)%Q) by (vm_compute; reflexivity).
      rewrite <- P4. apply pow2_le. lia. }
    assert (E1 : (pow2 (23 + e - 1) == 8388608 * pow2 (e - 1))%Q).
    { replace (23 + e - 1) with (23 + (e - 1)) by lia. rewrite pow2_add, P23. reflexivity. }
    assert (E2 : (pow2 (23 + e) == 16777216 * pow2 (e - 1))%Q).
    { replace (23 + e) with (24 + (e - 1)) by lia. rewrite pow2_add, P24. reflexivity. }
    change (inject_Z 8388608) with 8388608%Q in Hsum.
    apply (SFadd_nearest32 s 8388608 e (negb s) 13176795 (-21) s (23 + e) 16777216).
    + rewrite Hsum, E1, E2, HP1. split; lra.
    + exact Hb.
    + replace (Z.max (23 + e - 24) (- (149))) with (e - 1) by lia.
      unfold dyadic. rewrite HP1.
      change (inject_Z 8388608) with 8388608%Q.
      change (inject_Z 16777216) with 16777216%Q. ring.
    + replace (Z.max (23 + e - 24) (- (149))) with (e - 1) by lia.
      rewrite Hsum. unfold dyadic. rewrite HP1.
      change (inject_Z 16777216) with 16777216%Q. split; lra.
  - assert (HM' : (8388609 <= inject_Z (Zpos m))%Q).
    { change 8388609%Q with (inject_Z 8388609). rewrite <- Zle_Qle.
      assert (8388608 <= Zpos m).
      { change 8388608%Q with (inject_Z 8388608) in HM. destruct HM as [HM _].
        rewrite <- Zle_Qle in HM. exact HM. }
      lia. }
    assert (E1 : (pow2 (24 + e - 1) == 8388608 * pow2 e)%Q).
    { replace (24 + e - 1) with (23 + e) by lia. rewrite pow2_add, P23. reflexivity. }
    assert (E2 : (pow2 (24 + e) == 16777216 * pow2 e)%Q).
    { rewrite pow2_add, P24. reflexivity. }
    apply (SFadd_nearest32 s m e (negb s) 13176795 (-21) s (24 + e) (Zpos m)).
    + rewrite Hsum, E1, E2. split; nra.
    + exact Hb.
    + replace (Z.max (24 + e - 24) (- (149))) with e by lia. reflexivity.
    + replace (Z.max (24 + e - 24) (- (149))) with e by lia.
      rewrite Hsum. unfold dyadic. split; lra.
Qed.

Lemma sub_two_pi_absorbed m e :
  bounded F32.prec F32.emax m e = true ->
  (134217728 < dyadic (Zpos m) e)%Q ->
  (S754_finite false m e - two_pi)%f32 = S754_finite false m e.
Proof.
  intros Hb Hbig. unfold F32.sub. rewrite SFsub_add_opp, two_pi_finite.
  exact (two_pi_absorbed false m e Hb Hbig).
Qed.

Lemma add_two_pi_absorbed m e :
  bounded F32.prec F32.emax m e = true ->
  (134217728 < dyadic (Zpos m) e)%Q ->
  (S754_finite true m e + two_pi)%f32 = S754_finite true m e.
Proof.
  intros Hb Hbig. rewrite two_pi_finite.
  exact (two_pi_absorbed true m e Hb Hbig).
Qed.

Lemma sub_two_pi_stuck_above fuel m e :
  bounded F32.prec F32.emax m e = true ->
  (134217728 < dyadic (Zpos m) e)%Q ->
  sub_two_pi_while_above fuel (S754_finite false m e) = Diverge.
Proof.
  intros Hb Hbig.
  assert (Hv : vf32 (S754_finite false m e)) by (split; [exact Hb|reflexivity]).
  assert (Hgt : F32.ltb pi (S754_finite false m e) = true).
  { apply (SFltb_spec F32.prec F32.emax _ _ vf32_pi Hv).
    change (q (S754_finite false m e)) with (dyadic (Zpos m) e).
    pose proof q_pi as Hqpi.
    assert (Hpi : (q pi <= 4)%Q) by (rewrite Hqpi; q_const). lra. }
  induction fuel as [|fuel IH]; [reflexivity|].
  cbn [sub_two_pi_while_above]. rewrite Hgt, (sub_two_pi_absorbed m e Hb Hbig).
  exact IH.
Qed.

Lemma add_two_pi_stuck_below fuel m e :
  bounded F32.prec F32.emax m e = true ->
  (134217728 < dyadic (Zpos m) e)%Q ->
  add_two_pi_while_below fuel (S754_finite true m e) = Diverge.
Proof.
  intros Hb Hbig.
  assert (Hv : vf32 (S754_finite true m e)) by (split; [exact Hb|reflexivity]).
  assert (Hvmpi : vf32 (- pi)%f32) by (apply vf_opp; exact vf32_pi).
  assert (Hlt : F32.ltb (S754_finite true m e) (- pi)%f32 = true).
  { apply (SFltb_spec F32.prec F32.emax _ _ Hv Hvmpi).
    assert (Hq : (q (S754_finite true m e) == - dyadic (Zpos m) e)%Q).
    { change (S754_finite true m e) with (SFopp (S754_finite false m e)).
      rewrite to_Q_opp. reflexivity. }
    assert (Hqm : (q (- pi)%f32 == - q pi)%Q) by apply to_Q_opp.
    pose proof q_pi as Hqpi.
    assert (Hpi : (q pi <= 4)%Q) by (rewrite Hqpi; q_const). lra. }
  induction fuel as [|fuel IH]; [reflexivity|].
  cbn [add_two_pi_while_below]. rewrite Hlt, (add_two_pi_absorbed m e Hb Hbig).
  exact IH.
Qed.

Lemma vf32_pow2_27 : vf32 #134217728.0.
Proof. vf_const. Qed.

(** Above [2 ^ 27] in magnitude, infinities included, an addition or a
    subtraction of [two_pi] returns its argument, and the loops of the
    range reduction never end: [sin], [cos] and [tan] do not return. *)
Theorem range_reduction_diverges_above :
  forall theta,
    F32.valid theta = true ->
    F32.ltb #134217728.0 (F32.abs theta) = true ->
    forall fuel,
      sin fuel theta = Diverge /\ cos fuel theta = Diverge /\
      tan fuel theta = Diverge.
Proof.
  intros theta Hv Hbig fuel.
  assert (Hloops :
    (theta1 <- add_two_pi_while_below fuel theta ;;
     sub_two_pi_while_above fuel theta1) = Diverge).
  { destruct theta as [s|s| |s m e].
    - exfalso. revert Hbig. vm_compute. discriminate.
    - destruct s.
      + rewrite add_two_pi_neg_infinity. reflexivity.
      + destruct fuel as [|fuel]; [reflexivity|].
        cbn [add_two_pi_while_below].
        replace (S754_infinity false <? - pi)%f32 with false by (vm_compute; reflexivity).
        cbn [bind]. apply sub_two_pi_pos_infinity.
    - exfalso. revert Hbig. vm_compute. discriminate.
    - assert (Hb : bounded F32.prec F32.emax m e = true) by exact Hv.
      assert (Hq : (134217728 < dyadic (Zpos m) e)%Q).
      { assert (Hva : vf32 (S754_finite false m e)) by (split; [exact Hb|reflexivity]).
        apply (SFltb_spec F32.prec F32.emax _ _ vf32_pow2_27 Hva) in Hbig.
        assert (Q27 : (q #134217728.0 == 134217728)%Q) by q_const.
        change (q (S754_finite false m e)) with (dyadic (Zpos m) e) in Hbig. lra. }
      destruct s.
      + rewrite (add_two_pi_stuck_below fuel m e Hb Hq). reflexivity.
      + destruct fuel as [|fuel]; [reflexivity|].
        cbn [add_two_pi_while_below].
        replace (- pi)%f32 with (S754_finite true 13176795 (-22))
          by (vm_compute; reflexivity).
        change (S754_finite false m e <? S754_finite true 13176795 (-22))%f32 with false.
        cbn [bind]. apply sub_two_pi_stuck_above; assumption. }
  assert (Hsin : sin fuel theta = Diverge).
  { rewrite sin_eq.
    destruct (add_two_pi_while_below fuel theta) as [theta1| |]; cbn [bind] in *;
      [rewrite Hloops|discriminate Hloops|]; reflexivity. }
  assert (Hcos : cos fuel theta = Diverge).
  { rewrite cos_eq.
    destruct (add_two_pi_while_below fuel theta) as [theta1| |]; cbn [bind] in *;
      [rewrite Hloops|discriminate Hloops|]; reflexivity. }
  split; [exact Hsin|]. split; [exact Hcos|].
  unfold tan. rewrite Hsin. reflexivity.
Qed.

Lemma range_reduction_diverges_above_witness :
  sin 5 #3e8 = Diverge /\ cos 5 #3e8 = Diverge /\ tan 5 #3e8 = Diverge.
Proof.
  apply (range_reduction_diverges_above #3e8); vm_compute; reflexivity.
Defined.

(** ** [sin], [cos] and [tan]: the loops of the range reduction end *)

Lemma F32_sub_close x y K :
  vf32 x -> vf32 y -> -125 <= K < 128 ->
  (- pow2 K < q x - q y < pow2 K)%Q ->
  close32 (pow2 (K - 24)) (q x - q y) (x - y)%f32.
Proof.
  intros Hx Hy HK Hb.
  exact (SFsub_close F32.prec F32.emax F32_prec F32_emax x y K Hx Hy
           (proj1 HK) (proj2 HK) Hb).
Qed.

Lemma F32_add_half x y K :
  vf32 x -> vf32 y -> -125 <= K < 128 ->
  (- pow2 K < q x + q y < pow2 K)%Q ->
  close32 (pow2 (K - 25)) (q x + q y) (x + y)%f32.
Proof.
  intros Hx Hy HK Hb.
  replace (K - 25) with (K - F32.prec - 1) by (change F32.prec with 24; lia).
  exact (SFadd_half F32.prec F32.emax F32_prec F32_emax x y K Hx Hy
           (proj1 HK) (proj2 HK) Hb).
Qed.

Lemma F32_sub_half x y K :
  vf32 x -> vf32 y -> -125 <= K < 128 ->
  (- pow2 K < q x - q y < pow2 K)%Q ->
  close32 (pow2 (K - 25)) (q x - q y) (x - y)%f32.
Proof.
  intros Hx Hy HK Hb.
  replace (K - 25) with (K - F32.prec - 1) by (change F32.prec with 24; lia).
  exact (SFsub_half F32.prec F32.emax F32_prec F32_emax x y K Hx Hy
           (proj1 HK) (proj2 HK) Hb).
Qed.

Lemma of_nat_succ_Q k :
  (inject_Z (Z.of_nat (S k)) == inject_Z (Z.of_nat k) + 1)%Q.
Proof. rewrite Nat2Z.inj_succ. unfold Z.succ. apply inject_Z_succ. Qed.

Lemma of_nat_nonneg_Q k : (0 <= inject_Z (Z.of_nat k))%Q.
Proof.
  change 0%Q with (inject_Z 0). rewrite <- Zle_Qle. apply Nat2Z.is_nonneg.
Qed.

(** Up to [2 ^ 27] a subtraction of [two_pi] is rounded by at most 4 and
    takes at least 2 off: the second loop ends after [k] subtractions when
    [theta <= pi + 2 k]. *)
Lemma sub_two_pi_terminates k :
  forall theta,
    vf32 theta ->
    (q theta <= 134217728)%Q ->
    (q theta <= q pi + 2 * inject_Z (Z.of_nat k))%Q ->
    exists theta', sub_two_pi_while_above (S k) theta = Val theta'.
Proof.
  pose proof vf32_pi as Hvpi. pose proof vf32_two_pi as Hv2pi.
  pose proof q_pi as Hqpi. pose proof q_two_pi as Hq2pi.
  assert (P27 : (pow2 27 == 134217728)%Q) by (vm_compute; reflexivity).
  assert (P2 : (pow2 (27 - 25) == 4)%Q) by (vm_compute; reflexivity).
  assert (Hpi : (3 <= q pi <= 4)%Q) by (rewrite Hqpi; split; q_const).
  induction k as [|k IH]; intros theta Hv Hb Hk;
    cbn [sub_two_pi_while_above]; destruct (pi <? theta)%f32 eqn:Hgt;
    try (exists theta; reflexivity).
  - apply (SFltb_spec F32.prec F32.emax _ _ Hvpi Hv) in Hgt.
    change (inject_Z (Z.of_nat 0)) with 0%Q in Hk. exfalso. lra.
  - apply (SFltb_spec F32.prec F32.emax _ _ Hvpi Hv) in Hgt.
    rewrite of_nat_succ_Q in Hk.
    assert (HK : -125 <= 27 < 128) by lia.
    assert (Hr : (- pow2 27 < q theta - q two_pi < pow2 27)%Q)
      by (rewrite P27, Hq2pi; split; lra).
    destruct (F32_sub_half theta two_pi 27 Hv Hv2pi HK Hr) as [Hv' [_ Hhi]].
    rewrite P2, Hq2pi in Hhi.
    apply (IH (theta - two_pi)%f32 Hv'); lra.
Qed.

(** The same for the additions of the first loop, whose result is the
    argument itself or at most [pi]. *)
Lemma add_two_pi_terminates k :
  forall theta,
    vf32 theta ->
    (- (134217728) <= q theta)%Q ->
    (- q pi - 2 * inject_Z (Z.of_nat k) <= q theta)%Q ->
    exists theta',
      add_two_pi_while_below (S k) theta = Val theta' /\ vf32 theta' /\
      (theta' = theta \/ q theta' <= q pi)%Q.
Proof.
  pose proof vf32_pi as Hvpi. pose proof vf32_two_pi as Hv2pi.
  pose proof q_pi as Hqpi. pose proof q_two_pi as Hq2pi.
  assert (Hvmpi : vf32 (- pi)%f32) by (apply vf_opp; exact Hvpi).
  assert (Hqmpi : (q (- pi)%f32 == - q pi)%Q) by apply to_Q_opp.
  assert (P27 : (pow2 27 == 134217728)%Q) by (vm_compute; reflexivity).
  assert (P2 : (pow2 (27 - 25) == 4)%Q) by (vm_compute; reflexivity).
  assert (Hpi : (3 <= q pi <= 4)%Q) by (rewrite Hqpi; split; q_const).
  induction k as [|k IH]; intros theta Hv Hb Hk;
    cbn [add_two_pi_while_below]; destruct (theta <? - pi)%f32 eqn:Hlt;
    try (exists theta; split; [reflexivity|split; [exact Hv|left; reflexivity]]).
  - apply (SFltb_spec F32.prec F32.emax _ _ Hv Hvmpi) in Hlt.
    change (inject_Z (Z.of_nat 0)) with 0%Q in Hk. exfalso. lra.
  - apply (SFltb_spec F32.prec F32.emax _ _ Hv Hvmpi) in Hlt.
    rewrite of_nat_succ_Q in Hk.
    assert (HK : -125 <= 27 < 128) by lia.
    assert (Hr : (- pow2 27 < q theta + q two_pi < pow2 27)%Q)
      by (rewrite P27, Hq2pi; split; lra).
    destruct (F32_add_half theta two_pi 27 Hv Hv2pi HK Hr) as [Hv' [Hlo _]].
    rewrite P2, Hq2pi in Hlo.
    assert (Hin : (q theta <= q theta + q two_pi <= q pi)%Q)
      by (rewrite Hq2pi; split; lra).
    destruct (F32_add_within theta two_pi theta pi Hv Hv2pi Hv Hvpi Hin)
      as [_ [_ Hup]].
    destruct (IH (theta + two_pi)%f32 Hv') as (theta' & Hrun & Hv'' & Hcase);
      [lra|lra|].
    exists theta'. split; [exact Hrun|]. split; [exact Hv''|].
    right. destruct Hcase as [->|Hle]; [exact Hup|exact Hle].
Qed.

Lemma range_reduction_terminates k theta :
  vf32 theta ->
  (- (134217728) <= q theta <= 134217728)%Q ->
  (- (2 * inject_Z (Z.of_nat k)) - 3 <= q theta <= 2 * inject_Z (Z.of_nat k) + 3)%Q ->
  exists theta1 theta2,
    add_two_pi_while_below (S k) theta = Val theta1 /\
    sub_two_pi_while_above (S k) theta1 = Val theta2.
Proof.
  intros Hv Hb Hk.
  assert (Hpi : (3 <= q pi <= 4)%Q) by (rewrite q_pi; split; q_const).
  pose proof (of_nat_nonneg_Q k) as Hk0.
  destruct (add_two_pi_terminates k theta Hv) as (theta1 & H1 & Hv1 & Hcase);
    [lra|lra|].
  destruct (sub_two_pi_terminates k theta1 Hv1) as (theta2 & H2).
  - destruct Hcase as [->|Hle]; lra.
  - destruct Hcase as [->|Hle]; lra.
  - exists theta1, theta2. split; assumption.
Qed.

Lemma sin_cos_return fuel theta :
  vf32 theta ->
  (- (134217728) <= q theta <= 134217728)%Q ->
  (- (2 * inject_Z (Z.of_nat fuel)) + 1 <= q theta
     <= 2 * inject_Z (Z.of_nat fuel) - 1)%Q ->
  exists theta2,
    sin fuel theta = Val (Spec.sin theta2) /\
    cos fuel theta = Val (Spec.cos theta2).
Proof.
  intros Hv Hb Hk.
  destruct fuel as [|k].
  { exfalso. change (inject_Z (Z.of_nat 0)) with 0%Q in Hk. lra. }
  rewrite of_nat_succ_Q in Hk.
  destruct (range_reduction_terminates k theta Hv Hb) as (theta1 & theta2 & H1 & H2);
    [lra|].
  exists theta2. split.
  - rewrite sin_eq, H1. cbn [bind]. rewrite H2. reflexivity.
  - rewrite cos_eq, H1. cbn [bind]. rewrite H2. reflexivity.
Qed.

(** For [|theta| <= 2 ^ 27] the loops of [sin], [cos] and [tan] end, after
    at most [(|theta| + 1) / 2] rounds each: the three functions return,
    [sin] and [cos] within one unit in the last place of [[-1, 1]]. *)
Theorem sin_cos_tan_terminate :
  forall fuel theta,
    vf32 theta ->
    (- (134217728) <= q theta <= 134217728)%Q ->
    (- (2 * inject_Z (Z.of_nat fuel)) + 1 <= q theta
       <= 2 * inject_Z (Z.of_nat fuel) - 1)%Q ->
    exists s c t,
      sin fuel theta = Val s /\ cos fuel theta = Val c /\
      tan fuel theta = Val t /\
      near_unit_range s = true /\ near_unit_range c = true.
Proof.
  intros fuel theta Hv Hb Hk.
  destruct (sin_cos_return fuel theta Hv Hb Hk) as (theta2 & Hs & Hc).
  destruct Hv as [Hvalid Hfin].
  assert (Hn : Format.is_nan theta = false)
    by (destruct theta; try reflexivity; discriminate Hfin).
  assert (Ht : exists t, tan fuel theta = Val t).
  { unfold tan. rewrite Hs, Hc. cbn [bind].
    destruct (F32.ltb _ _); eexists; reflexivity. }
  destruct Ht as [t Ht].
  exists (Spec.sin theta2), (Spec.cos theta2), t.
  split; [exact Hs|]. split; [exact Hc|]. split; [exact Ht|].
  split.
  - exact (sin_range fuel theta _ Hvalid Hn Hs).
  - exact (cos_range fuel theta _ Hvalid Hn Hc).
Qed.

Lemma sin_cos_tan_terminate_witness :
  exists s c t,
    sin 6 #10.0 = Val s /\ cos 6 #10.0 = Val c /\ tan 6 #10.0 = Val t /\
    near_unit_range s = true /\ near_unit_range c = true.
Proof.
  apply sin_cos_tan_terminate.
  - vf_const.
  - split; q_const.
  - split; q_const.
Defined.

(** ** [asin] and [acos] return *)

Lemma sin_cos_return_within fuel theta :
  67108865 <= Z.of_nat fuel ->
  vf32 theta -> (- (134217728) <= q theta <= 134217728)%Q ->
  exists s c,
    sin fuel theta = Val s /\ cos fuel theta = Val c /\
    within32 (- unit_bound)%f32 unit_bound s /\
    within32 (- unit_bound)%f32 unit_bound c.
Proof.
  intros Hfuel Hv Hb.
  assert (HF : (67108865 <= inject_Z (Z.of_nat fuel))%Q).
  { change 67108865%Q with (inject_Z 67108865). rewrite <- Zle_Qle. exact Hfuel. }
  destruct (sin_cos_return fuel theta Hv Hb) as (theta2 & Hs & Hc); [split; lra|].
  destruct Hv as [Hvalid Hfin].
  assert (Hn : Format.is_nan theta = false)
    by (destruct theta; try reflexivity; discriminate Hfin).
  exists (Spec.sin theta2), (Spec.cos theta2).
  split; [exact Hs|]. split; [exact Hc|].
  exact (sin_cos_within fuel theta _ _ Hvalid Hn Hs Hc).
Qed.

(** The first guess of [asin] is at most 2 in magnitude. *)
Lemma asin_guess_within x :
  vf32 x -> (- (1) <= q x <= 1)%Q ->
  within32 (- #2.0)%f32 #2.0 (d2f (f2d x * (M_PI / f2d #2.0))%f64).
Proof.
  intros Hv Hx.
  destruct (f2d_exact x Hv) as [Hvd Hqd].
  assert (Vc : vf64 (M_PI / f2d #2.0)%f64) by vf_const.
  assert (Qc : (1 <= Format.to_Q (M_PI / f2d #2.0)%f64 <= 2)%Q) by (split; q_const).
  assert (VL : vf64 (f2d (- #2.0)%f32)) by vf_const.
  assert (VU : vf64 (f2d #2.0)) by vf_const.
  assert (QL : (Format.to_Q (f2d (- #2.0)%f32) == - (2))%Q) by q_const.
  assert (QU : (Format.to_Q (f2d #2.0) == 2)%Q) by q_const.
  assert (V2 : vf32 #2.0) by vf_const.
  assert (V2' : vf32 (- #2.0)%f32) by vf_const.
  assert (Q2 : (q #2.0 == 2)%Q) by q_const.
  assert (Q2' : (q (- #2.0)%f32 == - (2))%Q) by q_const.
  destruct (F64_mul_within (f2d x) (M_PI / f2d #2.0)%f64 _ _ Hvd Vc VL VU)
    as [Hvp [Hplo Hphi]].
  { rewrite QL, QU, Hqd. split; nra. }
  apply (d2f_within _ _ _ Hvp V2' V2). rewrite Q2, Q2'. lra.
Qed.

(** An iterate of Newton's method moves by at most 25000004: the
    numerator is at most 2.5 in magnitude, the denominator at least
    [1e-7f]; three of them stay below [2 ^ 27], where [sin] and [cos]
    return. *)
Lemma asin_newton_returns fuel x :
  67108865 <= Z.of_nat fuel ->
  vf32 x -> (- (1) <= q x <= 1)%Q ->
  forall n y,
    vf32 y ->
    (- (134217728 - 25000016 * inject_Z (Z.of_nat n)) <= q y
       <= 134217728 - 25000016 * inject_Z (Z.of_nat n))%Q ->
    exists r, asin_newton fuel n x y = Val r.
Proof.
  intros Hfuel Hvx Hx.
  assert (VN : vf32 #2.5) by vf_const.
  assert (VN' : vf32 (- #2.5)%f32) by vf_const.
  assert (VD : vf32 #25000000.0) by vf_const.
  assert (QN : (q #2.5 == 10 * 2 ^ (-2))%Q) by q_const.
  assert (QN' : (q (- #2.5)%f32 == - q #2.5)%Q) by apply to_Q_opp.
  assert (QD : (q #25000000.0 == 25000000)%Q) by q_const.
  assert (QD' : (q (- #25000000.0)%f32 == - (25000000))%Q) by q_const.
  assert (Qu : (q unit_bound <= 5 * 2 ^ (-2))%Q) by q_const.
  assert (Qu' : (q (- unit_bound)%f32 == - q unit_bound)%Q) by apply to_Q_opp.
  assert (HND : (q #2.5 <= q #25000000.0 * q #1e-7)%Q) by q_const.
  assert (P27 : (pow2 27 == 134217728)%Q) by (vm_compute; reflexivity).
  assert (P2 : (pow2 (27 - 25) == 4)%Q) by (vm_compute; reflexivity).
  assert (HK : -125 <= 27 < 128) by lia.
  induction n as [|n IH]; intros y Hvy Hy; cbn [asin_newton]; [eauto|].
  rewrite of_nat_succ_Q in Hy.
  pose proof (of_nat_nonneg_Q n) as Hn0.
  destruct (sin_cos_return_within fuel y Hfuel Hvy) as (s & c & Hs & Hc & Hws & Hwc);
    [split; lra|].
  rewrite Hs, Hc. cbn [bind].
  destruct (F32.ltb (F32.abs c) #1e-7) eqn:Hsmall; [eauto|].
  destruct Hws as [Hvs [Hslo Hshi]].
  assert (Hnum : within32 (- #2.5)%f32 #2.5 (s - x)%f32).
  { apply (F32_sub_within s x _ _ Hvs Hvx VN' VN).
    rewrite QN', QN. rewrite Qu' in Hslo.
    assert (T : (0 < 2 ^ (-2))%Q) by (vm_compute; reflexivity).
    assert (T4 : (4 * 2 ^ (-2) == 1)%Q) by (vm_compute; reflexivity).
    split; lra. }
  pose proof (quotient_within #2.5 #25000000.0 _ c VN VD
                ltac:(rewrite QD; lra) HND Hnum (proj1 Hwc) Hsmall) as [Hvq [Hqlo Hqhi]].
  rewrite QD' in Hqlo. rewrite QD in Hqhi.
  assert (Hr : (- pow2 27 < q y - q ((s - x) / c)%f32 < pow2 27)%Q).
  { rewrite P27. split; lra. }
  destruct (F32_sub_half y ((s - x) / c)%f32 27 Hvy Hvq HK Hr) as [Hv' [Hlo Hhi]].
  rewrite P2 in Hlo, Hhi.
  apply (IH _ Hv'). split; lra.
Qed.


Lemma sin_cos_nan k :
  sin (S k) S754_nan = Val S754_nan /\ cos (S k) S754_nan = Val S754_nan.
Proof.
  assert (H1 : add_two_pi_while_below (S k) S754_nan = Val S754_nan).
  { cbn [add_two_pi_while_below].
    replace (S754_nan <? - pi)%f32 with false by (vm_compute; reflexivity).
    reflexivity. }
  assert (H2 : sub_two_pi_while_above (S k) S754_nan = Val S754_nan).
  { cbn [sub_two_pi_while_above].
    replace (pi <? S754_nan)%f32 with false by (vm_compute; reflexivity).
    reflexivity. }
  split.
  - rewrite sin_eq, H1. cbn [bind]. rewrite H2. cbn [bind].
    vm_compute. reflexivity.
  - rewrite cos_eq, H1. cbn [bind]. rewrite H2. cbn [bind].
    vm_compute. reflexivity.
Qed.

Lemma asin_newton_nan k n :
  asin_newton (S k) n S754_nan S754_nan = Val S754_nan.
Proof.
  destruct (sin_cos_nan k) as [Hs Hc].
  induction n as [|n IH]; cbn [asin_newton]; [reflexivity|].
  rewrite Hs, Hc. cbn [bind].
  replace (F32.ltb (F32.abs S754_nan) #1e-7) with false by (vm_compute; reflexivity).
  replace (S754_nan - (S754_nan - S754_nan) / S754_nan)%f32 with S754_nan
    by (vm_compute; reflexivity).
  exact IH.
Qed.

(** [asin] and [acos] return on every input, a NaN included, once the
    loops of [sin] and [cos] are given [2 ^ 26 + 1] rounds: the iterates of
    Newton's method stay in the range where these loops end. *)
Theorem asin_acos_total :
  forall fuel x,
    67108865 <= Z.of_nat fuel -> F32.valid x = true ->
    exists r a, asin fuel x = Val r /\ acos fuel x = Val a.
Proof.
  intros fuel x Hfuel Hv.
  assert (Hasin : exists r, asin fuel x = Val r).
  { unfold asin.
    destruct (F32.leb #1.0 x) eqn:Hhi; [eauto|].
    destruct (F32.leb x (- #1.0)%f32) eqn:Hlo; [eauto|].
    destruct (F32.ltb (F32.abs x) #1e-7) eqn:Hsmall; [eauto|].
    cbv zeta.
    destruct (Format.is_nan x) eqn:Hn.
    - destruct x; try discriminate Hn.
      destruct fuel as [|k]; [exfalso; cbn in Hfuel; lia|].
      replace (d2f (f2d S754_nan * (M_PI / f2d #2.0))%f64) with S754_nan
        by (vm_compute; reflexivity).
      exists S754_nan. apply asin_newton_nan.
    - destruct (valid_not_nan_cases x Hv Hn) as [Hvx|[s ->]].
      + assert (V1 : vf32 #1.0) by vf_const.
        assert (V1' : vf32 (- #1.0)%f32) by vf_const.
        assert (Q1 : (q #1.0 == 1)%Q) by q_const.
        assert (Q1' : (q (- #1.0)%f32 == - (1))%Q) by q_const.
        apply (leb_false_lt _ _ V1 Hvx) in Hhi.
        apply (leb_false_lt _ _ Hvx V1') in Hlo.
        assert (Hx : (- (1) <= q x <= 1)%Q) by (split; lra).
        destruct (asin_guess_within x Hvx Hx) as [Hvy [Hylo Hyhi]].
        assert (Q2 : (q #2.0 == 2)%Q) by q_const.
        assert (Q2' : (q (- #2.0)%f32 == - (2))%Q) by q_const.
        apply (asin_newton_returns fuel x Hfuel Hvx Hx 3 _ Hvy).
        change (inject_Z (Z.of_nat 3)) with 3%Q. split; lra.
      + exfalso. destruct s; [revert Hlo|revert Hhi]; vm_compute; discriminate. }
  destruct Hasin as [r Hr]. exists r. unfold acos. rewrite Hr. cbn [bind]. eauto.
Qed.

Lemma asin_acos_total_witness :
  exists r a,
    asin (Z.to_nat 67108865) #0.5 = Val r /\ acos (Z.to_nat 67108865) #0.5 = Val a.
Proof.
  apply asin_acos_total; [|reflexivity].
  rewrite Z2Nat.id; lia.
Defined.

(** ** [round] on integers and on halves *)

Lemma in_int_range x :
  vf32 x -> (- (2147483648) <= q x < 2147483648)%Q ->
  F32.valid x = true /\
  F32.leb (- #2147483648.0)%f32 x = true /\ F32.ltb x #2147483648.0 = true.
Proof.
  intros Hv [Hlo Hhi].
  assert (Q1 : (q (- #2147483648.0)%f32 == - (2147483648))%Q) by q_const.
  assert (Q2 : (q #2147483648.0 == 2147483648)%Q) by q_const.
  split; [apply Hv|]. split.
  - apply (SFleb_spec F32.prec F32.emax _ _ vf32_int_min Hv). lra.
  - apply (SFltb_spec F32.prec F32.emax _ _ Hv vf32_int_bound). lra.
Qed.

Lemma floor_between x n :
  vf32 x -> Z.abs n < 2 ^ 24 -> (inject_Z n <= q x < inject_Z n + 1)%Q ->
  floor x = Val (F32.of_int n).
Proof.
  intros Hv Hn Hb.
  assert (Hr : (- (2147483648) <= q x < 2147483648)%Q).
  { assert (H1 : (inject_Z (- 2 ^ 24) <= inject_Z n)%Q) by (rewrite <- Zle_Qle; lia).
    assert (H2 : (inject_Z n <= inject_Z (2 ^ 24))%Q) by (rewrite <- Zle_Qle; lia).
    assert (E1 : (inject_Z (- 2 ^ 24) == - (16777216))%Q) by reflexivity.
    assert (E2 : (inject_Z (2 ^ 24) == 16777216)%Q) by reflexivity.
    split; lra. }
  destruct (in_int_range x Hv Hr) as (Hvalid & Hlo & Hhi).
  destruct (floor_on_int_range x Hvalid Hlo Hhi) as [Hfl _].
  rewrite Hfl, (Qfloor_unique (q x) n Hb). reflexivity.
Qed.

Lemma ceil_between x n :
  vf32 x -> Z.abs n < 2 ^ 24 -> (inject_Z n - 1 < q x <= inject_Z n)%Q ->
  ceil x = Val (F32.of_int n).
Proof.
  intros Hv Hn Hb.
  assert (Hr : (- (2147483648) <= q x < 2147483648)%Q).
  { assert (H1 : (inject_Z (- 2 ^ 24) <= inject_Z n)%Q) by (rewrite <- Zle_Qle; lia).
    assert (H2 : (inject_Z n <= inject_Z (2 ^ 24))%Q) by (rewrite <- Zle_Qle; lia).
    assert (E1 : (inject_Z (- 2 ^ 24) == - (16777216))%Q) by reflexivity.
    assert (E2 : (inject_Z (2 ^ 24) == 16777216)%Q) by reflexivity.
    split; lra. }
  destruct (in_int_range x Hv Hr) as (Hvalid & Hlo & Hhi).
  destruct (ceil_on_int_range x Hvalid Hlo Hhi) as [Hce _].
  rewrite Hce, (Qceiling_unique (q x) n Hb). reflexivity.
Qed.

Lemma vf32_half : vf32 #0.5.
Proof. vf_const. Qed.

Lemma q_half : (2 * q #0.5 == 1)%Q.
Proof. q_const. Qed.

Lemma int_bound_Q n :
  Z.abs n < 2 ^ 22 -> (- (4194303) <= inject_Z n <= 4194303)%Q.
Proof.
  intros Hn.
  assert (H1 : (inject_Z (- (4194303)) <= inject_Z n)%Q) by (rewrite <- Zle_Qle; lia).
  assert (H2 : (inject_Z n <= inject_Z 4194303)%Q) by (rewrite <- Zle_Qle; lia).
  assert (E1 : (inject_Z (- (4194303)) == - (4194303))%Q) by reflexivity.
  assert (E2 : (inject_Z 4194303 == 4194303)%Q) by reflexivity.
  split; lra.
Qed.

(** Below [2 ^ 22] in magnitude, [round] leaves the integers where they
    are and takes the halves away from zero: [n + 1/2] to [n + 1] and
    [-(n + 1/2)] to [-(n + 1)]. *)
Theorem round_integers_and_halves :
  forall n x,
    Z.abs n < 2 ^ 22 -> vf32 x ->
    ((q x == inject_Z n)%Q -> round x = Val (F32.of_int n)) /\
    (0 <= n -> (2 * q x == 2 * inject_Z n + 1)%Q ->
       round x = Val (F32.of_int (n + 1))) /\
    (n <= 0 -> (2 * q x == 2 * inject_Z n - 1)%Q ->
       round x = Val (F32.of_int (n - 1))).
Proof.
  intros n x Hn Hv.
  pose proof vf32_half as Vh. pose proof q_half as Qh.
  pose proof (int_bound_Q n Hn) as Hnq.
  assert (P22 : (pow2 22 == 4194304)%Q) by (vm_compute; reflexivity).
  assert (P2 : (4 * pow2 (22 - 24) == 1)%Q) by (vm_compute; reflexivity).
  assert (HK : -125 <= 22 < 128) by lia.
  assert (H24 : 2 ^ 22 < 2 ^ 24) by reflexivity.
  assert (Hn0 : 0 <= n -> (0 <= inject_Z n)%Q)
    by (intros H; change 0%Q with (inject_Z 0); rewrite <- Zle_Qle; exact H).
  assert (Hn1 : n < 0 -> (inject_Z n <= - (1))%Q).
  { intros H. change (- (1))%Q with (inject_Z (- (1))). rewrite <- Zle_Qle. lia. }
  assert (Hn2 : n <= 0 -> (inject_Z n <= 0)%Q)
    by (intros H; change 0%Q with (inject_Z 0); rewrite <- Zle_Qle; exact H).
  split; [|split].
  - intros Hq. unfold round.
    destruct (F32.leb #0.0 x) eqn:Hs.
    + apply (leb_zero_spec x Hv) in Hs.
      assert (Hr : (- pow2 22 < q x + q #0.5 < pow2 22)%Q) by (rewrite P22; split; lra).
      destruct (F32_add_close x #0.5 22 Hv Vh HK Hr) as [Hv' [Hlo Hhi]].
      apply (floor_between _ n Hv'); [lia|]. split; lra.
    + apply (leb_false_lt _ _ vf32_zero_lit Hv) in Hs.
      rewrite lit_zero, to_Q_zero in Hs.
      assert (Hneg : n < 0).
      { destruct (Z_lt_le_dec n 0) as [H|H]; [exact H|]. specialize (Hn0 H). lra. }
      specialize (Hn1 Hneg).
      assert (Hr : (- pow2 22 < q x - q #0.5 < pow2 22)%Q) by (rewrite P22; split; lra).
      destruct (F32_sub_close x #0.5 22 Hv Vh HK Hr) as [Hv' [Hlo Hhi]].
      apply (ceil_between _ n Hv'); [lia|]. split; lra.
  - intros Hpos Hq. specialize (Hn0 Hpos). unfold round.
    assert (Hs : F32.leb #0.0 x = true) by (apply (leb_zero_spec x Hv); lra).
    rewrite Hs.
    destruct (of_int_exact (n + 1)) as [Vn Qn]; [lia|].
    rewrite inject_Z_succ in Qn.
    assert (Hin : (q (F32.of_int (n + 1)) <= q x + q #0.5 <= q (F32.of_int (n + 1)))%Q)
      by (split; lra).
    destruct (F32_add_within x #0.5 _ _ Hv Vh Vn Vn Hin) as [Hv' [Hlo Hhi]].
    apply (floor_between _ (n + 1) Hv'); [lia|]. rewrite inject_Z_succ. split; lra.
  - intros Hneg Hq. specialize (Hn2 Hneg). unfold round.
    assert (Hs : F32.leb #0.0 x = false).
    { destruct (F32.leb #0.0 x) eqn:Hs; [|reflexivity].
      apply (leb_zero_spec x Hv) in Hs. exfalso. lra. }
    rewrite Hs.
    destruct (of_int_exact (n - 1)) as [Vn Qn]; [lia|].
    rewrite inject_Z_pred in Qn.
    assert (Hin : (q (F32.of_int (n - 1)) <= q x - q #0.5 <= q (F32.of_int (n - 1)))%Q)
      by (split; lra).
    destruct (F32_sub_within x #0.5 _ _ Hv Vh Vn Vn Hin) as [Hv' [Hlo Hhi]].
    apply (ceil_between _ (n - 1) Hv'); [lia|]. rewrite inject_Z_pred. split; lra.
Qed.

Lemma round_integers_and_halves_witness :
  round #3.0 = Val (F32.of_int 3) /\
  round #2.5 = Val (F32.of_int 3) /\
  round (- #2.5)%f32 = Val (F32.of_int (- (3))).
Proof.
  split; [|split].
  - apply (round_integers_and_halves 3 #3.0); [reflexivity|vf_const|q_const].
  - apply (round_integers_and_halves 2 #2.5); [reflexivity|vf_const|lia|q_const].
  - apply (round_integers_and_halves (- (2)) (- #2.5)%f32);
      [reflexivity|vf_const|lia|q_const].
Defined.

(** ** [floor] and [ceil] return integers *)

Lemma floor_ceil_in_int_range x :
  F32.valid x = true ->
  F32.leb (- #2147483648.0)%f32 x = true -> F32.ltb x #2147483648.0 = true ->
  - 2147483648 <= Qfloor (q x) <= 2147483647 /\
  - 2147483648 <= Qceiling (q x) <= 2147483647.
Proof.
  intros Hv Hlo Hhi.
  destruct (to_int_in_range x Hv Hlo Hhi) as (Hvx & [Hqlo Hqhi] & z & Hz & _).
  destruct (trunc_spec x Hvx) as (z' & Hz' & Hpos & Hneg & Hwhole & Hfrac).
  rewrite Hz in Hz'. injection Hz' as <-.
  assert (Hzx : (inject_Z z - 1 < q x < inject_Z z + 1)%Q).
  { destruct (Qlt_le_dec (q x) 0) as [H|H].
    - specialize (Hneg (Qlt_le_weak _ _ H)). split; lra.
    - specialize (Hpos H). split; lra. }
  assert (Hzr : - 2147483648 <= z <= 2147483647).
  { destruct (fractional x) eqn:Hx.
    - destruct (Hfrac eq_refl) as [Hsmall _].
      assert (2 ^ 23 = 8388608) by reflexivity. lia.
    - specialize (Hwhole eq_refl). rewrite Hwhole in Hqlo, Hqhi.
      change (- (2147483648))%Q with (inject_Z (- 2147483648)) in Hqlo.
      change 2147483648%Q with (inject_Z 2147483648) in Hqhi.
      rewrite <- Zle_Qle in Hqlo. rewrite <- Zlt_Qlt in Hqhi. lia. }
  pose proof (Qfloor_le (q x)) as F1. pose proof (Qlt_floor (q x)) as F2.
  pose proof (Qle_ceiling (q x)) as C1. pose proof (Qceiling_lt (q x)) as C2.
  rewrite inject_Z_succ in F2. rewrite inject_Z_pred in C2.
  destruct (fractional x) eqn:Hx.
  - destruct (Hfrac eq_refl) as [Hsmall _].
    assert (E : 2 ^ 23 = 8388608) by reflexivity.
    assert (A : (inject_Z (Qfloor (q x)) < inject_Z (z + 1))%Q)
      by (rewrite inject_Z_succ; lra).
    assert (B : (inject_Z (z - 2) < inject_Z (Qfloor (q x)))%Q).
    { replace (z - 2) with (z - 1 - 1) by lia. rewrite !inject_Z_pred. lra. }
    assert (C : (inject_Z (Qceiling (q x)) < inject_Z (z + 2))%Q).
    { replace (z + 2) with (z + 1 + 1) by lia. rewrite !inject_Z_succ. lra. }
    assert (D : (inject_Z (z - 1) < inject_Z (Qceiling (q x)))%Q)
      by (rewrite inject_Z_pred; lra).
    rewrite <- Zlt_Qlt in A, B, C, D. lia.
  - specialize (Hwhole eq_refl).
    assert (A : (inject_Z (Qfloor (q x)) < inject_Z (z + 1))%Q)
      by (rewrite inject_Z_succ; lra).
    assert (B : (inject_Z (z - 1) < inject_Z (Qfloor (q x)))%Q)
      by (rewrite inject_Z_pred; lra).
    assert (C : (inject_Z (Qceiling (q x)) < inject_Z (z + 1))%Q)
      by (rewrite inject_Z_succ; lra).
    assert (D : (inject_Z (z - 1) < inject_Z (Qceiling (q x)))%Q)
      by (rewrite inject_Z_pred; lra).
    rewrite <- Zlt_Qlt in A, B, C, D. lia.
Qed.

(** A float of integer value in the range of [int] is left where it is by
    [floor] and by [ceil]. *)
Lemma floor_ceil_of_integer r n :
  F32.valid r = true -> Format.is_finite r = true ->
  (q r == inject_Z n)%Q -> - 2147483648 <= n <= 2147483647 ->
  r = F32.of_int n ->
  floor r = Val r /\ ceil r = Val r.
Proof.
  intros Hv Hf Hq Hn Hr.
  assert (Hvr : vf32 r) by (split; assumption).
  assert (Hrange : (- (2147483648) <= q r < 2147483648)%Q).
  { rewrite Hq.
    change (- (2147483648))%Q with (inject_Z (- 2147483648)).
    change 2147483648%Q with (inject_Z 2147483648).
    rewrite <- Zle_Qle, <- Zlt_Qlt. lia. }
  destruct (in_int_range r Hvr Hrange) as (_ & Hlo & Hhi).
  destruct (floor_on_int_range r Hv Hlo Hhi) as [Hfl _].
  destruct (ceil_on_int_range r Hv Hlo Hhi) as [Hce _].
  rewrite (Qfloor_unique (q r) n) in Hfl by (rewrite Hq; split; lra).
  rewrite (Qceiling_unique (q r) n) in Hce by (rewrite Hq; split; lra).
  rewrite Hfl, Hce, <- Hr. split; reflexivity.
Qed.

Lemma of_int_finite n :
  - 2147483648 <= n <= 2147483647 ->
  F32.valid (F32.of_int n) = true /\ Format.is_finite (F32.of_int n) = true.
Proof.
  intros Hn. unfold F32.of_int.
  assert (Hw : within32 (- #2147483648.0)%f32 #2147483648.0
                 (binary_normalize F32.prec F32.emax n 0 false)).
  { apply (binary_normalize_within F32.prec F32.emax F32_prec F32_emax);
      [exact vf32_int_min|exact vf32_int_bound|].
    assert (Q1 : (q (- #2147483648.0)%f32 == inject_Z (- 2147483648))%Q) by q_const.
    assert (Q2 : (q #2147483648.0 == inject_Z 2147483648)%Q) by q_const.
    assert (Hd : (dyadic n 0 == inject_Z n)%Q).
    { unfold dyadic. change (pow2 0) with 1%Q. ring. }
    rewrite Q1, Q2, Hd. rewrite <- !Zle_Qle. lia. }
  exact (proj1 Hw).
Qed.

(** [floor] and [ceil] are idempotent, and each leaves the results of the
    other where they are. *)
Theorem floor_ceil_idempotent :
  forall x r,
    F32.valid x = true ->
    F32.leb (- #2147483648.0)%f32 x = true -> F32.ltb x #2147483648.0 = true ->
    floor x = Val r \/ ceil x = Val r ->
    floor r = Val r /\ ceil r = Val r.
Proof.
  intros x r Hv Hlo Hhi Hr.
  destruct (floor_ceil_in_int_range x Hv Hlo Hhi) as [Hnf Hnc].
  destruct (floor_on_int_range x Hv Hlo Hhi) as [Hfl Hqf].
  destruct (ceil_on_int_range x Hv Hlo Hhi) as [Hce Hqc].
  destruct Hr as [Hr|Hr].
  - rewrite Hfl in Hr. apply Val_inj in Hr. subst r.
    destruct (of_int_finite _ Hnf) as [Hvr Hfr].
    exact (floor_ceil_of_integer _ _ Hvr Hfr Hqf Hnf eq_refl).
  - rewrite Hce in Hr. apply Val_inj in Hr. subst r.
    destruct (of_int_finite _ Hnc) as [Hvr Hfr].
    exact (floor_ceil_of_integer _ _ Hvr Hfr Hqc Hnc eq_refl).
Qed.

Lemma floor_ceil_idempotent_witness :
  floor #3.0 = Val #3.0 /\ ceil #3.0 = Val #3.0.
Proof.
  apply (floor_ceil_idempotent #2.5 #3.0); try (vm_compute; reflexivity).
  right. vm_compute. reflexivity.
Defined.

(** ** [round] on the odd integers above [2 ^ 23] *)

Lemma bounded_integer m :
  8388608 <= Zpos m < 16777216 -> bounded F32.prec F32.emax m 0 = true.
Proof.
  intros Hm. apply bounded_spec.
  change (Zpos (digits2_pos m)) with (Zdigits2 (Zpos m)).
  rewrite (Zdigits2_unique (Zpos m) 24); [split; [reflexivity|discriminate]| |lia].
  change (2 ^ (24 - 1)) with 8388608. change (2 ^ 24) with 16777216. exact Hm.
Qed.

Lemma integer_value s m :
  (q (S754_finite s m 0) == inject_Z (cond_Zopp s (Zpos m)))%Q.
Proof.
  rewrite to_Q_finite. unfold dyadic. change (pow2 0) with 1%Q. ring.
Qed.

Lemma inject_Z_range z lo hi :
  lo <= z <= hi -> (inject_Z lo <= inject_Z z <= inject_Z hi)%Q.
Proof. intros [H1 H2]. split; rewrite <- Zle_Qle; assumption. Qed.

(** An integer with 24 significant bits is converted to the float with
    that mantissa. *)
Lemma of_int_integer (s : bool) m :
  8388608 <= Zpos m < 16777216 ->
  F32.of_int (cond_Zopp s (Zpos m)) = S754_finite s m 0.
Proof.
  intros Hm. unfold F32.of_int.
  pose proof (inject_Z_range (Zpos m) 8388608 16777215 ltac:(lia)) as HM.
  change (inject_Z 8388608) with 8388608%Q in HM.
  change (inject_Z 16777215) with 16777215%Q in HM.
  assert (P23 : (pow2 (24 - 1) == 8388608)%Q) by (vm_compute; reflexivity).
  assert (P24 : (pow2 24 == 16777216)%Q) by (vm_compute; reflexivity).
  assert (Hd : (dyadic (Zpos m) 0 == inject_Z (Zpos m))%Q).
  { unfold dyadic. change (pow2 0) with 1%Q. ring. }
  apply (binary_normalize_nearest F32.prec F32.emax F32_prec F32_emax
           s m 0 false 24 (Zpos m) m 0);
    change (SpecFloat.fexp F32.prec F32.emax 24) with 0; change (pow2 0) with 1%Q;
    rewrite ?Hd, ?P23, ?P24.
  - split; lra.
  - apply bounded_integer. exact Hm.
  - reflexivity.
  - split; lra.
  - right. split; lra.
Qed.

(** [round] is not the identity on the integers: adding [0.5f] to an odd
    integer between [2 ^ 23] and [2 ^ 24] is a tie that goes to the even
    neighbour, and the result is the next integer away from zero. *)
Theorem round_odd_integers :
  forall (s : bool) m,
    8388608 <= Zpos m -> Zpos m + 1 < 16777216 -> Z.odd (Zpos m) = true ->
    round (S754_finite s m 0) = Val (S754_finite s (m + 1) 0).
Proof.
  intros s m Hlo Hhi Hodd.
  assert (Hb1 : bounded F32.prec F32.emax (m + 1) 0 = true)
    by (apply bounded_integer; lia).
  assert (Hv1 : forall s', vf32 (S754_finite s' (m + 1) 0))
    by (intros s'; split; [exact Hb1|reflexivity]).
  pose proof (inject_Z_range (Zpos m) 8388608 16777214 ltac:(lia)) as HM.
  change (inject_Z 8388608) with 8388608%Q in HM.
  change (inject_Z 16777214) with 16777214%Q in HM.
  assert (P23 : (pow2 (24 - 1) == 8388608)%Q) by (vm_compute; reflexivity).
  assert (P24 : (pow2 24 == 16777216)%Q) by (vm_compute; reflexivity).
  pose (h := dyadic (Zpos 8388608) (-24)).
  assert (Hh : (2 * h == 1)%Q) by (vm_compute; reflexivity).
  assert (Hsum : forall s' : bool,
            ((if s' then
                - (dyadic (cond_Zopp s' (Zpos m)) 0 + dyadic (cond_Zopp s' 8388608) (-24))
              else dyadic (cond_Zopp s' (Zpos m)) 0 + dyadic (cond_Zopp s' 8388608) (-24))
             == inject_Z (Zpos m) + h)%Q).
  { intros s'. destruct s'; cbn [cond_Zopp Z.opp].
    - change (Zneg m) with (- Zpos m). change (Zneg 8388608) with (- Zpos 8388608).
      rewrite !dyadic_opp. fold h. unfold dyadic. change (pow2 0) with 1%Q. ring.
    - fold h. unfold dyadic. change (pow2 0) with 1%Q. ring. }
  assert (Hm1 : (dyadic (Zpos m + 1) 0 == inject_Z (Zpos m) + 1)%Q).
  { unfold dyadic. change (pow2 0) with 1%Q. rewrite inject_Z_succ. ring. }
  assert (Heven : Z.even (Zpos m + 1) = true).
  { change (Zpos m + 1) with (Z.succ (Zpos m)). rewrite Z.even_succ. exact Hodd. }
  assert (Hadd : (S754_finite s m 0 + S754_finite s 8388608 (-24))%f32
                 = S754_finite s (m + 1) 0).
  { apply (SFadd_even32 s m 0 s 8388608 (-24) s 24 (Zpos m + 1) (m + 1) 0);
      change (Z.max (24 - 24) (- (149))) with 0; change (pow2 0) with 1%Q;
      rewrite ?(Hsum s), ?Hm1, ?P23, ?P24.
    - split; lra.
    - exact Hb1.
    - reflexivity.
    - split; lra.
    - exact Heven. }
  assert (Hq1 : forall s', (q (S754_finite s' (m + 1) 0)
                            == inject_Z (cond_Zopp s' (Zpos (m + 1))))%Q)
    by (intros s'; apply integer_value).
  unfold round. rewrite lit_zero, lit_half. destruct s.
  - change (F32.leb (S754_zero false) (S754_finite true m 0)) with false.
    unfold F32.sub. rewrite SFsub_add_opp. cbn [SFopp negb].
    change (SFadd F32.prec F32.emax (S754_finite true m 0) (S754_finite true 8388608 (-24)))
      with (S754_finite true m 0 + S754_finite true 8388608 (-24))%f32.
    assert (Hc : ceil (S754_finite true (m + 1) 0)
                 = Val (F32.of_int (cond_Zopp true (Zpos (m + 1))))).
    { apply ceil_between; [apply Hv1|cbn [cond_Zopp]; lia|].
      rewrite Hq1. split; lra. }
    rewrite Hadd, Hc, of_int_integer by lia. reflexivity.
  - change (F32.leb (S754_zero false) (S754_finite false m 0)) with true.
    assert (Hf : floor (S754_finite false (m + 1) 0)
                 = Val (F32.of_int (cond_Zopp false (Zpos (m + 1))))).
    { apply floor_between; [apply Hv1|cbn [cond_Zopp]; lia|].
      rewrite Hq1. split; lra. }
    rewrite Hadd, Hf, of_int_integer by lia. reflexivity.
Qed.

Lemma round_odd_integers_witness :
  round #8388609.0 = Val #8388610.0 /\
  round (- #16777213.0)%f32 = Val (- #16777214.0)%f32.
Proof.
  split.
  - apply (round_odd_integers false 8388609); [lia|lia|reflexivity].
  - apply (round_odd_integers true 16777213); [lia|lia|reflexivity].
Defined.

(** ** [pow] returns on the exponents of the range of [int] *)

Lemma F32_mul_finite_not_nan x y :
  vf32 x -> vf32 y -> Format.is_nan (x * y)%f32 = false.
Proof.
  intros [Hx Hfx] [Hy Hfy].
  destruct x as [sx|sx| |sx mx ex]; try discriminate Hfx;
    destruct y as [sy|sy| |sy my ey]; try discriminate Hfy;
    try reflexivity.
  unfold F32.mul. cbn [SFmul].
  apply (binary_round_aux_valid F32.prec F32.emax F32_prec F32_emax); [lia|].
  exact (SFmul_pre F32.prec F32.emax F32_emax mx ex my ey Hx Hy).
Qed.

Lemma int_abs_defined z : z <> Int.min_signed -> Int.abs z = Val (Z.abs z).
Proof.
  intros Hz. unfold Int.abs.
  destruct (Z.eqb_spec z Int.min_signed); [contradiction|reflexivity].
Qed.

(** [pow] returns for every base and every finite exponent strictly
    between [-2^31] and [2^31]; at the exponent [-2^31] itself the
    conversion to [int] succeeds but [std::abs] of the result is
    undefined. *)
Theorem pow_total :
  (forall b e,
     F32.valid b = true -> vf32 e ->
     (- (2147483648) < q e < 2147483648)%Q ->
     exists r, pow b e = Val r) /\
  (forall b,
     F32.eqb b #0.0 = false -> F32.eqb b #1.0 = false ->
     pow b (- #2147483648.0)%f32 = Undef).
Proof.
  split.
  - intros b e Hvb Hve [Hlo Hhi]. unfold pow.
    destruct (F32.eqb e #0.0); [eauto|].
    destruct (F32.eqb e #1.0); [eauto|].
    destruct (F32.eqb b #0.0); [eauto|].
    destruct (F32.eqb b #1.0); [eauto|].
    destruct (F32.eqb e #2.0); [eauto|].
    destruct (F32.eqb e #3.0); [eauto|].
    destruct (F32.eqb e #4.0); [eauto|].
    destruct (F32.eqb e #0.5); [eauto|].
    destruct (F32.eqb e (- #1.0)%f32); [eauto|].
    destruct (F32.eqb e (- #2.0)%f32); [eauto|].
    destruct (in_int_range e Hve) as (Hvalid & Hle & Hlt); [split; lra|].
    destruct (to_int_in_range e Hvalid Hle Hlt) as (_ & _ & z & Hz & Hint).
    rewrite Hint. cbn [bind].
    assert (Hzmin : z <> Int.min_signed).
    { destruct (trunc_spec e Hve) as (z' & Hz' & Hpos & Hneg & _).
      rewrite Hz in Hz'. injection Hz' as <-.
      intros ->. change Int.min_signed with (- 2147483648) in *.
      change (inject_Z (- 2147483648)) with (- (2147483648))%Q in Hpos, Hneg.
      destruct (Qlt_le_dec (q e) 0) as [H|H].
      - specialize (Hneg (Qlt_le_weak _ _ H)). lra.
      - specialize (Hpos H). lra. }
    rewrite (int_abs_defined z Hzmin).
    destruct (F32.eqb e (F32.of_int z)); cbn [bind];
      [destruct (Z.abs z <=? 32); [eauto|]|];
      (destruct (F32.ltb b #0.0); [eauto|];
       destruct (log_within b) as [Hvl _];
       apply exp_defined;
       [apply F32_mul_valid; [exact Hvalid|apply Hvl]
       |apply F32_mul_finite_not_nan; assumption]).
  - intros b Hb0 Hb1. unfold pow. rewrite Hb0, Hb1.
    replace (F32.eqb (- #2147483648.0)%f32 #0.0) with false by (vm_compute; reflexivity).
    replace (F32.eqb (- #2147483648.0)%f32 #1.0) with false by (vm_compute; reflexivity).
    replace (F32.eqb (- #2147483648.0)%f32 #2.0) with false by (vm_compute; reflexivity).
    replace (F32.eqb (- #2147483648.0)%f32 #3.0) with false by (vm_compute; reflexivity).
    replace (F32.eqb (- #2147483648.0)%f32 #4.0) with false by (vm_compute; reflexivity).
    replace (F32.eqb (- #2147483648.0)%f32 #0.5) with false by (vm_compute; reflexivity).
    replace (F32.eqb (- #2147483648.0)%f32 (- #1.0)%f32) with false
      by (vm_compute; reflexivity).
    replace (F32.eqb (- #2147483648.0)%f32 (- #2.0)%f32) with false
      by (vm_compute; reflexivity).
    replace (to_int (- #2147483648.0)%f32) with (Val (- 2147483648))
      by (vm_compute; reflexivity).
    cbn [bind].
    replace (F32.eqb (- #2147483648.0)%f32 (F32.of_int (- 2147483648))) with true
      by (vm_compute; reflexivity).
    reflexivity.
Qed.

Lemma pow_total_witness :
  (exists r, pow #2.0 #10.5 = Val r) /\
  pow #2.0 (- #2147483648.0)%f32 = Undef.
Proof.
  destruct pow_total as [Htotal Hmin]. split.
  - apply Htotal; [reflexivity|vf_const|split; q_const].
  - apply Hmin; reflexivity.
Defined.

(** ** [sqrt] *)

Lemma signed_small v : 0 <= v < 2 ^ 31 -> Int.signed v = v.
Proof.
  intros Hv. unfold Int.signed.
  change (2 ^ 31) with 2147483648 in *. change (2 ^ 32) with 4294967296.
  rewrite Z.mod_small by lia.
  destruct (Z.ltb_spec v 2147483648); [reflexivity|lia].
Qed.

(** The bits of a positive float are below [255 * 2^23], and at least
    [(e + 150) * 2^23] when it is normal. *)
Lemma bits_of_positive m e :
  bounded F32.prec F32.emax m e = true ->
  let i := bits_of_float (S754_finite false m e) in
  0 < i < 255 * 2 ^ 23 /\ ((e + 150) * 2 ^ 23 <= i \/ e = -149).
Proof.
  intros Hb i.
  destruct (bounded_digits F32.prec F32.emax m e Hb) as (Hd & Hlo & Hhi & Hnorm).
  change F32.prec with 24 in *. change F32.emax with 128 in *.
  destruct (Zdigits2_bounds (Zpos m) ltac:(lia)) as [Hmlo Hmhi].
  assert (Hm24 : Zpos m < 16777216).
  { eapply Z.lt_le_trans; [exact Hmhi|].
    change 16777216 with (2 ^ 24). apply Z.pow_le_mono_r; lia. }
  unfold i, bits_of_float. change (2 ^ 23) with 8388608 in *.
  rewrite Z.add_0_l.
  destruct (Z.ltb_spec (Zpos m) 8388608) as [Hsub|Hnor].
  - assert (He : e = -149).
    { destruct (Z.eq_dec e (-149)) as [|Hne]; [assumption|].
      specialize (Hnorm ltac:(lia)). rewrite Hnorm in Hmlo.
      change (2 ^ (24 - 1)) with 8388608 in Hmlo. lia. }
    rewrite signed_small by (change (2 ^ 31) with 2147483648; lia).
    split; [lia|right; exact He].
  - rewrite Z.shiftl_mul_pow2 by lia. change (2 ^ 23) with 8388608.
    rewrite signed_small by (change (2 ^ 31) with 2147483648; lia).
    split; [lia|left; lia].
Qed.

(** The first guess of [sqrt] is a normal positive float [m0 * 2^e0],
    with [e <= 2 e0 + 25] for the exponent [e] of the argument. *)
Lemma sqrt_guess m e :
  bounded F32.prec F32.emax m e = true ->
  exists m0 e0,
    float_of_bits (0x1FBD1DF5 + Z.shiftr (bits_of_float (S754_finite false m e)) 1)
      = S754_finite false m0 e0 /\
    8388608 <= Zpos m0 < 16777216 /\ -87 <= e0 <= 40 /\ e <= 2 * e0 + 25.
Proof.
  intros Hb.
  destruct (bits_of_positive m e Hb) as [[Hi0 Hi1] Hi2].
  set (i := bits_of_float (S754_finite false m e)) in *.
  change (2 ^ 23) with 8388608 in *.
  rewrite Z.shiftr_div_pow2 by lia. change (2 ^ 1) with 2.
  pose proof (Z.div_mod i 2 ltac:(lia)) as Hdm.
  pose proof (Z.mod_pos_bound i 2 ltac:(lia)) as Hr.
  set (h := i / 2) in *.
  set (j := 0x1FBD1DF5 + h).
  assert (Hj : 532487669 <= j < 1602035189) by (unfold j; lia).
  assert (Hj2 : (e + 150) * 4194304 + 532487669 - 1 < j \/ e = -149)
    by (unfold j; destruct Hi2; [left|right]; lia).
  unfold float_of_bits.
  assert (Hmod : j mod 2 ^ 32 = j)
    by (apply Z.mod_small; change (2 ^ 32) with 4294967296; lia).
  rewrite Hmod. cbv zeta.
  assert (Hs : Z.testbit j 31 = false).
  { apply Z.bits_above_log2; [lia|].
    apply Z.log2_lt_pow2; [lia|]. change (2 ^ 31) with 2147483648. lia. }
  pose proof (Z.div_mod j 8388608 ltac:(lia)) as Hjdm.
  pose proof (Z.mod_pos_bound j 8388608 ltac:(lia)) as Hjr.
  set (E := j / 8388608) in *. set (M := j mod 8388608) in *.
  assert (HE : 63 <= E <= 190) by lia.
  assert (He : Z.land (Z.shiftr j 23) 0xFF = E).
  { rewrite Z.shiftr_div_pow2 by lia. change (2 ^ 23) with 8388608. fold E.
    change 0xFF with (Z.ones 8). rewrite Z.land_ones by lia.
    apply Z.mod_small. change (2 ^ 8) with 256. lia. }
  assert (Hm : Z.land j 0x7FFFFF = M).
  { change 0x7FFFFF with (Z.ones 23). rewrite Z.land_ones by lia. reflexivity. }
  rewrite Hs, He, Hm.
  destruct (Z.eqb_spec E 0) as [|_]; [lia|].
  destruct (Z.eqb_spec E 255) as [|_]; [lia|].
  change (2 ^ 23) with 8388608.
  destruct (M + 8388608) as [|m0|m0] eqn:Hsum; try lia.
  exists m0, (E - 150). split; [reflexivity|]. split; [lia|]. split; [lia|]. lia.
Qed.

Lemma bounded_normal m e :
  8388608 <= Zpos m < 16777216 -> -149 <= e <= 104 ->
  bounded F32.prec F32.emax m e = true.
Proof.
  intros Hm He. apply bounded_spec.
  change (Zpos (digits2_pos m)) with (Zdigits2 (Zpos m)).
  rewrite (Zdigits2_unique (Zpos m) 24); [|exact Hm|lia].
  rewrite fexp_spec. change F32.prec with 24. change F32.emax with 128. lia.
Qed.

(** Two steps of Newton's method from a guess [x0 = m0 * 2^e0] with
    [n <= 2^67 * x0]: no quotient overflows, and the result is at least
    [x0 / 4]. *)
Lemma sqrt_newton_within n m0 e0 :
  vf32 n -> 8388608 <= Zpos m0 < 16777216 -> -87 <= e0 <= 40 ->
  (0 <= q n <= 2 ^ 67 * q (S754_finite false m0 e0))%Q ->
  let x0 := S754_finite false m0 e0 in
  let x1 := (#0.5 * (x0 + n / x0))%f32 in
  within32 (S754_finite false m0 (e0 - 2)) (S754_finite false 8388608 45)
    (#0.5 * (x1 + n / x1))%f32.
Proof.
  intros Hvn Hm0 He0 Hn x0 x1.
  assert (Hv0 : vf32 x0) by (apply vf_finite, bounded_normal; [exact Hm0|lia]).
  assert (Hv1 : vf32 (S754_finite false m0 (e0 - 1)))
    by (apply vf_finite, bounded_normal; [exact Hm0|lia]).
  assert (Hv2 : vf32 (S754_finite false m0 (e0 - 2)))
    by (apply vf_finite, bounded_normal; [exact Hm0|lia]).
  assert (HM : (8388608 <= inject_Z (Zpos m0) <= 16777216)%Q).
  { change 8388608%Q with (inject_Z 8388608). change 16777216%Q with (inject_Z 16777216).
    rewrite <- !Zle_Qle. lia. }
  assert (HP : (0 < pow2 (e0 - 2))%Q) by apply pow2_pos.
  assert (HP1 : (pow2 (e0 - 1) == 2 * pow2 (e0 - 2))%Q).
  { replace (e0 - 1) with (1 + (e0 - 2)) by lia. rewrite pow2_add. reflexivity. }
  assert (HP0 : (pow2 e0 == 4 * pow2 (e0 - 2))%Q).
  { replace e0 with (2 + (e0 - 2)) at 1 by lia. rewrite pow2_add. reflexivity. }
  assert (HPhi : (pow2 e0 <= 2 ^ 40)%Q).
  { change (2 ^ 40)%Q with (pow2 40). apply pow2_le. lia. }
  assert (Q0 : (q x0 == 4 * (inject_Z (Zpos m0) * pow2 (e0 - 2)))%Q).
  { unfold x0. rewrite to_Q_finite. unfold dyadic. cbn [cond_Zopp]. rewrite HP0. ring. }
  assert (Q1 : (q (S754_finite false m0 (e0 - 1))
                == 2 * (inject_Z (Zpos m0) * pow2 (e0 - 2)))%Q).
  { rewrite to_Q_finite. unfold dyadic. cbn [cond_Zopp]. rewrite HP1. ring. }
  assert (Q2 : (q (S754_finite false m0 (e0 - 2))
                == inject_Z (Zpos m0) * pow2 (e0 - 2))%Q).
  { rewrite to_Q_finite. unfold dyadic. cbn [cond_Zopp]. reflexivity. }
  fold x0 in Hn. rewrite Q0 in Hn.
  set (X := (inject_Z (Zpos m0) * pow2 (e0 - 2))%Q) in *.
  assert (HX : (0 < X)%Q) by (unfold X; nra).
  assert (HXhi : (4 * X <= 2 ^ 64)%Q).
  { assert (H : (inject_Z (Zpos m0) * pow2 e0 <= 16777216 * 2 ^ 40)%Q).
    { assert (0 < pow2 e0)%Q by apply pow2_pos. nra. }
    rewrite HP0 in H. fold X in H.
    assert (E : (16777216 * 2 ^ 40 == 2 ^ 64)%Q) by (vm_compute; reflexivity).
    rewrite <- E. unfold X. lra. }
  assert (V0 : vf32 #0.0) by vf_const.
  assert (Vh : vf32 #0.5) by vf_const.
  assert (V67 : vf32 (S754_finite false 8388608 44)) by vf_const.
  assert (V68 : vf32 (S754_finite false 8388608 45)) by vf_const.
  assert (V69 : vf32 (S754_finite false 8388608 46)) by vf_const.
  assert (Z0 : (q #0.0 == 0)%Q) by q_const.
  assert (Zh : (2 * q #0.5 == 1)%Q) by q_const.
  assert (Z67 : (q (S754_finite false 8388608 44) == 2 ^ 67)%Q) by q_const.
  assert (Z68 : (q (S754_finite false 8388608 45) == 2 ^ 68)%Q) by q_const.
  assert (Z69 : (q (S754_finite false 8388608 46) == 2 ^ 69)%Q) by q_const.
  assert (E67 : (2 ^ 67 == 8 * 2 ^ 64)%Q) by (vm_compute; reflexivity).
  assert (E68 : (2 ^ 68 == 16 * 2 ^ 64)%Q) by (vm_compute; reflexivity).
  assert (E69 : (2 ^ 69 == 32 * 2 ^ 64)%Q) by (vm_compute; reflexivity).
  assert (T : (0 < 2 ^ 64)%Q) by (vm_compute; reflexivity).
  rewrite E67 in Hn, Z67. rewrite E68 in Z68. rewrite E69 in Z69.
  set (T64 := (2 ^ 64)%Q) in *.
  (* first step *)
  destruct (F32_div_within n x0 #0.0 (S754_finite false 8388608 44) Hvn Hv0 V0 V67)
    as [Hvd1 [Hd1lo Hd1hi]].
  { rewrite Q0. lra. }
  { rewrite Z0, Z67, Q0. split; [lra|]. lra. }
  rewrite Z0 in Hd1lo. rewrite Z67 in Hd1hi.
  destruct (F32_add_within x0 (n / x0)%f32 x0 (S754_finite false 8388608 45)
              Hv0 Hvd1 Hv0 V68) as [Hvs1 [Hs1lo Hs1hi]].
  { rewrite Z68, Q0. split; lra. }
  rewrite Q0 in Hs1lo. rewrite Z68 in Hs1hi.
  destruct (F32_mul_within #0.5 (x0 + n / x0)%f32 (S754_finite false m0 (e0 - 1))
              (S754_finite false 8388608 44) Vh Hvs1 Hv1 V67) as [Hvx1 [Hx1lo Hx1hi]].
  { rewrite Q1, Z67. split; nra. }
  fold x1 in Hvx1, Hx1lo, Hx1hi. rewrite Q1 in Hx1lo. rewrite Z67 in Hx1hi.
  (* second step *)
  destruct (F32_div_within n x1 #0.0 (S754_finite false 8388608 45) Hvn Hvx1 V0 V68)
    as [Hvd2 [Hd2lo Hd2hi]].
  { lra. }
  { rewrite Z0, Z68. split; [lra|]. nra. }
  rewrite Z0 in Hd2lo. rewrite Z68 in Hd2hi.
  destruct (F32_add_within x1 (n / x1)%f32 (S754_finite false m0 (e0 - 1))
              (S754_finite false 8388608 46) Hvx1 Hvd2 Hv1 V69) as [Hvs2 [Hs2lo Hs2hi]].
  { rewrite Z69, Q1. split; lra. }
  rewrite Q1 in Hs2lo. rewrite Z69 in Hs2hi.
  apply (F32_mul_within #0.5 (x1 + n / x1)%f32 _ _ Vh Hvs2 Hv2 V68).
  rewrite Q2, Z68. split; nra.
Qed.

Lemma sqrt_positive_within m e :
  bounded F32.prec F32.emax m e = true ->
  exists m0 e0,
    within32 (S754_finite false m0 (e0 - 2)) (S754_finite false 8388608 45)
      (sqrt (S754_finite false m e)).
Proof.
  intros Hb.
  assert (Hvx : vf32 (S754_finite false m e)) by (split; [exact Hb|reflexivity]).
  unfold sqrt.
  change (F32.leb (S754_finite false m e) #0.0) with false. cbv zeta.
  destruct (sqrt_guess m e Hb) as (m0 & e0 & -> & Hm0 & He0 & Hrel).
  exists m0, e0.
  assert (HM : (8388608 <= inject_Z (Zpos m0))%Q).
  { change 8388608%Q with (inject_Z 8388608). rewrite <- Zle_Qle. lia. }
  assert (Hn : (0 <= q (S754_finite false m e)
                <= 2 ^ 67 * q (S754_finite false m0 e0))%Q).
  { rewrite !to_Q_finite. cbn [cond_Zopp].
    pose proof (dyadic_pos (Zpos m) e ltac:(lia)) as Hnpos.
    split; [lra|].
    destruct (bounded_digits F32.prec F32.emax m e Hb) as (Hd & _ & _ & _).
    change F32.prec with 24 in Hd.
    pose proof (dyadic_digits_lt (Zpos m) e ltac:(lia)) as Hlt.
    assert (H1 : (pow2 (Zdigits2 (Zpos m) + e) <= pow2 (2 * e0 + 49))%Q)
      by (apply pow2_le; lia).
    assert (H2 : (pow2 (2 * e0 + 49) == 2 ^ 26 * pow2 e0 * (8388608 * pow2 e0))%Q).
    { replace (2 * e0 + 49) with (26 + e0 + (23 + e0)) by lia.
      rewrite !pow2_add.
      assert (P23 : (pow2 23 == 8388608)%Q) by (vm_compute; reflexivity).
      rewrite P23. reflexivity. }
    assert (H3 : (2 ^ 26 * pow2 e0 <= 2 ^ 67)%Q).
    { assert (H : (pow2 e0 <= pow2 40)%Q) by (apply pow2_le; lia).
      assert (E : (2 ^ 26 * pow2 40 == 2 ^ 66)%Q) by (vm_compute; reflexivity).
      assert (E' : (2 ^ 67 == 2 * 2 ^ 66)%Q) by (vm_compute; reflexivity).
      assert (T : (0 < 2 ^ 66)%Q) by (vm_compute; reflexivity).
      assert (T' : (0 < 2 ^ 26)%Q) by (vm_compute; reflexivity).
      rewrite E'. rewrite <- E. nra. }
    unfold dyadic. pose proof (pow2_pos e0) as Hp0.
    assert (T67 : (0 < 2 ^ 67)%Q) by (vm_compute; reflexivity).
    assert (T26 : (0 < 2 ^ 26)%Q) by (vm_compute; reflexivity).
    unfold dyadic in Hlt.
    apply Qle_trans with (2 ^ 26 * pow2 e0 * (8388608 * pow2 e0))%Q; [lra|].
    apply Qle_trans with (2 ^ 67 * (8388608 * pow2 e0))%Q.
    - apply Qmult_le_compat_r; [exact H3|nra].
    - apply Qmult_le_l; [exact T67|]. apply Qmult_le_compat_r; [exact HM|lra]. }
  exact (sqrt_newton_within _ m0 e0 Hvx Hm0 He0 Hn).
Qed.

(** [sqrt] of a finite float is a finite float between 0 and [2^68]. *)
Lemma sqrt_within x :
  vf32 x -> within32 #0.0 (S754_finite false 8388608 45) (sqrt x).
Proof.
  intros Hv.
  assert (V0 : vf32 #0.0) by vf_const.
  destruct (F32.leb x #0.0) eqn:H0.
  { unfold sqrt. rewrite H0. split; [exact V0|]. split; q_const. }
  destruct x as [s|s| |s m e]; try (destruct Hv as [_ Hv]; discriminate Hv).
  { exfalso. destruct s; revert H0; vm_compute; discriminate. }
  destruct s; [exfalso; revert H0; rewrite lit_zero; cbn; discriminate|].
  destruct (sqrt_positive_within m e (proj1 Hv)) as (m0 & e0 & Hvr & Hlo & Hhi).
  split; [exact Hvr|]. split; [|exact Hhi].
  rewrite lit_zero, to_Q_zero.
  rewrite to_Q_finite in Hlo. cbn [cond_Zopp] in Hlo.
  pose proof (dyadic_pos (Zpos m0) (e0 - 2) ltac:(lia)). lra.
Qed.

(** [sqrt] returns a positive finite number on every positive finite
    argument; it returns 0 on the arguments [<= 0], and a NaN on
    [+infinity] and on a NaN. *)
Theorem sqrt_positive :
  (forall x,
     F32.valid x = true -> Format.is_finite x = true -> F32.ltb #0.0 x = true ->
     Format.is_finite (sqrt x) = true /\ F32.ltb #0.0 (sqrt x) = true) /\
  (forall x, F32.leb x #0.0 = true -> sqrt x = #0.0) /\
  sqrt (S754_infinity false) = S754_nan /\ sqrt S754_nan = S754_nan.
Proof.
  split; [|split; [|split]].
  - intros x Hv Hf Hpos.
    destruct x as [s|s| |s m e]; try discriminate Hf.
    { exfalso. destruct s; revert Hpos; vm_compute; discriminate. }
    destruct s; [exfalso; revert Hpos; rewrite lit_zero; cbn; discriminate|].
    destruct (sqrt_positive_within m e Hv) as (m0 & e0 & Hvr & Hlo & _).
    split; [apply Hvr|].
    assert (V0 : vf32 #0.0) by vf_const.
    apply (SFltb_spec F32.prec F32.emax _ _ V0 Hvr).
    rewrite lit_zero, to_Q_zero.
    rewrite to_Q_finite in Hlo. cbn [cond_Zopp] in Hlo.
    pose proof (dyadic_pos (Zpos m0) (e0 - 2) ltac:(lia)). lra.
  - intros x H. unfold sqrt. rewrite H. reflexivity.
  - vm_compute. reflexivity.
  - vm_compute. reflexivity.
Qed.

Lemma sqrt_positive_witness :
  (Format.is_finite (sqrt #2.0) = true /\ F32.ltb #0.0 (sqrt #2.0) = true) /\
  sqrt (- #4.0)%f32 = #0.0.
Proof.
  destruct sqrt_positive as (Hpos & Hneg & _). split.
  - apply Hpos; reflexivity.
  - apply Hneg. reflexivity.
Defined.

(** ** The inverse hyperbolic functions return finite numbers *)

Lemma power_of_two_spec k :
  -126 <= k <= 127 ->
  vf32 (power_of_two k) /\ (q (power_of_two k) == pow2 k)%Q.
Proof.
  intros Hk. unfold power_of_two. split.
  - apply vf_finite. apply bounded_normal; lia.
  - rewrite to_Q_finite. unfold dyadic. cbn [cond_Zopp].
    replace k with (23 + (k - 23)) at 2 by lia. rewrite pow2_add.
    assert (P23 : (pow2 23 == 8388608)%Q) by (vm_compute; reflexivity).
    rewrite P23. reflexivity.
Qed.

Lemma below_pow2_spec k x :
  -126 <= k <= 127 ->
  below_pow2 k x <-> vf32 x /\ (- pow2 k <= q x <= pow2 k)%Q.
Proof.
  intros Hk. destruct (power_of_two_spec k Hk) as [Hv Hq].
  unfold below_pow2, within32, in_interval.
  fold vf32. change (Format.to_Q ?a) with (q a).
  assert (Ho : (q (- power_of_two k)%f32 == - pow2 k)%Q)
    by (unfold F32.opp; rewrite to_Q_opp, Hq; reflexivity).
  rewrite Ho, Hq. reflexivity.
Qed.

Lemma below_pow2_finite k x : below_pow2 k x -> Format.is_finite x = true.
Proof. intros [[_ Hf] _]. exact Hf. Qed.

Lemma below_pow2_weaken j k x :
  -126 <= j <= k -> k <= 127 -> below_pow2 j x -> below_pow2 k x.
Proof.
  intros Hj Hk H.
  apply (below_pow2_spec j x ltac:(lia)) in H. destruct H as [Hv [Hlo Hhi]].
  apply (below_pow2_spec k x ltac:(lia)). split; [exact Hv|].
  assert (H : (pow2 j <= pow2 k)%Q) by (apply pow2_le; lia). split; lra.
Qed.

Lemma below_pow2_mul j k a b :
  -126 <= j <= 127 -> -126 <= k <= 127 -> -126 <= j + k <= 127 ->
  below_pow2 j a -> below_pow2 k b -> below_pow2 (j + k) (a * b)%f32.
Proof.
  intros Hj Hk Hjk Ha Hb.
  apply (below_pow2_spec j a Hj) in Ha. destruct Ha as [Hva Ha].
  apply (below_pow2_spec k b Hk) in Hb. destruct Hb as [Hvb Hb].
  destruct (power_of_two_spec (j + k) Hjk) as [Hv Hq].
  assert (Hvo : vf32 (- power_of_two (j + k))%f32) by (apply vf_opp; exact Hv).
  apply (F32_mul_within a b _ _ Hva Hvb Hvo Hv).
  unfold F32.opp. rewrite to_Q_opp.
  change (Format.to_Q ?t) with (q t). rewrite Hq, pow2_add.
  pose proof (pow2_pos j). pose proof (pow2_pos k). split; nra.
Qed.

Lemma below_pow2_add j k a b :
  -126 <= j <= 126 -> -126 <= k <= 126 ->
  below_pow2 j a -> below_pow2 k b -> below_pow2 (Z.max j k + 1) (a + b)%f32.
Proof.
  intros Hj Hk Ha Hb.
  apply (below_pow2_spec j a ltac:(lia)) in Ha. destruct Ha as [Hva Ha].
  apply (below_pow2_spec k b ltac:(lia)) in Hb. destruct Hb as [Hvb Hb].
  destruct (power_of_two_spec (Z.max j k + 1) ltac:(lia)) as [Hv Hq].
  assert (Hvo : vf32 (- power_of_two (Z.max j k + 1))%f32) by (apply vf_opp; exact Hv).
  apply (F32_add_within a b _ _ Hva Hvb Hvo Hv).
  unfold F32.opp. rewrite to_Q_opp.
  change (Format.to_Q ?t) with (q t). rewrite Hq.
  replace (Z.max j k + 1) with (1 + Z.max j k) by lia. rewrite pow2_add.
  change (pow2 1) with 2%Q.
  assert (H1 : (pow2 j <= pow2 (Z.max j k))%Q) by (apply pow2_le; lia).
  assert (H2 : (pow2 k <= pow2 (Z.max j k))%Q) by (apply pow2_le; lia).
  split; lra.
Qed.

Lemma below_pow2_opp k a : below_pow2 k a -> below_pow2 k (- a)%f32.
Proof.
  intros [Hv [Hlo Hhi]]. split; [apply vf_opp; exact Hv|].
  unfold F32.opp in *. rewrite !to_Q_opp in *. split; lra.
Qed.

Lemma below_pow2_sub j k a b :
  -126 <= j <= 126 -> -126 <= k <= 126 ->
  below_pow2 j a -> below_pow2 k b -> below_pow2 (Z.max j k + 1) (a - b)%f32.
Proof.
  intros Hj Hk Ha Hb. unfold F32.sub. rewrite SFsub_add_opp.
  exact (below_pow2_add j k a (- b)%f32 Hj Hk Ha (below_pow2_opp k b Hb)).
Qed.

(** A division by a constant that is at least 1. *)
Lemma below_pow2_div k a c :
  -126 <= k <= 127 -> vf32 c -> (1 <= q c)%Q ->
  below_pow2 k a -> below_pow2 k (a / c)%f32.
Proof.
  intros Hk Hvc Hc Ha.
  apply (below_pow2_spec k a Hk) in Ha. destruct Ha as [Hva Ha].
  destruct (power_of_two_spec k Hk) as [Hv Hq].
  assert (Hvo : vf32 (- power_of_two k)%f32) by (apply vf_opp; exact Hv).
  apply (F32_div_within a c _ _ Hva Hvc Hvo Hv); [lra|].
  unfold F32.opp. rewrite to_Q_opp.
  change (Format.to_Q ?t) with (q t). rewrite Hq.
  pose proof (pow2_pos k). split; nra.
Qed.

Lemma below_pow2_of_abs x :
  F32.valid x = true -> F32.ltb (F32.abs x) #0.5 = true -> below_pow2 (-1) x.
Proof.
  intros Hv H.
  assert (Vh : vf32 #0.5) by vf_const.
  destruct (abs_lt_spec x #0.5 Vh Hv H) as [Hvx [Hlo Hhi]].
  apply (below_pow2_spec (-1) x ltac:(lia)). split; [exact Hvx|].
  assert (Qh : (q #0.5 == pow2 (-1))%Q) by q_const.
  rewrite Qh in Hlo, Hhi. split; lra.
Qed.

Ltac below_const := split; [vf_const|split; q_const].

(** The series of [asinh] and [atanh], and the factor of [acosh]. *)
Lemma asinh_series_below x :
  below_pow2 (-1) x ->
  below_pow2 0
    (let x2 := (x * x)%f32 in
     x * (#1.0 - x2 * (#1.0 / #6.0 - x2 * (#3.0 / #40.0 - x2 * #15.0 / #336.0))))%f32.
Proof.
  intros Hx. cbv zeta.
  assert (H2 : below_pow2 (-2) (x * x)%f32)
    by (apply (below_pow2_mul (-1) (-1)); try lia; exact Hx).
  assert (C15 : below_pow2 4 #15.0) by below_const.
  assert (V336 : vf32 #336.0) by vf_const.
  assert (Q336 : (1 <= q #336.0)%Q) by q_const.
  assert (C3 : below_pow2 0 (#3.0 / #40.0)%f32) by below_const.
  assert (C6 : below_pow2 0 (#1.0 / #6.0)%f32) by below_const.
  assert (C1 : below_pow2 0 #1.0) by below_const.
  pose proof (below_pow2_mul (-2) 4 _ _ ltac:(lia) ltac:(lia) ltac:(lia) H2 C15) as Ha.
  pose proof (below_pow2_div 2 _ _ ltac:(lia) V336 Q336 Ha) as Hb.
  pose proof (below_pow2_sub 0 2 _ _ ltac:(lia) ltac:(lia) C3 Hb) as Hc.
  pose proof (below_pow2_mul (-2) 3 _ _ ltac:(lia) ltac:(lia) ltac:(lia) H2 Hc) as Hd.
  pose proof (below_pow2_sub 0 1 _ _ ltac:(lia) ltac:(lia) C6 Hd) as He.
  pose proof (below_pow2_mul (-2) 2 _ _ ltac:(lia) ltac:(lia) ltac:(lia) H2 He) as Hf.
  pose proof (below_pow2_sub 0 0 _ _ ltac:(lia) ltac:(lia) C1 Hf) as Hg.
  pose proof (below_pow2_mul (-1) 1 _ _ ltac:(lia) ltac:(lia) ltac:(lia) Hx Hg) as Hh.
  exact Hh.
Qed.

Lemma atanh_series_below x :
  below_pow2 (-1) x ->
  below_pow2 1
    (let x2 := (x * x)%f32 in
     x * (#1.0 + x2 * (#1.0 / #3.0 + x2 * (#2.0 / #15.0 + x2 * #17.0 / #315.0))))%f32.
Proof.
  intros Hx. cbv zeta.
  assert (H2 : below_pow2 (-2) (x * x)%f32)
    by (apply (below_pow2_mul (-1) (-1)); try lia; exact Hx).
  assert (C17 : below_pow2 5 #17.0) by below_const.
  assert (V315 : vf32 #315.0) by vf_const.
  assert (Q315 : (1 <= q #315.0)%Q) by q_const.
  assert (C15 : below_pow2 0 (#2.0 / #15.0)%f32) by below_const.
  assert (C3 : below_pow2 0 (#1.0 / #3.0)%f32) by below_const.
  assert (C1 : below_pow2 0 #1.0) by below_const.
  pose proof (below_pow2_mul (-2) 5 _ _ ltac:(lia) ltac:(lia) ltac:(lia) H2 C17) as Ha.
  pose proof (below_pow2_div 3 _ _ ltac:(lia) V315 Q315 Ha) as Hb.
  pose proof (below_pow2_add 0 3 _ _ ltac:(lia) ltac:(lia) C15 Hb) as Hc.
  pose proof (below_pow2_mul (-2) 4 _ _ ltac:(lia) ltac:(lia) ltac:(lia) H2 Hc) as Hd.
  pose proof (below_pow2_add 0 2 _ _ ltac:(lia) ltac:(lia) C3 Hd) as He.
  pose proof (below_pow2_mul (-2) 3 _ _ ltac:(lia) ltac:(lia) ltac:(lia) H2 He) as Hf.
  pose proof (below_pow2_add 0 1 _ _ ltac:(lia) ltac:(lia) C1 Hf) as Hg.
  pose proof (below_pow2_mul (-1) 2 _ _ ltac:(lia) ltac:(lia) ltac:(lia) Hx Hg) as Hh.
  exact Hh.
Qed.

Lemma acosh_series_below t :
  below_pow2 (-1) t ->
  below_pow2 71
    (let sqrt_2t := sqrt (#2.0 * t)%f32 in
     sqrt_2t * (#1.0 - t * (#1.0 / #12.0 - t * (#3.0 / #160.0 - t * #5.0 / #896.0))))%f32.
Proof.
  intros Ht. cbv zeta.
  assert (C2 : below_pow2 1 #2.0) by below_const.
  assert (C5 : below_pow2 3 #5.0) by below_const.
  assert (V896 : vf32 #896.0) by vf_const.
  assert (Q896 : (1 <= q #896.0)%Q) by q_const.
  assert (C160 : below_pow2 0 (#3.0 / #160.0)%f32) by below_const.
  assert (C12 : below_pow2 0 (#1.0 / #12.0)%f32) by below_const.
  assert (C1 : below_pow2 0 #1.0) by below_const.
  pose proof (below_pow2_mul 1 (-1) _ _ ltac:(lia) ltac:(lia) ltac:(lia) C2 Ht) as H2t.
  assert (Hs : below_pow2 68 (sqrt (#2.0 * t)%f32)).
  { destruct (sqrt_within _ (proj1 H2t)) as [Hv [Hlo Hhi]].
    apply (below_pow2_spec 68 _ ltac:(lia)). split; [exact Hv|].
    assert (Q0 : (q #0.0 == 0)%Q) by q_const.
    assert (QU : (q (S754_finite false 8388608 45) == pow2 68)%Q) by q_const.
    change (Format.to_Q ?a) with (q a) in Hlo, Hhi.
    rewrite Q0 in Hlo. rewrite QU in Hhi. pose proof (pow2_pos 68). split; lra. }
  pose proof (below_pow2_mul (-1) 3 _ _ ltac:(lia) ltac:(lia) ltac:(lia) Ht C5) as Ha.
  pose proof (below_pow2_div 2 _ _ ltac:(lia) V896 Q896 Ha) as Hb.
  pose proof (below_pow2_sub 0 2 _ _ ltac:(lia) ltac:(lia) C160 Hb) as Hc.
  pose proof (below_pow2_mul (-1) 3 _ _ ltac:(lia) ltac:(lia) ltac:(lia) Ht Hc) as Hd.
  pose proof (below_pow2_sub 0 2 _ _ ltac:(lia) ltac:(lia) C12 Hd) as He.
  pose proof (below_pow2_mul (-1) 3 _ _ ltac:(lia) ltac:(lia) ltac:(lia) Ht He) as Hf.
  pose proof (below_pow2_sub 0 2 _ _ ltac:(lia) ltac:(lia) C1 Hf) as Hg.
  exact (below_pow2_mul 68 3 _ _ ltac:(lia) ltac:(lia) ltac:(lia) Hs Hg).
Qed.

Lemma is_finite_opp x : Format.is_finite (- x)%f32 = Format.is_finite x.
Proof. destruct x; reflexivity. Qed.

Lemma log_is_finite x : Format.is_finite (log x) = true.
Proof. destruct (log_within x) as [[_ Hf] _]. exact Hf. Qed.

(** [asinh], [acosh] and [atanh] return a finite number on every input,
    infinities and NaN included. *)
Theorem inverse_hyperbolic_finite :
  forall x,
    F32.valid x = true ->
    Format.is_finite (asinh x) = true /\
    Format.is_finite (acosh x) = true /\
    Format.is_finite (atanh x) = true.
Proof.
  intros x Hv. split; [|split].
  - unfold asinh.
    destruct (F32.ltb (F32.abs x) #0.5) eqn:Hsmall.
    + exact (below_pow2_finite _ _ (asinh_series_below x (below_pow2_of_abs x Hv Hsmall))).
    + cbv zeta. destruct (F32.ltb x #0.0).
      * rewrite is_finite_opp. apply log_is_finite.
      * apply log_is_finite.
  - unfold acosh.
    destruct (F32.ltb x #1.0) eqn:H1; [reflexivity|].
    destruct (F32.ltb x #1.5) eqn:H15; [|apply log_is_finite].
    apply (below_pow2_finite 71). apply acosh_series_below.
    assert (V1 : vf32 #1.0) by vf_const.
    assert (V15 : vf32 #1.5) by vf_const.
    assert (Hvx : vf32 x).
    { split; [exact Hv|]. destruct x as [s|s| |s m e]; try reflexivity; exfalso.
      - destruct s; [revert H1|revert H15]; vm_compute; discriminate.
      - revert H15. vm_compute. discriminate. }
    apply (ltb_false_ge _ _ Hvx V1) in H1.
    apply (SFltb_spec F32.prec F32.emax _ _ Hvx V15) in H15.
    assert (Q1 : (q #1.0 == 1)%Q) by q_const.
    assert (Q15 : (q #1.5 == 1 + pow2 (-1))%Q) by q_const.
    destruct (power_of_two_spec (-1) ltac:(lia)) as [Vp Qp].
    assert (Vpo : vf32 (- power_of_two (-1))%f32) by (apply vf_opp; exact Vp).
    apply (F32_sub_within x #1.0 _ _ Hvx V1 Vpo Vp).
    unfold F32.opp. rewrite to_Q_opp.
    change (Format.to_Q ?a) with (q a). rewrite Qp, Q1.
    change (Format.to_Q ?a) with (q a) in H15. rewrite Q15 in H15.
    pose proof (pow2_pos (-1)). split; lra.
  - unfold atanh.
    destruct (F32.leb #1.0 (F32.abs x)); [reflexivity|].
    destruct (F32.ltb (F32.abs x) #0.5) eqn:Hsmall.
    + exact (below_pow2_finite _ _ (atanh_series_below x (below_pow2_of_abs x Hv Hsmall))).
    + destruct (log_within ((#1.0 + x) / (#1.0 - x))%f32) as [Hvl [Hlo Hhi]].
      assert (Vh : vf32 #0.5) by vf_const.
      assert (VL : vf32 (- #1e38)%f32) by vf_const.
      assert (VU : vf32 #91.0) by vf_const.
      assert (Qh : (2 * q #0.5 == 1)%Q) by q_const.
      assert (QL : (q (- #1e38)%f32 <= 0)%Q) by q_const.
      assert (QU : (0 <= q #91.0)%Q) by q_const.
      apply (F32_mul_within #0.5 _ (- #1e38)%f32 #91.0 Vh Hvl VL VU).
      change (Format.to_Q ?a) with (q a) in *. split; nra.
Qed.

Lemma inverse_hyperbolic_finite_witness :
  Format.is_finite (asinh S754_nan) = true /\
  Format.is_finite (acosh (S754_infinity false)) = true /\
  Format.is_finite (atanh #0.25) = true.
Proof.
  destruct (inverse_hyperbolic_finite S754_nan eq_refl) as (H1 & _).
  destruct (inverse_hyperbolic_finite (S754_infinity false) eq_refl) as (_ & H2 & _).
  destruct (inverse_hyperbolic_finite #0.25 eq_refl) as (_ & _ & H3).
  split; [exact H1|]. split; [exact H2|exact H3].
Defined.

(** ** [sinh] and [cosh] return finite numbers *)

(** From 0.5 on, [exp] is at least 1. *)
Lemma exp_ge_one x :
  F32.valid x = true -> Format.is_nan x = false -> F32.leb #0.5 x = true ->
  exists r, exp x = Val r /\ within32 #1.0 (S754_finite false 13631488 104) r.
Proof.
  intros Hv Hn Hx.
  assert (Vh : vf32 #0.5) by vf_const.
  assert (V88 : vf32 #88.0) by vf_const.
  destruct (F32.ltb #88.0 x) eqn:Hhi.
  { exists #1e38. unfold exp. rewrite Hhi. split; [reflexivity|].
    split; [vf_const|split; q_const]. }
  pose proof (F32_leb_true_ltb_false _ _ Hx) as Hlo.
  destruct (between_bounds x _ _ Hv Hn Vh V88 Hlo Hhi) as [Hvx [Hqlo Hqhi]].
  assert (Hlow : F32.ltb x (- #87.0)%f32 = false).
  { destruct (F32.ltb x (- #87.0)%f32) eqn:H; [|reflexivity].
    assert (V87 : vf32 (- #87.0)%f32) by vf_const.
    apply (SFltb_spec F32.prec F32.emax _ _ Hvx V87) in H.
    assert (Q87 : (q (- #87.0)%f32 == - (87))%Q) by q_const.
    assert (Qh : (q #0.5 == 2 ^ (-1))%Q) by q_const.
    change (Format.to_Q ?a) with (q a) in *. rewrite Q87 in H. rewrite Qh in Hqlo.
    exfalso. assert (T : (0 < 2 ^ (-1))%Q) by (vm_compute; reflexivity). lra. }
  unfold exp. rewrite Hhi, Hlow. cbv zeta.
  assert (Qh : (q #0.5 == 2 ^ (-1))%Q) by q_const.
  assert (Q2 : (q #88.0 == 88)%Q) by q_const.
  assert (V3 : vf32 #1.44269504088896341) by vf_const.
  assert (Q3 : (23637 * 2 ^ (-14) <= q #1.44269504088896341 <= 23638 * 2 ^ (-14))%Q)
    by (split; q_const).
  assert (V4 : vf32 #0.71875) by vf_const.
  assert (V5 : vf32 #127.0) by vf_const.
  assert (V6 : vf32 (- #126.0)%f32) by vf_const.
  assert (Q4 : (q #0.71875 == 23 * 2 ^ (-5))%Q) by q_const.
  assert (Q5 : (q #127.0 == 127)%Q) by q_const.
  assert (Q6 : (q (- #126.0)%f32 == - (126))%Q) by q_const.
  change (Format.to_Q ?a) with (q a) in *.
  rewrite Qh in Hqlo. rewrite Q2 in Hqhi.
  destruct (F32_mul_within x #1.44269504088896341 #0.71875 #127.0 Hvx V3 V4 V5)
    as [Hvfx [Hflo Hfhi]].
  { rewrite Q4, Q5. split; nra. }
  set (fx := (x * #1.44269504088896341)%f32) in *.
  change (Format.to_Q ?a) with (q a) in *.
  rewrite Q4 in Hflo. rewrite Q5 in Hfhi.
  assert (Hfx : within32 (- #126.0)%f32 #127.0 fx).
  { split; [exact Hvfx|]. change (Format.to_Q ?a) with (q a). rewrite Q6, Q5.
    assert (T : (0 < 2 ^ (-5))%Q) by (vm_compute; reflexivity). split; lra. }
  destruct (exp_reduction fx Hfx) as (n & Hn' & Hrange & Hr).
  rewrite Hn'. cbn [bind].
  assert (Hn1 : 1 <= n).
  { assert (H : (inject_Z 0 < inject_Z n)%Q).
    { change (inject_Z 0) with 0%Q.
      assert (E5 : (23 * 2 ^ (-5) == 11776 * 2 ^ (-14))%Q) by (vm_compute; reflexivity).
      assert (E1 : (2 ^ (-1) == 8192 * 2 ^ (-14))%Q) by (vm_compute; reflexivity).
      assert (E16 : (4 * 2 ^ (-16) == 2 ^ (-14))%Q) by (vm_compute; reflexivity).
      assert (T : (0 < 2 ^ (-14))%Q) by (vm_compute; reflexivity).
      assert (T16 : (0 < 2 ^ (-16))%Q) by (vm_compute; reflexivity).
      rewrite E5 in Hflo. rewrite E1 in Hr. lra. }
    rewrite <- Zlt_Qlt in H. lia. }
  eexists. split; [reflexivity|].
  exact (exp_tail_ge_one fx n Hvfx ltac:(lia) Hr).
Qed.

Lemma ltb_false_leb u v :
  Format.is_nan u = false -> Format.is_nan v = false ->
  F32.ltb u v = false -> F32.leb v u = true.
Proof.
  intros Hu Hv. unfold F32.ltb, F32.leb, SFleb, SFltb.
  rewrite (SFcompare_antisym u v).
  destruct (SFcompare_not_nan u v Hu Hv) as [c ->].
  destruct c; cbn; congruence.
Qed.

(** The series of [cosh] lies between 1 and 1.25. *)
Lemma cosh_series_within x :
  vf32 x -> (- (1) * 2 ^ (-1) <= q x <= 2 ^ (-1))%Q ->
  within32 #1.0 #1.25
    (let x2 := (x * x)%f32 in
     #1.0 + x2 * (#0.5 + x2 * (#1.0 / #24.0 +
               x2 * (#1.0 / #720.0 + x2 / #40320.0))))%f32.
Proof.
  intros Hv Hx. cbv zeta.
  assert (V0 : vf32 #0.0) by vf_const.
  assert (V1 : vf32 #1.0) by vf_const.
  assert (V2 : vf32 #0.25) by vf_const.
  assert (V3 : vf32 #0.5) by vf_const.
  assert (V4 : vf32 #1.25) by vf_const.
  assert (V5 : vf32 #40320.0) by vf_const.
  assert (Vc24 : vf32 (#1.0 / #24.0)%f32) by vf_const.
  assert (Vc720 : vf32 (#1.0 / #720.0)%f32) by vf_const.
  assert (Q0 : (q #0.0 == 0)%Q) by q_const.
  assert (Q1 : (q #1.0 == 1)%Q) by q_const.
  assert (Q2 : (q #0.25 == 2 ^ (-2))%Q) by q_const.
  assert (Q3 : (q #0.5 == 2 ^ (-1))%Q) by q_const.
  assert (Q4 : (q #1.25 == 5 * 2 ^ (-2))%Q) by q_const.
  assert (Q5 : (q #40320.0 == 40320)%Q) by q_const.
  assert (Qc24 : (0 <= q (#1.0 / #24.0)%f32 <= 2 ^ (-2))%Q) by (split; q_const).
  assert (Qc720 : (0 <= q (#1.0 / #720.0)%f32 <= 2 ^ (-2))%Q) by (split; q_const).
  assert (T1 : (2 * 2 ^ (-1) == 1)%Q) by (vm_compute; reflexivity).
  assert (T2 : (4 * 2 ^ (-2) == 1)%Q) by (vm_compute; reflexivity).
  destruct (F32_mul_within x x #0.0 #0.25 Hv Hv V0 V2) as [Hv2 [H2lo H2hi]].
  { rewrite Q0, Q2. split; nra. }
  set (x2 := (x * x)%f32) in *.
  change (Format.to_Q ?a) with (q a) in *. rewrite Q0 in H2lo. rewrite Q2 in H2hi.
  destruct (F32_div_within x2 #40320.0 #0.0 #0.25 Hv2 V5 V0 V2) as [Hva [Halo Hahi]].
  { rewrite Q5. lra. }
  { rewrite Q0, Q2, Q5. split; lra. }
  change (Format.to_Q ?a) with (q a) in *. rewrite Q0 in Halo. rewrite Q2 in Hahi.
  destruct (F32_add_within (#1.0 / #720.0)%f32 (x2 / #40320.0)%f32 #0.0 #0.5
              Vc720 Hva V0 V3) as [Hvb [Hblo Hbhi]].
  { rewrite Q0, Q3. split; lra. }
  change (Format.to_Q ?a) with (q a) in *. rewrite Q0 in Hblo. rewrite Q3 in Hbhi.
  destruct (F32_mul_within x2 _ #0.0 #0.25 Hv2 Hvb V0 V2) as [Hvc [Hclo Hchi]].
  { rewrite Q0, Q2. split; nra. }
  change (Format.to_Q ?a) with (q a) in *. rewrite Q0 in Hclo. rewrite Q2 in Hchi.
  destruct (F32_add_within (#1.0 / #24.0)%f32 _ #0.0 #0.5 Vc24 Hvc V0 V3)
    as [Hvd [Hdlo Hdhi]].
  { rewrite Q0, Q3. split; lra. }
  change (Format.to_Q ?a) with (q a) in *. rewrite Q0 in Hdlo. rewrite Q3 in Hdhi.
  destruct (F32_mul_within x2 _ #0.0 #0.25 Hv2 Hvd V0 V2) as [Hve [Helo Hehi]].
  { rewrite Q0, Q2. split; nra. }
  change (Format.to_Q ?a) with (q a) in *. rewrite Q0 in Helo. rewrite Q2 in Hehi.
  destruct (F32_add_within #0.5 _ #0.0 #1.0 V3 Hve V0 V1) as [Hvf [Hflo Hfhi]].
  { rewrite Q0, Q1, Q3. split; lra. }
  change (Format.to_Q ?a) with (q a) in *. rewrite Q0 in Hflo. rewrite Q1 in Hfhi.
  destruct (F32_mul_within x2 _ #0.0 #0.25 Hv2 Hvf V0 V2) as [Hvg [Hglo Hghi]].
  { rewrite Q0, Q2. split; nra. }
  change (Format.to_Q ?a) with (q a) in *. rewrite Q0 in Hglo. rewrite Q2 in Hghi.
  apply (F32_add_within #1.0 _ #1.0 #1.25 V1 Hvg V1 V4).
  rewrite Q1, Q4. split; lra.
Qed.

Lemma sinh_series_below x :
  below_pow2 (-1) x ->
  below_pow2 0
    (let x2 := (x * x)%f32 in
     x * (#1.0 + x2 * (#1.0 / #6.0 + x2 * (#1.0 / #120.0 + x2 / #5040.0))))%f32.
Proof.
  intros Hx. cbv zeta.
  assert (H2 : below_pow2 (-2) (x * x)%f32)
    by (apply (below_pow2_mul (-1) (-1)); try lia; exact Hx).
  assert (V5040 : vf32 #5040.0) by vf_const.
  assert (Q5040 : (1 <= q #5040.0)%Q) by q_const.
  assert (C120 : below_pow2 0 (#1.0 / #120.0)%f32) by below_const.
  assert (C6 : below_pow2 0 (#1.0 / #6.0)%f32) by below_const.
  assert (C1 : below_pow2 0 #1.0) by below_const.
  pose proof (below_pow2_div (-2) _ _ ltac:(lia) V5040 Q5040 H2) as Hb.
  pose proof (below_pow2_add 0 (-2) _ _ ltac:(lia) ltac:(lia) C120 Hb
              : below_pow2 1 _) as Hc.
  pose proof (below_pow2_mul (-2) 1 _ _ ltac:(lia) ltac:(lia) ltac:(lia) H2 Hc
              : below_pow2 (-1) _) as Hd.
  pose proof (below_pow2_add 0 (-1) _ _ ltac:(lia) ltac:(lia) C6 Hd
              : below_pow2 1 _) as He.
  pose proof (below_pow2_mul (-2) 1 _ _ ltac:(lia) ltac:(lia) ltac:(lia) H2 He
              : below_pow2 (-1) _) as Hf.
  pose proof (below_pow2_add 0 (-1) _ _ ltac:(lia) ltac:(lia) C1 Hf
              : below_pow2 1 _) as Hg.
  exact (below_pow2_mul (-1) 1 _ _ ltac:(lia) ltac:(lia) ltac:(lia) Hx Hg).
Qed.

(** The two exponentials of [sinh] and [cosh]: [e >= 1] and [1 / e]
    between 0 and 1. *)
Lemma exp_pair_within e :
  within32 #1.0 (S754_finite false 13631488 104) e ->
  within32 #0.0 (S754_finite false 13631488 104) (#0.5 * (e - #1.0 / e))%f32 /\
  within32 #0.5 (S754_finite false 14680064 104) (#0.5 * (e + #1.0 / e))%f32.
Proof.
  intros [Hve [Helo Hehi]].
  assert (V0 : vf32 #0.0) by vf_const.
  assert (V1 : vf32 #1.0) by vf_const.
  assert (Vh : vf32 #0.5) by vf_const.
  assert (VU : vf32 (S754_finite false 13631488 104)) by vf_const.
  assert (VU' : vf32 (S754_finite false 14680064 104)) by vf_const.
  assert (Q0 : (q #0.0 == 0)%Q) by q_const.
  assert (Q1 : (q #1.0 == 1)%Q) by q_const.
  assert (Qh : (2 * q #0.5 == 1)%Q) by q_const.
  assert (QU : (q (S754_finite false 13631488 104) == 13 * 2 ^ 124)%Q) by q_const.
  assert (QU' : (q (S754_finite false 14680064 104) == 14 * 2 ^ 124)%Q) by q_const.
  assert (T : (1 <= 2 ^ 124)%Q) by (vm_compute; discriminate).
  change (Format.to_Q ?a) with (q a) in *. rewrite Q1 in Helo. rewrite QU in Hehi.
  destruct (F32_div_within #1.0 e #0.0 #1.0 V1 Hve V0 V1) as [Hvn [Hnlo Hnhi]].
  { lra. }
  { rewrite Q0, Q1. split; lra. }
  change (Format.to_Q ?a) with (q a) in *. rewrite Q0 in Hnlo. rewrite Q1 in Hnhi.
  split.
  - destruct (F32_sub_within e (#1.0 / e)%f32 #0.0 (S754_finite false 13631488 104)
                Hve Hvn V0 VU) as [Hvd [Hdlo Hdhi]].
    { rewrite Q0, QU. split; lra. }
    change (Format.to_Q ?a) with (q a) in *. rewrite Q0 in Hdlo. rewrite QU in Hdhi.
    apply (F32_mul_within #0.5 _ _ _ Vh Hvd V0 VU).
    rewrite Q0, QU. split; nra.
  - destruct (F32_add_within e (#1.0 / e)%f32 #1.0 (S754_finite false 14680064 104)
                Hve Hvn V1 VU') as [Hvd [Hdlo Hdhi]].
    { rewrite Q1, QU'. split; lra. }
    change (Format.to_Q ?a) with (q a) in *. rewrite Q1 in Hdlo. rewrite QU' in Hdhi.
    apply (F32_mul_within #0.5 _ _ _ Vh Hvd Vh VU').
    rewrite QU'. split; nra.
Qed.

(** [sinh] and [cosh] return a finite number on every input that is not
    a NaN, infinities included, and [cosh] is at least 0.5; on a NaN they
    are undefined, as [exp] is. *)
Theorem sinh_cosh_finite :
  (forall x, F32.valid x = true -> Format.is_nan x = false ->
     exists s c,
       sinh x = Val s /\ cosh x = Val c /\
       Format.is_finite s = true /\ Format.is_finite c = true /\
       F32.leb #0.5 c = true) /\
  sinh S754_nan = Undef /\ cosh S754_nan = Undef.
Proof.
  split; [|split; vm_compute; reflexivity].
  intros x Hv Hn.
  assert (Vh : vf32 #0.5) by vf_const.
  assert (V1 : vf32 #1.0) by vf_const.
  unfold sinh, cosh.
  destruct (F32.ltb (F32.abs x) #0.5) eqn:Hsmall.
  - destruct (abs_lt_spec x #0.5 Vh Hv Hsmall) as [Hvx [Hlo Hhi]].
    assert (Qh : (q #0.5 == 2 ^ (-1))%Q) by q_const.
    rewrite Qh in Hlo, Hhi.
    destruct (cosh_series_within x Hvx ltac:(split; lra)) as [Hvc [Hclo Hchi]].
    cbv zeta in *.
    eexists. eexists. split; [reflexivity|]. split; [reflexivity|].
    split; [exact (below_pow2_finite _ _ (sinh_series_below x (below_pow2_of_abs x Hv Hsmall)))|].
    split; [apply Hvc|].
    apply (SFleb_spec F32.prec F32.emax _ _ Vh Hvc).
    assert (Q1 : (q #1.0 == 1)%Q) by q_const.
    change (Format.to_Q ?a) with (q a) in *. rewrite Q1 in Hclo. rewrite Qh.
    assert (T : (2 ^ (-1) <= 1)%Q) by (vm_compute; discriminate). lra.
  - cbv zeta.
    destruct (abs_ge_half_cases x Hsmall) as [-> | [s (Hs & _ & Habs)]];
      [discriminate Hn|].
    rewrite Hs, Habs.
    destruct (exp_ge_one (F32.abs x)) as (e & He & Hwe).
    + apply valid_abs. exact Hv.
    + rewrite is_nan_abs. exact Hn.
    + apply ltb_false_leb; [rewrite is_nan_abs; exact Hn|reflexivity|exact Hsmall].
    + rewrite He. cbn [bind].
      destruct (exp_pair_within e Hwe) as [[Hvs _] [Hvc [Hclo _]]].
      eexists. eexists. split; [reflexivity|]. split; [reflexivity|].
      split; [destruct s; [rewrite is_finite_opp|]; apply Hvs|].
      split; [apply Hvc|].
      exact (proj2 (SFleb_spec F32.prec F32.emax _ _ Vh Hvc) Hclo).
Qed.

Lemma sinh_cosh_finite_witness :
  exists s c,
    sinh (S754_infinity true) = Val s /\ cosh (S754_infinity true) = Val c /\
    Format.is_finite s = true /\ Format.is_finite c = true /\
    F32.leb #0.5 c = true.
Proof.
  destruct sinh_cosh_finite as (H & _). apply H; reflexivity.
Defined.
